(** * ESI Cap'n Proto schema derivation and gasket synthesis

    A shallow embedding of [lib/Dialect/ESI/capnp/Schema.cpp]: the type
    schema deriver ([TypeSchemaImpl]), the segment memory model
    ([CapnpSegmentBuilder]), the gasket value helpers ([GasketComponent],
    [Slice]), the encoder and decoder builders and the module cache
    ([TypeSchema::buildEncoder] / [buildDecoder]).

    Circuit values are modelled by the bits they carry, least significant
    bit first, together with their MLIR type.  A builder call that creates an
    operation is modelled by the function the operation computes, so a
    generated module is the Rocq function from the bits on its input port to
    the bits on its output port.  A C++ [assert] that fails while the
    compiler builds a module is modelled by [None]. *)

From Stdlib Require Import String Ascii.
From Stdlib Require Import ZArith List Bool Lia Permutation Sorted DecimalString.
Import ListNotations.
Local Open Scope Z_scope.

Set Implicit Arguments.
Set Warnings "-register-all".

(** ** Machine integers *)

Definition two64 : Z := 2 ^ 64.

(** Arithmetic on [uint64_t] / [size_t] wraps around. *)
Definition wrap64 (x : Z) : Z := x mod two64.

(** Reinterpretation of a [uint64_t] as [int64_t]. *)
Definition toInt64 (x : Z) : Z :=
  let y := wrap64 x in if y <? 2 ^ 63 then y else y - two64.

(** [llvm::Log2_64_Ceil]: 64 - countLeadingZeros(x - 1). *)
Definition Log2_64_Ceil (x : Z) : Z :=
  if x =? 0 then 64 else Z.log2_up x.

(** [llvm::Log2_32_Ceil] takes a [uint32_t]. *)
Definition Log2_32_Ceil (x : Z) : Z :=
  let y := x mod 2 ^ 32 in if y =? 0 then 32 else Z.log2_up y.

(** [llvm::divideCeil], on [uint64_t]. *)
Definition divideCeil (n d : Z) : Z := wrap64 (n + d - 1) / d.

(** ** Bit vectors, least significant bit first *)

Definition bitsOfZ (w v : Z) : list bool :=
  map (fun i => Z.testbit v (Z.of_nat i)) (seq 0 (Z.to_nat w)).

Fixpoint ZofBits (l : list bool) : Z :=
  match l with
  | [] => 0
  | b :: r => Z.b2z b + 2 * ZofBits r
  end.

Definition Zlen (l : list bool) : Z := Z.of_nat (length l).

(** Bits [lsb, lsb + n) of [l].  A circuit that indexes beyond the end of a
    vector reads undefined bits in simulation; the model reads zeros. *)
Definition sliceBits (lsb n : Z) (l : list bool) : list bool :=
  firstn (Z.to_nat n) (skipn (Z.to_nat lsb) l ++ repeat false (Z.to_nat n)).

(** ** Hardware types (the MLIR builtin integer type and the RTL dialect) *)

Inductive Signedness := Signless | Signed | Unsigned.

(** Integers, RTL arrays, structs and type aliases, ESI channels, and any
    other type. *)
Inductive Ty : Type :=
| IntegerType (width : N) (sign : Signedness)
| ArrayType (elementType : Ty) (size : N)
| StructType (elements : list (string * Ty))
| TypeAliasType (name : string) (inner : Ty)
| ChannelPort (inner : Ty)
| OtherType (mnemonic : string).

(** [rtl::StructType::FieldInfo]. *)
Definition FieldInfo : Type := (string * Ty)%type.
Definition fi_name (f : FieldInfo) : string := fst f.
Definition fi_type (f : FieldInfo) : Ty := snd f.

Section TyInd.
Variable P : Ty -> Prop.
Hypothesis HInt : forall w s, P (IntegerType w s).
Hypothesis HArr : forall e n, P e -> P (ArrayType e n).
Hypothesis HStruct : forall fs, Forall (fun f => P (snd f)) fs -> P (StructType fs).
Hypothesis HAlias : forall nm t, P t -> P (TypeAliasType nm t).
Hypothesis HChan : forall t, P t -> P (ChannelPort t).
Hypothesis HOther : forall m, P (OtherType m).

Fixpoint Ty_ind' (t : Ty) : P t :=
  match t with
  | IntegerType w s => HInt w s
  | ArrayType e n => HArr n (Ty_ind' e)
  | StructType fs =>
      HStruct
        ((fix go (l : list (string * Ty)) : Forall (fun f => P (snd f)) l :=
            match l with
            | [] => Forall_nil _
            | f :: r => Forall_cons f (Ty_ind' (snd f)) (go r)
            end) fs)
  | TypeAliasType nm i => HAlias nm (Ty_ind' i)
  | ChannelPort i => HChan (Ty_ind' i)
  | OtherType m => HOther m
  end.
End TyInd.

Definition Signedness_eqb (a b : Signedness) : bool :=
  match a, b with
  | Signless, Signless | Signed, Signed | Unsigned, Unsigned => true
  | _, _ => false
  end.

(** MLIR types are uniqued, so [==] on [Type] is structural equality. *)
Fixpoint Ty_eqb (a b : Ty) : bool :=
  match a, b with
  | IntegerType w s, IntegerType w' s' => N.eqb w w' && Signedness_eqb s s'
  | ArrayType e n, ArrayType e' n' => Ty_eqb e e' && N.eqb n n'
  | StructType fs, StructType fs' =>
      (fix go (l l' : list (string * Ty)) : bool :=
         match l, l' with
         | [], [] => true
         | (n1, t1) :: r, (n2, t2) :: r' =>
             String.eqb n1 n2 && Ty_eqb t1 t2 && go r r'
         | _, _ => false
         end) fs fs'
  | TypeAliasType n i, TypeAliasType n' i' => String.eqb n n' && Ty_eqb i i'
  | ChannelPort i, ChannelPort i' => Ty_eqb i i'
  | OtherType m, OtherType m' => String.eqb m m'
  | _, _ => false
  end.

(** [rtl::getCanonicalType]: the type with all type aliases recursively
    resolved to a base type (declared in RTLTypes.h). *)
Fixpoint getCanonicalType (t : Ty) : Ty :=
  match t with
  | TypeAliasType _ inner => getCanonicalType inner
  | _ => t
  end.

(** Modelled from the spec: [rtl::getBitWidth] is declared in RTLTypes.h and
    defined in RTLTypes.cpp; it returns the number of wires needed to
    transmit a value of the type, and -1 if the width is not known. *)
Fixpoint getBitWidth (t : Ty) : Z :=
  match t with
  | IntegerType w _ => Z.of_N w
  | ArrayType e n =>
      let ew := getBitWidth e in
      if ew <? 0 then ew else Z.of_N n * ew
  | StructType fs =>
      (fix go (l : list (string * Ty)) : Z :=
         match l with
         | [] => 0
         | f :: r =>
             let fw := getBitWidth (snd f) in
             let rest := go r in
             if (fw <? 0) || (rest <? 0) then -1 else fw + rest
         end) fs
  | TypeAliasType _ i => getBitWidth i
  | ChannelPort _ | OtherType _ => -1
  end.

Definition isIntegerType (t : Ty) : bool :=
  match t with IntegerType _ _ => true | _ => false end.

Definition isSigned (t : Ty) : bool :=
  match t with IntegerType _ Signed => true | _ => false end.

Definition isSignlessInteger (t : Ty) : bool :=
  match t with IntegerType _ Signless => true | _ => false end.

Definition i1 : Ty := IntegerType 1 Signless.

(** [builder->getIntegerType(width)]: a signless integer. *)
Definition getIntegerType (width : Z) : Ty := IntegerType (Z.to_N width) Signless.

(** ** Circuit values *)

(** A [GasketComponent] wraps an SSA value: its type and, in this model, the
    bits it carries. *)
Record GasketComponent : Type := mkGC {
  gcType : Ty;
  gcBits : list bool
}.

(** [GasketComponent::size]: [rtl::getBitWidth] converted to [uint64_t]. *)
Definition GasketComponent_size (v : GasketComponent) : Z :=
  wrap64 (getBitWidth (gcType v)).

(** A value is well formed when it carries as many bits as its type has,
    and the width fits a [uint64_t]. *)
Definition gcWf (v : GasketComponent) : Prop :=
  Zlen (gcBits v) = getBitWidth (gcType v) /\ getBitWidth (gcType v) < two64.

(** ** The operations the builders create *)

Module rtl.

(** [ConstantOp::build(builder, result, type, int64_t value)] casts [type]
    to an integer type and goes through [APInt(numBits, value, isSigned)],
    which asserts a width of at least one bit and keeps the low [numBits]
    bits; the builder it hands the [APInt] to infers the result type from
    the [APInt]'s width: a signless integer, whatever the signedness of
    [type] is. *)
Definition ConstantOp (t : Ty) (value : Z) : option GasketComponent :=
  match t with
  | IntegerType numBits _ =>
      if (numBits =? 0)%N then None
      else Some (mkGC (IntegerType numBits Signless)
                      (bitsOfZ (Z.of_N numBits) value))
  | _ => None
  end.

(** The bits stay, the type changes. *)
Definition BitcastOp (t : Ty) (v : GasketComponent) : GasketComponent :=
  mkGC t (gcBits v).

(** Elements [lowIndex, lowIndex + size dst) of the input array. *)
Definition ArraySliceOp (dstTy : Ty) (input lowIndex : GasketComponent)
  : GasketComponent :=
  match gcType input with
  | ArrayType e _ =>
      mkGC dstTy
        (sliceBits (ZofBits (gcBits lowIndex) * getBitWidth e)
                   (getBitWidth dstTy) (gcBits input))
  | _ => mkGC dstTy []
  end.

Definition ArrayGetOp (input index : GasketComponent) : GasketComponent :=
  match gcType input with
  | ArrayType e _ =>
      mkGC e (sliceBits (ZofBits (gcBits index) * getBitWidth e)
                        (getBitWidth e) (gcBits input))
  | _ => mkGC (OtherType "none") []
  end.

(** [ArrayConcatOp::build] asserts a non-empty operand list of arrays with
    one element type.  Like [comb.concat], the first operand holds the
    most significant elements (ExportVerilog prints [{a, b}]). *)
Definition ArrayConcatOp (values : list GasketComponent)
  : option GasketComponent :=
  match values with
  | [] => None
  | v0 :: _ =>
      match gcType v0 with
      | ArrayType elemTy _ =>
          if forallb (fun v => match gcType v with
                               | ArrayType e _ => Ty_eqb e elemTy
                               | _ => false
                               end) values
          then
            let resultSize :=
              fold_left (fun acc v => match gcType v with
                                      | ArrayType _ n => wrap64 (acc + Z.of_N n)
                                      | _ => acc
                                      end) values 0 in
            Some (mkGC (ArrayType elemTy (Z.to_N resultSize))
                       (concat (rev (map gcBits values))))
          else None
      | _ => None
      end
  end.

(** [ArrayCreateOp::build] asserts a non-empty operand list of one type.
    The first operand becomes the element with the highest index
    (ExportVerilog prints [{v0, v1, ...}] into [[n-1:0]]). *)
Definition ArrayCreateOp (values : list GasketComponent)
  : option GasketComponent :=
  match values with
  | [] => None
  | v0 :: _ =>
      let elemType := gcType v0 in
      if forallb (fun v => Ty_eqb (gcType v) elemType) values
      then Some (mkGC (ArrayType elemType (N.of_nat (length values)))
                      (concat (rev (map gcBits values))))
      else None
  end.

(** Bit offset of field [idx] of a packed struct: the first field holds the
    most significant bits. *)
Fixpoint fieldLsb (fs : list FieldInfo) (idx : nat) : Z :=
  match fs, idx with
  | [], _ => 0
  | _ :: r, O => fold_right (fun f acc => getBitWidth (snd f) + acc) 0 r
  | _ :: r, S k => fieldLsb r k
  end.

Definition StructExtractOp (input : GasketComponent) (idx : nat)
  : GasketComponent :=
  match getCanonicalType (gcType input) with
  | StructType fs =>
      match nth_error fs idx with
      | Some f =>
          mkGC (snd f)
               (sliceBits (fieldLsb fs idx) (getBitWidth (snd f))
                          (gcBits input))
      | None => mkGC (OtherType "none") []
      end
  | _ => mkGC (OtherType "none") []
  end.

Definition StructCreateOp (t : Ty) (values : list GasketComponent)
  : GasketComponent :=
  mkGC t (concat (rev (map gcBits values))).

End rtl.

Module comb.

(** [ExtractOp]: result bits [lowBit, lowBit + width t) of the input. *)
Definition ExtractOp (t : Ty) (input : GasketComponent) (lowBit : Z)
  : GasketComponent :=
  mkGC t (sliceBits lowBit (getBitWidth t) (gcBits input)).

(** [ConcatOp]: the first operand holds the most significant bits. *)
Definition ConcatOp (hi lo : GasketComponent) : GasketComponent :=
  mkGC (getIntegerType (getBitWidth (gcType hi) + getBitWidth (gcType lo)))
       (gcBits lo ++ gcBits hi).

Definition AddOp (a b : GasketComponent) : GasketComponent :=
  mkGC (gcType a)
       (bitsOfZ (getBitWidth (gcType a)) (ZofBits (gcBits a) + ZofBits (gcBits b))).

Inductive ICmpPredicate := eq | ne | ult | ule | ugt | uge.

Definition ICmpOp (p : ICmpPredicate) (a b : GasketComponent) : bool :=
  let x := ZofBits (gcBits a) in
  let y := ZofBits (gcBits b) in
  match p with
  | eq => x =? y
  | ne => negb (x =? y)
  | ult => x <? y
  | ule => x <=? y
  | ugt => y <? x
  | uge => y <=? x
  end.

End comb.

(** ** The parsed Cap'n Proto schema

    The struct layout (section sizes, field offsets, field types) is computed
    by the Cap'n Proto schema compiler from the text [write] emits.  The
    compiler is an external library; its result is a parameter of the
    functions below, as a value of [capnp.StructReader]. *)

Module capnp.

(** [::capnp::schema::Type::Which]. *)
Inductive Type_ : Type :=
| VOID | BOOL
| INT8 | INT16 | INT32 | INT64
| UINT8 | UINT16 | UINT32 | UINT64
| FLOAT32 | FLOAT64
| TEXT | DATA
| LIST (elementType : Type_)
| ENUM | STRUCT | INTERFACE | ANY_POINTER.

(** A slot field of a struct node: [getName], [getCodeOrder],
    [getSlot().getOffset()], [getSlot().getType()]. *)
Record Field : Type := mkField {
  getName : string;
  getCodeOrder : nat;
  getOffset : Z;
  getType : Type_
}.

(** [::capnp::schema::Node::Struct::Reader]. *)
Record StructReader : Type := mkStruct {
  getDataWordCount : Z;
  getPointerCount : Z;
  getFields : list Field
}.

(** The schema language's spelling of a type. *)
Fixpoint typeText (t : Type_) : string :=
  match t with
  | VOID => "Void" | BOOL => "Bool"
  | INT8 => "Int8" | INT16 => "Int16" | INT32 => "Int32" | INT64 => "Int64"
  | UINT8 => "UInt8" | UINT16 => "UInt16" | UINT32 => "UInt32"
  | UINT64 => "UInt64"
  | FLOAT32 => "Float32" | FLOAT64 => "Float64"
  | TEXT => "Text" | DATA => "Data"
  | LIST e => "List(" ++ typeText e ++ ")"
  | ENUM => "Enum" | STRUCT => "Struct" | INTERFACE => "Interface"
  | ANY_POINTER => "AnyPointer"
  end%string.

End capnp.

(** Return the encoding value for the size of this type: 0 = 0 bits,
    1 = 1 bit, 2 = 1 byte, 3 = 2 bytes, 4 = 4 bytes, 5 = 8 bytes
    (non-pointer), 6 = 8 bytes (pointer).  Other types hit
    [assert(false && "Type not yet supported")]. *)
Definition bitsEncoding (type : capnp.Type_) : option Z :=
  match type with
  | capnp.VOID => Some 0
  | capnp.BOOL => Some 1
  | capnp.UINT8 | capnp.INT8 => Some 2
  | capnp.UINT16 | capnp.INT16 => Some 3
  | capnp.UINT32 | capnp.INT32 => Some 4
  | capnp.UINT64 | capnp.INT64 => Some 5
  | capnp.ANY_POINTER | capnp.DATA | capnp.INTERFACE | capnp.LIST _
  | capnp.STRUCT | capnp.TEXT => Some 6
  | _ => None
  end.

(** Return the number of bits used by a Capnp type. *)
Definition bits (type : capnp.Type_) : option Z :=
  match bitsEncoding type with
  | None => None
  | Some enc =>
      if enc <=? 1 then Some enc
      else if enc =? 6 then Some 64
      else Some (Z.shiftl 1 (enc + 1))
  end.

(** Return true if 'type' is capnp pointer. *)
Definition isPointerType (type : capnp.Type_) : bool :=
  match type with
  | capnp.ANY_POINTER | capnp.DATA | capnp.INTERFACE | capnp.LIST _
  | capnp.STRUCT | capnp.TEXT => true
  | _ => false
  end.

(** ** TypeSchemaImpl *)

Record TypeSchemaImpl : Type := mkTypeSchemaImpl {
  type : Ty;
  canonicalType : Ty;
  fieldTypes : list FieldInfo;
  cachedID : option Z
}.

(** The constructor: Capnp requires that everything be contained in a
    struct, so non-struct types are wrapped in a one-field struct. *)
Definition TypeSchemaImpl_new (t : Ty) : TypeSchemaImpl :=
  let canonical := getCanonicalType t in
  mkTypeSchemaImpl t canonical
    (match canonical with
     | IntegerType _ _ => [("i"%string, canonical)]
     | ArrayType _ _ => [("l"%string, canonical)]
     | StructType elements => elements
     | _ => []
     end)
    None.

(** Returns true if the type is currently supported.  The source resolves
    aliases with [rtl::getCanonicalType] and then switches on the result; the
    alias case below is that resolution step. *)
Fixpoint isSupported (type : Ty) (outer : bool) : bool :=
  match type with
  | TypeAliasType _ inner => isSupported inner outer
  | IntegerType w _ => (Z.of_N w <=? 64)
  | ArrayType elementType _ => isSupported elementType false
  | StructType elements =>
      if negb outer then false
      else forallb (fun field => isSupported (snd field) false) elements
  | ChannelPort _ | OtherType _ => false
  end.

Definition TypeSchemaImpl_isSupported (ts : TypeSchemaImpl) : bool :=
  isSupported (type ts) true.

(** Returns the expected size of an array (capnp list) in 64-bit words.
    [cType.getList()] asserts that the field is a list. *)
Definition sizeList (mSize : N) (cField : capnp.Field) : option Z :=
  match capnp.getType cField with
  | capnp.LIST elementType =>
      match bits elementType with
      | Some elementBits =>
          let listBits := toInt64 (Z.of_N mSize * elementBits) in
          Some (toInt64 (divideCeil (wrap64 listBits) 64))
      | None => None
      end
  | _ => None
  end.

(** The type switch in the loop of the struct's [size]: the size of the
    thing to which a pointer field points, not the size of the pointer
    itself.  The switch has an integer and an array case and no default, so
    any other field type falls off its end (an assertion). *)
Definition pointedToSize (mFields : list FieldInfo) (cField : capnp.Field)
  : option Z :=
  match nth_error mFields (capnp.getCodeOrder cField) with
  | None => None
  | Some mField =>
      match snd mField with
      | IntegerType _ _ => Some 0
      | ArrayType _ n => sizeList n cField
      | _ => None
      end
  end.

(** Compute the size of a capnp struct, in 64-bit words. *)
Definition sizeStruct (cStruct : capnp.StructReader) (mFields : list FieldInfo)
  : option Z :=
  fold_left
    (fun acc cField =>
       match acc with
       | None => None
       | Some size =>
           match pointedToSize mFields cField with
           | Some p => Some (toInt64 (size + p))
           | None => None
           end
       end)
    (capnp.getFields cStruct)
    (Some (1 + capnp.getDataWordCount cStruct + capnp.getPointerCount cStruct)).

(** Compute the expected size of the capnp message in bits. *)
Definition size (ts : TypeSchemaImpl) (typeSchema : capnp.StructReader)
  : option Z :=
  match sizeStruct typeSchema (fieldTypes ts) with
  | Some words => Some (wrap64 (words * 64))
  | None => None
  end.

(** ** Builders that may trip an assertion *)

Definition optBind {A B : Type} (o : option A) (k : A -> option B) : option B :=
  match o with Some a => k a | None => None end.

Notation "x <-? o ;; k" := (optBind o (fun x => k))
  (at level 61, o at next level, right associativity).

Fixpoint mapM {A B : Type} (f : A -> option B) (l : list A) : option (list B) :=
  match l with
  | [] => Some []
  | a :: r =>
      b <-? f a ;;
      bs <-? mapM f r ;;
      Some (b :: bs)
  end.

(** ** Helper classes for common operations in the encoders / decoders *)

(** [GasketBuilder::constant]. *)
Definition constant (width value : Z) : option GasketComponent :=
  rtl.ConstantOp (getIntegerType width) value.

(** [GasketBuilder::zero]. *)
Definition zero (width : Z) : option GasketComponent :=
  rtl.ConstantOp (getIntegerType width) 0.

(** [GasketComponent::cast]: construct a bitcast. *)
Definition cast (t : Ty) (v : GasketComponent) : GasketComponent :=
  rtl.BitcastOp t v.

(** Holds a 'slice' of an array.  A sub-slice holds a pointer to the slice
    which created it, so it forms a hierarchy used to track offsets from the
    root message. *)
Inductive Slice : Type := mkSlice {
  sliceValue : GasketComponent;
  sliceElem : Ty;
  sliceSize : N;
  parent : option Slice;
  offsetIntoParent : option Z
}.

(** The public constructors [Slice(OpBuilder&, Value)] and
    [Slice(GasketComponent)]: a root slice.  They assert that the value has
    an array type. *)
Definition Slice_root (val : GasketComponent) : option Slice :=
  match gcType val with
  | ArrayType e n => Some (mkSlice val e n None (Some 0))
  | _ => None
  end.

(** The private constructor [Slice(parent, offset, val)]. *)
Definition Slice_child (p : Slice) (offset : option Z) (val : GasketComponent)
  : option Slice :=
  match gcType val with
  | ArrayType e n => Some (mkSlice val e n (Some p) offset)
  | _ => None
  end.

(** [GasketComponent::castBitArray]: the value as an array of [i1].  The
    result always has an array type, so the [Slice] constructor's assertion
    holds. *)
Definition castBitArray (v : GasketComponent) : Slice :=
  let n := Z.to_N (wrap64 (getBitWidth (gcType v))) in
  let dstTy := ArrayType i1 n in
  if Ty_eqb (gcType v) dstTy
  then mkSlice v i1 n None (Some 0)
  else mkSlice (rtl.BitcastOp dstTy v) i1 n None (Some 0).

(** [GasketComponent::concat]: since the endianness of the values is the
    reverse of ArrayConcat, the list is reversed first. *)
Definition GasketComponent_concat (concatValues : list GasketComponent)
  : option GasketComponent :=
  match concatValues with
  | [] => None
  | _ =>
      rtl.ArrayConcatOp
        (rev (map (fun gc => sliceValue (castBitArray gc)) concatValues))
  end.

(** [GasketBuilder::padding]: 'p' bits of i1 padding. *)
Definition padding (p : Z) : option Slice :=
  z <-? zero p ;;
  Some (castBitArray z).

(** [GasketComponent::concat({constant(w1, v1), constant(w2, v2), ...})]:
    the constants are built, then concatenated. *)
Definition concatConstants (cs : list (Z * Z)) : option GasketComponent :=
  values <-? mapM (fun c => constant (fst c) (snd c)) cs ;;
  GasketComponent_concat values.

(** [GasketComponent::downcast]: downcast an int, accounting for
    signedness. *)
Definition downcast (t : Ty) (v : GasketComponent) : option GasketComponent :=
  if negb (isIntegerType (gcType v)) then None
  else
    let signlessVal :=
      if isSignlessInteger (gcType v) then v
      else rtl.BitcastOp (getIntegerType (getBitWidth (gcType v))) v in
    if negb (isSigned t) then
      Some (cast t (comb.ExtractOp t signlessVal 0))
    else
      let magnitude :=
        comb.ExtractOp (getIntegerType (getBitWidth t - 1)) signlessVal 0 in
      let sign :=
        comb.ExtractOp (getIntegerType 1) signlessVal (getBitWidth t - 1) in
      Some (cast t (comb.ConcatOp sign magnitude)).

(** [Slice::slice(int64_t lsb, int64_t size)].  The offset is a constant
    of [Log2_64_Ceil] of the slice's size bits: of no bits, which cannot be
    built, for a slice of one element. *)
Definition slice (s : Slice) (lsb sz : Z) : option Slice :=
  let dstTy := ArrayType (sliceElem s) (Z.to_N (wrap64 sz)) in
  let idxTy := getIntegerType (Log2_64_Ceil (Z.of_N (sliceSize s))) in
  lsbConst <-? rtl.ConstantOp idxTy lsb ;;
  let newSlice := rtl.ArraySliceOp dstTy (sliceValue s) lsbConst in
  Slice_child s (Some lsb) newSlice.

(** [Slice::slice(Value lsb, int64_t size)]: if lsb is wider than
    necessary, lop off the high bits. *)
Definition sliceAt (s : Slice) (lsb : GasketComponent) (sz : Z)
  : option Slice :=
  if negb (isIntegerType (gcType lsb)) then None
  else
    let expIdxWidth := Log2_64_Ceil (Z.of_N (sliceSize s)) in
    let lsbWidth := getBitWidth (gcType lsb) in
    if lsbWidth <? expIdxWidth then None
    else
      let lsb' :=
        if expIdxWidth <? lsbWidth
        then comb.ExtractOp (getIntegerType expIdxWidth) lsb 0
        else lsb in
      let dstTy := ArrayType (sliceElem s) (Z.to_N (wrap64 sz)) in
      Slice_child s None (rtl.ArraySliceOp dstTy (sliceValue s) lsb').

(** [Slice::castToSlice]. *)
Definition castToSlice (s : Slice) (elemTy : Ty) (n : Z) : option Slice :=
  Slice_root (cast (ArrayType elemTy (Z.to_N (wrap64 n))) (sliceValue s)).

(** [Slice::operator[](size_t idx)].  The index is a constant of
    [Log2_32_Ceil] of the slice's size bits: of no bits, which cannot be
    built, for a slice of one element. *)
Definition Slice_get (s : Slice) (idx : Z) : option GasketComponent :=
  let idxTy := getIntegerType (Log2_32_Ceil (Z.of_N (sliceSize s))) in
  idxVal <-? rtl.ConstantOp idxTy idx ;;
  Some (rtl.ArrayGetOp (sliceValue s) idxVal).

(** Return the root of this slice hierarchy. *)
Fixpoint getRootSlice (s : Slice) : Slice :=
  match parent s with
  | None => s
  | Some p => getRootSlice p
  end.

Fixpoint getOffsetFromRoot (s : Slice) : option Z :=
  match parent s with
  | None => Some 0
  | Some p =>
      match offsetIntoParent s, getOffsetFromRoot p with
      | Some o, Some po => Some (toInt64 (o + po))
      | _, _ => None
      end
  end.

(** ** Assertions *)

Module sv.

(** [sv::AssertOp] on the result of a [comb::ICmpOp]. *)
Record AssertOp : Type := mkAssert {
  predicate : comb.ICmpPredicate;
  lhs : GasketComponent;
  rhs : GasketComponent
}.

Definition holds (a : AssertOp) : bool :=
  comb.ICmpOp (predicate a) (lhs a) (rhs a).

Inductive EventControl := AtPosEdge | AtNegEdge | AtEdge.

(** [sv::IfOp]: its condition (a block argument of the module, by number)
    and the assertions in its body region. *)
Record IfOp : Type := mkIf {
  cond : nat;
  ifBody : list AssertOp
}.

(** [sv::AlwaysOp]: an event, the clock it is sensitive to (a block argument
    of the module, by number), and its body. *)
Record AlwaysOp : Type := mkAlways {
  event : EventControl;
  clock : nat;
  alwaysBody : list IfOp
}.

End sv.

(** Utility class for building sv::AssertOps: the assertions of the region
    it was created on, in creation order. *)
Definition AssertBuilder : Type := list sv.AssertOp.

(** The private [assertPred(Value, pred, expected)]: the expected value is
    a constant of the type of [val]. *)
Definition assertPredValue (val : GasketComponent) (pred : comb.ICmpPredicate)
  (expected : Z) (asserts : AssertBuilder) : option AssertBuilder :=
  expectedVal <-? rtl.ConstantOp (gcType val) expected ;;
  Some (asserts ++ [sv.mkAssert pred val expectedVal]).

(** [AssertBuilder::assertPred(GasketComponent, pred, expected)]: can only
    compare ints and bit arrays. *)
Definition assertPred (veg : GasketComponent) (pred : comb.ICmpPredicate)
  (expected : Z) (asserts : AssertBuilder) : option AssertBuilder :=
  if isIntegerType (gcType veg)
  then assertPredValue veg pred expected asserts
  else
    match gcType veg with
    | ArrayType e n =>
        if Ty_eqb e (getIntegerType 1)
        then assertPredValue (cast (getIntegerType (Z.of_N n)) veg)
                             pred expected asserts
        else None
    | _ => None
    end.

Definition assertEqual (s : GasketComponent) (expected : Z)
  (asserts : AssertBuilder) : option AssertBuilder :=
  assertPred s comb.eq expected asserts.

(** ** The segment memory model

    [llvm::IntervalMap<uint64_t, GasketComponent>]: closed intervals
    [start, stop], kept in ascending order.  The library also coalesces
    adjacent intervals that map to equal values; every fragment the builders
    insert is a distinct SSA value, so that never applies here. *)

Record Interval : Type := mkInterval {
  start : Z;
  stop : Z;
  value : GasketComponent
}.

Module IntervalMap.

Definition t : Type := list Interval.

(** [find(x)]: the first interval that ends at or after [x]. *)
Fixpoint find (x : Z) (m : t) : option Interval :=
  match m with
  | [] => None
  | e :: r => if x <=? stop e then Some e else find x r
  end.

(** [overlaps(a, b)]: asserts a non-empty query interval, then looks at the
    first interval ending at or after [a]. *)
Definition overlaps (a b : Z) (m : t) : option bool :=
  if a <=? b then
    Some (match find a m with
          | None => false
          | Some e => negb (b <? start e)
          end)
  else None.

(** [insert(a, b, y)] for an interval that overlaps nothing in the map. *)
Fixpoint insert (a b : Z) (y : GasketComponent) (m : t) : t :=
  match m with
  | [] => [mkInterval a b y]
  | e :: r =>
      if a <? start e then mkInterval a b y :: m
      else e :: insert a b y r
  end.

End IntervalMap.

(** Helps build capnp message DAGs, which are stored in 'segments'. *)
Record CapnpSegmentBuilder : Type := mkSegment {
  segmentValues : IntervalMap.t;
  messageSize : Z;
  expectedSize : Z
}.

Definition CapnpSegmentBuilder_new (expectedSize : Z) : CapnpSegmentBuilder :=
  mkSegment [] 0 expectedSize.

(** Builder methods thread the segment and may trip an assertion. *)
Definition Seg (A : Type) : Type :=
  CapnpSegmentBuilder -> option (A * CapnpSegmentBuilder).

Definition ret {A : Type} (a : A) : Seg A := fun st => Some (a, st).

Definition bind {A B : Type} (m : Seg A) (k : A -> Seg B) : Seg B :=
  fun st => match m st with
            | Some (a, st') => k a st'
            | None => None
            end.

Definition assertFailed {A : Type} : Seg A := fun _ => None.

Definition lift {A : Type} (o : option A) : Seg A :=
  fun st => match o with Some a => Some (a, st) | None => None end.

Notation "x <- m ;; k" := (bind m (fun x => k))
  (at level 61, m at next level, right associativity).
Notation "m ;;; k" := (bind m (fun _ => k))
  (at level 61, right associativity).

Fixpoint forEach {A : Type} (l : list A) (body : A -> Seg unit) : Seg unit :=
  match l with
  | [] => ret tt
  | a :: r => body a ;;; forEach r body
  end.

(** Insert 'val' into the 'memory' map. *)
Definition insert (offset : Z) (val : GasketComponent) : Seg unit :=
  fun st =>
    let valSize := GasketComponent_size val in
    let last := wrap64 (offset + valSize - 1) in
    match IntervalMap.overlaps offset last (segmentValues st) with
    | None => None
    | Some true => None
    | Some false =>
        if last <? expectedSize st
        then Some (tt, mkSegment
                         (IntervalMap.insert offset last val (segmentValues st))
                         (messageSize st) (expectedSize st))
        else None
    end.

(** Track the allocated message size.  Increase to 'alloc' more. *)
Definition alloc (nbits : Z) : Seg Z :=
  fun st =>
    Some (messageSize st,
          mkSegment (segmentValues st) (wrap64 (messageSize st + nbits))
                    (expectedSize st)).

(** Conversion of a [uint64_t] to [int32_t]. *)
Definition toInt32 (x : Z) : Z :=
  let y := x mod 2 ^ 32 in if y <? 2 ^ 31 then y else y - 2 ^ 32.

(** [encodeFieldAt] and [buildList] call each other; the recursion follows
    the type of the value.  [encodeFieldAtTy ty] is [encodeFieldAt] on a
    value of type [ty]; the loop in the array case is the body of
    [buildList]. *)
Fixpoint encodeFieldAtTy (ty : Ty) (offset : Z) (val : GasketComponent)
  (type : capnp.Type_) {struct ty} : Seg unit :=
  match ty with
  | IntegerType _ _ => insert offset val
  | ArrayType mElemTy mSize =>
      match type with
      | capnp.LIST elemType =>
          (* buildList(Slice(val), type) *)
          sl <- lift (Slice_root val) ;;
          elemWidth <- lift (bits elemType) ;;
          listOffset <- alloc (wrap64 (elemWidth * Z.of_N mSize)) ;;
          forEach (seq 0 (N.to_nat mSize))
            (fun i =>
               let elemNum := wrap64 (Z.of_N mSize - Z.of_nat i - 1) in
               elem <- lift (Slice_get sl (Z.of_nat i)) ;;
               encodeFieldAtTy mElemTy
                 (wrap64 (listOffset + wrap64 (elemNum * elemWidth)))
                 elem elemType) ;;;
          (* back in encodeFieldAt *)
          let relativeOffset :=
            toInt32 (wrap64 (listOffset - offset - 64) / 64) in
          enc <- lift (bitsEncoding elemType) ;;
          ptr <- lift (concatConstants
                         [(2, 1); (30, relativeOffset);
                          (3, enc); (29, Z.of_N mSize)]) ;;
          insert offset ptr
      | _ => assertFailed
      end
  | _ => ret tt
  end.

(** Encode 'val' and place the value at the specified 'memory' offset. *)
Definition encodeFieldAt (offset : Z) (val : GasketComponent)
  (type : capnp.Type_) : Seg unit :=
  encodeFieldAtTy (gcType val) offset val type.

(** The body of the loop over the fields in [encodeStructAt]: encode the
    field's value at the field's slot in the data or pointer section. *)
Definition encodeStructAtField
  (structDataSectionOffset structPointerSectionOffset : Z)
  (mFieldValues : list GasketComponent) (field : capnp.Field) : Seg unit :=
  let idx := capnp.getCodeOrder field in
  match nth_error mFieldValues idx with
  | None => assertFailed
  | Some mFieldValue =>
      let cFieldType := capnp.getType field in
      fieldBits <- lift (bits cFieldType) ;;
      let fieldOffset :=
        wrap64 ((if isPointerType cFieldType
                 then structPointerSectionOffset
                 else structDataSectionOffset)
                + wrap64 (capnp.getOffset field * fieldBits)) in
      encodeFieldAt fieldOffset mFieldValue cFieldType
  end.

(** Allocate and build a struct.  Returns the struct pointer. *)
Definition encodeStructAt (ptrLoc : Z) (cStruct : capnp.StructReader)
  (mFieldValues : list GasketComponent) : Seg GasketComponent :=
  if negb (ptrLoc mod 64 =? 0) then assertFailed
  else
    let structSize :=
      wrap64 ((capnp.getDataWordCount cStruct + capnp.getPointerCount cStruct)
              * 64) in
    structDataSectionOffset <- alloc structSize ;;
    let structPointerSectionOffset :=
      wrap64 (structDataSectionOffset + capnp.getDataWordCount cStruct * 64) in
    if negb (structDataSectionOffset mod 64 =? 0) then assertFailed
    else
      let relativeStructDataOffsetWords :=
        toInt64 (wrap64 (structDataSectionOffset - ptrLoc) / 64 - 1) in
      structPtr <- lift (concatConstants
                           [(2, 0);
                            (30, relativeStructDataOffsetWords);
                            (16, capnp.getDataWordCount cStruct);
                            (16, capnp.getPointerCount cStruct)]) ;;
      forEach (capnp.getFields cStruct)
        (encodeStructAtField structDataSectionOffset
           structPointerSectionOffset mFieldValues) ;;;
      ret structPtr.

(** The loop of [compile]: fill in missing bits. *)
Fixpoint compileLoop (m : IntervalMap.t) (lastStop : Z)
  (segmentValuesPlusPadding : list GasketComponent)
  : option (Z * list GasketComponent) :=
  match m with
  | [] => Some (lastStop, segmentValuesPlusPadding)
  | it :: r =>
      let padBits := toInt64 (start it - lastStop) in
      if padBits <? 0 then None
      else
        withPad <-? (if padBits =? 0 then Some segmentValuesPlusPadding
                     else
                       pad <-? padding padBits ;;
                       Some (segmentValuesPlusPadding ++ [sliceValue pad])) ;;
        compileLoop r (wrap64 (stop it + 1))
                    (withPad ++ [sliceValue (castBitArray (value it))])
  end.

(** Build a value from the 'memory' map.  Concatenates all the values in the
    'memory' map, filling in the blank addresses with padding. *)
Definition compile (st : CapnpSegmentBuilder) : option GasketComponent :=
  match compileLoop (segmentValues st) 0 [] with
  | None => None
  | Some (lastStop, segmentValuesPlusPadding) =>
      if expectedSize st <? lastStop then None
      else
        withPad <-? (if lastStop =? expectedSize st
                     then Some segmentValuesPlusPadding
                     else
                       pad <-? padding (wrap64 (expectedSize st - lastStop)) ;;
                       Some (segmentValuesPlusPadding ++ [sliceValue pad])) ;;
        GasketComponent_concat withPad
  end.

(** [CapnpSegmentBuilder::build]. *)
Definition build (cStruct : capnp.StructReader)
  (mFieldValues : list GasketComponent) : Seg GasketComponent :=
  rootPtrLoc <- alloc 64 ;;
  if negb (rootPtrLoc =? 0) then assertFailed
  else
    rootPtr <- encodeStructAt rootPtrLoc cStruct mFieldValues ;;
    insert rootPtrLoc rootPtr ;;;
    (fun st => lift (compile st) st).

(** ** Capnp decode "gasket" RTL builders *)

(** Decoder helpers return the built value and the assertions emitted so
    far. *)

(** [uint32_t * int] is computed in 32 bits. *)
Definition wrap32 (x : Z) : Z := x mod 2 ^ 32.

(** The switch in [decodeList] from the element width to the element-size
    code of a list pointer. *)
Definition expectedElemSizeFieldOf (expectedElemSizeBits : Z) : option Z :=
  if expectedElemSizeBits =? 0 then Some 0
  else if expectedElemSizeBits =? 1 then Some 1
  else if expectedElemSizeBits =? 8 then Some 2
  else if expectedElemSizeBits =? 16 then Some 3
  else if expectedElemSizeBits =? 32 then Some 4
  else if expectedElemSizeBits =? 64 then Some 5
  else None.

(** Construct the proper operations to decode a capnp list.  This only works
    for arrays of ints or bools. *)
Definition decodeList (mElemTy : Ty) (mSize : N) (field : capnp.Field)
  (ptrSection : Slice) (asserts : AssertBuilder)
  : option (GasketComponent * AssertBuilder) :=
  match capnp.getType field with
  | capnp.LIST elemCType =>
      (* Get the list pointer and break out its parts. *)
      ptr <-? slice ptrSection (wrap32 (capnp.getOffset field * 64)) 64 ;;
      ptrType <-? slice ptr 0 2 ;;
      offsetBits <-? slice ptr 2 30 ;;
      let offset := cast (getIntegerType 30) (sliceValue offsetBits) in
      elemSize <-? slice ptr 32 3 ;;
      length <-? slice ptr 35 29 ;;
      (* Assert that ptr type == list type. *)
      asserts <-? assertEqual (sliceValue ptrType) 1 asserts ;;
      (* Assert that the element size in the message matches our
         expectation. *)
      expectedElemSizeBits <-? bits elemCType ;;
      expectedElemSizeField <-? expectedElemSizeFieldOf expectedElemSizeBits ;;
      asserts <-? assertEqual (sliceValue elemSize) expectedElemSizeField
                    asserts ;;
      (* Assert that the length of the list (array) is at most the length of
         the array. *)
      asserts <-? assertPred (sliceValue length) comb.ule (Z.of_N mSize)
                    asserts ;;
      (* Get the entire message slice, compute the offset into the list,
         then get the list data in an ArrayType. *)
      let msg := getRootSlice ptr in
      ptrOffset <-? getOffsetFromRoot ptr ;;
      afterPtr <-? rtl.ConstantOp (getIntegerType 30)
                     (toInt64 (ptrOffset + 64)) ;;
      let listOffset := comb.AddOp offset afterPtr in
      listSlice <-? sliceAt msg listOffset
                      (wrap64 (Z.of_N mSize * expectedElemSizeBits)) ;;
      (* Cast to an array of capnp int elements.  The element type is
         [b.getIntegerType(expectedElemSizeBits, IntegerType::Signless)]:
         the overload with two parameters is
         [getIntegerType(unsigned width, bool isSigned)], to which the
         enumerator [Signless] (zero) is passed as [false], so the type is
         the unsigned integer of that width. *)
      if negb (isIntegerType mElemTy) then None
      else
        let capnpElemTy :=
          IntegerType (Z.to_N expectedElemSizeBits) Unsigned in
        arrayOfElements <-? castToSlice listSlice capnpElemTy (Z.of_N mSize) ;;
        if Ty_eqb (gcType (sliceValue arrayOfElements))
                  (ArrayType mElemTy mSize)
        then Some (sliceValue arrayOfElements, asserts)
        else
          (* Collect the reduced elements. *)
          arrayValues <-? mapM (fun i =>
                                  capnpElem <-? Slice_get arrayOfElements
                                                  (Z.of_nat i) ;;
                                  downcast mElemTy capnpElem)
                               (seq 0 (N.to_nat mSize)) ;;
          array <-? rtl.ArrayCreateOp arrayValues ;;
          Some (array, asserts)
  | _ => None
  end.

(** Construct the proper operations to convert a capnp field to 'type'.
    The type switch has no default case. *)
Definition decodeField (type : Ty) (field : capnp.Field)
  (dataSection ptrSection : Slice) (asserts : AssertBuilder)
  : option (GasketComponent * AssertBuilder) :=
  match type with
  | IntegerType w _ =>
      fieldBits <-? bits (capnp.getType field) ;;
      sl <-? slice dataSection (wrap64 (capnp.getOffset field * fieldBits))
               (Z.of_N w) ;;
      Some (cast type (sliceValue sl), asserts)
  | ArrayType e n => decodeList e n field ptrSection asserts
  | _ => None
  end.

(** The loop over the fields in [buildDecoder]. *)
Fixpoint decodeFields (fieldTypes : list FieldInfo) (fields : list capnp.Field)
  (dataSection ptrSection : Slice) (asserts : AssertBuilder)
  : option (list GasketComponent * AssertBuilder) :=
  match fields with
  | [] => Some ([], asserts)
  | field :: r =>
      ft <-? nth_error fieldTypes (capnp.getCodeOrder field) ;;
      va <-? decodeField (snd ft) field dataSection ptrSection asserts ;;
      rest <-? decodeFields fieldTypes r dataSection ptrSection (snd va) ;;
      Some (fst va :: fst rest, snd rest)
  end.

(** The body of the module [buildDecoder] generates: the assertions in the
    always block and the value on the output port. *)
Definition decoderBody (ts : TypeSchemaImpl) (typeSchema : capnp.StructReader)
  (operandVal : GasketComponent)
  : option (GasketComponent * AssertBuilder) :=
  sz <-? size ts typeSchema ;;
  match gcType operandVal with
  | ArrayType _ operandSize =>
      if negb (Z.of_N operandSize =? sz) then None
      else
        operand <-? Slice_root operandVal ;;
        let asserts : AssertBuilder := [] in
        (* The next 64-bits of a capnp message is the root struct pointer. *)
        ptr <-? slice operand 0 64 ;;
        (* Since this is the root, we _expect_ the offset to be zero but
           that's only guaranteed to be the case with canonically-encoded
           messages. *)
        assertPtr <-? Slice_root (sliceValue ptr) ;;
        typeAndOffset <-? slice assertPtr 0 32 ;;
        asserts <-? assertEqual (sliceValue typeAndOffset) 0 asserts ;;
        (* We expect the data section to be equal to the computed data
           section size. *)
        dataSectionSizeBits <-? slice assertPtr 32 16 ;;
        let dataSectionSize :=
          cast (getIntegerType 16) (sliceValue dataSectionSizeBits) in
        asserts <-? assertEqual dataSectionSize
                      (capnp.getDataWordCount typeSchema) asserts ;;
        (* We expect the pointer section to be equal to the computed pointer
           section size. *)
        ptrSectionSizeBits <-? slice assertPtr 48 16 ;;
        let ptrSectionSize :=
          cast (getIntegerType 16) (sliceValue ptrSectionSizeBits) in
        asserts <-? assertEqual ptrSectionSize
                      (capnp.getPointerCount typeSchema) asserts ;;
        (* Get pointers to the data and pointer sections. *)
        dataSection <-? slice operand 64
                          (capnp.getDataWordCount typeSchema * 64) ;;
        ptrSection <-? slice operand
                         (64 + capnp.getDataWordCount typeSchema * 64)
                         (capnp.getPointerCount typeSchema * 64) ;;
        (* Loop through fields. *)
        fv <-? decodeFields (fieldTypes ts) (capnp.getFields typeSchema)
                 dataSection ptrSection asserts ;;
        let fieldValues := fst fv in
        (* What to return depends on the type. *)
        match canonicalType ts with
        | IntegerType _ _ | ArrayType _ _ =>
            v <-? nth_error fieldValues 0 ;;
            Some (v, snd fv)
        | StructType _ =>
            Some (rtl.StructCreateOp (type ts) fieldValues, snd fv)
        | _ => None
        end
  | _ => None
  end.

(** The body of the module [buildEncoder] generates: the value on the
    output port. *)
Definition encoderBody (ts : TypeSchemaImpl) (typeSchema : capnp.StructReader)
  (operand : GasketComponent) : option GasketComponent :=
  sz <-? size ts typeSchema ;;
  let seg := CapnpSegmentBuilder_new sz in
  if negb (Ty_eqb (gcType operand) (type ts)) then None
  else
    (* The values in the struct we are encoding. *)
    let fieldValues :=
      match canonicalType ts with
      | StructType elements =>
          map (fun i => rtl.StructExtractOp operand i)
              (seq 0 (length elements))
      | _ => [operand]
      end in
    r <-? build typeSchema fieldValues seg ;;
    Some (fst r).

(** ** Schema text *)


Definition decimal (n : Z) : string :=
  NilZero.string_of_uint (N.to_uint (Z.to_N n)).

Definition hexDigit (d : Z) : ascii :=
  ascii_of_nat (Z.to_nat (if d <? 10 then 48 + d else 87 + d)).

Fixpoint hexDigits (n : nat) (v : Z) : string :=
  match n with
  | O => EmptyString
  | S k => (hexDigits k (v / 16) ++ String (hexDigit (v mod 16)) EmptyString)%string
  end.

Fixpoint spaces (n : nat) : string :=
  match n with
  | O => EmptyString
  | S k => String " " (spaces k)
  end.

Definition toupper (c : ascii) : ascii :=
  let n := nat_of_ascii c in
  if (Nat.leb 97 n && Nat.leb n 122)%bool then ascii_of_nat (n - 32) else c.

Definition strlen (s : string) : Z := Z.of_nat (String.length s).

(** Emit an ID in capnp format: [llvm::format_hex(id, 16 + 2)]. *)
Definition emitId (id : Z) : string :=
  ("@0x" ++ hexDigits 16 (wrap64 id))%string.

(** Write a valid Capnp type.  Struct fields, integers wider than 64 bits
    and unknown types hit an assertion. *)
Fixpoint emitCapnpType (type : Ty) : option string :=
  match type with
  | TypeAliasType _ inner => emitCapnpType inner
  | IntegerType width sign =>
      let w := Z.of_N width in
      if w =? 0 then Some "Void"%string
      else if w =? 1 then Some "Bool"%string
      else
        let prefix :=
          match sign with Signed => "Int"%string | _ => "UInt"%string end in
        (* Round up. *)
        if w <=? 8 then Some (prefix ++ "8")%string
        else if w <=? 16 then Some (prefix ++ "16")%string
        else if w <=? 32 then Some (prefix ++ "32")%string
        else if w <=? 64 then Some (prefix ++ "64")%string
        else None
  | ArrayType elementType _ =>
      match emitCapnpType elementType with
      | Some e => Some ("List(" ++ e ++ ")")%string
      | None => None
      end
  | StructType _ => None
  | ChannelPort _ | OtherType _ => None
  end.

Section Schema.

(** The MLIR type printer ([os << type]), LLVM's
    [hashing::detail::hash_33to64_bytes], the constant
    [esiCosimSchemaVersion] of ESICapnp.h, and the Cap'n Proto schema parser
    (from schema text to the struct nodes it declares, with their IDs). *)
Variable printType : Ty -> string.
Variable hash_33to64_bytes : string -> Z -> Z -> Z.
Variable esiCosimSchemaVersion : Z.
Variable parseFromDirectory : string -> list (Z * capnp.StructReader).

(** The MLIR asm type, padded to a multiple of 64 bytes. *)
Definition padTo64 (typeName : string) : string :=
  let overhang := (strlen typeName) mod 64 in
  if negb (overhang =? 0)
  then (typeName ++ spaces (Z.to_nat (64 - overhang)))%string
  else typeName.

(** The hash loop over the 64-byte blocks of the padded name. *)
Definition hashTypeName (typeName : string) : Z :=
  fold_left
    (fun hash i =>
       wrap64 (hash_33to64_bytes (substring (i * 64) 64 typeName) 64 hash))
    (seq 0 (Z.to_nat (strlen typeName / 64)))
    (wrap64 esiCosimSchemaVersion).

(** We compute a deterministic hash based on the type.  Returns the ID and
    the schema with its cache filled. *)
Definition capnpTypeID (ts : TypeSchemaImpl) : Z * TypeSchemaImpl :=
  match cachedID ts with
  | Some id => (id, ts)
  | None =>
      let hash := hashTypeName (padTo64 (printType (type ts))) in
      (* Capnp IDs always have a '1' high bit. *)
      let id := Z.lor hash 0x8000000000000000 in
      (id, mkTypeSchemaImpl (type ts) (canonicalType ts) (fieldTypes ts)
             (Some id))
  end.

(** The ID returned by call number [n] (counting from 0) on a schema
    object. *)
Fixpoint capnpTypeID_call (n : nat) (ts : TypeSchemaImpl) : Z :=
  match n with
  | O => fst (capnpTypeID ts)
  | S k => capnpTypeID_call k (snd (capnpTypeID ts))
  end.

(** Write a valid Capnp name for 'type'. *)
Fixpoint emitName (type : Ty) (id : Z) : option string :=
  match type with
  | IntegerType _ _ =>
      match printType type with
      | EmptyString => Some EmptyString
      | String c rest => Some (String (toupper c) rest)
      end
  | ArrayType elementType n =>
      match emitName elementType 0 with
      | Some e => Some ("ArrayOf" ++ decimal (Z.of_N n) ++ "x" ++ e)%string
      | None => None
      end
  | StructType _ => Some ("Struct" ++ decimal id)%string
  | TypeAliasType nm _ => Some nm
  | _ => None
  end.

(** [TypeSchemaImpl::name]. *)
Definition name (ts : TypeSchemaImpl) : option string :=
  emitName (type ts) (fst (capnpTypeID ts)).

(** [TypeSchemaImpl::writeMetadata]. *)
Definition writeMetadata (ts : TypeSchemaImpl) : option string :=
  nm <-? name ts ;;
  Some (nm ++ " " ++ emitId (fst (capnpTypeID ts)))%string.

(** The field lines of [write]. *)
Fixpoint writeFields (fields : list FieldInfo) (counter : Z)
  (maxNameLength : Z) : option string :=
  match fields with
  | [] => Some EmptyString
  | field :: r =>
      ct <-? emitCapnpType (snd field) ;;
      rest <-? writeFields r (counter + 1) maxNameLength ;;
      Some ("  " ++ fst field
            ++ spaces (Z.to_nat (maxNameLength - strlen (fst field)))
            ++ " @" ++ decimal counter ++ " :" ++ ct
            ++ ";  # Actual type is " ++ printType (snd field) ++ "."
            ++ String "010" rest)%string
  end.

(** [TypeSchemaImpl::write]: since capnp requires messages to be structs,
    emit a wrapper struct. *)
Definition write (ts : TypeSchemaImpl) : option string :=
  md <-? writeMetadata ts ;;
  let maxNameLength :=
    fold_left (fun m field => Z.max m (strlen (fst field))) (fieldTypes ts) 0 in
  fs <-? writeFields (fieldTypes ts) 0 maxNameLength ;;
  Some ("struct " ++ md ++ " {" ++ String "010" fs
        ++ "}" ++ String "010" (String "010" EmptyString))%string.

(** [TypeSchemaImpl::getSchema] followed by [getTypeSchema]: write the
    schema text, parse it, and find the node with the type's ID. *)
Definition getTypeSchema (ts : TypeSchemaImpl) : option capnp.StructReader :=
  text <-? write ts ;;
  let schemaText :=
    (emitId 0xFFFFFFFFFFFFFFFF ++ ";" ++ String "010" text)%string in
  let id := fst (capnpTypeID ts) in
  match List.find (fun node => fst node =? id) (parseFromDirectory schemaText) with
  | Some node => Some (snd node)
  | None => None
  end.

(** [TypeSchemaImpl::size()]. *)
Definition TypeSchemaImpl_size (ts : TypeSchemaImpl) : option Z :=
  typeSchema <-? getTypeSchema ts ;;
  size ts typeSchema.

End Schema.

(** ** Generated modules *)

Inductive PortDirection := INPUT | OUTPUT | INOUT.

(** [rtl::ModulePortInfo]. *)
Record ModulePortInfo : Type := mkPort {
  portName : string;
  direction : PortDirection;
  portType : Ty;
  argNum : nat
}.

(** What the body of a generated module holds for a given value on its data
    input port: the always blocks and the value on its output port. *)
Record ModuleBody : Type := mkBody {
  always : list sv.AlwaysOp;
  output : GasketComponent
}.

(** [rtl::RTLModuleOp]: the name, the ports, and the body as a function of
    the value on the data input (block argument 2). *)
Record RTLModuleOp : Type := mkModule {
  getName : string;
  ports : list ModulePortInfo;
  body : GasketComponent -> option ModuleBody
}.

Section Builders.

(** The schema being built, its [name()], and the struct node
    [getTypeSchema().getProto().getStruct()]. *)
Variable ts : TypeSchemaImpl.
Variable tsName : string.
Variable typeSchema : capnp.StructReader.

(** Build an RTL/SV dialect capnp encoder module for this type.  The body is
    built on the block argument that stands for [operandVal]; an assertion
    that fails while building it fails the build. *)
Definition buildEncoder (clk valid operandVal : GasketComponent)
  : option RTLModuleOp :=
  let modName := ("encode" ++ tsName)%string in
  sz <-? size ts typeSchema ;;
  let modOutputType := ArrayType i1 (Z.to_N sz) in
  let ports :=
    [mkPort "clk" INPUT (gcType clk) 0;
     mkPort "valid" INPUT (gcType valid) 1;
     mkPort "unencodedInput" INPUT (gcType operandVal) 2;
     mkPort "encoded" OUTPUT modOutputType 0] in
  _ <-? encoderBody ts typeSchema operandVal ;;
  Some (mkModule modName ports
          (fun operand =>
             ret <-? encoderBody ts typeSchema operand ;;
             Some (mkBody [] ret))).

(** Build an RTL/SV dialect capnp decoder module for this type.  The
    assertions go into an [sv.if valid] inside an
    [sv.always posedge clk]. *)
Definition buildDecoder (clk valid operandVal : GasketComponent)
  : option RTLModuleOp :=
  let modName := ("decode" ++ tsName)%string in
  let ports :=
    [mkPort "clk" INPUT (gcType clk) 0;
     mkPort "valid" INPUT (gcType valid) 1;
     mkPort "encodedInput" INPUT (gcType operandVal) 2;
     mkPort "decoded" OUTPUT (type ts) 0] in
  _ <-? decoderBody ts typeSchema operandVal ;;
  Some (mkModule modName ports
          (fun operand =>
             ra <-? decoderBody ts typeSchema operand ;;
             let ifValid := sv.mkIf 1 (snd ra) in
             let alwaysAt := sv.mkAlways sv.AtPosEdge 0 [ifValid] in
             Some (mkBody [alwaysAt] (fst ra)))).

End Builders.

(** ** TypeSchema wrapper and the module caches *)

(** [TypeSchema] holds a shared pointer to its implementation. *)
Record TypeSchema : Type := mkTypeSchema {
  s : TypeSchemaImpl
}.

(** The constructor unwraps the channel if it's a channel. *)
Definition TypeSchema_new (t : Ty) : TypeSchema :=
  match t with
  | ChannelPort inner => mkTypeSchema (TypeSchemaImpl_new inner)
  | _ => mkTypeSchema (TypeSchemaImpl_new t)
  end.

Definition TypeSchema_getType (t : TypeSchema) : Ty := type (s t).

(** [rtl::InstanceOp]: the instance name, the module it instantiates (the
    module operation and its symbol name) and its operands. *)
Record InstanceOp : Type := mkInstance {
  instanceName : string;
  moduleRef : nat;
  moduleName : string;
  inputs : list GasketComponent;
  resultTypes : list Ty
}.

(** The static caches [decImplMods] and [encImplMods], and the body of the
    top-level module, where generated modules are created.  A module is
    referred to by its position in that body. *)
Record Compilation : Type := mkCompilation {
  decImplMods : list (Ty * nat);
  encImplMods : list (Ty * nat);
  topMod : list RTLModuleOp
}.

Definition Compilation_new : Compilation := mkCompilation [] [] [].

(** [SmallDenseMap::find]. *)
Fixpoint findImpl (key : Ty) (m : list (Ty * nat)) : option nat :=
  match m with
  | [] => None
  | (k, h) :: r => if Ty_eqb k key then Some h else findImpl key r
  end.

Section Cache.

Variable printType : Ty -> string.
Variable hash_33to64_bytes : string -> Z -> Z -> Z.
Variable esiCosimSchemaVersion : Z.
Variable parseFromDirectory : string -> list (Z * capnp.StructReader).

Let nameOf := name printType hash_33to64_bytes esiCosimSchemaVersion.
Let schemaOf :=
  getTypeSchema printType hash_33to64_bytes esiCosimSchemaVersion
                parseFromDirectory.

Definition resultTypesOf (m : RTLModuleOp) : list Ty :=
  map portType
      (filter (fun p => match direction p with OUTPUT => true | _ => false end)
              (ports m)).

(** [TypeSchema::buildEncoder]. *)
Definition TypeSchema_buildEncoder (t : TypeSchema)
  (clk valid operand : GasketComponent) (c : Compilation)
  : option (InstanceOp * Compilation) :=
  nm <-? nameOf (s t) ;;
  hc <-? match findImpl (TypeSchema_getType t) (encImplMods c) with
         | None =>
             typeSchema <-? schemaOf (s t) ;;
             encImplMod <-? buildEncoder (s t) nm typeSchema clk valid operand ;;
             let h := length (topMod c) in
             Some (h, mkCompilation (decImplMods c)
                        ((TypeSchema_getType t, h) :: encImplMods c)
                        (topMod c ++ [encImplMod]))
         | Some h => Some (h, c)
         end ;;
  encImplMod <-? nth_error (topMod (snd hc)) (fst hc) ;;
  let instName := ("encode" ++ nm ++ "Inst")%string in
  Some (mkInstance instName (fst hc) (getName encImplMod)
                   [clk; valid; operand] (resultTypesOf encImplMod),
        snd hc).

(** [TypeSchema::buildDecoder]. *)
Definition TypeSchema_buildDecoder (t : TypeSchema)
  (clk valid operand : GasketComponent) (c : Compilation)
  : option (InstanceOp * Compilation) :=
  nm <-? nameOf (s t) ;;
  hc <-? match findImpl (TypeSchema_getType t) (decImplMods c) with
         | None =>
             typeSchema <-? schemaOf (s t) ;;
             decImplMod <-? buildDecoder (s t) nm typeSchema clk valid operand ;;
             let h := length (topMod c) in
             Some (h, mkCompilation
                        ((TypeSchema_getType t, h) :: decImplMods c)
                        (encImplMods c)
                        (topMod c ++ [decImplMod]))
         | Some h => Some (h, c)
         end ;;
  decImplMod <-? nth_error (topMod (snd hc)) (fst hc) ;;
  let instName := ("decode" ++ nm ++ "Inst")%string in
  Some (mkInstance instName (fst hc) (getName decImplMod)
                   [clk; valid; operand] (resultTypesOf decImplMod),
        snd hc).

End Cache.

(** ** What a parsed schema must satisfy

    The schema compiler places every data field inside the data section and
    every pointer field inside the pointer section, gives the k-th field code
    order k, the type [emitCapnpType] wrote for it, and storage that no other
    field uses. *)

Definition fieldRange (f : capnp.Field) : option (bool * Z * Z) :=
  match bits (capnp.getType f) with
  | Some w =>
      Some (isPointerType (capnp.getType f),
            capnp.getOffset f * w, capnp.getOffset f * w + w)
  | None => None
  end.

(** The parsed type [ct] is the type [emitCapnpType] wrote for [t]. *)
Definition typeMatches (t : Ty) (ct : capnp.Type_) : bool :=
  match emitCapnpType t with
  | Some txt => String.eqb (capnp.typeText ct) txt
  | None => false
  end.

Definition fieldOk (dwc pc : Z) (k : nat) (ft : FieldInfo) (f : capnp.Field)
  : bool :=
  Nat.eqb (capnp.getCodeOrder f) k
  && (0 <=? capnp.getOffset f) && (capnp.getOffset f <? 2 ^ 32)
  && typeMatches (snd ft) (capnp.getType f)
  && match fieldRange f with
     | Some (true, _, hi) => hi <=? pc * 64
     | Some (false, _, hi) => hi <=? dwc * 64
     | None => false
     end.

Fixpoint fieldsOk (dwc pc : Z) (k : nat) (fts : list FieldInfo)
  (fs : list capnp.Field) : bool :=
  match fts, fs with
  | [], [] => true
  | ft :: fts', f :: fs' =>
      fieldOk dwc pc k ft f && fieldsOk dwc pc (S k) fts' fs'
  | _, _ => false
  end.

Definition rangesDisjoint (a b : capnp.Field) : bool :=
  match fieldRange a, fieldRange b with
  | Some (pa, loa, hia), Some (pb, lob, hib) =>
      negb (Bool.eqb pa pb) || (hia <=? lob) || (hib <=? loa)
  | _, _ => false
  end.

Fixpoint pairwiseDisjoint (fs : list capnp.Field) : bool :=
  match fs with
  | [] => true
  | f :: r => forallb (rangesDisjoint f) r && pairwiseDisjoint r
  end.

Definition layoutOk (fts : list FieldInfo) (cs : capnp.StructReader) : bool :=
  (0 <=? capnp.getDataWordCount cs) && (capnp.getDataWordCount cs <? 2 ^ 16)
  && (0 <=? capnp.getPointerCount cs) && (capnp.getPointerCount cs <? 2 ^ 16)
  && fieldsOk (capnp.getDataWordCount cs) (capnp.getPointerCount cs) 0 fts
              (capnp.getFields cs)
  && pairwiseDisjoint (capnp.getFields cs).

(** ** The invariant of the segment memory model *)

(** One interval ends before the next one starts. *)
Definition before (a b : Interval) : Prop := stop a < start b.

(** Every stored interval is non-empty and ends below the expected size. *)
Definition inBounds (expected : Z) (e : Interval) : Prop :=
  0 <= start e /\ start e <= stop e /\ stop e < expected.

(** The stored intervals are in ascending order, pairwise disjoint and
    within bounds. *)
Definition segInv (st : CapnpSegmentBuilder) : Prop :=
  StronglySorted before (segmentValues st)
  /\ Forall (inBounds (expectedSize st)) (segmentValues st).

(** Two intervals share no bit. *)
Definition disjoint (a b : Interval) : Prop :=
  stop a < start b \/ stop b < start a.

(** The states a segment builder for [expected] bits goes through. *)
Inductive reachable (expected : Z) : CapnpSegmentBuilder -> Prop :=
| reach_new : reachable expected (CapnpSegmentBuilder_new expected)
| reach_insert st offset val st' :
    reachable expected st ->
    0 <= offset < two64 ->
    insert offset val st = Some (tt, st') ->
    reachable expected st'
| reach_alloc st nbits ptr st' :
    reachable expected st ->
    alloc nbits st = Some (ptr, st') ->
    reachable expected st'.

(** Every stored interval is as wide as the well-formed value it maps to. *)
Definition segWf (st : CapnpSegmentBuilder) : Prop :=
  Forall (fun e => gcWf (value e)
                   /\ stop e = start e + GasketComponent_size (value e) - 1)
         (segmentValues st).

(** A sequence of insertions of fragments at bit offsets. *)
Definition insertAll (frags : list (Z * GasketComponent)) : Seg unit :=
  forEach frags (fun f => insert (fst f) (snd f)).

(** The spec's reading of [compile]: the concatenation, in ascending offset
    order, of the fragments, with zero padding for every gap from
    [lastStop] on. *)
Fixpoint concatFrom (m : IntervalMap.t) (lastStop : Z) : list bool :=
  match m with
  | [] => []
  | e :: r =>
      repeat false (Z.to_nat (start e - lastStop))
      ++ gcBits (value e) ++ concatFrom r (stop e + 1)
  end.

(** ... and a final zero pad up to the expected size. *)
Definition concatWithPadding (m : IntervalMap.t) (expected : Z) : list bool :=
  let body := concatFrom m 0 in
  body ++ repeat false (Z.to_nat (expected - Zlen body)).

(** The interval a fragment occupies once inserted. *)
Definition toInterval (f : Z * GasketComponent) : Interval :=
  mkInterval (fst f) (fst f + GasketComponent_size (snd f) - 1) (snd f).

(** ** Concrete types and layouts used in examples *)

(** An 8-bit unsigned integer, and the layout the schema compiler computes
    for [struct { i @0 :UInt8; }]: one data word, no pointers, the field at
    offset 0 of the data section. *)
Definition ui8 : Ty := IntegerType 8 Unsigned.

Definition ui8Layout : capnp.StructReader :=
  capnp.mkStruct 1 0 [capnp.mkField "i" 0 0 capnp.UINT8].

(** ** What the decoder asserts, in the spec's words *)

(** An assertion that compares [w] bits, read as an unsigned integer, with
    the constant [c]. *)
Definition assertOn (pred : comb.ICmpPredicate) (w : Z) (bs : list bool)
  (c : Z) : sv.AssertOp :=
  sv.mkAssert pred (mkGC (getIntegerType w) bs)
              (mkGC (getIntegerType w) (bitsOfZ w c)).

(** On the root pointer (the first word of the message): type tag and
    offset, data word count, pointer count. *)
Definition rootPointerAsserts (cs : capnp.StructReader) (msg : list bool)
  : list sv.AssertOp :=
  [assertOn comb.eq 32 (sliceBits 0 32 msg) 0;
   assertOn comb.eq 16 (sliceBits 32 16 msg) (capnp.getDataWordCount cs);
   assertOn comb.eq 16 (sliceBits 48 16 msg) (capnp.getPointerCount cs)].

(** The bit offset in the message of the pointer of a pointer field. *)
Definition pointerOffset (cs : capnp.StructReader) (f : capnp.Field) : Z :=
  64 + capnp.getDataWordCount cs * 64 + capnp.getOffset f * 64.

(** On the pointer of a list-typed field: the list tag, the element size
    code expected for the element width, and a length of at most the array
    capacity.  Nothing for other fields. *)
Definition listPointerAsserts (cs : capnp.StructReader) (msg : list bool)
  (fts : list FieldInfo) (f : capnp.Field) : list sv.AssertOp :=
  match nth_error fts (capnp.getCodeOrder f), capnp.getType f with
  | Some (_, ArrayType _ capacity), capnp.LIST elemType =>
      match optBind (bits elemType) expectedElemSizeFieldOf with
      | Some code =>
          let p := pointerOffset cs f in
          [assertOn comb.eq 2 (sliceBits p 2 msg) 1;
           assertOn comb.eq 3 (sliceBits (p + 32) 3 msg) code;
           assertOn comb.ule 29 (sliceBits (p + 35) 29 msg) (Z.of_N capacity)]
      | None => []
      end
  | _, _ => []
  end.

(** A slice that shows bits [o, o + size) of the bit vector [root]. *)
Definition bitSlice (root : list bool) (o : Z) (sl : Slice) : Prop :=
  sliceElem sl = i1
  /\ gcType (sliceValue sl) = ArrayType i1 (sliceSize sl)
  /\ gcBits (sliceValue sl) = sliceBits o (Z.of_N (sliceSize sl)) root
  /\ 0 <= o.

(** ** Requests to the module cache *)

Inductive Kind := Encoder | Decoder.

(** A use site asks for an encoder or a decoder of a type. *)
Record Request : Type := mkRequest {
  reqKind : Kind;
  reqType : Ty;
  reqClk : GasketComponent;
  reqValid : GasketComponent;
  reqOperand : GasketComponent
}.

(** The type a request's [TypeSchema] is keyed by. *)
Definition reqKey (r : Request) : Ty :=
  TypeSchema_getType (TypeSchema_new (reqType r)).

(** The cache of one kind. *)
Definition implMods (k : Kind) (c : Compilation) : list (Ty * nat) :=
  match k with
  | Encoder => encImplMods c
  | Decoder => decImplMods c
  end.

Section Requests.

Variable printType : Ty -> string.
Variable hash_33to64_bytes : string -> Z -> Z -> Z.
Variable esiCosimSchemaVersion : Z.
Variable parseFromDirectory : string -> list (Z * capnp.StructReader).

Definition serve (r : Request) (c : Compilation)
  : option (InstanceOp * Compilation) :=
  match reqKind r with
  | Encoder =>
      TypeSchema_buildEncoder printType hash_33to64_bytes
        esiCosimSchemaVersion parseFromDirectory
        (TypeSchema_new (reqType r)) (reqClk r) (reqValid r) (reqOperand r) c
  | Decoder =>
      TypeSchema_buildDecoder printType hash_33to64_bytes
        esiCosimSchemaVersion parseFromDirectory
        (TypeSchema_new (reqType r)) (reqClk r) (reqValid r) (reqOperand r) c
  end.

(** The requests of one compilation, in order. *)
Fixpoint serveAll (rs : list Request) (c : Compilation)
  : option (list InstanceOp * Compilation) :=
  match rs with
  | [] => Some ([], c)
  | r :: rest =>
      ic <-? serve r c ;;
      more <-? serveAll rest (snd ic) ;;
      Some (fst ic :: fst more, snd more)
  end.

End Requests.

(** The caches refer to modules that exist, no module is cached twice, and
    every module is cached. *)
Definition cacheInv (c : Compilation) : Prop :=
  (forall k key h, findImpl key (implMods k c) = Some h ->
                   (h < length (topMod c))%nat)
  /\ (forall k1 key1 k2 key2 h,
         findImpl key1 (implMods k1 c) = Some h ->
         findImpl key2 (implMods k2 c) = Some h ->
         k1 = k2 /\ key1 = key2)
  /\ (forall h, (h < length (topMod c))%nat ->
                exists k key, findImpl key (implMods k c) = Some h).

(** ** The types on which encoding followed by decoding is the identity *)

(** An unsigned integer as wide as a capnp storage class, the type
    [decodeList] casts the elements of the list payload to: for arrays of
    these the decoder returns the list payload as it is. *)
Definition isCapnpElemType (w : N) (sg : Signedness) : bool :=
  match sg with
  | Unsigned => (w =? 1)%N || (w =? 8)%N || (w =? 16)%N || (w =? 32)%N
                || (w =? 64)%N
  | _ => false
  end.

(** An integer of 1 to 64 bits. *)
Definition rtInt (t : Ty) : bool :=
  match t with
  | IntegerType w _ => (1 <=? w)%N && (w <=? 64)%N
  | _ => false
  end.

(** An array of such integers, not of the decoder's capnp element type,
    with at least two elements (the index of an element of a shorter array
    is a constant of no bits, which cannot be built) and a length that fits
    the 29-bit element count of a list pointer. *)
Definition rtArray (t : Ty) : bool :=
  match t with
  | ArrayType (IntegerType w sg) n =>
      (1 <=? w)%N && (w <=? 64)%N && negb (isCapnpElemType w sg)
      && (2 <=? n)%N && (n <? 2 ^ 29)%N
  | _ => false
  end.

Definition rtField (t : Ty) : bool := rtInt t || rtArray t.

(** Such an integer, such an array, or a struct of them. *)
Definition rtType (t : Ty) : bool :=
  match t with
  | StructType fs => forallb (fun f => rtField (snd f)) fs
  | _ => rtField t
  end.

(** The segment with another allocated size. *)
Definition withMessageSize (ms : Z) (st : CapnpSegmentBuilder)
  : CapnpSegmentBuilder :=
  mkSegment (segmentValues st) ms (expectedSize st).

(** The constant of [width] bits that [constant] builds when [width] is
    not 0. *)
Definition constantOf (width value : Z) : GasketComponent :=
  mkGC (getIntegerType width) (bitsOfZ width value).

(** The slice that [padding] builds when [p] is not 0. *)
Definition paddingOf (p : Z) : Slice := castBitArray (constantOf p 0).

(** The element [Slice::operator[]] reads from a slice of at least two
    elements. *)
Definition elemAt (s : Slice) (idx : Z) : GasketComponent :=
  rtl.ArrayGetOp (sliceValue s)
    (constantOf (Log2_32_Ceil (Z.of_N (sliceSize s))) idx).

(** The fragments [buildList] inserts for the elements of an array. *)
Definition elemFrags (listOffset elemWidth : Z) (mSize : N) (sl : Slice)
  : list (Z * GasketComponent) :=
  map (fun i =>
         (wrap64 (listOffset
                  + wrap64 (wrap64 (Z.of_N mSize - Z.of_nat i - 1) * elemWidth)),
          elemAt sl (Z.of_nat i)))
      (seq 0 (N.to_nat mSize)).

(** The list pointer [encodeFieldAt] builds. *)
Definition listPointer (listOffset offset enc : Z) (mSize : N)
  : option GasketComponent :=
  concatConstants
    [(2, 1);
     (30, toInt32 (wrap64 (listOffset - offset - 64) / 64));
     (3, enc); (29, Z.of_N mSize)].

(** The struct pointer [encodeStructAt] builds. *)
Definition structPointer (cStruct : capnp.StructReader)
  (structDataSectionOffset ptrLoc : Z) : option GasketComponent :=
  concatConstants
    [(2, 0);
     (30, toInt64 (wrap64 (structDataSectionOffset - ptrLoc) / 64 - 1));
     (16, capnp.getDataWordCount cStruct);
     (16, capnp.getPointerCount cStruct)].

(** Two fragments share no bit. *)
Definition fragDisjoint (f g : Z * GasketComponent) : Prop :=
  fst f + GasketComponent_size (snd f) <= fst g
  \/ fst g + GasketComponent_size (snd g) <= fst f.

Fixpoint fragsDisjoint (l : list (Z * GasketComponent)) : Prop :=
  match l with
  | [] => True
  | f :: r => Forall (fragDisjoint f) r /\ fragsDisjoint r
  end.

(** A fragment that fits a segment of [expected] bits. *)
Definition fragFits (expected : Z) (f : Z * GasketComponent) : Prop :=
  0 <= fst f /\ 0 < GasketComponent_size (snd f)
  /\ fst f + GasketComponent_size (snd f) <= expected.

(** What the layout says about an integer field and the value encoded for
    it: the value [v] of [w] bits lives in a data slot of [cb] bits. *)
Definition intField (cs : capnp.StructReader) (fts : list FieldInfo)
  (fvals : list GasketComponent) (f : capnp.Field) : Prop :=
  exists v nm w sg cb,
    nth_error fts (capnp.getCodeOrder f) = Some (nm, IntegerType w sg)
    /\ nth_error fvals (capnp.getCodeOrder f) = Some v
    /\ gcType v = IntegerType w sg
    /\ Zlen (gcBits v) = Z.of_N w
    /\ (1 <= w <= 64)%N
    /\ bits (capnp.getType f) = Some cb
    /\ isPointerType (capnp.getType f) = false
    /\ Z.of_N w <= cb
    /\ 0 <= capnp.getOffset f
    /\ capnp.getOffset f * cb + cb <= capnp.getDataWordCount cs * 64.

(** What the layout says about an array field: the struct's only pointer,
    to a list of [n] elements of [cb] bits that hold [w]-bit integers. *)
Definition listField (cs : capnp.StructReader) (fts : list FieldInfo)
  (fvals : list GasketComponent) (f : capnp.Field) : Prop :=
  exists v nm w sg n ec cb enc,
    nth_error fts (capnp.getCodeOrder f) = Some (nm, ArrayType (IntegerType w sg) n)
    /\ nth_error fvals (capnp.getCodeOrder f) = Some v
    /\ gcType v = ArrayType (IntegerType w sg) n
    /\ Zlen (gcBits v) = Z.of_N n * Z.of_N w
    /\ (1 <= w <= 64)%N /\ (2 <= n < 2 ^ 29)%N
    /\ isCapnpElemType w sg = false
    /\ capnp.getType f = capnp.LIST ec
    /\ bits ec = Some cb /\ bitsEncoding ec = Some enc
    /\ expectedElemSizeFieldOf cb = Some enc
    /\ Z.of_N w <= cb
    /\ (cb = 1 \/ cb = 8 \/ cb = 16 \/ cb = 32 \/ cb = 64)
    /\ capnp.getOffset f = 0
    /\ capnp.getPointerCount cs = 1.

(** The fragment [encodeStructAt] inserts for an integer field: the field's
    value, at the field's slot in the data section (which follows the root
    pointer). *)
Definition intFrag (fvals : list GasketComponent) (f : capnp.Field)
  : Z * GasketComponent :=
  (64 + capnp.getOffset f * match bits (capnp.getType f) with
                            | Some cb => cb
                            | None => 0
                            end,
   nth (capnp.getCodeOrder f) fvals (mkGC (OtherType "none") [])).

(** Fragments inside one range of bits. *)
Definition fragIn (lo hi : Z) (f : Z * GasketComponent) : Prop :=
  lo <= fst f /\ fst f + GasketComponent_size (snd f) <= hi.

(** The fragments [encodeFieldAt] inserts for an array of [n] integers of
    [w] bits with the bits [V], into a list of [cb]-bit elements allocated at
    [M]: element [i] goes to slot [n - 1 - i], and the list pointer, with
    offset 0 (the list follows the pointer's word), goes to [P]. *)
Definition listFragsOf (M P cb enc : Z) (w : N) (sg : Signedness) (n : N)
  (V : list bool) : list (Z * GasketComponent) :=
  map (fun i =>
         (M + (Z.of_N n - 1 - Z.of_nat i) * cb,
          mkGC (IntegerType w sg)
               (sliceBits (Z.of_nat i * Z.of_N w) (Z.of_N w) V)))
      (seq 0 (N.to_nat n))
  ++ [(P, mkGC (ArrayType i1 64)
                (bitsOfZ 2 1 ++ bitsOfZ 30 0 ++ bitsOfZ 3 enc
                 ++ bitsOfZ 29 (Z.of_N n)))].

(** The message bits [B] carry the value [fvals] has for the field [f]: an
    integer in its data slot; an array as a list pointer in the first
    pointer slot and the elements, last element first, in the words after
    the struct. *)
Definition fieldEncoded (cs : capnp.StructReader)
  (fvals : list GasketComponent) (B : list bool) (f : capnp.Field) : Prop :=
  exists v,
    nth_error fvals (capnp.getCodeOrder f) = Some v
    /\ match gcType v with
       | IntegerType w _ =>
           exists cb,
             bits (capnp.getType f) = Some cb
             /\ sliceBits (64 + capnp.getOffset f * cb) (Z.of_N w) B = gcBits v
       | ArrayType (IntegerType w _) n =>
           exists ec cb enc,
             capnp.getType f = capnp.LIST ec
             /\ bits ec = Some cb /\ bitsEncoding ec = Some enc
             /\ 64 + (capnp.getDataWordCount cs + 1) * 64 + Z.of_N n * cb
                <= Zlen B
             /\ sliceBits (64 + capnp.getDataWordCount cs * 64) 64 B
                = bitsOfZ 2 1 ++ bitsOfZ 30 0 ++ bitsOfZ 3 enc
                  ++ bitsOfZ 29 (Z.of_N n)
             /\ forall i, (i < N.to_nat n)%nat ->
                  sliceBits (64 + (capnp.getDataWordCount cs + 1) * 64
                             + (Z.of_N n - 1 - Z.of_nat i) * cb)
                            (Z.of_N w) B
                  = sliceBits (Z.of_nat i * Z.of_N w) (Z.of_N w) (gcBits v)
       | _ => False
       end.

(** The total width of the fields of a packed struct. *)
Definition fieldsWidth (fs : list FieldInfo) : Z :=
  fold_right (fun f acc => getBitWidth (snd f) + acc) 0 fs.

(** The bits of the fields of a packed struct value, first field first. *)
Fixpoint fieldBitsOf (fs : list FieldInfo) (V : list bool) : list (list bool) :=
  match fs with
  | [] => []
  | g :: r =>
      sliceBits (fieldsWidth r) (getBitWidth (snd g)) V :: fieldBitsOf r V
  end.

(** Whether an operation that may trip an assertion returned. *)
Definition isSome {A : Type} (o : option A) : bool :=
  match o with Some _ => true | None => false end.

(** The number of bits of a list of values, as the [uint64_t] sum
    [ArrayConcatOp::build] computes. *)
Definition totalBits (vs : list GasketComponent) : Z :=
  fold_right (fun v acc => GasketComponent_size v + acc) 0 vs.

(** An interval is as wide as its well-formed value. *)
Definition entryWf (e : Interval) : Prop :=
  gcWf (value e) /\ stop e = start e + GasketComponent_size (value e) - 1.

(** A fragment the builder may be given: an offset in [uint64_t] range and
    a well-formed value. *)
Definition fragOk (f : Z * GasketComponent) : Prop :=
  0 <= fst f < two64 /\ gcWf (snd f).

(** The cache of the other kind of module. *)
Definition otherKind (k : Kind) : Kind :=
  match k with Encoder => Decoder | Decoder => Encoder end.



(** The words the list of an array field takes: its elements, rounded up
    to whole words; nothing for the other fields. *)
Definition listWords (fts : list FieldInfo) (f : capnp.Field) : Z :=
  match nth_error fts (capnp.getCodeOrder f), capnp.getType f with
  | Some (_, ArrayType _ n), capnp.LIST ec =>
      match bits ec with
      | Some cb => (Z.of_N n * cb + 63) / 64
      | None => 0
      end
  | _, _ => 0
  end.

(** A field [size] can account for: an integer, or an array (of fewer than
    2^32 elements) whose capnp field is a list of a known element type. *)
Definition sizable (fts : list FieldInfo) (f : capnp.Field) : bool :=
  match nth_error fts (capnp.getCodeOrder f) with
  | Some (_, IntegerType _ _) => true
  | Some (_, ArrayType _ n) =>
      (n <? 2 ^ 32)%N
      && match capnp.getType f with
         | capnp.LIST ec => isSome (bits ec)
         | _ => false
         end
  | _ => false
  end.

(** [sliced r s o]: the slice [s] was cut out of the slice [r] by calls of
    [slice] with constant offsets that add up to [o], each within the slice
    it cuts. *)
Inductive sliced (r : Slice) : Slice -> Z -> Prop :=
| sliced_root : sliced r r 0
| sliced_slice (s s' : Slice) (o lsb sz : Z) :
    sliced r s o ->
    0 <= lsb -> 0 <= sz -> lsb + sz <= Z.of_N (sliceSize s) ->
    slice s lsb sz = Some s' ->
    sliced r s' (o + lsb).

(** What the decoder reads for an integer field: the bits of the message
    [B] at the field's slot in the data section, which follows the root
    pointer's word, as a value of the field's type. *)
Definition slotRead (fts : list FieldInfo) (B : list bool) (f : capnp.Field)
  : GasketComponent :=
  match nth_error fts (capnp.getCodeOrder f), bits (capnp.getType f) with
  | Some (_, IntegerType w sg), Some cb =>
      mkGC (IntegerType w sg)
           (sliceBits (64 + capnp.getOffset f * cb) (Z.of_N w) B)
  | _, _ => mkGC (OtherType "none") []
  end.

(** ** Properties *)

(** Turn boolean tests among the hypotheses into propositions. *)
Ltac boolprop :=
  repeat match goal with
         | H : _ && _ = true |- _ => apply andb_true_iff in H; destruct H
         | H : (_ <=? _) = true |- _ => apply Z.leb_le in H
         | H : (_ <? _) = true |- _ => apply Z.ltb_lt in H
         | H : (_ =? _) = true |- _ => apply Z.eqb_eq in H
         | H : (_ <=? _) = false |- _ => apply Z.leb_gt in H
         | H : (_ <? _) = false |- _ => apply Z.ltb_ge in H
         | H : (_ =? _) = false |- _ => apply Z.eqb_neq in H
         | H : Nat.eqb _ _ = true |- _ => apply Nat.eqb_eq in H
         | H : String.eqb _ _ = true |- _ => apply String.eqb_eq in H
         | H : negb _ = true |- _ => apply negb_true_iff in H
         | H : negb _ = false |- _ => apply negb_false_iff in H
         end.

(** *** Type equality *)

Lemma Signedness_eqb_eq (a b : Signedness) : Signedness_eqb a b = true <-> a = b.
Proof. destruct a, b; simpl; split; congruence. Qed.

Lemma Ty_eqb_eq (a b : Ty) : Ty_eqb a b = true <-> a = b.
Proof.
  revert b. induction a as [w s|e n IH|fs IH|nm t IH|t IH|m] using Ty_ind';
    intros [w' s'|e' n'|fs'|nm' t'|t'|m']; simpl;
    try (split; intro H; discriminate H).
  - rewrite andb_true_iff, N.eqb_eq, Signedness_eqb_eq.
    split; [intros [-> ->]; reflexivity | intros H; inversion H; auto].
  - rewrite andb_true_iff, N.eqb_eq, IH.
    split; [intros [-> ->]; reflexivity | intros H; inversion H; auto].
  - revert fs'. induction IH as [|[n1 t1] r Ht _ IHr]; intros [|[n2 t2] r'];
      try (split; intro H; discriminate H).
    + split; reflexivity.
    + rewrite !andb_true_iff, String.eqb_eq. simpl in Ht. rewrite Ht, IHr.
      split.
      * intros [[-> ->] H]. inversion H. reflexivity.
      * intros H. inversion H. auto.
  - rewrite andb_true_iff, String.eqb_eq, IH.
    split; [intros [-> ->]; reflexivity | intros H; inversion H; auto].
  - rewrite IH. split; [intros ->; reflexivity | intros H; inversion H; auto].
  - rewrite String.eqb_eq.
    split; [intros ->; reflexivity | intros H; inversion H; auto].
Qed.

Lemma Ty_eqb_refl (a : Ty) : Ty_eqb a a = true.
Proof. apply Ty_eqb_eq. reflexivity. Qed.

Lemma Ty_eqb_neq (a b : Ty) : Ty_eqb a b = false <-> a <> b.
Proof.
  split.
  - intros H E. apply Ty_eqb_eq in E. congruence.
  - intros H. destruct (Ty_eqb a b) eqn:E; [|reflexivity].
    apply Ty_eqb_eq in E. contradiction.
Qed.

(** *** Supported types *)

Lemma isSupported_canonical (t : Ty) (outer : bool) :
  isSupported t outer = isSupported (getCanonicalType t) outer.
Proof.
  induction t using Ty_ind'; simpl; auto.
Qed.

Lemma emitCapnpType_canonical (t : Ty) :
  emitCapnpType t = emitCapnpType (getCanonicalType t).
Proof.
  induction t using Ty_ind'; simpl; auto.
Qed.

Lemma writeFields_None printType (pre post : list FieldInfo) (f : FieldInfo)
  (counter maxLen : Z) :
  emitCapnpType (snd f) = None ->
  writeFields printType (pre ++ f :: post) counter maxLen = None.
Proof.
  intros Hf. revert counter.
  induction pre as [|g pre IH]; intros counter; simpl.
  - rewrite Hf. reflexivity.
  - destruct (emitCapnpType (snd g)); simpl; [|reflexivity].
    rewrite IH. reflexivity.
Qed.

Lemma write_None printType hash version (t : Ty) (pre post : list FieldInfo)
  (f : FieldInfo) :
  fieldTypes (TypeSchemaImpl_new t) = pre ++ f :: post ->
  emitCapnpType (snd f) = None ->
  write printType hash version (TypeSchemaImpl_new t) = None.
Proof.
  intros Hfs Hf. unfold write, optBind.
  destruct (writeMetadata _ _ _ _); [|reflexivity].
  rewrite Hfs, writeFields_None by assumption. reflexivity.
Qed.

(** C4.  [isSupported] returns true exactly when the type, after alias
    resolution, is an integer of at most 64 bits, an array whose element
    type is supported, or an outer-level struct all of whose element types
    are supported.  A struct with a struct-typed field and an integer wider
    than 64 bits are unsupported, and [write] emits no schema text for
    them: it stops at an assertion of [emitCapnpType]. *)
Theorem isSupported_characterisation :
  (forall (t : Ty) (outer : bool),
      isSupported t outer = true <->
      (exists w sg, getCanonicalType t = IntegerType w sg /\ (w <= 64)%N)
      \/ (exists e n, getCanonicalType t = ArrayType e n
                      /\ isSupported e false = true)
      \/ (exists fs, getCanonicalType t = StructType fs /\ outer = true
                     /\ forall f, In f fs -> isSupported (snd f) false = true))
  /\ (forall printType hash version pre post nm inner,
         let t := StructType (pre ++ (nm, StructType inner) :: post) in
         TypeSchemaImpl_isSupported (TypeSchemaImpl_new t) = false
         /\ write printType hash version (TypeSchemaImpl_new t) = None)
  /\ (forall printType hash version (w : N) sg,
         let t := IntegerType (65 + w) sg in
         TypeSchemaImpl_isSupported (TypeSchemaImpl_new t) = false
         /\ write printType hash version (TypeSchemaImpl_new t) = None).
Proof.
  split; [|split].
  - intros t outer. rewrite isSupported_canonical.
    destruct (getCanonicalType t) as [w sg|e n|fs|nm i|i|m] eqn:E; simpl.
    + rewrite Z.leb_le. split.
      * intros H. left. exists w, sg. split; [reflexivity | lia].
      * intros [(w' & sg' & H & Hw)|[(e & n & H & _)|(fs & H & _)]];
          inversion H; subst; lia.
    + split.
      * intros H. right. left. exists e, n. auto.
      * intros [(w' & sg' & H & _)|[(e' & n' & H & Hs)|(fs & H & _)]];
          inversion H; subst; assumption.
    + destruct outer; simpl.
      * rewrite forallb_forall. split.
        -- intros H. right. right. exists fs. auto.
        -- intros [(w' & sg' & H & _)|[(e' & n' & H & _)|(fs' & H & _ & Hs)]];
             inversion H; subst; assumption.
      * split; [discriminate|].
        intros [(w' & sg' & H & _)|[(e' & n' & H & _)|(fs' & H & Ho & _)]];
          congruence.
    + exfalso. clear - E. induction t using Ty_ind'; simpl in E; try discriminate; auto.
    + split; [discriminate|].
      intros [(w' & sg' & H & _)|[(e' & n' & H & _)|(fs' & H & _)]]; discriminate.
    + split; [discriminate|].
      intros [(w' & sg' & H & _)|[(e' & n' & H & _)|(fs' & H & _)]]; discriminate.
  - intros printType hash version pre post nm inner t. split.
    + unfold TypeSchemaImpl_isSupported. simpl.
      rewrite forallb_app. simpl. apply andb_false_r.
    + eapply write_None with (f := (nm, StructType inner)); reflexivity.
  - intros printType hash version w sg t. subst t.
    assert (Hn : (64 < 65 + w)%N) by lia.
    generalize dependent (65 + w)%N. intros n Hn. split.
    + unfold TypeSchemaImpl_isSupported. simpl. apply Z.leb_gt. lia.
    + eapply write_None with (pre := []) (f := ("i"%string, IntegerType n sg));
        [reflexivity|].
      simpl.
      destruct (Z.of_N n =? 0) eqn:E0; [apply Z.eqb_eq in E0; lia|].
      destruct (Z.of_N n =? 1) eqn:E1; [apply Z.eqb_eq in E1; lia|].
      repeat match goal with
             | |- context [?a <=? ?b] =>
                 let E := fresh in
                 destruct (a <=? b) eqn:E; [apply Z.leb_le in E; lia|]
             end.
      reflexivity.
Qed.

(** *** The type ID *)

Lemma wrap64_range (x : Z) : 0 <= wrap64 x < two64.
Proof. unfold wrap64, two64. apply Z.mod_pos_bound. lia. Qed.

Lemma hashTypeName_range hash version (txt : string) :
  0 <= hashTypeName hash version txt < two64.
Proof.
  unfold hashTypeName.
  generalize (seq 0 (Z.to_nat (strlen txt / 64))) as l.
  generalize (wrap64_range version).
  generalize (wrap64 version) as h.
  intros h Hh l. revert h Hh.
  induction l as [|i l IH]; intros h Hh; simpl; [assumption|].
  apply IH, wrap64_range.
Qed.

Lemma lor_high_bit_range (h : Z) :
  0 <= h < two64 -> 0 <= Z.lor h 0x8000000000000000 < two64.
Proof.
  intros Hh. split.
  - apply Z.lor_nonneg. lia.
  - assert (Hpos : 0 < Z.lor h 0x8000000000000000).
    { assert (0 <= Z.lor h 0x8000000000000000) by (apply Z.lor_nonneg; lia).
      assert (Z.lor h 0x8000000000000000 <> 0); [|lia].
      intros E. apply Z.lor_eq_0_iff in E. lia. }
    unfold two64. apply Z.log2_lt_pow2; [assumption|].
    rewrite Z.log2_lor by lia.
    change (Z.log2 0x8000000000000000) with 63.
    destruct (Z.eq_dec h 0) as [->|Hnz]; [simpl; lia|].
    assert (Z.log2 h < 64) by (apply Z.log2_lt_pow2; unfold two64 in Hh; lia).
    lia.
Qed.

Lemma capnpTypeID_call_cached printType hash version (n : nat)
  (ts : TypeSchemaImpl) (id : Z) :
  cachedID ts = Some id ->
  capnpTypeID_call printType hash version n ts = id.
Proof.
  revert ts. induction n as [|n IH]; intros ts Hc; simpl;
    unfold capnpTypeID; rewrite Hc; simpl; [reflexivity|].
  apply IH. assumption.
Qed.

(** C3.  The type ID is a function of the printed form of the type alone:
    every call on a schema object for [t], the first as well as the cached
    later ones, returns that function's value, which is a 64-bit value with
    bit 63 set. *)
Theorem capnpTypeID_deterministic printType hash version :
  exists idOfText : string -> Z,
    forall (t : Ty) (n : nat),
      let id := capnpTypeID_call printType hash version n (TypeSchemaImpl_new t) in
      id = idOfText (printType t)
      /\ Z.testbit id 63 = true
      /\ 0 <= id < 2 ^ 64.
Proof.
  exists (fun txt => Z.lor (hashTypeName hash version (padTo64 txt))
                           0x8000000000000000).
  intros t n.
  assert (E : capnpTypeID_call printType hash version n (TypeSchemaImpl_new t)
              = Z.lor (hashTypeName hash version (padTo64 (printType t)))
                      0x8000000000000000).
  { destruct n as [|n]; simpl; [reflexivity|].
    apply capnpTypeID_call_cached. reflexivity. }
  cbv zeta. rewrite E. split; [reflexivity|]. split.
  - rewrite Z.lor_spec. apply orb_true_r.
  - apply lor_high_bit_range, hashTypeName_range.
Qed.

(** *** The interval map *)

Lemma insert_Permutation (a b : Z) (y : GasketComponent) (m : IntervalMap.t) :
  Permutation (IntervalMap.insert a b y m) (mkInterval a b y :: m).
Proof.
  induction m as [|e r IH]; simpl; [reflexivity|].
  destruct (a <? start e); [reflexivity|].
  rewrite IH. apply perm_swap.
Qed.

Lemma insert_In (a b : Z) (y : GasketComponent) (m : IntervalMap.t)
  (e : Interval) :
  In e (IntervalMap.insert a b y m) <-> e = mkInterval a b y \/ In e m.
Proof.
  split; intros H.
  - apply (Permutation_in _ (insert_Permutation a b y m)) in H.
    destruct H; auto.
  - apply (Permutation_in _ (Permutation_sym (insert_Permutation a b y m))).
    destruct H; [left; auto | right; auto].
Qed.

Lemma overlaps_existsb (a b : Z) (m : IntervalMap.t) :
  StronglySorted before m ->
  Forall (fun e => start e <= stop e) m ->
  a <= b ->
  IntervalMap.overlaps a b m
  = Some (existsb (fun e => (start e <=? b) && (a <=? stop e)) m).
Proof.
  intros Hs Hne Hab. unfold IntervalMap.overlaps.
  destruct (a <=? b) eqn:Eab; [|apply Z.leb_gt in Eab; lia].
  f_equal. induction m as [|e r IH]; simpl; [reflexivity|].
  apply StronglySorted_inv in Hs. destruct Hs as [Hr He].
  inversion Hne as [|? ? Hne_e Hne_r]; subst.
  destruct (a <=? stop e) eqn:Ea.
  - rewrite andb_true_r.
    destruct (b <? start e) eqn:Eb; simpl.
    + apply Z.ltb_lt in Eb.
      destruct (start e <=? b) eqn:E'; [apply Z.leb_le in E'; lia|]. simpl.
      symmetry. apply not_true_is_false. intros Hex.
      apply existsb_exists in Hex. destruct Hex as (f & Hf & Hov).
      rewrite Forall_forall in He. specialize (He f Hf). unfold before in He.
      apply andb_true_iff in Hov. destruct Hov as [Hov _].
      apply Z.leb_le in Hov. lia.
    + apply Z.ltb_ge in Eb.
      destruct (start e <=? b) eqn:E'; [reflexivity|].
      apply Z.leb_gt in E'. lia.
  - rewrite andb_false_r. simpl. apply IH; assumption.
Qed.

Lemma insert_StronglySorted (a b : Z) (y : GasketComponent) (m : IntervalMap.t) :
  StronglySorted before m ->
  Forall (fun e => start e <= stop e) m ->
  a <= b ->
  (forall e, In e m -> stop e < a \/ b < start e) ->
  StronglySorted before (IntervalMap.insert a b y m).
Proof.
  intros Hs Hne Hab Hd. induction m as [|e r IH]; simpl.
  - constructor; constructor.
  - apply StronglySorted_inv in Hs. destruct Hs as [Hr He].
    inversion Hne as [|? ? Hne_e Hne_r]; subst.
    destruct (a <? start e) eqn:Ea.
    + apply Z.ltb_lt in Ea.
      assert (Hbe : b < start e).
      { destruct (Hd e (or_introl eq_refl)); lia. }
      constructor.
      * constructor; assumption.
      * constructor; [exact Hbe|].
        rewrite Forall_forall in He |- *. intros f Hf.
        specialize (He f Hf). unfold before in *. simpl. lia.
    + apply Z.ltb_ge in Ea.
      assert (Hea : stop e < a).
      { destruct (Hd e (or_introl eq_refl)); lia. }
      constructor.
      * apply IH; try assumption. intros f Hf. apply Hd. right. assumption.
      * rewrite Forall_forall in He |- *. intros f Hf.
        apply insert_In in Hf. destruct Hf as [->|Hf]; [exact Hea|].
        apply He. assumption.
Qed.

Lemma segInv_nonempty (st : CapnpSegmentBuilder) :
  segInv st -> Forall (fun e => start e <= stop e) (segmentValues st).
Proof.
  intros [_ Hb]. eapply Forall_impl; [|exact Hb].
  intros e (_ & H & _). exact H.
Qed.

Lemma GasketComponent_size_range (v : GasketComponent) :
  0 <= GasketComponent_size v < two64.
Proof. apply wrap64_range. Qed.

(** What a successful [insert] did, and when [insert] trips an
    assertion. *)
Lemma insert_spec (st : CapnpSegmentBuilder) (offset : Z) (val : GasketComponent) :
  segInv st -> 0 <= offset < two64 -> expectedSize st < two64 ->
  let w := GasketComponent_size val in
  match insert offset val st with
  | Some (_, st') =>
      0 < w /\ offset + w <= expectedSize st
      /\ (forall e, In e (segmentValues st) ->
                    stop e < offset \/ offset + w <= start e)
      /\ segmentValues st'
         = IntervalMap.insert offset (offset + w - 1) val (segmentValues st)
      /\ messageSize st' = messageSize st
      /\ expectedSize st' = expectedSize st
      /\ segInv st'
  | None =>
      w = 0 \/ expectedSize st < offset + w
      \/ exists e, In e (segmentValues st)
                   /\ start e < offset + w /\ offset <= stop e
  end.
Proof.
  intros Hinv Hoff HE w.
  pose proof (GasketComponent_size_range val) as Hw. fold w in Hw.
  unfold insert. fold w.
  destruct (Z.eq_dec w 0) as [Hw0|Hw0].
  { (* A zero-width value: the query interval is empty or wraps. *)
    rewrite Hw0. unfold IntervalMap.overlaps.
    destruct (offset <=? wrap64 (offset + 0 - 1)) eqn:E; [|left; reflexivity].
    apply Z.leb_le in E.
    destruct (Z.eq_dec offset 0) as [->|Hnz].
    - change (wrap64 (0 + 0 - 1)) with (two64 - 1) in *.
      assert (Hno : (two64 - 1 <? expectedSize st) = false)
        by (apply Z.ltb_ge; lia).
      rewrite Hno.
      destruct (IntervalMap.find 0 (segmentValues st));
        [destruct (negb _)|]; left; reflexivity.
    - unfold wrap64 in E. rewrite Z.mod_small in E by lia. lia. }
  destruct (Z_lt_ge_dec (offset + w - 1) two64) as [Hfit|Hfit].
  2:{ (* The end wraps around. *)
    assert (Hwrap : wrap64 (offset + w - 1) = offset + w - 1 - two64).
    { unfold wrap64. symmetry. apply (Z.mod_unique _ _ 1); lia. }
    rewrite Hwrap. unfold IntervalMap.overlaps.
    destruct (offset <=? offset + w - 1 - two64) eqn:E;
      [apply Z.leb_le in E; lia|].
    right. left. lia. }
  assert (Hlast : wrap64 (offset + w - 1) = offset + w - 1).
  { unfold wrap64. apply Z.mod_small. lia. }
  rewrite Hlast.
  rewrite overlaps_existsb;
    [|apply Hinv|apply segInv_nonempty; assumption|lia].
  destruct (existsb _ _) eqn:Eov.
  - right. right. apply existsb_exists in Eov.
    destruct Eov as (e & He & Hov). exists e. split; [assumption|].
    apply andb_true_iff in Hov. destruct Hov as [H1 H2].
    apply Z.leb_le in H1. apply Z.leb_le in H2. lia.
  - assert (Hd : forall e, In e (segmentValues st) ->
                           stop e < offset \/ offset + w - 1 < start e).
    { intros e He.
      destruct (Z_lt_ge_dec (stop e) offset) as [|H1]; [left; assumption|].
      destruct (Z_lt_ge_dec (offset + w - 1) (start e)) as [|H2];
        [right; assumption|].
      exfalso. apply not_true_iff_false in Eov. apply Eov.
      apply existsb_exists. exists e. split; [assumption|].
      apply andb_true_iff. split; apply Z.leb_le; lia. }
    destruct (offset + w - 1 <? expectedSize st) eqn:Eb.
    + apply Z.ltb_lt in Eb. simpl.
      repeat split; try lia; try reflexivity.
      * intros e He. destruct (Hd e He); [left|right]; lia.
      * simpl. apply insert_StronglySorted;
          [apply Hinv|apply segInv_nonempty; assumption|lia|exact Hd].
      * simpl. apply Forall_forall. intros e He.
        apply insert_In in He. destruct He as [->|He].
        -- unfold inBounds. simpl. lia.
        -- destruct Hinv as [_ Hb]. rewrite Forall_forall in Hb.
           apply Hb. assumption.
    + apply Z.ltb_ge in Eb. right. left. lia.
Qed.

Lemma reachable_inv (expected : Z) (st : CapnpSegmentBuilder) :
  0 <= expected < two64 -> reachable expected st ->
  segInv st /\ expectedSize st = expected.
Proof.
  intros HE Hr. induction Hr as [|st offset val st' Hr IH Hoff Hins
                                 |st nbits ptr st' Hr IH Hal].
  - split; [|reflexivity]. split; simpl; constructor.
  - destruct IH as [Hinv Hexp].
    pose proof (insert_spec val Hinv Hoff) as Hs. rewrite Hexp in Hs.
    specialize (Hs (proj2 HE)). cbv zeta in Hs. rewrite Hins in Hs.
    destruct Hs as (_ & _ & _ & _ & _ & He & Hi). split; [assumption|].
    congruence.
  - destruct IH as [Hinv Hexp]. unfold alloc in Hal. inversion Hal; subst.
    split; [|reflexivity]. exact Hinv.
Qed.

(** C6.  In every state of a segment builder the stored intervals are
    pairwise disjoint and end below the expected size.  A successful
    [insert] of a value of width w at [offset] adds exactly the interval
    [offset, offset + w), which overlaps no stored interval and ends at or
    below the expected size; an insertion that overlaps a stored interval or
    ends above the expected size trips an assertion and leaves no new
    state. *)
Theorem insert_disjoint_and_bounded (expected : Z) (st : CapnpSegmentBuilder) :
  0 <= expected < two64 ->
  reachable expected st ->
  (forall e, In e (segmentValues st) ->
             0 <= start e <= stop e /\ stop e + 1 <= expected)
  /\ (forall e f, In e (segmentValues st) -> In f (segmentValues st) ->
                  e = f \/ disjoint e f)
  /\ forall (offset : Z) (val : GasketComponent),
      0 <= offset < two64 ->
      let w := GasketComponent_size val in
      (forall st', insert offset val st = Some (tt, st') ->
                   offset + w <= expected
                   /\ (forall e, In e (segmentValues st) ->
                                 stop e < offset \/ offset + w <= start e)
                   /\ Permutation (segmentValues st')
                        (mkInterval offset (offset + w - 1) val
                          :: segmentValues st))
      /\ ((exists e, In e (segmentValues st)
                     /\ start e < offset + w /\ offset <= stop e) ->
          insert offset val st = None)
      /\ (expected < offset + w -> insert offset val st = None).
Proof.
  intros HE Hr. destruct (reachable_inv HE Hr) as [Hinv Hexp].
  split; [|split].
  - intros e He. destruct Hinv as [_ Hb]. rewrite Forall_forall in Hb.
    specialize (Hb e He). unfold inBounds in Hb. lia.
  - destruct Hinv as [Hs _]. clear - Hs.
    induction (segmentValues st) as [|g r IH]; intros e f He Hf;
      [destruct He|].
    apply StronglySorted_inv in Hs. destruct Hs as [Hr Hg].
    rewrite Forall_forall in Hg. unfold disjoint.
    destruct He as [<-|He], Hf as [<-|Hf]; auto.
    + right. left. apply Hg. assumption.
    + right. right. apply Hg. assumption.
  - intros offset val Hoff w.
    pose proof (insert_spec val Hinv Hoff) as Hs. rewrite Hexp in Hs.
    specialize (Hs (proj2 HE)). cbv zeta in Hs. fold w in Hs.
    split; [|split].
    + intros st' Hins. rewrite Hins in Hs.
      destruct Hs as (_ & Hb & Hd & Hm & _). repeat split; try assumption.
      rewrite Hm. apply insert_Permutation.
    + intros (e & He & H1 & H2).
      destruct (insert offset val st) as [[[] st']|]; [|reflexivity].
      destruct Hs as (_ & _ & Hd & _). specialize (Hd e He). lia.
    + intros Hover.
      destruct (insert offset val st) as [[[] st']|]; [|reflexivity].
      destruct Hs as (_ & Hb & _). lia.
Qed.

(** *** Bit vectors *)

Lemma Zlen_nonneg (l : list bool) : 0 <= Zlen l.
Proof. unfold Zlen. lia. Qed.

Lemma Zlen_app (a b : list bool) : Zlen (a ++ b) = Zlen a + Zlen b.
Proof. unfold Zlen. rewrite length_app. lia. Qed.

Lemma Zlen_repeat (n : Z) : 0 <= n -> Zlen (repeat false (Z.to_nat n)) = n.
Proof. intros H. unfold Zlen. rewrite repeat_length. lia. Qed.

Lemma Zlen_nil : Zlen [] = 0.
Proof. reflexivity. Qed.

Lemma sliceBits_length (lsb n : Z) (l : list bool) :
  0 <= n -> Zlen (sliceBits lsb n l) = n.
Proof.
  intros Hn. unfold sliceBits, Zlen.
  rewrite length_firstn, length_app, repeat_length. lia.
Qed.

Lemma sliceBits_in_range (lsb n : Z) (l : list bool) :
  0 <= lsb -> 0 <= n -> lsb + n <= Zlen l ->
  sliceBits lsb n l = firstn (Z.to_nat n) (skipn (Z.to_nat lsb) l).
Proof.
  intros Hl Hn Hr. unfold sliceBits, Zlen in *.
  rewrite firstn_app.
  replace (Z.to_nat n - length (skipn (Z.to_nat lsb) l))%nat with O
    by (rewrite length_skipn; lia).
  simpl. apply app_nil_r.
Qed.

Lemma sliceBits_app_mid (a x b : list bool) :
  sliceBits (Zlen a) (Zlen x) (a ++ x ++ b) = x.
Proof.
  unfold sliceBits, Zlen. rewrite !Nat2Z.id.
  rewrite skipn_app, skipn_all, Nat.sub_diag. simpl.
  rewrite <- !app_assoc. rewrite firstn_app, firstn_all, Nat.sub_diag. simpl.
  apply app_nil_r.
Qed.

Lemma sliceBits_mid (lsb n : Z) (a x b : list bool) :
  lsb = Zlen a -> n = Zlen x -> sliceBits lsb n (a ++ x ++ b) = x.
Proof. intros -> ->. apply sliceBits_app_mid. Qed.

Lemma sliceBits_all (l : list bool) : sliceBits 0 (Zlen l) l = l.
Proof.
  pose proof (sliceBits_app_mid [] l []) as H. simpl in H.
  rewrite app_nil_r in H. exact H.
Qed.

(** *** Casting to bit arrays and concatenating *)

Lemma castBitArray_bits (v : GasketComponent) :
  gcBits (sliceValue (castBitArray v)) = gcBits v.
Proof. unfold castBitArray. destruct (Ty_eqb _ _); reflexivity. Qed.

Lemma castBitArray_type (v : GasketComponent) :
  gcType (sliceValue (castBitArray v))
  = ArrayType i1 (Z.to_N (wrap64 (getBitWidth (gcType v)))).
Proof.
  unfold castBitArray. destruct (Ty_eqb _ _) eqn:E; [|reflexivity].
  apply Ty_eqb_eq in E. exact E.
Qed.

Lemma wrap64_add_l (a b : Z) : wrap64 (wrap64 a + b) = wrap64 (a + b).
Proof. unfold wrap64. apply Zplus_mod_idemp_l. Qed.

Lemma wrap64_add_r (a b : Z) : wrap64 (a + wrap64 b) = wrap64 (a + b).
Proof. unfold wrap64. apply Zplus_mod_idemp_r. Qed.

Lemma wrap64_small (x : Z) : 0 <= x < two64 -> wrap64 x = x.
Proof. intros H. unfold wrap64. apply Z.mod_small. exact H. Qed.

Lemma wrap64_idem (x : Z) : wrap64 (wrap64 x) = wrap64 x.
Proof. apply wrap64_small, wrap64_range. Qed.

Lemma concatSize_fold (l : list GasketComponent) (acc : Z) :
  (forall v, In v l -> exists n, gcType v = ArrayType i1 n
                                 /\ Z.of_N n = GasketComponent_size v) ->
  wrap64
    (fold_left (fun acc v => match gcType v with
                             | ArrayType _ n => wrap64 (acc + Z.of_N n)
                             | _ => acc
                             end) l acc)
  = wrap64 (acc + totalBits l).
Proof.
  revert acc. induction l as [|v l IH]; intros acc H; simpl.
  - f_equal. lia.
  - destruct (H v (or_introl eq_refl)) as (n & Ht & Hn). rewrite Ht.
    rewrite IH by (intros u Hu; apply H; right; assumption).
    rewrite wrap64_add_l, Hn. f_equal. lia.
Qed.

Lemma concatSize_fold_range (l : list GasketComponent) (acc : Z) :
  0 <= acc < two64 ->
  (forall v, In v l -> exists n, gcType v = ArrayType i1 n
                                 /\ Z.of_N n = GasketComponent_size v) ->
  0 <= fold_left (fun acc v => match gcType v with
                               | ArrayType _ n => wrap64 (acc + Z.of_N n)
                               | _ => acc
                               end) l acc < two64.
Proof.
  revert acc. induction l as [|v l IH]; intros acc Hacc H; simpl; [exact Hacc|].
  destruct (H v (or_introl eq_refl)) as (n & Ht & _). rewrite Ht.
  apply IH; [apply wrap64_range|].
  intros u Hu. apply H. right. assumption.
Qed.

Lemma totalBits_app (a b : list GasketComponent) :
  totalBits (a ++ b) = totalBits a + totalBits b.
Proof. induction a as [|v a IH]; simpl; [reflexivity|]. rewrite IH. lia. Qed.

Lemma totalBits_rev (l : list GasketComponent) : totalBits (rev l) = totalBits l.
Proof.
  induction l as [|v l IH]; simpl; [reflexivity|].
  rewrite totalBits_app, IH. simpl. lia.
Qed.

Lemma getBitWidth_bitArray (n : N) : getBitWidth (ArrayType i1 n) = Z.of_N n.
Proof. change (getBitWidth (ArrayType i1 n)) with (Z.of_N n * 1). lia. Qed.

Lemma castBitArray_size (v : GasketComponent) :
  GasketComponent_size (sliceValue (castBitArray v)) = GasketComponent_size v.
Proof.
  unfold GasketComponent_size.
  rewrite castBitArray_type, getBitWidth_bitArray.
  rewrite Z2N.id by apply wrap64_range. apply wrap64_idem.
Qed.

Lemma castBitArray_is_bit_array (v : GasketComponent) :
  exists n, gcType (sliceValue (castBitArray v)) = ArrayType i1 n
            /\ Z.of_N n = GasketComponent_size (sliceValue (castBitArray v)).
Proof.
  rewrite castBitArray_size, castBitArray_type.
  eexists. split; [reflexivity|].
  unfold GasketComponent_size. apply Z2N.id, wrap64_range.
Qed.

(** [GasketComponent::concat] of a non-empty list: the first value holds the
    least significant bits. *)
Lemma GasketComponent_concat_spec (vs : list GasketComponent) :
  vs <> [] ->
  exists r,
    GasketComponent_concat vs = Some r
    /\ gcBits r = concat (map gcBits vs)
    /\ gcType r
       = ArrayType i1
           (Z.to_N (wrap64 (totalBits
                              (map (fun v => sliceValue (castBitArray v)) vs)))).
Proof.
  intros Hne. unfold GasketComponent_concat.
  destruct vs as [|v0 vs0] eqn:Evs; [contradiction|]. rewrite <- Evs. clear Hne.
  set (cs := map (fun gc => sliceValue (castBitArray gc)) vs).
  assert (Hall : forall c, In c (rev cs) ->
                           exists n, gcType c = ArrayType i1 n
                                     /\ Z.of_N n = GasketComponent_size c).
  { intros c Hc. apply in_rev in Hc. unfold cs in Hc. apply in_map_iff in Hc.
    destruct Hc as (v & <- & _). apply castBitArray_is_bit_array. }
  unfold rtl.ArrayConcatOp.
  destruct (rev cs) as [|c0 cr] eqn:Erev.
  { exfalso. apply (f_equal (@length _)) in Erev.
    rewrite length_rev in Erev. unfold cs in Erev. rewrite length_map, Evs in Erev.
    discriminate. }
  destruct (Hall c0 (or_introl eq_refl)) as (n0 & Ht0 & _). rewrite Ht0.
  assert (Hfb : forallb (fun v => match gcType v with
                                  | ArrayType e _ => Ty_eqb e i1
                                  | _ => false
                                  end) (c0 :: cr) = true).
  { apply forallb_forall. intros c Hc. destruct (Hall c Hc) as (n & Ht & _).
    rewrite Ht. reflexivity. }
  rewrite Hfb. eexists. split; [reflexivity|]. cbn [gcBits gcType].
  split.
  - rewrite <- Erev, map_rev, rev_involutive. unfold cs. rewrite map_map.
    f_equal. apply map_ext. intros v. apply castBitArray_bits.
  - f_equal. f_equal.
    rewrite <- (wrap64_small (x := fold_left _ _ _)).
    + rewrite concatSize_fold by exact Hall. rewrite Z.add_0_l.
      rewrite <- Erev, totalBits_rev. reflexivity.
    + apply concatSize_fold_range; [unfold two64; lia | exact Hall].
Qed.

(** *** Compiling the segment *)

Lemma bitsOfZ_zero (w : Z) : bitsOfZ w 0 = repeat false (Z.to_nat w).
Proof.
  unfold bitsOfZ. generalize (Z.to_nat w) as n. intros n.
  generalize 0%nat as k. induction n as [|n IH]; intros k; simpl;
    [reflexivity|].
  rewrite Z.testbit_0_l, IH. reflexivity.
Qed.

Lemma bitsOfZ_length (w v : Z) : 0 <= w -> Zlen (bitsOfZ w v) = w.
Proof.
  intros H. unfold bitsOfZ, Zlen. rewrite length_map, length_seq. lia.
Qed.

Lemma getBitWidth_getIntegerType (w : Z) :
  0 <= w -> getBitWidth (getIntegerType w) = w.
Proof. intros H. simpl. apply Z2N.id. exact H. Qed.

(** A constant of at least one bit is built. *)
Lemma ConstantOp_some (w v : Z) :
  0 < w -> rtl.ConstantOp (getIntegerType w) v = Some (constantOf w v).
Proof.
  intros H. unfold rtl.ConstantOp, getIntegerType, constantOf.
  destruct (Z.to_N w =? 0)%N eqn:E; [apply N.eqb_eq in E; lia|].
  rewrite Z2N.id by lia. reflexivity.
Qed.

Lemma constant_some (w v : Z) :
  0 < w -> constant w v = Some (constantOf w v).
Proof. apply ConstantOp_some. Qed.

Lemma padding_some (p : Z) : 0 < p -> padding p = Some (paddingOf p).
Proof.
  intros H. unfold padding, zero. rewrite ConstantOp_some by exact H.
  reflexivity.
Qed.

Lemma padding_bits (p : Z) :
  0 <= p -> gcBits (sliceValue (paddingOf p)) = repeat false (Z.to_nat p).
Proof.
  intros H. unfold paddingOf. rewrite castBitArray_bits. unfold constantOf.
  cbn [gcBits]. apply bitsOfZ_zero.
Qed.

Lemma padding_size (p : Z) :
  0 <= p < two64 -> GasketComponent_size (sliceValue (paddingOf p)) = p.
Proof.
  intros H. unfold paddingOf. rewrite castBitArray_size.
  unfold GasketComponent_size, constantOf. cbn [gcType].
  rewrite getBitWidth_getIntegerType by lia. apply wrap64_small. exact H.
Qed.

Lemma toInt64_small (x : Z) : 0 <= x < 2 ^ 63 -> toInt64 x = x.
Proof.
  intros H. unfold toInt64. rewrite wrap64_small by (unfold two64; lia).
  destruct (x <? 2 ^ 63) eqn:E; [reflexivity|]. apply Z.ltb_ge in E. lia.
Qed.

Lemma entryWf_length (e : Interval) :
  entryWf e -> start e <= stop e ->
  Zlen (gcBits (value e)) = stop e - start e + 1
  /\ GasketComponent_size (value e) = stop e - start e + 1.
Proof.
  intros [[Hlen Hlt] Hstop] Hne.
  assert (Hs : GasketComponent_size (value e) = getBitWidth (gcType (value e))).
  { unfold GasketComponent_size. apply wrap64_small.
    rewrite <- Hlen. split; [apply Zlen_nonneg | rewrite Hlen; exact Hlt]. }
  rewrite Hlen, <- Hs. lia.
Qed.

Lemma compileLoop_cons (e : Interval) (r : IntervalMap.t) (lastStop : Z)
  (acc : list GasketComponent) :
  compileLoop (e :: r) lastStop acc
  = if toInt64 (start e - lastStop) <? 0 then None
    else compileLoop r (wrap64 (stop e + 1))
           ((if toInt64 (start e - lastStop) =? 0 then acc
             else acc ++ [sliceValue (paddingOf (toInt64 (start e - lastStop)))])
            ++ [sliceValue (castBitArray (value e))]).
Proof.
  cbn [compileLoop].
  destruct (toInt64 (start e - lastStop) <? 0) eqn:En; [reflexivity|].
  destruct (toInt64 (start e - lastStop) =? 0) eqn:Ez; [reflexivity|].
  apply Z.ltb_ge in En. apply Z.eqb_neq in Ez.
  rewrite padding_some by lia. reflexivity.
Qed.

Lemma totalBits_cons (v : GasketComponent) (l : list GasketComponent) :
  totalBits (v :: l) = GasketComponent_size v + totalBits l.
Proof. reflexivity. Qed.

Lemma compileLoop_spec (expected : Z) (m : IntervalMap.t) :
  expected < 2 ^ 63 ->
  StronglySorted before m ->
  Forall (inBounds expected) m ->
  Forall entryWf m ->
  forall (lastStop : Z) (acc : list GasketComponent),
    0 <= lastStop ->
    (forall e, In e m -> lastStop <= start e) ->
    exists last' pieces,
      compileLoop m lastStop acc = Some (last', acc ++ pieces)
      /\ concat (map gcBits pieces) = concatFrom m lastStop
      /\ totalBits pieces = last' - lastStop
      /\ Zlen (concatFrom m lastStop) = last' - lastStop
      /\ lastStop <= last'
      /\ (m <> [] -> pieces <> [] /\ last' <= expected)
      /\ (m = [] -> last' = lastStop)
      /\ (forall p, In p pieces -> exists v, p = sliceValue (castBitArray v)).
Proof.
  intros HE Hs Hb Hw. induction m as [|e r IH]; intros lastStop acc Hl Hle.
  - exists lastStop, []. simpl. rewrite app_nil_r.
    split; [reflexivity|]. split; [reflexivity|]. split; [lia|].
    split; [rewrite Zlen_nil; lia|]. split; [lia|].
    split; [congruence|]. split; [reflexivity|].
    intros p [].
  - apply StronglySorted_inv in Hs. destruct Hs as [Hr He].
    inversion Hb as [|? ? Hbe Hbr]; subst.
    inversion Hw as [|? ? Hwe Hwr]; subst.
    destruct Hbe as (Hs0 & Hne & Hlt).
    destruct (entryWf_length Hwe Hne) as [Hlen Hsz].
    specialize (Hle e (or_introl eq_refl)) as Hle_e.
    assert (Hpad : toInt64 (start e - lastStop) = start e - lastStop)
      by (apply toInt64_small; lia).
    assert (Hnext : wrap64 (stop e + 1) = stop e + 1)
      by (apply wrap64_small; unfold two64; lia).
    rewrite compileLoop_cons, Hpad, Hnext.
    destruct (start e - lastStop <? 0) eqn:En; [apply Z.ltb_lt in En; lia|].
    set (pad := if start e - lastStop =? 0 then []
                else [sliceValue (paddingOf (start e - lastStop))]).
    assert (Hacc : (if start e - lastStop =? 0 then acc
                    else acc ++ [sliceValue (paddingOf (start e - lastStop))])
                   = acc ++ pad).
    { unfold pad. destruct (_ =? 0); [rewrite app_nil_r|]; reflexivity. }
    rewrite Hacc.
    destruct (IH Hr Hbr Hwr (stop e + 1)
                 ((acc ++ pad) ++ [sliceValue (castBitArray (value e))]))
      as (last' & pieces & Hc & Hbits & Htot & Hlenr & Hlast & Hnonempty & Hempty & Hcast).
    { lia. }
    { intros f Hf. rewrite Forall_forall in He. specialize (He f Hf).
      unfold before in He. lia. }
    exists last', (pad ++ sliceValue (castBitArray (value e)) :: pieces).
    assert (Hpadbits : concat (map gcBits pad)
                       = repeat false (Z.to_nat (start e - lastStop))).
    { unfold pad. destruct (start e - lastStop =? 0) eqn:E0.
      - apply Z.eqb_eq in E0. rewrite E0. reflexivity.
      - cbn [map concat]. rewrite app_nil_r. apply padding_bits. lia. }
    assert (Hpadtot : totalBits pad = start e - lastStop).
    { unfold pad. destruct (start e - lastStop =? 0) eqn:E0.
      - apply Z.eqb_eq in E0. rewrite E0. reflexivity.
      - rewrite totalBits_cons, padding_size by (unfold two64; lia).
        unfold totalBits. simpl. lia. }
    split; [|split; [|split; [|split; [|split; [|split; [|split]]]]]].
    + rewrite Hc. f_equal. f_equal. rewrite <- !app_assoc. reflexivity.
    + rewrite map_app, concat_app, Hpadbits. cbn [map concat concatFrom].
      rewrite castBitArray_bits, Hbits. reflexivity.
    + rewrite totalBits_app, Hpadtot, totalBits_cons.
      rewrite castBitArray_size, Htot, Hsz. lia.
    + cbn [concatFrom]. rewrite !Zlen_app, Zlen_repeat, Hlen, Hlenr by lia. lia.
    + lia.
    + intros _. split.
      * destruct pad; discriminate.
      * destruct r as [|f r'].
        -- rewrite (Hempty eq_refl). lia.
        -- apply Hnonempty. discriminate.
    + discriminate.
    + intros p Hp. apply in_app_iff in Hp. destruct Hp as [Hp|[Hp|Hp]].
      * unfold pad in Hp. destruct (_ =? 0); [destruct Hp|].
        destruct Hp as [<-|[]]. eexists. reflexivity.
      * eexists. symmetry. exact Hp.
      * apply Hcast. exact Hp.
Qed.

Lemma totalBits_cast (pieces : list GasketComponent) :
  totalBits (map (fun v => sliceValue (castBitArray v)) pieces)
  = totalBits pieces.
Proof.
  induction pieces as [|p ps IH]; simpl; [reflexivity|].
  rewrite castBitArray_size, IH. reflexivity.
Qed.

(** [compile] on a well-formed segment: the concatenation with padding, an
    array of [expectedSize] bits. *)
Lemma compile_spec (st : CapnpSegmentBuilder) :
  0 < expectedSize st < 2 ^ 63 ->
  segInv st -> segWf st ->
  exists r,
    compile st = Some r
    /\ gcBits r = concatWithPadding (segmentValues st) (expectedSize st)
    /\ gcType r = ArrayType i1 (Z.to_N (expectedSize st))
    /\ Zlen (gcBits r) = expectedSize st.
Proof.
  intros HE [Hs Hb] Hw. unfold compile.
  destruct (compileLoop_spec (proj2 HE) Hs Hb Hw (lastStop := 0) []
                             (Z.le_refl 0))
    as (last' & pieces & Hc & Hbits & Htot & Hlen & Hlast & Hne & Hempty & _).
  { intros e He. rewrite Forall_forall in Hb. apply (Hb e He). }
  rewrite Hc. simpl app.
  assert (Hle : last' <= expectedSize st).
  { destruct (segmentValues st) as [|e r] eqn:Em.
    - rewrite (Hempty eq_refl). lia.
    - apply Hne. discriminate. }
  destruct (expectedSize st <? last') eqn:E1; [apply Z.ltb_lt in E1; lia|].
  unfold concatWithPadding. rewrite Hlen, Z.sub_0_r.
  destruct (last' =? expectedSize st) eqn:E2.
  - apply Z.eqb_eq in E2.
    assert (Hpne : pieces <> []).
    { destruct (segmentValues st) as [|e r] eqn:Em.
      - rewrite (Hempty eq_refl) in E2. lia.
      - apply Hne. discriminate. }
    cbn [optBind].
    destruct (GasketComponent_concat_spec Hpne) as (r & Hr & Hrb & Hrt).
    exists r. split; [exact Hr|]. split; [|split].
    + rewrite Hrb, Hbits, E2, Z.sub_diag. simpl. rewrite app_nil_r. reflexivity.
    + rewrite Hrt, totalBits_cast, Htot, Z.sub_0_r, E2.
      rewrite wrap64_small by (unfold two64; lia). reflexivity.
    + rewrite Hrb, Hbits, Hlen. lia.
  - apply Z.eqb_neq in E2.
    assert (Hw64 : wrap64 (expectedSize st - last') = expectedSize st - last')
      by (apply wrap64_small; unfold two64; lia).
    rewrite Hw64, padding_some by lia. cbn [optBind].
    destruct (@GasketComponent_concat_spec
                (pieces ++ [sliceValue (paddingOf (expectedSize st - last'))]))
      as (r & Hr & Hrb & Hrt).
    { destruct pieces; discriminate. }
    exists r. split; [exact Hr|]. split; [|split].
    + rewrite Hrb, map_app, concat_app, Hbits. cbn [map concat].
      rewrite app_nil_r, padding_bits by lia. reflexivity.
    + rewrite Hrt, totalBits_cast, totalBits_app, Htot, totalBits_cons.
      rewrite padding_size by (unfold two64; lia).
      replace (last' - 0 + (expectedSize st - last' + totalBits []))
        with (expectedSize st) by (unfold totalBits; simpl; lia).
      rewrite wrap64_small by (unfold two64; lia). reflexivity.
    + rewrite Hrb, map_app, concat_app, Hbits. cbn [map concat].
      rewrite app_nil_r, padding_bits by lia.
      rewrite Zlen_app, Hlen, Zlen_repeat by lia. lia.
Qed.

(** *** Reading the compiled segment *)

Lemma concatFrom_split (expected : Z) (m : IntervalMap.t) :
  StronglySorted before m ->
  Forall (inBounds expected) m ->
  Forall entryWf m ->
  forall (lastStop : Z) (e : Interval),
    (forall f, In f m -> lastStop <= start f) ->
    In e m ->
    exists a b,
      concatFrom m lastStop = a ++ gcBits (value e) ++ b
      /\ Zlen a = start e - lastStop.
Proof.
  intros Hs Hb Hw. induction m as [|g r IH]; intros lastStop e Hle He;
    [destruct He|].
  apply StronglySorted_inv in Hs. destruct Hs as [Hr Hg].
  inversion Hb as [|? ? Hbg Hbr]; subst.
  inversion Hw as [|? ? Hwg Hwr]; subst.
  destruct Hbg as (Hs0 & Hne & Hlt).
  destruct (entryWf_length Hwg Hne) as [Hlen _].
  pose proof (Hle g (or_introl eq_refl)) as Hle_g.
  cbn [concatFrom]. destruct He as [<-|He].
  - exists (repeat false (Z.to_nat (start g - lastStop))),
           (concatFrom r (stop g + 1)).
    split; [reflexivity|]. apply Zlen_repeat. lia.
  - destruct (IH Hr Hbr Hwr (stop g + 1) e) as (a & b & Heq & Hla);
      [|exact He|].
    { intros f Hf. rewrite Forall_forall in Hg. specialize (Hg f Hf).
      unfold before in Hg. lia. }
    exists (repeat false (Z.to_nat (start g - lastStop))
            ++ gcBits (value g) ++ a), b.
    split.
    + rewrite Heq, <- !app_assoc. reflexivity.
    + rewrite !Zlen_app, Zlen_repeat, Hlen, Hla by lia. lia.
Qed.

Lemma nth_repeat_false (n k : nat) : nth k (repeat false n) false = false.
Proof.
  revert k. induction n as [|n IH]; intros [|k]; simpl; auto.
Qed.

Lemma concatFrom_gap (expected : Z) (m : IntervalMap.t) :
  StronglySorted before m ->
  Forall (inBounds expected) m ->
  Forall entryWf m ->
  forall (lastStop i : Z),
    (forall f, In f m -> lastStop <= start f) ->
    lastStop <= i ->
    (forall f, In f m -> i < start f \/ stop f < i) ->
    nth (Z.to_nat (i - lastStop)) (concatFrom m lastStop) false = false.
Proof.
  intros Hs Hb Hw. induction m as [|g r IH]; intros lastStop i Hle Hi Hgap.
  - destruct (Z.to_nat (i - lastStop)); reflexivity.
  - apply StronglySorted_inv in Hs. destruct Hs as [Hr Hg].
    inversion Hb as [|? ? Hbg Hbr]; subst.
    inversion Hw as [|? ? Hwg Hwr]; subst.
    destruct Hbg as (Hs0 & Hne & Hlt).
    destruct (entryWf_length Hwg Hne) as [Hlen _].
    pose proof (Hle g (or_introl eq_refl)) as Hle_g.
    cbn [concatFrom].
    destruct (Hgap g (or_introl eq_refl)) as [Hlow|Hhigh].
    + rewrite app_nth1 by (rewrite repeat_length; lia).
      apply nth_repeat_false.
    + rewrite app_nth2 by (rewrite repeat_length; lia).
      rewrite repeat_length.
      unfold Zlen in Hlen.
      rewrite app_nth2 by lia.
      replace (Z.to_nat (i - lastStop) - Z.to_nat (start g - lastStop)
               - length (gcBits (value g)))%nat
        with (Z.to_nat (i - (stop g + 1))) by lia.
      apply IH; try assumption; try lia.
      * intros f Hf. rewrite Forall_forall in Hg. specialize (Hg f Hf).
        unfold before in Hg. lia.
      * intros f Hf. apply Hgap. right. exact Hf.
Qed.

(** Every stored fragment can be read back from the compiled segment at its
    offset, and every bit no fragment covers is zero. *)
Lemma concatWithPadding_read (st : CapnpSegmentBuilder) :
  segInv st -> segWf st ->
  (forall e, In e (segmentValues st) ->
             sliceBits (start e) (GasketComponent_size (value e))
                       (concatWithPadding (segmentValues st) (expectedSize st))
             = gcBits (value e))
  /\ (forall i, 0 <= i ->
                (forall e, In e (segmentValues st) -> i < start e \/ stop e < i) ->
                nth (Z.to_nat i)
                    (concatWithPadding (segmentValues st) (expectedSize st))
                    false = false).
Proof.
  intros [Hs Hb] Hw.
  assert (Hle : forall f, In f (segmentValues st) -> 0 <= start f).
  { intros f Hf. rewrite Forall_forall in Hb. apply (Hb f Hf). }
  split.
  - intros e He.
    destruct (@concatFrom_split _ _ Hs Hb Hw 0 e Hle He)
      as (a & b & Heq & Hla).
    unfold concatWithPadding. rewrite Heq, <- !app_assoc.
    unfold segWf in Hw. rewrite Forall_forall in Hw, Hb.
    destruct (entryWf_length (Hw e He)) as [Hlen Hsz]; [apply (Hb e He)|].
    apply sliceBits_mid; lia.
  - intros i Hi Hgap. unfold concatWithPadding.
    destruct (Nat.lt_ge_cases (Z.to_nat i)
                (length (concatFrom (segmentValues st) 0))) as [Hin|Hout].
    + rewrite app_nth1 by exact Hin.
      pose proof (@concatFrom_gap _ _ Hs Hb Hw 0 i Hle Hi Hgap) as H.
      rewrite Z.sub_0_r in H. exact H.
    + rewrite app_nth2 by exact Hout. apply nth_repeat_false.
Qed.

(** *** Sequences of insertions *)


Lemma insert_segWf (st st' : CapnpSegmentBuilder) (offset : Z)
  (val : GasketComponent) :
  segInv st -> segWf st -> 0 <= offset < two64 -> expectedSize st < two64 ->
  gcWf val ->
  insert offset val st = Some (tt, st') ->
  segInv st' /\ segWf st' /\ expectedSize st' = expectedSize st
  /\ messageSize st' = messageSize st
  /\ Permutation (segmentValues st')
                 (toInterval (offset, val) :: segmentValues st).
Proof.
  intros Hinv Hwf Hoff HE Hval Hins.
  pose proof (insert_spec val Hinv Hoff HE) as Hs. cbv zeta in Hs.
  rewrite Hins in Hs. destruct Hs as (Hw & Hb & Hd & Hm & Hms & Hes & Hinv').
  split; [exact Hinv'|]. split; [|split; [exact Hes|split; [exact Hms|]]].
  - unfold segWf. rewrite Hm. apply Forall_forall. intros e He.
    apply insert_In in He. destruct He as [->|He].
    + split; [exact Hval|reflexivity].
    + unfold segWf in Hwf. rewrite Forall_forall in Hwf. apply Hwf. exact He.
  - rewrite Hm. apply insert_Permutation.
Qed.

Lemma insertAll_spec (frags : list (Z * GasketComponent)) :
  Forall fragOk frags ->
  forall st st',
    segInv st -> segWf st -> expectedSize st < two64 ->
    insertAll frags st = Some (tt, st') ->
    segInv st' /\ segWf st' /\ expectedSize st' = expectedSize st
    /\ Permutation (segmentValues st')
                   (rev (map toInterval frags) ++ segmentValues st).
Proof.
  intros Hok. induction Hok as [|f frags [Hoff Hval] Hrest IH];
    intros st st' Hinv Hwf HE Hrun.
  - inversion Hrun; subst. repeat split; try assumption; try apply Hinv.
    reflexivity.
  - unfold insertAll in Hrun. cbn [forEach] in Hrun. unfold bind in Hrun.
    destruct (insert (fst f) (snd f) st) as [[[] st1]|] eqn:Hins;
      [|discriminate].
    destruct (insert_segWf Hinv Hwf Hoff HE Hval Hins)
      as (Hinv1 & Hwf1 & HE1 & _ & Hp1).
    destruct (IH st1 st' Hinv1 Hwf1) as (Hinv' & Hwf' & HE' & Hp');
      [lia|exact Hrun|].
    split; [exact Hinv'|]. split; [exact Hwf'|]. split; [congruence|].
    rewrite Hp'. cbn [map rev]. rewrite <- app_assoc. cbn [app].
    apply Permutation_app_head. rewrite Hp1.
    destruct f; reflexivity.
Qed.


Lemma insertAll_cons (f : Z * GasketComponent)
  (frags : list (Z * GasketComponent)) (st : CapnpSegmentBuilder) :
  insertAll (f :: frags) st
  = match insert (fst f) (snd f) st with
    | Some (_, st1) => insertAll frags st1
    | None => None
    end.
Proof.
  unfold insertAll. cbn [forEach]. unfold bind.
  destruct (insert (fst f) (snd f) st) as [[[] st1]|]; reflexivity.
Qed.


Lemma new_segInv (expected : Z) : segInv (CapnpSegmentBuilder_new expected).
Proof. split; simpl; constructor. Qed.

Lemma new_segWf (expected : Z) : segWf (CapnpSegmentBuilder_new expected).
Proof. constructor. Qed.


(** *** Sizes *)

Lemma size_multiple_of_64 (ts : TypeSchemaImpl) (cs : capnp.StructReader)
  (sz : Z) :
  size ts cs = Some sz -> sz mod 64 = 0 /\ 0 <= sz < two64.
Proof.
  unfold size. destruct (sizeStruct cs (fieldTypes ts)) as [words|];
    [|discriminate].
  intros H. inversion H; subst. split; [|apply wrap64_range].
  unfold wrap64, two64. rewrite (Z.mod_eq (words * 64) (2 ^ 64)) by lia.
  set (q := words * 64 / 2 ^ 64).
  replace (words * 64 - 2 ^ 64 * q) with ((words - 2 ^ 58 * q) * 64) by lia.
  apply Z.mod_mul. lia.
Qed.

Lemma typeText_UInt8 (t : capnp.Type_) :
  capnp.typeText t = "UInt8"%string -> t = capnp.UINT8.
Proof. destruct t; simpl; intros H; try discriminate H; reflexivity. Qed.

(** C9, as the code has it.  For an 8-bit unsigned integer the derived
    schema has exactly one field, named "i", of capnp type UInt8.  Under any
    layout that stores that field inside the data section the size is
    64 * (1 + data words + pointers) bits, at least 128; it is 128 bits for
    the layout with one data word and no pointers. *)
Theorem size_ui8 (cs : capnp.StructReader) :
  layoutOk (fieldTypes (TypeSchemaImpl_new ui8)) cs = true ->
  fieldTypes (TypeSchemaImpl_new ui8) = [("i"%string, ui8)]
  /\ emitCapnpType ui8 = Some "UInt8"%string
  /\ size (TypeSchemaImpl_new ui8) cs
     = Some (64 * (1 + capnp.getDataWordCount cs + capnp.getPointerCount cs))
  /\ 128 <= 64 * (1 + capnp.getDataWordCount cs + capnp.getPointerCount cs)
  /\ (capnp.getDataWordCount cs = 1 -> capnp.getPointerCount cs = 0 ->
      size (TypeSchemaImpl_new ui8) cs = Some 128).
Proof.
  intros Hok. destruct cs as [dwc pc fields]. unfold layoutOk in Hok.
  cbn [capnp.getDataWordCount capnp.getPointerCount capnp.getFields] in *.
  change (fieldTypes (TypeSchemaImpl_new ui8)) with [("i"%string, ui8)] in *.
  boolprop.
  destruct fields as [|f [|g fields]];
    match goal with H : fieldsOk _ _ _ _ _ = true |- _ =>
      cbn [fieldsOk] in H;
      try (rewrite andb_false_r in H); try discriminate H;
      rewrite andb_true_r in H; unfold fieldOk in H end.
  boolprop.
  match goal with H : typeMatches _ _ = true |- _ =>
    unfold typeMatches in H;
    change (emitCapnpType (snd ("i"%string, ui8))) with (Some "UInt8"%string) in H;
    apply String.eqb_eq, typeText_UInt8 in H; rename H into Hty end.
  match goal with H : match fieldRange _ with _ => _ end = true |- _ =>
    unfold fieldRange in H; rewrite Hty in H; cbn in H; apply Z.leb_le in H end.
  match goal with H : capnp.getCodeOrder f = 0%nat |- _ => rename H into Hco end.
  assert (Hsz : size (TypeSchemaImpl_new ui8) (capnp.mkStruct dwc pc [f])
                = Some (64 * (1 + dwc + pc))).
  { unfold size, sizeStruct, pointedToSize.
    cbn [capnp.getFields capnp.getDataWordCount capnp.getPointerCount fold_left].
    rewrite Hco.
    change (nth_error (fieldTypes (TypeSchemaImpl_new ui8)) 0)
      with (Some ("i"%string, ui8)).
    cbn [snd ui8]. rewrite Z.add_0_r, toInt64_small by lia.
    rewrite wrap64_small by (unfold two64; lia). f_equal. lia. }
  split; [reflexivity|]. split; [reflexivity|]. split; [exact Hsz|].
  split; [lia|].
  intros -> ->. exact Hsz.
Qed.

(** C9 as stated fails: with the schema compiler's layout the size is 128
    bits, not 64. *)
Lemma size_ui8_is_not_64 :
  layoutOk (fieldTypes (TypeSchemaImpl_new ui8)) ui8Layout = true
  /\ size (TypeSchemaImpl_new ui8) ui8Layout = Some 128
  /\ size (TypeSchemaImpl_new ui8) ui8Layout <> Some 64.
Proof.
  split; [vm_compute; reflexivity|].
  split; [vm_compute; reflexivity|].
  vm_compute. discriminate.
Qed.

(** *** Slices of bit vectors, bit by bit *)

Lemma nth_sliceBits (lsb n : Z) (l : list bool) (k : nat) :
  0 <= lsb ->
  nth k (sliceBits lsb n l) false
  = if Z.of_nat k <? n then nth (Z.to_nat lsb + k) l false else false.
Proof.
  intros Hl. unfold sliceBits. rewrite nth_firstn.
  destruct (Nat.ltb k (Z.to_nat n)) eqn:E.
  - apply Nat.ltb_lt in E.
    destruct (Z.of_nat k <? n) eqn:E'; [|apply Z.ltb_ge in E'; lia].
    destruct (Nat.lt_ge_cases k (length (skipn (Z.to_nat lsb) l))) as [H|H].
    + rewrite app_nth1 by exact H. apply nth_skipn.
    + rewrite app_nth2 by exact H. rewrite nth_repeat_false.
      symmetry. apply nth_overflow. rewrite length_skipn in H. lia.
  - apply Nat.ltb_ge in E.
    destruct (Z.of_nat k <? n) eqn:E'; [apply Z.ltb_lt in E'; lia|reflexivity].
Qed.

Lemma bits_ext (a b : list bool) :
  length a = length b ->
  (forall k, (k < length a)%nat -> nth k a false = nth k b false) ->
  a = b.
Proof. intros Hl Hn. apply (nth_ext a b false false Hl Hn). Qed.

Lemma sliceBits_length_nat (lsb n : Z) (l : list bool) :
  length (sliceBits lsb n l) = Z.to_nat n.
Proof.
  unfold sliceBits. rewrite length_firstn, length_app, repeat_length. lia.
Qed.

Lemma sliceBits_sliceBits (o m a n : Z) (l : list bool) :
  0 <= o -> 0 <= a -> a + n <= m ->
  sliceBits a n (sliceBits o m l) = sliceBits (o + a) n l.
Proof.
  intros Ho Ha Hn. apply bits_ext.
  - rewrite !sliceBits_length_nat. reflexivity.
  - intros k Hk. rewrite sliceBits_length_nat in Hk.
    rewrite !nth_sliceBits by lia.
    destruct (Z.of_nat k <? n) eqn:E; [|reflexivity].
    apply Z.ltb_lt in E.
    replace (Z.of_nat (Z.to_nat a + k) <? m) with true
      by (symmetry; apply Z.ltb_lt; lia).
    f_equal. lia.
Qed.

Lemma sliceBits_split (lsb a b : Z) (l : list bool) :
  0 <= lsb -> 0 <= a -> 0 <= b ->
  sliceBits lsb (a + b) l = sliceBits lsb a l ++ sliceBits (lsb + a) b l.
Proof.
  intros Hl Ha Hb. apply bits_ext.
  - rewrite length_app, !sliceBits_length_nat. lia.
  - intros k Hk. rewrite sliceBits_length_nat in Hk.
    rewrite nth_sliceBits by lia.
    replace (Z.of_nat k <? a + b) with true by (symmetry; apply Z.ltb_lt; lia).
    destruct (Nat.lt_ge_cases k (Z.to_nat a)) as [H|H].
    + rewrite app_nth1 by (rewrite sliceBits_length_nat; exact H).
      rewrite nth_sliceBits by lia.
      replace (Z.of_nat k <? a) with true by (symmetry; apply Z.ltb_lt; lia).
      reflexivity.
    + rewrite app_nth2 by (rewrite sliceBits_length_nat; exact H).
      rewrite sliceBits_length_nat, nth_sliceBits by lia.
      replace (Z.of_nat (k - Z.to_nat a) <? b) with true
        by (symmetry; apply Z.ltb_lt; lia).
      f_equal. lia.
Qed.

Lemma sliceBits_zero_width (lsb : Z) (l : list bool) : sliceBits lsb 0 l = [].
Proof. reflexivity. Qed.

(** *** Bits and numbers *)

Lemma ZofBits_nonneg (l : list bool) : 0 <= ZofBits l.
Proof.
  induction l as [|b l IH]; cbn [ZofBits]; [lia|].
  destruct b; cbn [Z.b2z]; lia.
Qed.

Lemma ZofBits_app (a b : list bool) :
  ZofBits (a ++ b) = ZofBits a + 2 ^ Zlen a * ZofBits b.
Proof.
  induction a as [|x a IH]; cbn [app ZofBits].
  - change (Zlen []) with 0. rewrite Z.pow_0_r. ring.
  - rewrite IH. unfold Zlen. cbn [length].
    rewrite Nat2Z.inj_succ, Z.pow_succ_r by lia. ring.
Qed.

Lemma ZofBits_range (l : list bool) : 0 <= ZofBits l < 2 ^ Zlen l.
Proof.
  induction l as [|b l IH]; cbn [ZofBits].
  - change (Zlen []) with 0. rewrite Z.pow_0_r. lia.
  - unfold Zlen in *. cbn [length].
    rewrite Nat2Z.inj_succ, Z.pow_succ_r by lia.
    destruct b; cbn [Z.b2z]; lia.
Qed.

Lemma ZofBits_testbits (v : Z) (n k : nat) :
  ZofBits (map (fun i => Z.testbit v (Z.of_nat i)) (seq k n))
  = (v / 2 ^ Z.of_nat k) mod 2 ^ Z.of_nat n.
Proof.
  revert k. induction n as [|n IH]; intros k.
  - simpl. rewrite Z.mod_1_r. reflexivity.
  - cbn [seq map ZofBits]. rewrite IH.
    rewrite Z.testbit_spec' by lia.
    rewrite (Nat2Z.inj_succ n), Z.pow_succ_r by lia.
    rewrite (Z.rem_mul_r _ 2 (2 ^ Z.of_nat n)) by lia.
    rewrite Nat2Z.inj_succ, Z.pow_succ_r by lia.
    rewrite (Z.mul_comm 2 (2 ^ Z.of_nat k)).
    rewrite <- Z.div_div by lia. reflexivity.
Qed.

Lemma ZofBits_bitsOfZ (w v : Z) : 0 <= w -> ZofBits (bitsOfZ w v) = v mod 2 ^ w.
Proof.
  intros Hw. unfold bitsOfZ. rewrite ZofBits_testbits.
  simpl. rewrite Z.div_1_r, Z2Nat.id by exact Hw. reflexivity.
Qed.

Lemma ZofBits_bitsOfZ_small (w v : Z) :
  0 <= w -> 0 <= v < 2 ^ w -> ZofBits (bitsOfZ w v) = v.
Proof.
  intros Hw Hv. rewrite ZofBits_bitsOfZ by exact Hw. apply Z.mod_small. exact Hv.
Qed.

Lemma ZofBits_repeat_false (n : nat) : ZofBits (repeat false n) = 0.
Proof. induction n as [|n IH]; simpl; [reflexivity|]. rewrite IH. reflexivity. Qed.

(** *** Slices *)

Lemma Log2_64_Ceil_spec (x : Z) :
  0 < x -> 0 <= Log2_64_Ceil x /\ x <= 2 ^ Log2_64_Ceil x.
Proof.
  intros Hx. unfold Log2_64_Ceil.
  destruct (x =? 0) eqn:E; [apply Z.eqb_eq in E; lia|].
  split; [apply Z.log2_up_nonneg|].
  destruct (Z.eq_dec x 1) as [->|Hne]; [simpl; lia|].
  apply Z.log2_up_spec. lia.
Qed.

Lemma Log2_64_Ceil_nonneg (x : Z) : 0 <= Log2_64_Ceil x.
Proof.
  unfold Log2_64_Ceil. destruct (x =? 0); [lia|apply Z.log2_up_nonneg].
Qed.

Lemma Log2_64_Ceil_pos (x : Z) : 0 <= x -> x <> 1 -> 0 < Log2_64_Ceil x.
Proof.
  intros H0 H1. unfold Log2_64_Ceil.
  destruct (x =? 0) eqn:E; [lia|]. apply Z.eqb_neq in E.
  apply Z.log2_up_pos. lia.
Qed.

Lemma constant_index (k lsb : Z) :
  0 <= k -> 0 <= lsb < 2 ^ k ->
  ZofBits (gcBits (constantOf k lsb)) = lsb.
Proof.
  intros Hk Hl. unfold constantOf. cbn [gcBits].
  apply ZofBits_bitsOfZ_small; assumption.
Qed.

Lemma Slice_root_spec (v : GasketComponent) (n : N) :
  gcType v = ArrayType i1 n -> Zlen (gcBits v) = Z.of_N n ->
  exists sl, Slice_root v = Some sl
             /\ bitSlice (gcBits v) 0 sl
             /\ sliceSize sl = n /\ sliceValue sl = v /\ parent sl = None.
Proof.
  intros Ht Hl. unfold Slice_root. rewrite Ht. eexists. split; [reflexivity|].
  unfold bitSlice. cbn [sliceElem sliceValue sliceSize parent].
  repeat split; try assumption; try lia.
  rewrite <- Hl. symmetry. apply sliceBits_all.
Qed.

Lemma slice_spec (root : list bool) (o : Z) (sl : Slice) (lsb sz : Z) :
  bitSlice root o sl ->
  0 <= lsb -> 0 <= sz < two64 ->
  lsb + sz <= Z.of_N (sliceSize sl) /\ Z.of_N (sliceSize sl) <> 1 ->
  exists sl',
    slice sl lsb sz = Some sl'
    /\ bitSlice root (o + lsb) sl'
    /\ sliceSize sl' = Z.to_N sz
    /\ parent sl' = Some sl /\ offsetIntoParent sl' = Some lsb.
Proof.
  intros (He & Ht & Hb & Ho) Hl Hs [Hr Hone].
  unfold slice.
  rewrite ConstantOp_some by (apply Log2_64_Ceil_pos; lia). cbn [optBind].
  unfold rtl.ArraySliceOp, Slice_child. rewrite Ht, He. cbn [gcType].
  eexists. split; [reflexivity|].
  unfold bitSlice. cbn [sliceElem sliceValue sliceSize parent offsetIntoParent gcType gcBits].
  rewrite wrap64_small by exact Hs.
  repeat split; try reflexivity; try lia.
  rewrite !getBitWidth_bitArray, Z2N.id by lia.
  change (getBitWidth i1) with 1. rewrite Z.mul_1_r.
  destruct (Z.eq_dec sz 0) as [->|Hnz]; [reflexivity|].
  assert (Hsize : 0 < Z.of_N (sliceSize sl)) by lia.
  destruct (Log2_64_Ceil_spec Hsize) as [Hk Hle].
  rewrite constant_index by lia.
  rewrite Hb. apply sliceBits_sliceBits; lia.
Qed.

(** A slice of one element cannot be sliced: the offset would be a
    constant of no bits. *)
Lemma slice_not_one (s s' : Slice) (lsb sz : Z) :
  slice s lsb sz = Some s' -> Z.of_N (sliceSize s) <> 1.
Proof.
  intros H Hone. unfold slice in H.
  replace (sliceSize s) with 1%N in H by lia.
  change (rtl.ConstantOp (getIntegerType (Log2_64_Ceil (Z.of_N 1))) lsb)
    with (@None GasketComponent) in H.
  discriminate H.
Qed.

Lemma assertPred_bitArray (v : GasketComponent) (k : N)
  (pred : comb.ICmpPredicate) (c : Z) (asserts : AssertBuilder) :
  gcType v = ArrayType i1 k -> k <> 0%N ->
  assertPred v pred c asserts
  = Some (asserts ++ [assertOn pred (Z.of_N k) (gcBits v) c]).
Proof.
  intros Ht Hk. unfold assertPred. rewrite Ht. cbn [isIntegerType].
  change (Ty_eqb i1 (getIntegerType 1)) with true. cbv iota.
  unfold assertPredValue, cast, rtl.BitcastOp. cbn [gcType].
  rewrite ConstantOp_some by lia. reflexivity.
Qed.

Lemma assertPred_integer (w : Z) (v : GasketComponent)
  (pred : comb.ICmpPredicate) (c : Z) (asserts : AssertBuilder) :
  0 < w ->
  assertPred (cast (getIntegerType w) v) pred c asserts
  = Some (asserts ++ [assertOn pred w (gcBits v) c]).
Proof.
  intros Hw. unfold assertPred, cast, rtl.BitcastOp. cbn [gcType isIntegerType getIntegerType].
  fold (getIntegerType w). unfold assertPredValue. cbn [gcType].
  rewrite ConstantOp_some by exact Hw. reflexivity.
Qed.

(** *** The decoder's assertions *)

Lemma assertPred_extends (v : GasketComponent) (pred : comb.ICmpPredicate)
  (c : Z) (asserts asserts' : AssertBuilder) :
  assertPred v pred c asserts = Some asserts' ->
  exists a, asserts' = asserts ++ [a].
Proof.
  unfold assertPred, assertPredValue.
  destruct (isIntegerType (gcType v)).
  - intros H. destruct (rtl.ConstantOp _ _); [|discriminate H].
    inversion H. eexists. reflexivity.
  - destruct (gcType v); try discriminate.
    destruct (Ty_eqb _ _); [|discriminate].
    intros H. destruct (rtl.ConstantOp _ _); [|discriminate H].
    inversion H. eexists. reflexivity.
Qed.

(** Case analysis on the steps of a decoder helper: [optSteps H] splits a
    hypothesis [x <-? o ;; k = Some r] into [o = Some x] and [k x = Some r]. *)
Ltac optStep H x E :=
  match type of H with
  | optBind ?o _ = Some _ =>
      destruct o as [x|] eqn:E; [cbn [optBind] in H | discriminate H]
  end.

Lemma decodeList_extends (e : Ty) (n : N) (f : capnp.Field) (ps : Slice)
  (asserts asserts' : AssertBuilder) (v : GasketComponent) :
  decodeList e n f ps asserts = Some (v, asserts') ->
  exists rest, asserts' = asserts ++ rest.
Proof.
  unfold decodeList. destruct (capnp.getType f); try discriminate.
  intros H.
  optStep H ptr E1. optStep H ptrType E2. optStep H offsetBits E3.
  optStep H elemSize E4. optStep H len E5. optStep H a1 E6.
  optStep H eb E7. optStep H ef E8. optStep H a2 E9. optStep H a3 E10.
  optStep H po E11. optStep H aptr E11'. optStep H ls E12.
  destruct (negb (isIntegerType e)); [discriminate|].
  optStep H arr E13.
  apply assertPred_extends in E6, E9, E10.
  destruct E6 as [x1 ->], E9 as [x2 ->], E10 as [x3 ->].
  exists [x1; x2; x3].
  destruct (Ty_eqb _ _).
  - inversion H. rewrite <- !app_assoc. reflexivity.
  - optStep H av E14. optStep H ar E15. inversion H.
    rewrite <- !app_assoc. reflexivity.
Qed.

Lemma decodeField_extends (t : Ty) (f : capnp.Field) (ds ps : Slice)
  (asserts asserts' : AssertBuilder) (v : GasketComponent) :
  decodeField t f ds ps asserts = Some (v, asserts') ->
  exists rest, asserts' = asserts ++ rest.
Proof.
  unfold decodeField. destruct t; try discriminate.
  - intros H. optStep H fb E1. optStep H sl E2. inversion H.
    exists []. rewrite app_nil_r. reflexivity.
  - apply decodeList_extends.
Qed.

Lemma decodeFields_extends (fts : list FieldInfo) (fields : list capnp.Field)
  (ds ps : Slice) (asserts asserts' : AssertBuilder)
  (vs : list GasketComponent) :
  decodeFields fts fields ds ps asserts = Some (vs, asserts') ->
  exists rest, asserts' = asserts ++ rest.
Proof.
  revert asserts asserts' vs.
  induction fields as [|f fields IH]; intros asserts asserts' vs H.
  - inversion H. exists []. rewrite app_nil_r. reflexivity.
  - cbn [decodeFields] in H.
    optStep H ft E1. optStep H va E2. optStep H rest E3.
    destruct va as [v a1], rest as [vs' a2]. cbn [fst snd] in *.
    inversion H; subst.
    apply decodeField_extends in E2. destruct E2 as [r1 ->].
    apply IH in E3. destruct E3 as [r2 ->].
    exists (r1 ++ r2). rewrite app_assoc. reflexivity.
Qed.

(** The steps of [decoderBody] before the loop over the fields. *)
Lemma decoderBody_root (ts : TypeSchemaImpl) (cs : capnp.StructReader)
  (msg ret : GasketComponent) (n : N) (asserts : AssertBuilder) :
  gcType msg = ArrayType i1 n -> Zlen (gcBits msg) = Z.of_N n ->
  n <> 0%N ->
  decoderBody ts cs msg = Some (ret, asserts) ->
  size ts cs = Some (Z.of_N n)
  /\ 64 <= Z.of_N n
  /\ exists operand dataSection ptrSection fvs,
      Slice_root msg = Some operand
      /\ slice operand 64 (capnp.getDataWordCount cs * 64) = Some dataSection
      /\ slice operand (64 + capnp.getDataWordCount cs * 64)
               (capnp.getPointerCount cs * 64) = Some ptrSection
      /\ decodeFields (fieldTypes ts) (capnp.getFields cs) dataSection
                      ptrSection (rootPointerAsserts cs (gcBits msg))
         = Some (fvs, asserts)
      /\ match canonicalType ts with
         | IntegerType _ _ | ArrayType _ _ => nth_error fvs 0 = Some ret
         | StructType _ => ret = rtl.StructCreateOp (type ts) fvs
         | _ => False
         end.
Proof.
  intros Ht Hlen Hn H. unfold decoderBody in H.
  optStep H sz Esz. rewrite Ht in H.
  destruct (negb (Z.of_N n =? sz)) eqn:En; [discriminate|].
  apply negb_false_iff, Z.eqb_eq in En. subst sz.
  destruct (size_multiple_of_64 _ _ Esz) as [Hmod _].
  assert (H64 : 64 <= Z.of_N n).
  { pose proof (Z.div_mod (Z.of_N n) 64 ltac:(lia)) as Hdm. lia. }
  split; [reflexivity|]. split; [exact H64|].
  destruct (Slice_root_spec msg Ht Hlen) as (operand & Eop & Hop & Hsz & Hval & _).
  rewrite Eop in H. cbn [optBind] in H.
  destruct (@slice_spec (gcBits msg) 0 operand 0 64 Hop) as (ptr & Eptr & Hptr & Hpsz & _);
    [lia|unfold two64; lia|rewrite Hsz; lia|].
  rewrite Eptr in H. cbn [optBind] in H.
  destruct Hptr as (Hpe & Hpt & Hpb & _). rewrite Hpsz in Hpt, Hpb.
  assert (Hplen : Zlen (gcBits (sliceValue ptr)) = Z.of_N (Z.to_N 64)).
  { rewrite Hpb. apply sliceBits_length. lia. }
  destruct (Slice_root_spec _ Hpt Hplen) as (assertPtr & Eap & Hap & Hapsz & _).
  rewrite Eap in H. cbn [optBind] in H.
  rewrite Hpb in Hap.
  destruct (@slice_spec _ 0 assertPtr 0 32 Hap) as (s1 & E1 & (_ & Ht1 & Hb1 & _) & Hs1 & _);
    [lia|unfold two64; lia|rewrite Hapsz; lia|].
  destruct (@slice_spec _ 0 assertPtr 32 16 Hap) as (s2 & E2 & (_ & Ht2 & Hb2 & _) & Hs2 & _);
    [lia|unfold two64; lia|rewrite Hapsz; lia|].
  destruct (@slice_spec _ 0 assertPtr 48 16 Hap) as (s3 & E3 & (_ & Ht3 & Hb3 & _) & Hs3 & _);
    [lia|unfold two64; lia|rewrite Hapsz; lia|].
  rewrite E1 in H. cbn [optBind] in H.
  unfold assertEqual in H.
  rewrite (@assertPred_bitArray _ _ _ _ _ Ht1) in H by (rewrite Hs1; lia).
  cbn [optBind] in H.
  rewrite E2 in H. cbn [optBind] in H.
  rewrite assertPred_integer in H by lia. cbn [optBind] in H.
  rewrite E3 in H. cbn [optBind] in H.
  rewrite assertPred_integer in H by lia. cbn [optBind] in H.
  optStep H dataSection Eds. optStep H ptrSection Eps. optStep H fv Efv.
  destruct fv as [fvs asserts0]. cbn [fst snd] in H.
  exists operand, dataSection, ptrSection, fvs.
  split; [exact Eop|]. split; [exact Eds|]. split; [exact Eps|].
  assert (Hroot : [] ++ [assertOn comb.eq (Z.of_N (sliceSize s1)) (gcBits (sliceValue s1)) 0]
                  ++ [assertOn comb.eq 16 (gcBits (sliceValue s2))
                               (capnp.getDataWordCount cs)]
                  ++ [assertOn comb.eq 16 (gcBits (sliceValue s3))
                               (capnp.getPointerCount cs)]
                  = rootPointerAsserts cs (gcBits msg)).
  { unfold rootPointerAsserts. cbn [app].
    rewrite Hs1, Hb1, Hb2, Hb3, Hs1, Hs2, Hs3.
    rewrite !sliceBits_sliceBits by lia. reflexivity. }
  rewrite <- !app_assoc in Efv. rewrite Hroot in Efv.
  destruct (canonicalType ts); try discriminate.
  - optStep H v Ev. inversion H; subst. split; [assumption|reflexivity].
  - optStep H v Ev. inversion H; subst. split; [assumption|reflexivity].
  - inversion H; subst. split; [assumption|reflexivity].
Qed.

Lemma holds_assertOn (pred : comb.ICmpPredicate) (w : Z) (bs : list bool)
  (c : Z) :
  0 <= w -> 0 <= c < 2 ^ w ->
  sv.holds (assertOn pred w bs c)
  = comb.ICmpOp pred (mkGC (getIntegerType w) bs) (mkGC (getIntegerType w) (bitsOfZ w c))
  /\ ZofBits (bitsOfZ w c) = c.
Proof.
  intros Hw Hc. unfold sv.holds, assertOn.
  cbn [sv.predicate sv.lhs sv.rhs].
  split; [reflexivity|]. apply ZofBits_bitsOfZ_small; assumption.
Qed.

Lemma holds_assertOn_eq (w : Z) (bs : list bool) (c : Z) :
  0 <= w -> 0 <= c < 2 ^ w ->
  sv.holds (assertOn comb.eq w bs c) = (ZofBits bs =? c).
Proof.
  intros Hw Hc. destruct (holds_assertOn comb.eq bs Hw Hc) as [-> E].
  unfold comb.ICmpOp. cbn [gcBits]. rewrite E. reflexivity.
Qed.

Lemma holds_assertOn_ule (w : Z) (bs : list bool) (c : Z) :
  0 <= w -> 0 <= c < 2 ^ w ->
  sv.holds (assertOn comb.ule w bs c) = (ZofBits bs <=? c).
Proof.
  intros Hw Hc. destruct (holds_assertOn comb.ule bs Hw Hc) as [-> E].
  unfold comb.ICmpOp. cbn [gcBits]. rewrite E. reflexivity.
Qed.

Lemma buildDecoder_body (ts : TypeSchemaImpl) (nm : string)
  (cs : capnp.StructReader) (clk valid op0 : GasketComponent)
  (m : RTLModuleOp) :
  buildDecoder ts nm cs clk valid op0 = Some m ->
  getName m = ("decode" ++ nm)%string
  /\ ports m = [mkPort "clk" INPUT (gcType clk) 0;
                mkPort "valid" INPUT (gcType valid) 1;
                mkPort "encodedInput" INPUT (gcType op0) 2;
                mkPort "decoded" OUTPUT (type ts) 0]
  /\ forall msg b,
      body m msg = Some b ->
      exists ret asserts,
        decoderBody ts cs msg = Some (ret, asserts)
        /\ b = mkBody [sv.mkAlways sv.AtPosEdge 0 [sv.mkIf 1 asserts]] ret.
Proof.
  unfold buildDecoder. intros H. optStep H x E. inversion H; subst. clear H.
  cbn [getName ports body]. split; [reflexivity|]. split; [reflexivity|].
  intros msg b Hb. optStep Hb ra Era. destruct ra as [ret asserts].
  inversion Hb; subst. exists ret, asserts. split; reflexivity.
Qed.

(** C10.  The first assertion of every generated decoder compares the low
    32 bits of the root pointer, type tag and offset together, with zero.
    It holds exactly when the tag and the offset are both zero, so a message
    whose root pointer has a non-zero offset fails it, whatever its tag and
    section sizes are. *)
Theorem root_pointer_offset_must_be_zero (ts : TypeSchemaImpl) (nm : string)
  (cs : capnp.StructReader) (clk valid op0 msg : GasketComponent)
  (m : RTLModuleOp) (n : N) (b : ModuleBody) :
  buildDecoder ts nm cs clk valid op0 = Some m ->
  gcType msg = ArrayType i1 n -> Zlen (gcBits msg) = Z.of_N n -> n <> 0%N ->
  body m msg = Some b ->
  let typeAndOffsetIsZero :=
    assertOn comb.eq 32 (sliceBits 0 32 (gcBits msg)) 0 in
  (exists rest,
      always b = [sv.mkAlways sv.AtPosEdge 0
                    [sv.mkIf 1 (typeAndOffsetIsZero :: rest)]])
  /\ (sv.holds typeAndOffsetIsZero = true <->
      ZofBits (sliceBits 0 2 (gcBits msg)) = 0
      /\ ZofBits (sliceBits 2 30 (gcBits msg)) = 0)
  /\ (ZofBits (sliceBits 2 30 (gcBits msg)) <> 0 ->
      sv.holds typeAndOffsetIsZero = false).
Proof.
  intros Hbuild Ht Hlen Hn Hb a0.
  destruct (buildDecoder_body _ _ _ _ _ _ Hbuild) as (_ & _ & Hbody).
  destruct (Hbody msg b Hb) as (ret & asserts & Hdec & ->).
  destruct (decoderBody_root _ _ _ Ht Hlen Hn Hdec)
    as (_ & _ & operand & ds & ps & fvs & _ & _ & _ & Hfields & _).
  apply decodeFields_extends in Hfields. destruct Hfields as [rest ->].
  assert (Hholds : sv.holds a0
                   = (ZofBits (sliceBits 0 2 (gcBits msg))
                      + 4 * ZofBits (sliceBits 2 30 (gcBits msg)) =? 0)).
  { unfold a0. rewrite holds_assertOn_eq by lia.
    change 32 with (2 + 30) at 1. rewrite sliceBits_split by lia.
    rewrite ZofBits_app, sliceBits_length by lia. reflexivity. }
  pose proof (ZofBits_nonneg (sliceBits 0 2 (gcBits msg))) as H1.
  pose proof (ZofBits_nonneg (sliceBits 2 30 (gcBits msg))) as H2.
  split; [|split].
  - eexists. cbn [always rootPointerAsserts app]. reflexivity.
  - rewrite Hholds, Z.eqb_eq. lia.
  - intros Hnz. rewrite Hholds. apply Z.eqb_neq. lia.
Qed.

Lemma fieldsOk_Forall (dwc pc : Z) (fts : list FieldInfo)
  (fs : list capnp.Field) (k : nat) :
  fieldsOk dwc pc k fts fs = true ->
  Forall2 (fun ft f => fieldOk dwc pc (capnp.getCodeOrder f) ft f = true) fts fs
  /\ forall i f, nth_error fs i = Some f -> capnp.getCodeOrder f = (k + i)%nat.
Proof.
  revert fs k. induction fts as [|ft fts IH]; intros [|f fs] k H;
    try discriminate.
  - split; [constructor|]. intros [|i] f; discriminate.
  - cbn [fieldsOk] in H. apply andb_true_iff in H. destruct H as [Hf Hr].
    destruct (IH fs (S k) Hr) as [IH1 IH2].
    assert (Hco : capnp.getCodeOrder f = k).
    { unfold fieldOk in Hf. boolprop. assumption. }
    split.
    + constructor; [rewrite Hco; exact Hf | exact IH1].
    + intros [|i] g Hg; cbn [nth_error] in Hg.
      * inversion Hg; subst. lia.
      * rewrite (IH2 i g Hg). lia.
Qed.

Lemma layoutOk_fields (fts : list FieldInfo) (cs : capnp.StructReader) :
  layoutOk fts cs = true ->
  0 <= capnp.getDataWordCount cs < 2 ^ 16
  /\ 0 <= capnp.getPointerCount cs < 2 ^ 16
  /\ Forall2 (fun ft f =>
                fieldOk (capnp.getDataWordCount cs) (capnp.getPointerCount cs)
                        (capnp.getCodeOrder f) ft f = true)
             fts (capnp.getFields cs)
  /\ (forall i f, nth_error (capnp.getFields cs) i = Some f ->
                  capnp.getCodeOrder f = i)
  /\ pairwiseDisjoint (capnp.getFields cs) = true.
Proof.
  unfold layoutOk. intros H. boolprop.
  match goal with Hf : fieldsOk _ _ _ _ _ = true |- _ =>
    destruct (fieldsOk_Forall _ _ _ _ _ Hf) as [Hfo1 Hfo2] end.
  repeat split; try assumption; try lia.
Qed.

Lemma fieldOk_pointer_range (dwc pc : Z) (k : nat) (ft : FieldInfo)
  (f : capnp.Field) (ec : capnp.Type_) :
  fieldOk dwc pc k ft f = true -> capnp.getType f = capnp.LIST ec ->
  0 <= capnp.getOffset f /\ capnp.getOffset f * 64 + 64 <= pc * 64.
Proof.
  unfold fieldOk, fieldRange. intros H Ht. rewrite Ht in H. cbn in H.
  boolprop. lia.
Qed.

Lemma wrap32_small (x : Z) : 0 <= x < 2 ^ 32 -> wrap32 x = x.
Proof. intros H. unfold wrap32. apply Z.mod_small. exact H. Qed.

(** The assertions [decodeList] adds for a list-typed field. *)
Lemma decodeList_asserts (cs : capnp.StructReader) (msg : list bool)
  (e : Ty) (n : N) (f : capnp.Field) (ec : capnp.Type_) (ps : Slice)
  (asserts asserts' : AssertBuilder) (v : GasketComponent) :
  bitSlice msg (64 + capnp.getDataWordCount cs * 64) ps ->
  Z.of_N (sliceSize ps) = capnp.getPointerCount cs * 64 ->
  capnp.getPointerCount cs < 2 ^ 16 ->
  capnp.getType f = capnp.LIST ec ->
  0 <= capnp.getOffset f ->
  capnp.getOffset f * 64 + 64 <= capnp.getPointerCount cs * 64 ->
  decodeList e n f ps asserts = Some (v, asserts') ->
  exists code,
    optBind (bits ec) expectedElemSizeFieldOf = Some code
    /\ asserts'
       = asserts
         ++ [assertOn comb.eq 2 (sliceBits (pointerOffset cs f) 2 msg) 1;
             assertOn comb.eq 3 (sliceBits (pointerOffset cs f + 32) 3 msg) code;
             assertOn comb.ule 29 (sliceBits (pointerOffset cs f + 35) 29 msg)
                      (Z.of_N n)].
Proof.
  intros Hps Hsz Hpc Hty Hoff Hfit H. unfold decodeList in H. rewrite Hty in H.
  rewrite wrap32_small in H by lia.
  destruct (@slice_spec msg _ ps (capnp.getOffset f * 64) 64 Hps)
    as (ptr & Eptr & Hptr & Hpsz & _); [lia|unfold two64; lia|lia|].
  rewrite Eptr in H. cbn [optBind] in H.
  assert (Hsz64 : Z.of_N (sliceSize ptr) = 64) by (rewrite Hpsz; reflexivity).
  destruct (@slice_spec msg _ ptr 0 2 Hptr)
    as (s1 & E1 & (_ & Ht1 & Hb1 & _) & Hs1 & _); [lia|unfold two64; lia|lia|].
  destruct (@slice_spec msg _ ptr 2 30 Hptr)
    as (s2 & E2 & _); [lia|unfold two64; lia|lia|].
  destruct (@slice_spec msg _ ptr 32 3 Hptr)
    as (s3 & E3 & (_ & Ht3 & Hb3 & _) & Hs3 & _); [lia|unfold two64; lia|lia|].
  destruct (@slice_spec msg _ ptr 35 29 Hptr)
    as (s4 & E4 & (_ & Ht4 & Hb4 & _) & Hs4 & _); [lia|unfold two64; lia|lia|].
  rewrite E1 in H. cbn [optBind] in H. rewrite E2 in H. cbn [optBind] in H.
  rewrite E3 in H. cbn [optBind] in H. rewrite E4 in H. cbn [optBind] in H.
  unfold assertEqual in H.
  rewrite (@assertPred_bitArray _ _ _ _ _ Ht1) in H by (rewrite Hs1; lia).
  cbn [optBind] in H.
  optStep H eb Eeb. optStep H code Ecode.
  rewrite (@assertPred_bitArray _ _ _ _ _ Ht3) in H by (rewrite Hs3; lia).
  cbn [optBind] in H.
  rewrite (@assertPred_bitArray _ _ _ _ _ Ht4) in H by (rewrite Hs4; lia).
  cbn [optBind] in H.
  exists code. split; [exact Ecode|].
  assert (Hext : exists rest,
             asserts' = (((asserts
               ++ [assertOn comb.eq (Z.of_N (sliceSize s1)) (gcBits (sliceValue s1)) 1])
               ++ [assertOn comb.eq (Z.of_N (sliceSize s3)) (gcBits (sliceValue s3)) code])
               ++ [assertOn comb.ule (Z.of_N (sliceSize s4)) (gcBits (sliceValue s4))
                            (Z.of_N n)]) ++ rest /\ rest = []).
  { optStep H po Epo. optStep H aptr Eaptr. optStep H ls Els.
    destruct (negb (isIntegerType e)); [discriminate|].
    optStep H arr Earr. destruct (Ty_eqb _ _).
    - inversion H. exists []. rewrite app_nil_r. auto.
    - optStep H av Eav. optStep H ar Ear. inversion H.
      exists []. rewrite app_nil_r. auto. }
  destruct Hext as (rest & -> & ->). rewrite app_nil_r, <- !app_assoc.
  cbn [app]. rewrite Hb1, Hb3, Hb4, Hs1, Hs3, Hs4. unfold pointerOffset.
  change (Z.of_N (Z.to_N 2)) with 2. change (Z.of_N (Z.to_N 3)) with 3.
  change (Z.of_N (Z.to_N 29)) with 29. rewrite Z.add_0_r. reflexivity.
Qed.

(** The assertions the loop over the fields adds: those of the list-typed
    fields, in field order. *)
Lemma decodeFields_asserts (cs : capnp.StructReader) (msg : list bool)
  (fts : list FieldInfo) (ds ps : Slice) (fields : list capnp.Field) :
  bitSlice msg (64 + capnp.getDataWordCount cs * 64) ps ->
  Z.of_N (sliceSize ps) = capnp.getPointerCount cs * 64 ->
  capnp.getPointerCount cs < 2 ^ 16 ->
  Forall (fun f => forall ec, capnp.getType f = capnp.LIST ec ->
                              0 <= capnp.getOffset f
                              /\ capnp.getOffset f * 64 + 64
                                 <= capnp.getPointerCount cs * 64) fields ->
  forall asserts asserts' vs,
    decodeFields fts fields ds ps asserts = Some (vs, asserts') ->
    asserts' = asserts ++ flat_map (listPointerAsserts cs msg fts) fields.
Proof.
  intros Hps Hsz Hpc Hall. induction Hall as [|f fields Hf Hall IH];
    intros asserts asserts' vs H.
  - inversion H. cbn [flat_map]. rewrite app_nil_r. reflexivity.
  - cbn [decodeFields] in H. optStep H ft Eft. optStep H va Eva.
    optStep H rest Erest. destruct va as [v a1], rest as [vs' a2].
    cbn [fst snd] in *. inversion H; subst. clear H.
    rewrite (IH _ _ _ Erest). cbn [flat_map]. rewrite app_assoc. f_equal.
    unfold listPointerAsserts. rewrite Eft. destruct ft as [nm t].
    cbn [snd] in Eva. unfold decodeField in Eva.
    destruct t as [w sg|e n| | | |]; try discriminate.
    + optStep Eva fb Efb. optStep Eva sl Esl. inversion Eva.
      rewrite app_nil_r. reflexivity.
    + destruct (capnp.getType f) as [| | | | | | | | | | | | | |ec| | | |] eqn:Ety;
        try (unfold decodeList in Eva; rewrite Ety in Eva; discriminate).
      destruct (Hf ec eq_refl) as [Ho Hfit].
      destruct (@decodeList_asserts cs msg e n f ec ps _ _ _
                                    Hps Hsz Hpc Ety Ho Hfit Eva)
        as (code & Ecode & ->).
      rewrite Ecode. reflexivity.
Qed.

Lemma expectedElemSizeFieldOf_range (w code : Z) :
  expectedElemSizeFieldOf w = Some code -> 0 <= code < 2 ^ 3.
Proof.
  unfold expectedElemSizeFieldOf.
  repeat match goal with
         | |- context [if ?c then _ else _] => destruct c
         end; intros H; inversion H; subst; simpl; lia.
Qed.

(** C8.  The body of every generated decoder holds one always block, at the
    positive edge of [clk] (block argument 0), with one [if valid] (block
    argument 1) around all assertions.  These are the three assertions on
    the root pointer, followed, for every list-typed field in field order,
    by the three assertions on that field's pointer.  The root assertions
    hold only if the type tag is the struct tag and the two counts are the
    schema's; the assertions of a list field hold exactly when the tag is
    the list tag, the element size code is the expected one and the length
    is at most the capacity. *)
Theorem decoder_assertions (ts : TypeSchemaImpl) (nm : string)
  (cs : capnp.StructReader) (clk valid op0 msg : GasketComponent)
  (m : RTLModuleOp) (n : N) (b : ModuleBody) :
  buildDecoder ts nm cs clk valid op0 = Some m ->
  layoutOk (fieldTypes ts) cs = true ->
  gcType msg = ArrayType i1 n -> Zlen (gcBits msg) = Z.of_N n ->
  64 * (1 + capnp.getDataWordCount cs + capnp.getPointerCount cs) <= Z.of_N n ->
  body m msg = Some b ->
  always b
  = [sv.mkAlways sv.AtPosEdge 0
       [sv.mkIf 1
          (rootPointerAsserts cs (gcBits msg)
           ++ flat_map (listPointerAsserts cs (gcBits msg) (fieldTypes ts))
                       (capnp.getFields cs))]]
  /\ nth_error (ports m) 0 = Some (mkPort "clk" INPUT (gcType clk) 0)
  /\ nth_error (ports m) 1 = Some (mkPort "valid" INPUT (gcType valid) 1)
  /\ (forallb sv.holds (rootPointerAsserts cs (gcBits msg)) = true ->
      ZofBits (sliceBits 0 2 (gcBits msg)) = 0
      /\ ZofBits (sliceBits 32 16 (gcBits msg)) = capnp.getDataWordCount cs
      /\ ZofBits (sliceBits 48 16 (gcBits msg)) = capnp.getPointerCount cs)
  /\ (forall f fnm e capacity ec code,
         In f (capnp.getFields cs) ->
         nth_error (fieldTypes ts) (capnp.getCodeOrder f)
         = Some (fnm, ArrayType e capacity) ->
         capnp.getType f = capnp.LIST ec ->
         optBind (bits ec) expectedElemSizeFieldOf = Some code ->
         (capacity < 2 ^ 29)%N ->
         let p := pointerOffset cs f in
         length (listPointerAsserts cs (gcBits msg) (fieldTypes ts) f) = 3%nat
         /\ (forallb sv.holds
                     (listPointerAsserts cs (gcBits msg) (fieldTypes ts) f)
             = true <->
             ZofBits (sliceBits p 2 (gcBits msg)) = 1
             /\ ZofBits (sliceBits (p + 32) 3 (gcBits msg)) = code
             /\ ZofBits (sliceBits (p + 35) 29 (gcBits msg))
                <= Z.of_N capacity)).
Proof.
  intros Hbuild Hok Ht Hlen Hfit Hb.
  destruct (layoutOk_fields _ _ Hok) as (Hdwc & Hpc & Hfields & _ & _).
  assert (Hn : n <> 0%N) by lia.
  destruct (buildDecoder_body _ _ _ _ _ _ Hbuild) as (_ & Hports & Hbody).
  destruct (Hbody msg b Hb) as (ret & asserts & Hdec & ->).
  destruct (decoderBody_root _ _ _ Ht Hlen Hn Hdec)
    as (_ & _ & operand & ds & ps & fvs & Eop & _ & Eps & Hdf & _).
  destruct (Slice_root_spec msg Ht Hlen) as (operand' & Eop' & Hop & Hsz & _).
  rewrite Eop in Eop'. inversion Eop'; subst operand'. clear Eop'.
  destruct (@slice_spec (gcBits msg) 0 operand
              (64 + capnp.getDataWordCount cs * 64)
              (capnp.getPointerCount cs * 64) Hop)
    as (ps' & Eps' & Hps & Hpsz & _);
    [lia|unfold two64; lia|rewrite Hsz; lia|].
  rewrite Eps in Eps'. inversion Eps'; subst ps'. clear Eps'.
  assert (Hall : Forall (fun f => forall ec,
                           capnp.getType f = capnp.LIST ec ->
                           0 <= capnp.getOffset f
                           /\ capnp.getOffset f * 64 + 64
                              <= capnp.getPointerCount cs * 64)
                        (capnp.getFields cs)).
  { clear - Hfields. induction Hfields as [|ft f fts fs Hf _ IH];
      constructor; [|exact IH].
    intros ec Hec. eapply fieldOk_pointer_range; eassumption. }
  assert (Hpsz' : Z.of_N (sliceSize ps) = capnp.getPointerCount cs * 64)
    by (rewrite Hpsz; lia).
  rewrite (@decodeFields_asserts cs (gcBits msg) (fieldTypes ts) ds ps
             (capnp.getFields cs) Hps Hpsz' (proj2 Hpc) Hall _ _ _ Hdf).
  split; [reflexivity|]. rewrite Hports.
  split; [reflexivity|]. split; [reflexivity|]. split.
  - unfold rootPointerAsserts. cbn [forallb]. intros H. boolprop.
    repeat match goal with
           | H : sv.holds (assertOn comb.eq _ _ _) = true |- _ =>
               rewrite holds_assertOn_eq in H by lia; apply Z.eqb_eq in H
           end.
    match goal with
    | H : ZofBits (sliceBits 0 32 _) = 0 |- _ =>
        change 32 with (2 + 30) in H; rewrite sliceBits_split in H by lia;
        rewrite ZofBits_app in H
    end.
    pose proof (ZofBits_nonneg (sliceBits 0 2 (gcBits msg))).
    pose proof (ZofBits_nonneg (sliceBits (0 + 2) 30 (gcBits msg))).
    assert (0 < 2 ^ Zlen (sliceBits 0 2 (gcBits msg)))
      by (apply Z.pow_pos_nonneg; [lia|apply Zlen_nonneg]).
    repeat split; try assumption. nia.
  - intros f fnm e capacity ec code Hin Hft Hty Hcode Hcap p.
    unfold listPointerAsserts. rewrite Hft, Hty, Hcode.
    split; [reflexivity|].
    assert (Hcr : 0 <= code < 2 ^ 3).
    { destruct (bits ec) as [w|]; [|discriminate].
      eapply expectedElemSizeFieldOf_range. exact Hcode. }
    cbn [forallb].
    rewrite !holds_assertOn_eq, holds_assertOn_ule by lia.
    rewrite andb_true_r, !andb_true_iff, !Z.eqb_eq, Z.leb_le.
    fold p. tauto.
Qed.

(** *** The module cache *)

Section CacheProperties.

Variable printType : Ty -> string.
Variable hash_33to64_bytes : string -> Z -> Z -> Z.
Variable esiCosimSchemaVersion : Z.
Variable parseFromDirectory : string -> list (Z * capnp.StructReader).

Let serve' :=
  serve printType hash_33to64_bytes esiCosimSchemaVersion parseFromDirectory.
Let serveAll' :=
  serveAll printType hash_33to64_bytes esiCosimSchemaVersion parseFromDirectory.

(** A request either hits the cache and changes nothing, or misses it and
    generates one module, appended to the top-level module and cached. *)
Lemma serve_cases (r : Request) (c c' : Compilation) (inst : InstanceOp) :
  serve' r c = Some (inst, c') ->
  (findImpl (reqKey r) (implMods (reqKind r) c) = Some (moduleRef inst)
   /\ c' = c)
  \/ (findImpl (reqKey r) (implMods (reqKind r) c) = None
      /\ moduleRef inst = length (topMod c)
      /\ (exists m, topMod c' = topMod c ++ [m])
      /\ implMods (reqKind r) c'
         = (reqKey r, length (topMod c)) :: implMods (reqKind r) c
      /\ implMods (otherKind (reqKind r)) c'
         = implMods (otherKind (reqKind r)) c).
Proof.
  unfold serve', serve, reqKey.
  destruct (reqKind r); cbn [implMods otherKind];
    [unfold TypeSchema_buildEncoder | unfold TypeSchema_buildDecoder];
    intros H; optStep H nm Enm;
    match type of H with
    | context [findImpl ?k ?m] => destruct (findImpl k m) as [h|] eqn:Ef
    end.
  - cbn [optBind fst snd] in H. optStep H md Emd. inversion H; subst.
    left. split; reflexivity.
  - optStep H hc Ehc. optStep Ehc sch Esch. optStep Ehc md Emd.
    inversion Ehc; subst. cbn [fst snd] in H. optStep H md' Emd'.
    inversion H; subst. right. cbn.
    repeat split; try reflexivity. eexists; reflexivity.
  - cbn [optBind fst snd] in H. optStep H md Emd. inversion H; subst.
    left. split; reflexivity.
  - optStep H hc Ehc. optStep Ehc sch Esch. optStep Ehc md Emd.
    inversion Ehc; subst. cbn [fst snd] in H. optStep H md' Emd'.
    inversion H; subst. right. cbn.
    repeat split; try reflexivity. eexists; reflexivity.
Qed.

Lemma findImpl_cons (key k : Ty) (h : nat) (m : list (Ty * nat)) :
  findImpl key ((k, h) :: m)
  = if Ty_eqb k key then Some h else findImpl key m.
Proof. reflexivity. Qed.

Lemma Kind_cases (k k' : Kind) : k' = k \/ k' = otherKind k.
Proof. destruct k, k'; auto. Qed.

Lemma otherKind_neq (k : Kind) : otherKind k <> k.
Proof. destruct k; discriminate. Qed.

(** Serving a request keeps the cache invariant, keeps every cache entry,
    and leaves the request's key mapped to the instantiated module. *)
Lemma serve_inv (r : Request) (c c' : Compilation) (inst : InstanceOp) :
  cacheInv c ->
  serve' r c = Some (inst, c') ->
  cacheInv c'
  /\ findImpl (reqKey r) (implMods (reqKind r) c') = Some (moduleRef inst)
  /\ (forall k key h, findImpl key (implMods k c) = Some h ->
                      findImpl key (implMods k c') = Some h)
  /\ (forall k key h, findImpl key (implMods k c') = Some h ->
                      findImpl key (implMods k c) = Some h
                      \/ (k = reqKind r /\ key = reqKey r
                          /\ h = moduleRef inst)).
Proof.
  intros (Hlt & Hinj & Hsurj) Hs.
  destruct (@serve_cases _ _ _ _ Hs) as [[Hhit ->]|(Hmiss & Href & [m Htop] & Hk & Ho)].
  - split; [exact (conj Hlt (conj Hinj Hsurj))|]. split; [exact Hhit|].
    split; auto.
  - assert (Hfind : forall k key,
               findImpl key (implMods k c')
               = if match k, reqKind r with
                    | Encoder, Encoder | Decoder, Decoder => true
                    | _, _ => false
                    end && Ty_eqb (reqKey r) key
                 then Some (length (topMod c))
                 else findImpl key (implMods k c)).
    { intros k key. destruct (Kind_cases (reqKind r) k) as [-> | ->].
      - rewrite Hk, findImpl_cons. destruct (reqKind r); reflexivity.
      - rewrite Ho. destruct (reqKind r); reflexivity. }
    assert (Hlen : length (topMod c') = S (length (topMod c))).
    { rewrite Htop, length_app. simpl. lia. }
    split; [split; [|split]|split; [|split]].
    + intros k key h. rewrite Hfind, Hlen.
      destruct (_ && _).
      * intros E. inversion E. lia.
      * intros E. apply Hlt in E. lia.
    + intros k1 key1 k2 key2 h. rewrite !Hfind.
      destruct (match k1, reqKind r with
                | Encoder, Encoder | Decoder, Decoder => true
                | _, _ => false
                end && Ty_eqb (reqKey r) key1) eqn:E1;
        destruct (match k2, reqKind r with
                  | Encoder, Encoder | Decoder, Decoder => true
                  | _, _ => false
                  end && Ty_eqb (reqKey r) key2) eqn:E2;
        intros F1 F2.
      * apply andb_true_iff in E1, E2. destruct E1 as [K1 T1], E2 as [K2 T2].
        apply Ty_eqb_eq in T1, T2. subst.
        split; [|reflexivity]. destruct k1, k2, (reqKind r); try discriminate;
          reflexivity.
      * inversion F1; subst. apply Hlt in F2. lia.
      * inversion F2; subst. apply Hlt in F1. lia.
      * eapply Hinj; eassumption.
    + intros h Hh. rewrite Hlen in Hh.
      destruct (Nat.eq_dec h (length (topMod c))) as [->|Hne].
      * exists (reqKind r), (reqKey r). rewrite Hfind, Ty_eqb_refl.
        destruct (reqKind r); reflexivity.
      * destruct (Hsurj h) as (k & key & Hf); [lia|].
        exists k, key. rewrite Hfind.
        destruct (_ && _) eqn:E; [|exact Hf].
        apply andb_true_iff in E. destruct E as [K T].
        apply Ty_eqb_eq in T. subst key.
        assert (k = reqKind r) by (destruct k, (reqKind r); congruence).
        subst k. congruence.
    + rewrite Hfind, Ty_eqb_refl, Href. destruct (reqKind r); reflexivity.
    + intros k key h Hf. rewrite Hfind.
      destruct (_ && _) eqn:E; [|exact Hf].
      apply andb_true_iff in E. destruct E as [K T].
      apply Ty_eqb_eq in T. subst key.
      assert (k = reqKind r) by (destruct k, (reqKind r); congruence).
      subst k. congruence.
    + intros k key h. rewrite Hfind.
      destruct (_ && _) eqn:E; [|auto].
      apply andb_true_iff in E. destruct E as [K T].
      apply Ty_eqb_eq in T. subst key.
      assert (k = reqKind r) by (destruct k, (reqKind r); congruence).
      intros F. inversion F; subst. right. auto.
Qed.

Lemma serveAll_inv (rs : list Request) :
  forall (c c' : Compilation) (insts : list InstanceOp),
    cacheInv c ->
    serveAll' rs c = Some (insts, c') ->
    cacheInv c'
    /\ length insts = length rs
    /\ (forall k key h, findImpl key (implMods k c) = Some h ->
                        findImpl key (implMods k c') = Some h)
    /\ (forall i r inst,
           nth_error rs i = Some r -> nth_error insts i = Some inst ->
           findImpl (reqKey r) (implMods (reqKind r) c')
           = Some (moduleRef inst))
    /\ (forall k key h, findImpl key (implMods k c') = Some h ->
                        findImpl key (implMods k c) = Some h
                        \/ exists i r inst,
                            nth_error rs i = Some r
                            /\ nth_error insts i = Some inst
                            /\ reqKind r = k /\ reqKey r = key
                            /\ moduleRef inst = h).
Proof.
  induction rs as [|r rs IH]; intros c c' insts Hinv H.
  - inversion H; subst. split; [exact Hinv|]. split; [reflexivity|].
    split; [auto|]. split; [|auto].
    intros [|i] r inst Hr; discriminate.
  - unfold serveAll' in H. cbn [serveAll] in H.
    optStep H ic Eic. optStep H more Emore.
    destruct ic as [inst0 c1], more as [insts1 c2]. cbn [fst snd] in *.
    inversion H; subst. clear H.
    destruct (@serve_inv _ _ _ _ Hinv Eic) as (Hinv1 & Hmap & Hkeep & Hnew).
    destruct (IH _ _ _ Hinv1 Emore) as (Hinv2 & Hlen & Hkeep2 & Hmap2 & Hnew2).
    split; [exact Hinv2|]. split; [simpl; lia|]. split; [auto|]. split.
    + intros [|i] r' inst' Hr Hi; cbn [nth_error] in Hr, Hi.
      * inversion Hr; inversion Hi; subst. apply Hkeep2. exact Hmap.
      * eapply Hmap2; eassumption.
    + intros k key h Hf. destruct (Hnew2 _ _ _ Hf) as [Hold|(i & r' & inst' & Hr & Hi & Hrest)].
      * destruct (Hnew _ _ _ Hold) as [Hold'|(-> & -> & ->)]; [left; exact Hold'|].
        right. exists 0%nat, r, inst0. cbn [nth_error]. auto.
      * right. exists (S i), r', inst'. cbn [nth_error]. auto.
Qed.

Lemma new_cacheInv : cacheInv Compilation_new.
Proof.
  split; [|split].
  - intros [] key h H; discriminate.
  - intros [] key1 k2 key2 h H; discriminate.
  - intros h H. simpl in H. lia.
Qed.

(** C5.  In one compilation, two requests get instances of the same module
    exactly when they ask for the same kind of module (encoder or decoder)
    for the same type; every generated module is the one instantiated for
    some request, so each type's encoder (decoder) is generated at most
    once, however many requests there are. *)
Theorem module_cache_shares_per_type (rs : list Request)
  (insts : list InstanceOp) (c : Compilation) :
  serveAll' rs Compilation_new = Some (insts, c) ->
  length insts = length rs
  /\ (forall i j ri rj ii ij,
         nth_error rs i = Some ri -> nth_error rs j = Some rj ->
         nth_error insts i = Some ii -> nth_error insts j = Some ij ->
         (moduleRef ii = moduleRef ij <->
          reqKind ri = reqKind rj /\ reqKey ri = reqKey rj))
  /\ (forall h, (h < length (topMod c))%nat ->
                exists i inst, nth_error insts i = Some inst
                               /\ moduleRef inst = h)
  /\ (forall i inst, nth_error insts i = Some inst ->
                     (moduleRef inst < length (topMod c))%nat).
Proof.
  intros H.
  destruct (@serveAll_inv _ _ _ _ new_cacheInv H)
    as ((Hlt & Hinj & Hsurj) & Hlen & _ & Hmap & Hnew).
  split; [exact Hlen|]. split; [|split].
  - intros i j ri rj ii ij Hri Hrj Hii Hij.
    pose proof (Hmap _ _ _ Hri Hii) as Fi.
    pose proof (Hmap _ _ _ Hrj Hij) as Fj.
    split.
    + intros E. rewrite E in Fi. eapply Hinj; eassumption.
    + intros [Ek Ekey]. rewrite Ek, Ekey in Fi. congruence.
  - intros h Hh. destruct (Hsurj h Hh) as (k & key & Hf).
    destruct (Hnew _ _ _ Hf) as [Hold|(i & r & inst & _ & Hi & _ & _ & Hm)].
    + destruct k; discriminate.
    + exists i, inst. auto.
  - intros i inst Hi.
    assert (Hr : exists r, nth_error rs i = Some r).
    { destruct (nth_error rs i) as [r|] eqn:E; [eauto|].
      apply nth_error_None in E.
      assert (Hlti : (i < length insts)%nat)
        by (apply nth_error_Some; congruence).
      lia. }
    destruct Hr as [r Hr]. eapply Hlt. eapply Hmap; eassumption.
Qed.

End CacheProperties.

(** *** The encoder module *)


(** *** Running the encoder: sequences of insertions *)

Lemma insert_succeeds (st : CapnpSegmentBuilder) (offset : Z)
  (val : GasketComponent) :
  segInv st -> expectedSize st < two64 ->
  fragFits (expectedSize st) (offset, val) ->
  (forall e, In e (segmentValues st) ->
             stop e < offset \/ offset + GasketComponent_size val <= start e) ->
  exists st', insert offset val st = Some (tt, st').
Proof.
  intros Hinv HE (H0 & Hw & Hfit) Hfree. cbn [fst snd] in *.
  assert (Hoff : 0 <= offset < two64).
  { pose proof (GasketComponent_size_range val). lia. }
  pose proof (insert_spec val Hinv Hoff HE) as S. cbv zeta in S.
  destruct (insert offset val st) as [[[] st']|]; [eauto|].
  exfalso. destruct S as [S|[S|(e & He & S1 & S2)]]; try lia.
  specialize (Hfree e He). lia.
Qed.

Lemma fragsDisjoint_app (a b : list (Z * GasketComponent)) :
  fragsDisjoint (a ++ b)
  <-> fragsDisjoint a /\ fragsDisjoint b
      /\ forall f g, In f a -> In g b -> fragDisjoint f g.
Proof.
  induction a as [|x a IH]; cbn [app fragsDisjoint].
  - split.
    + intros H. split; [exact I|]. split; [exact H|]. intros f g [].
    + intros (_ & H & _). exact H.
  - rewrite IH, Forall_app, !Forall_forall. split.
    + intros ((Ha & Hb) & Hda & Hdb & Hab).
      split; [split; assumption|]. split; [assumption|].
      intros f g [<-|Hf] Hg; auto.
    + intros ((Ha & Hda) & Hdb & Hab).
      split; [split; [assumption|]|].
      * intros g Hg. apply Hab; [left; reflexivity|exact Hg].
      * split; [assumption|]. split; [assumption|].
        intros f g Hf Hg. apply Hab; [right; exact Hf|exact Hg].
Qed.

Lemma fragDisjoint_sym (f g : Z * GasketComponent) :
  fragDisjoint f g -> fragDisjoint g f.
Proof. unfold fragDisjoint. tauto. Qed.

(** Pairwise disjoint fragments that fit the segment and miss what is
    stored go in, in any state that satisfies the invariant. *)
Lemma insertAll_succeeds (frags : list (Z * GasketComponent)) :
  forall st,
    segInv st -> expectedSize st < two64 ->
    Forall (fragFits (expectedSize st)) frags ->
    fragsDisjoint frags ->
    (forall f e, In f frags -> In e (segmentValues st) ->
                 stop e < fst f
                 \/ fst f + GasketComponent_size (snd f) <= start e) ->
    exists st', insertAll frags st = Some (tt, st').
Proof.
  induction frags as [|f frags IH]; intros st Hinv HE Hfit Hdis Hfree.
  - exists st. reflexivity.
  - inversion Hfit as [|? ? Hf Hfits]; subst.
    destruct Hdis as [Hfd Hdis].
    destruct (@insert_succeeds st (fst f) (snd f) Hinv HE) as [st1 Hins].
    { destruct f; exact Hf. }
    { intros e He. apply (Hfree f e); [left; reflexivity|exact He]. }
    rewrite insertAll_cons, Hins.
    assert (Hoff : 0 <= fst f < two64).
    { destruct Hf as (H0 & Hw & Hle). lia. }
    pose proof (insert_spec (snd f) Hinv Hoff HE) as S. cbv zeta in S.
    rewrite Hins in S. destruct S as (_ & _ & _ & Hm & _ & HE1 & Hinv1).
    apply IH; try assumption; try lia.
    + rewrite HE1. exact Hfits.
    + intros g e Hg He. rewrite Hm in He. apply insert_In in He.
      destruct He as [->|He].
      * cbn [start stop]. rewrite Forall_forall in Hfd.
        specialize (Hfd g Hg). unfold fragDisjoint in Hfd. lia.
      * apply Hfree; [right; exact Hg|exact He].
Qed.

Lemma insert_withMessageSize (ms : Z) (offset : Z) (val : GasketComponent)
  (st : CapnpSegmentBuilder) :
  insert offset val (withMessageSize ms st)
  = match insert offset val st with
    | Some (u, st') => Some (u, withMessageSize ms st')
    | None => None
    end.
Proof.
  unfold insert, withMessageSize. cbn [segmentValues expectedSize messageSize].
  destruct (IntervalMap.overlaps _ _ _) as [[|]|]; try reflexivity.
  destruct (_ <? _); reflexivity.
Qed.

Lemma insertAll_withMessageSize (ms : Z) (frags : list (Z * GasketComponent)) :
  forall st,
    insertAll frags (withMessageSize ms st)
    = match insertAll frags st with
      | Some (u, st') => Some (u, withMessageSize ms st')
      | None => None
      end.
Proof.
  induction frags as [|f frags IH]; intros st.
  - reflexivity.
  - rewrite !insertAll_cons, insert_withMessageSize.
    destruct (insert (fst f) (snd f) st) as [[u st1]|]; [|reflexivity].
    apply IH.
Qed.

Lemma insertAll_app (a b : list (Z * GasketComponent)) :
  forall st,
    insertAll (a ++ b) st
    = match insertAll a st with
      | Some (_, st') => insertAll b st'
      | None => None
      end.
Proof.
  induction a as [|f a IH]; intros st.
  - reflexivity.
  - cbn [app]. rewrite !insertAll_cons.
    destruct (insert (fst f) (snd f) st) as [[u st1]|]; [|reflexivity].
    apply IH.
Qed.

Lemma forEach_app {A : Type} (a b : list A) (body : A -> Seg unit) :
  forall st,
    forEach (a ++ b) body st
    = match forEach a body st with
      | Some (_, st') => forEach b body st'
      | None => None
      end.
Proof.
  induction a as [|x a IH]; intros st.
  - reflexivity.
  - cbn [app forEach]. unfold bind.
    destruct (body x st) as [[u st1]|]; [|reflexivity].
    apply IH.
Qed.

Lemma forEach_insertAll {A : Type} (l : list A) (g : A -> Z * GasketComponent)
  (body : A -> Seg unit) :
  (forall a st, In a l -> body a st = insert (fst (g a)) (snd (g a)) st) ->
  forall st, forEach l body st = insertAll (map g l) st.
Proof.
  intros H. induction l as [|x l IH]; intros st.
  - reflexivity.
  - cbn [map forEach]. rewrite insertAll_cons. unfold bind.
    rewrite H by (left; reflexivity).
    destruct (insert _ _ st) as [[[] st1]|]; [|reflexivity].
    apply IH. intros a st' Ha. apply H. right. exact Ha.
Qed.

(** *** The capnp types of the fields *)

Lemma capnp_int_type (w : N) (sg : Signedness) (ct : capnp.Type_) :
  (1 <= w <= 64)%N ->
  typeMatches (IntegerType w sg) ct = true ->
  exists cb enc,
    bits ct = Some cb /\ bitsEncoding ct = Some enc
    /\ expectedElemSizeFieldOf cb = Some enc
    /\ isPointerType ct = false
    /\ Z.of_N w <= cb
    /\ (cb = 1 \/ cb = 8 \/ cb = 16 \/ cb = 32 \/ cb = 64).
Proof.
  intros Hw. unfold typeMatches. cbn [emitCapnpType].
  destruct (Z.of_N w =? 0) eqn:E0; [boolprop; lia|].
  destruct (Z.of_N w =? 1) eqn:E1;
    [|destruct (Z.of_N w <=? 8) eqn:E8;
      [|destruct (Z.of_N w <=? 16) eqn:E16;
        [|destruct (Z.of_N w <=? 32) eqn:E32;
          [|destruct (Z.of_N w <=? 64) eqn:E64; [|boolprop; lia]]]]];
    boolprop; destruct sg;
    (destruct ct as [| | | | | | | | | | | | | |ec| | | |]; cbn;
     try discriminate; intros _;
     eexists; eexists;
     (split; [reflexivity|]); (split; [reflexivity|]);
     (split; [reflexivity|]); (split; [reflexivity|]); split; [lia|tauto]).
Qed.

Lemma capnp_list_type (w n : N) (sg : Signedness) (ct : capnp.Type_) :
  (1 <= w <= 64)%N ->
  typeMatches (ArrayType (IntegerType w sg) n) ct = true ->
  exists ec, ct = capnp.LIST ec /\ typeMatches (IntegerType w sg) ec = true.
Proof.
  intros Hw. unfold typeMatches. cbn [emitCapnpType].
  destruct (Z.of_N w =? 0) eqn:E0; [boolprop; lia|].
  destruct (Z.of_N w =? 1) eqn:E1;
    [|destruct (Z.of_N w <=? 8) eqn:E8;
      [|destruct (Z.of_N w <=? 16) eqn:E16;
        [|destruct (Z.of_N w <=? 32) eqn:E32;
          [|destruct (Z.of_N w <=? 64) eqn:E64; [|boolprop; lia]]]]];
    boolprop; destruct sg;
    (destruct ct as [| | | | | | | | | | | | | |ec| | | |]; cbn;
     try discriminate; intros H; exists ec; split; [reflexivity|];
     destruct ec as [| | | | | | | | | | | | | |ec'| | | |];
     cbn in H |- *; try discriminate H; reflexivity).
Qed.

Lemma rangesDisjoint_pointers (f g : capnp.Field) (ec ec' : capnp.Type_) :
  capnp.getType f = capnp.LIST ec -> capnp.getType g = capnp.LIST ec' ->
  capnp.getOffset f = 0 -> capnp.getOffset g = 0 ->
  rangesDisjoint f g = false.
Proof.
  intros Hf Hg Of Og. unfold rangesDisjoint, fieldRange.
  rewrite Hf, Hg, Of, Og. reflexivity.
Qed.

(** Every field of a supported type under a valid layout with at most one
    pointer is an integer field or the one list field. *)
Lemma fields_classified (cs : capnp.StructReader) (fts : list FieldInfo)
  (fvals : list GasketComponent) :
  layoutOk fts cs = true ->
  capnp.getPointerCount cs <= 1 ->
  forallb (fun ft => rtField (snd ft)) fts = true ->
  Forall2 (fun ft v => gcType v = snd ft
                       /\ Zlen (gcBits v) = getBitWidth (snd ft)) fts fvals ->
  Forall (fun f => intField cs fts fvals f \/ listField cs fts fvals f)
         (capnp.getFields cs).
Proof.
  intros Hok Hpc Hrt Hvals.
  destruct (layoutOk_fields _ _ Hok) as (Hdwc & Hpcr & Hfields & Hco & _).
  apply Forall_forall. intros f Hin.
  apply In_nth_error in Hin. destruct Hin as [i Hi].
  pose proof (Hco _ _ Hi) as Hcoi.
  assert (Hft : exists ft v,
             nth_error fts i = Some ft /\ nth_error fvals i = Some v
             /\ fieldOk (capnp.getDataWordCount cs) (capnp.getPointerCount cs)
                        (capnp.getCodeOrder f) ft f = true
             /\ gcType v = snd ft /\ Zlen (gcBits v) = getBitWidth (snd ft)
             /\ rtField (snd ft) = true).
  { clear Hcoi Hco Hok. revert i Hi fvals Hvals Hrt.
    generalize dependent (capnp.getFields cs). intros fs Hfields.
    induction Hfields as [|ft g fts' fs' Hg _ IH]; intros i Hi fvals Hvals Hrt.
    - destruct i; discriminate.
    - inversion Hvals as [|? v ? fvals' Hv Hvals']; subst.
      cbn [forallb] in Hrt. apply andb_true_iff in Hrt.
      destruct Hrt as [Hrt1 Hrt2].
      destruct i as [|i]; cbn [nth_error] in *.
      + inversion Hi; subst. exists ft, v. tauto.
      + apply (IH i Hi fvals' Hvals' Hrt2). }
  destruct Hft as ([nm t] & v & Hfti & Hvi & Hfok & Htv & Hlen & Hrtf).
  cbn [snd] in *. rewrite <- Hcoi in Hfti, Hvi.
  unfold rtField in Hrtf. apply orb_true_iff in Hrtf.
  unfold fieldOk in Hfok. cbn [snd] in Hfok.
  apply andb_true_iff in Hfok. destruct Hfok as [Hfok Hrange].
  apply andb_true_iff in Hfok. destruct Hfok as [Hfok Hmatch].
  boolprop.
  destruct Hrtf as [Hint|Harr].
  - left. destruct t as [w sg| | | | |]; try discriminate.
    cbn [rtInt] in Hint. apply andb_true_iff in Hint.
    destruct Hint as [Hw1 Hw2]. apply N.leb_le in Hw1, Hw2.
    destruct (@capnp_int_type w sg (capnp.getType f) (conj Hw1 Hw2) Hmatch)
      as (cb & enc & Hbits & _ & _ & Hptr & Hwcb & Hcb).
    unfold fieldRange in Hrange. rewrite Hbits, Hptr in Hrange.
    apply Z.leb_le in Hrange.
    exists v, nm, w, sg, cb. cbn [getBitWidth] in Hlen.
    repeat (split; [first [assumption | lia]|]). lia.
  - right. destruct t as [|e n| | | |]; try discriminate.
    destruct e as [w sg| | | | |]; try discriminate.
    cbn [rtArray] in Harr.
    repeat (apply andb_true_iff in Harr; destruct Harr as [Harr ?]).
    boolprop.
    repeat match goal with
           | H : (_ <=? _)%N = true |- _ => apply N.leb_le in H
           | H : (_ <? _)%N = true |- _ => apply N.ltb_lt in H
           end.
    assert (Hw : (1 <= w <= 64)%N) by lia.
    destruct (@capnp_list_type w n sg (capnp.getType f) Hw Hmatch)
      as (ec & Hty & Hmatch').
    destruct (@capnp_int_type w sg ec Hw Hmatch')
      as (cb & enc & Hbits & Henc & Hexp & _ & Hwcb & Hcb).
    unfold fieldRange in Hrange. rewrite Hty in Hrange. cbn in Hrange.
    apply Z.leb_le in Hrange.
    exists v, nm, w, sg, n, ec, cb, enc.
    assert (Hlen' : Zlen (gcBits v) = Z.of_N n * Z.of_N w).
    { rewrite Hlen. cbn [getBitWidth].
      destruct (Z.of_N w <? 0) eqn:E; [apply Z.ltb_lt in E; lia|reflexivity]. }
    repeat (split; [first [assumption | lia]|]). lia.
Qed.

Lemma pairwiseDisjoint_cons (f : capnp.Field) (fs : list capnp.Field) :
  pairwiseDisjoint (f :: fs) = true ->
  Forall (fun g => rangesDisjoint f g = true) fs /\ pairwiseDisjoint fs = true.
Proof.
  cbn [pairwiseDisjoint]. intros H. apply andb_true_iff in H.
  destruct H as [H1 H2]. split; [|assumption].
  apply Forall_forall. intros g Hg.
  rewrite forallb_forall in H1. apply H1, Hg.
Qed.

(** With at most one pointer in the struct there is at most one list
    field: the fields are integers, one list, integers. *)
Lemma fields_split (cs : capnp.StructReader) (fts : list FieldInfo)
  (fvals : list GasketComponent) (fs : list capnp.Field) :
  Forall (fun f => intField cs fts fvals f \/ listField cs fts fvals f) fs ->
  pairwiseDisjoint fs = true ->
  Forall (intField cs fts fvals) fs
  \/ exists pre f post,
       fs = pre ++ f :: post
       /\ Forall (intField cs fts fvals) pre
       /\ listField cs fts fvals f
       /\ Forall (intField cs fts fvals) post.
Proof.
  induction fs as [|f fs IH]; intros Hcl Hdis.
  - left. constructor.
  - inversion Hcl as [|? ? Hf Hrest]; subst.
    destruct (pairwiseDisjoint_cons _ _ Hdis) as [Hfd Hdis'].
    specialize (IH Hrest Hdis').
    destruct Hf as [Hf|Hf].
    + destruct IH as [IH|(pre & g & post & -> & Hpre & Hg & Hpost)].
      * left. constructor; assumption.
      * right. exists (f :: pre), g, post. repeat split; try assumption.
        constructor; assumption.
    + right. exists [], f, fs. repeat split; try assumption; [constructor|].
      apply Forall_forall. intros g Hgin.
      rewrite Forall_forall in Hrest, Hfd.
      destruct (Hrest g Hgin) as [Hg|Hg]; [assumption|exfalso].
      specialize (Hfd g Hgin).
      destruct Hf as (? & ? & ? & ? & ? & ec & ? & ? & Hf).
      destruct Hg as (? & ? & ? & ? & ? & ec' & ? & ? & Hg).
      assert (E : rangesDisjoint f g = false).
      { apply (@rangesDisjoint_pointers f g ec ec'); tauto. }
      congruence.
Qed.

(** *** From a sequence of insertions to the bits of the message *)

Lemma fragFits_fragOk (expected : Z) (f : Z * GasketComponent) :
  expected < two64 -> gcWf (snd f) -> fragFits expected f -> fragOk f.
Proof.
  intros HE Hwf (H0 & Hw & Hfit). split; [|exact Hwf].
  pose proof (GasketComponent_size_range (snd f)). lia.
Qed.

(** Disjoint fragments that fit all go into a fresh segment, and the
    compiled message shows each of them at its offset. *)
Lemma insertAll_compile_read (sz : Z) (frags : list (Z * GasketComponent)) :
  0 < sz < 2 ^ 63 ->
  Forall (fun f => gcWf (snd f)) frags ->
  Forall (fragFits sz) frags ->
  fragsDisjoint frags ->
  exists st' out,
    insertAll frags (CapnpSegmentBuilder_new sz) = Some (tt, st')
    /\ compile st' = Some out
    /\ gcType out = ArrayType i1 (Z.to_N sz)
    /\ Zlen (gcBits out) = sz
    /\ forall f, In f frags ->
                 sliceBits (fst f) (GasketComponent_size (snd f)) (gcBits out)
                 = gcBits (snd f).
Proof.
  intros Hsz Hwf Hfit Hdis.
  assert (H64 : sz < two64) by (unfold two64; lia).
  destruct (@insertAll_succeeds frags (CapnpSegmentBuilder_new sz))
    as [st' Hrun]; try assumption.
  { apply new_segInv. }
  { intros f e _ [].  }
  assert (Hok : Forall fragOk frags).
  { rewrite Forall_forall in *. intros f Hf.
    apply (@fragFits_fragOk sz); auto. }
  destruct (@insertAll_spec frags Hok (CapnpSegmentBuilder_new sz) st')
    as (Hinv & Hswf & HE & Hperm); try assumption.
  { apply new_segInv. }
  { apply new_segWf. }
  cbn [CapnpSegmentBuilder_new expectedSize segmentValues] in HE, Hperm.
  rewrite app_nil_r in Hperm.
  destruct (@compile_spec st') as (out & Hc & Hbits & Hty & Hlen);
    try assumption.
  { rewrite HE. exact Hsz. }
  exists st', out. rewrite HE in *.
  repeat (split; [assumption|]).
  intros f Hf. rewrite Hbits.
  destruct (@concatWithPadding_read st' Hinv Hswf) as [Hread _].
  rewrite HE in Hread.
  apply (Hread (toInterval f)).
  apply (Permutation_in _ (Permutation_sym Hperm)).
  rewrite <- in_rev. apply in_map. exact Hf.
Qed.

Lemma compile_withMessageSize (ms : Z) (st : CapnpSegmentBuilder) :
  compile (withMessageSize ms st) = compile st.
Proof. reflexivity. Qed.

(** Fragments inside one range of bits miss those inside a range apart
    from it. *)
Lemma fragIn_disjoint (lo hi lo' hi' : Z) (a b : list (Z * GasketComponent)) :
  Forall (fragIn lo hi) a -> Forall (fragIn lo' hi') b ->
  hi <= lo' \/ hi' <= lo ->
  forall f g, In f a -> In g b -> fragDisjoint f g.
Proof.
  intros Ha Hb Hsep f g Hf Hg. rewrite Forall_forall in Ha, Hb.
  destruct (Ha f Hf), (Hb g Hg). unfold fragDisjoint. lia.
Qed.

(** *** Running the encoder: one field *)

Lemma encodeFieldAt_int (offset : Z) (v : GasketComponent) (w : N)
  (sg : Signedness) (ct : capnp.Type_) (st : CapnpSegmentBuilder) :
  gcType v = IntegerType w sg ->
  encodeFieldAt offset v ct st = insert offset v st.
Proof. intros Hty. unfold encodeFieldAt. rewrite Hty. reflexivity. Qed.

Lemma Log2_32_Ceil_spec (x : Z) :
  0 < x < 2 ^ 32 -> 0 <= Log2_32_Ceil x /\ x <= 2 ^ Log2_32_Ceil x.
Proof.
  intros Hx. unfold Log2_32_Ceil. rewrite Z.mod_small by lia.
  destruct (x =? 0) eqn:E; [boolprop; lia|].
  split; [apply Z.log2_up_nonneg|].
  destruct (Z.eq_dec x 1) as [->|Hne]; [cbn; lia|].
  apply Z.log2_up_spec. boolprop. lia.
Qed.

Lemma Log2_32_Ceil_pos (x : Z) : 2 <= x < 2 ^ 32 -> 0 < Log2_32_Ceil x.
Proof.
  intros Hx. unfold Log2_32_Ceil. rewrite Z.mod_small by lia.
  destruct (x =? 0) eqn:E; [lia|]. apply Z.log2_up_pos. lia.
Qed.

(** The index of an element of a slice of at least two elements is a
    constant of at least one bit, so the element is read. *)
Lemma Slice_get_some (sl : Slice) (i : Z) :
  2 <= Z.of_N (sliceSize sl) < 2 ^ 32 ->
  Slice_get sl i = Some (elemAt sl i).
Proof.
  intros Hn. unfold Slice_get.
  rewrite ConstantOp_some by (apply Log2_32_Ceil_pos; exact Hn).
  reflexivity.
Qed.

(** The index of the only element of a slice is a constant of no bits. *)
Lemma Slice_get_one (sl : Slice) (i : Z) :
  sliceSize sl = 1%N -> Slice_get sl i = None.
Proof. intros Hn. unfold Slice_get. rewrite Hn. reflexivity. Qed.

(** Element [i] of an array value. *)
Lemma Slice_get_root (v : GasketComponent) (e : Ty) (n : N) (sl : Slice)
  (i : Z) :
  gcType v = ArrayType e n -> Slice_root v = Some sl ->
  0 <= i < Z.of_N n -> Z.of_N n < 2 ^ 32 ->
  elemAt sl i
  = mkGC e (sliceBits (i * getBitWidth e) (getBitWidth e) (gcBits v)).
Proof.
  intros Hty Hsl Hi Hn. unfold Slice_root in Hsl. rewrite Hty in Hsl.
  inversion Hsl; subst sl. clear Hsl.
  unfold elemAt. cbn [sliceSize sliceValue]. unfold rtl.ArrayGetOp.
  rewrite Hty.
  destruct (@Log2_32_Ceil_spec (Z.of_N n)) as [Hk1 Hk2]; [lia|].
  rewrite constant_index; [reflexivity|assumption|lia].
Qed.

Lemma Slice_root_size (v : GasketComponent) (e : Ty) (n : N) (sl : Slice) :
  gcType v = ArrayType e n -> Slice_root v = Some sl -> sliceSize sl = n.
Proof.
  intros Hty Hsl. unfold Slice_root in Hsl. rewrite Hty in Hsl.
  inversion Hsl. reflexivity.
Qed.

(** An array of integers: the elements go to the newly allocated list, last
    element first, and the list pointer to the field's slot. *)
Lemma encodeFieldAt_list (offset M : Z) (v ptr : GasketComponent) (w n : N)
  (sg : Signedness) (ec : capnp.Type_) (cb enc : Z) (sl : Slice)
  (st : CapnpSegmentBuilder) :
  gcType v = ArrayType (IntegerType w sg) n ->
  Slice_root v = Some sl ->
  2 <= Z.of_N n < 2 ^ 32 ->
  bits ec = Some cb -> bitsEncoding ec = Some enc ->
  listPointer M offset enc n = Some ptr ->
  encodeFieldAt offset v (capnp.LIST ec) (withMessageSize M st)
  = match insertAll (elemFrags M cb n sl ++ [(offset, ptr)]) st with
    | Some (u, st') =>
        Some (u, withMessageSize (wrap64 (M + wrap64 (cb * Z.of_N n))) st')
    | None => None
    end.
Proof.
  intros Hty Hsl Hn Hbits Henc Hptr. unfold encodeFieldAt. rewrite Hty.
  cbn [encodeFieldAtTy]. unfold bind at 1. unfold lift at 1. rewrite Hsl.
  unfold bind at 1. unfold lift at 1. rewrite Hbits.
  unfold bind at 1. unfold alloc at 1.
  cbn [withMessageSize messageSize segmentValues expectedSize].
  change (mkSegment (segmentValues st) ?m (expectedSize st))
    with (withMessageSize m st).
  unfold bind at 1.
  rewrite (@forEach_insertAll nat (seq 0 (N.to_nat n))
             (fun i => (wrap64 (M + wrap64 (wrap64 (Z.of_N n - Z.of_nat i - 1) * cb)),
                        elemAt sl (Z.of_nat i)))).
  2:{ intros a st0 _. unfold bind, lift.
      rewrite Slice_get_some
        by (rewrite (@Slice_root_size v _ n sl Hty Hsl); exact Hn).
      reflexivity. }
  change (map _ (seq 0 (N.to_nat n))) with (elemFrags M cb n sl).
  rewrite insertAll_app, insertAll_withMessageSize.
  destruct (insertAll (elemFrags M cb n sl) st) as [[[] st1]|]; [|reflexivity].
  unfold bind at 1. unfold lift at 1. rewrite Henc.
  unfold bind at 1. unfold lift at 1.
  unfold listPointer in Hptr. rewrite Hptr.
  rewrite insert_withMessageSize.
  rewrite insertAll_cons. cbn [fst snd].
  destruct (insert offset ptr st1) as [[[] st2]|]; reflexivity.
Qed.

(** *** Running the encoder: the fields of the struct *)

Lemma intField_bounds (cs : capnp.StructReader) (fts : list FieldInfo)
  (fvals : list GasketComponent) (f : capnp.Field) :
  intField cs fts fvals f ->
  exists v w sg cb,
    intFrag fvals f = (64 + capnp.getOffset f * cb, v)
    /\ nth_error fvals (capnp.getCodeOrder f) = Some v
    /\ gcType v = IntegerType w sg
    /\ Zlen (gcBits v) = Z.of_N w
    /\ GasketComponent_size v = Z.of_N w
    /\ bits (capnp.getType f) = Some cb
    /\ isPointerType (capnp.getType f) = false
    /\ 1 <= Z.of_N w <= cb /\ cb <= 64
    /\ 0 <= capnp.getOffset f * cb
    /\ capnp.getOffset f * cb + cb <= capnp.getDataWordCount cs * 64.
Proof.
  intros (v & nm & w & sg & cb & Hft & Hv & Hty & Hlen & Hw & Hbits & Hptr
          & Hwcb & Hoff & Hhi).
  exists v, w, sg, cb.
  assert (Hcb : cb <= 64).
  { clear - Hbits. destruct (capnp.getType f); cbn in Hbits;
      try discriminate; inversion Hbits; lia. }
  unfold intFrag. rewrite Hbits. rewrite (nth_error_nth _ _ _ Hv).
  unfold GasketComponent_size. rewrite Hty. cbn [getBitWidth].
  rewrite wrap64_small by (unfold two64; lia).
  repeat (split; [first [reflexivity | assumption | lia | nia]|]). lia.
Qed.

Lemma listPointer_spec (listOffset offset enc : Z) (mSize : N) :
  exists ptr,
    listPointer listOffset offset enc mSize = Some ptr
    /\ gcBits ptr
       = bitsOfZ 2 1
         ++ bitsOfZ 30 (toInt32 (wrap64 (listOffset - offset - 64) / 64))
         ++ bitsOfZ 3 enc ++ bitsOfZ 29 (Z.of_N mSize)
    /\ gcType ptr = ArrayType i1 64
    /\ gcWf ptr /\ GasketComponent_size ptr = 64.
Proof.
  unfold listPointer, concatConstants. cbn [mapM fst snd].
  rewrite !constant_some by lia. cbn [optBind].
  match goal with |- context [GasketComponent_concat ?vs] =>
    destruct (@GasketComponent_concat_spec vs) as (r & Hr & Hbits & Hty);
      [discriminate|] end.
  exists r. split; [exact Hr|].
  assert (Hty' : gcType r = ArrayType i1 64).
  { rewrite Hty. vm_compute. reflexivity. }
  assert (Hb : gcBits r
               = bitsOfZ 2 1
                 ++ bitsOfZ 30 (toInt32 (wrap64 (listOffset - offset - 64) / 64))
                 ++ bitsOfZ 3 enc ++ bitsOfZ 29 (Z.of_N mSize)).
  { rewrite Hbits. cbn [map concat]. rewrite app_nil_r. reflexivity. }
  split; [exact Hb|]. split; [exact Hty'|]. split.
  - unfold gcWf. rewrite Hty', Hb. unfold Zlen.
    rewrite !length_app. unfold bitsOfZ. rewrite !length_map, !length_seq.
    split; vm_compute; reflexivity.
  - unfold GasketComponent_size. rewrite Hty'. vm_compute. reflexivity.
Qed.

Lemma structPointer_spec (cs : capnp.StructReader) (d p : Z) :
  exists ptr,
    structPointer cs d p = Some ptr
    /\ gcBits ptr
       = bitsOfZ 2 0
         ++ bitsOfZ 30 (toInt64 (wrap64 (d - p) / 64 - 1))
         ++ bitsOfZ 16 (capnp.getDataWordCount cs)
         ++ bitsOfZ 16 (capnp.getPointerCount cs)
    /\ gcType ptr = ArrayType i1 64
    /\ gcWf ptr /\ GasketComponent_size ptr = 64.
Proof.
  unfold structPointer, concatConstants. cbn [mapM fst snd].
  rewrite !constant_some by lia. cbn [optBind].
  match goal with |- context [GasketComponent_concat ?vs] =>
    destruct (@GasketComponent_concat_spec vs) as (r & Hr & Hbits & Hty);
      [discriminate|] end.
  exists r. split; [exact Hr|].
  assert (Hty' : gcType r = ArrayType i1 64).
  { rewrite Hty. vm_compute. reflexivity. }
  assert (Hb : gcBits r
               = bitsOfZ 2 0
                 ++ bitsOfZ 30 (toInt64 (wrap64 (d - p) / 64 - 1))
                 ++ bitsOfZ 16 (capnp.getDataWordCount cs)
                 ++ bitsOfZ 16 (capnp.getPointerCount cs)).
  { rewrite Hbits. cbn [map concat]. rewrite app_nil_r. reflexivity. }
  split; [exact Hb|]. split; [exact Hty'|]. split.
  - unfold gcWf. rewrite Hty', Hb. unfold Zlen.
    rewrite !length_app. unfold bitsOfZ. rewrite !length_map, !length_seq.
    split; vm_compute; reflexivity.
  - unfold GasketComponent_size. rewrite Hty'. vm_compute. reflexivity.
Qed.

Lemma encodeStructAtField_int (cs : capnp.StructReader) (fts : list FieldInfo)
  (fvals : list GasketComponent) (P : Z) (f : capnp.Field)
  (st : CapnpSegmentBuilder) :
  capnp.getDataWordCount cs < 2 ^ 16 ->
  intField cs fts fvals f ->
  encodeStructAtField 64 P fvals f st
  = insert (fst (intFrag fvals f)) (snd (intFrag fvals f)) st.
Proof.
  intros Hdwc Hf.
  destruct (intField_bounds Hf)
    as (v & w & sg & cb & Hfrag & Hv & Hty & _ & _ & Hbits & Hptr & Hw & Hcb
        & Hlo & Hhi).
  rewrite Hfrag. cbn [fst snd]. unfold encodeStructAtField.
  rewrite Hv. unfold bind, lift. rewrite Hbits, Hptr.
  rewrite (@encodeFieldAt_int _ v w sg); [|exact Hty].
  rewrite (@wrap64_small (capnp.getOffset f * cb)) by (unfold two64; lia).
  rewrite wrap64_small by (unfold two64; lia).
  reflexivity.
Qed.

Lemma forEach_int_fields (cs : capnp.StructReader) (fts : list FieldInfo)
  (fvals : list GasketComponent) (P : Z) (l : list capnp.Field) :
  capnp.getDataWordCount cs < 2 ^ 16 ->
  Forall (intField cs fts fvals) l ->
  forall M st,
    forEach l (encodeStructAtField 64 P fvals) (withMessageSize M st)
    = match insertAll (map (intFrag fvals) l) st with
      | Some (u, st') => Some (u, withMessageSize M st')
      | None => None
      end.
Proof.
  intros Hdwc Hl M st.
  rewrite (@forEach_insertAll _ l (intFrag fvals)).
  - apply insertAll_withMessageSize.
  - intros a st0 Ha. rewrite Forall_forall in Hl.
    apply (@encodeStructAtField_int cs fts); auto.
Qed.

Lemma elemFrags_root (M cb : Z) (v : GasketComponent) (w n : N)
  (sg : Signedness) (sl : Slice) :
  gcType v = ArrayType (IntegerType w sg) n -> Slice_root v = Some sl ->
  0 <= M -> 0 <= cb -> M + Z.of_N n * cb < two64 -> Z.of_N n < 2 ^ 32 ->
  elemFrags M cb n sl
  = map (fun i =>
           (M + (Z.of_N n - 1 - Z.of_nat i) * cb,
            mkGC (IntegerType w sg)
                 (sliceBits (Z.of_nat i * Z.of_N w) (Z.of_N w) (gcBits v))))
        (seq 0 (N.to_nat n)).
Proof.
  intros Hty Hsl HM Hcb Hfit Hn. unfold elemFrags.
  apply map_ext_in. intros i Hi. apply in_seq in Hi.
  assert (Hi' : 0 <= Z.of_nat i < Z.of_N n) by lia.
  rewrite (@Slice_get_root v (IntegerType w sg) n sl (Z.of_nat i));
    try assumption.
  cbn [getBitWidth]. f_equal.
  rewrite (@wrap64_small (Z.of_N n - Z.of_nat i - 1)) by (unfold two64 in *; lia).
  rewrite (@wrap64_small ((Z.of_N n - Z.of_nat i - 1) * cb))
    by (unfold two64 in *; nia).
  rewrite wrap64_small by (unfold two64 in *; nia).
  f_equal. f_equal. lia.
Qed.

(** The loop body on the list field of a struct with one pointer, run when
    nothing but the root pointer's word and the struct are allocated. *)
Lemma encodeStructAtField_list (cs : capnp.StructReader)
  (fvals : list GasketComponent) (f : capnp.Field) (v : GasketComponent)
  (w n : N) (sg : Signedness) (ec : capnp.Type_) (cb enc : Z)
  (st : CapnpSegmentBuilder) :
  0 <= capnp.getDataWordCount cs < 2 ^ 16 ->
  nth_error fvals (capnp.getCodeOrder f) = Some v ->
  gcType v = ArrayType (IntegerType w sg) n ->
  (2 <= n < 2 ^ 29)%N ->
  capnp.getType f = capnp.LIST ec ->
  bits ec = Some cb -> bitsEncoding ec = Some enc ->
  0 <= cb <= 64 ->
  capnp.getOffset f = 0 ->
  let P := 64 + capnp.getDataWordCount cs * 64 in
  let M := 64 + (capnp.getDataWordCount cs + 1) * 64 in
  encodeStructAtField 64 P fvals f (withMessageSize M st)
  = match insertAll (listFragsOf M P cb enc w sg n (gcBits v)) st with
    | Some (u, st') => Some (u, withMessageSize (M + Z.of_N n * cb) st')
    | None => None
    end.
Proof.
  intros Hdwc Hv Hty Hn Hct Hbits Henc Hcb Hoff P M.
  assert (Hn' : 2 <= Z.of_N n < 2 ^ 29).
  { change (2 ^ 29) with (Z.of_N (2 ^ 29)). lia. }
  unfold encodeStructAtField. rewrite Hv, Hct.
  unfold bind at 1. unfold lift at 1.
  change (bits (capnp.LIST ec)) with (Some 64).
  change (isPointerType (capnp.LIST ec)) with true. cbv iota.
  rewrite Hoff. change (wrap64 (0 * 64)) with 0. rewrite Z.add_0_r.
  rewrite (@wrap64_small P) by (unfold P, two64; lia).
  destruct (listPointer_spec M P enc n)
    as (ptr & Hptr & Hpb & Hpt & _ & _).
  assert (Hsl : exists sl, Slice_root v = Some sl).
  { unfold Slice_root. rewrite Hty. eauto. }
  destruct Hsl as [sl Hsl].
  rewrite (@encodeFieldAt_list P M v ptr w n sg ec cb enc sl st);
    try assumption; try lia.
  rewrite (@elemFrags_root M cb v w n sg sl); try assumption;
    try (unfold M, two64; nia).
  replace (wrap64 (M + wrap64 (cb * Z.of_N n))) with (M + Z.of_N n * cb).
  2:{ rewrite (@wrap64_small (cb * Z.of_N n)) by (unfold two64; nia).
      rewrite wrap64_small by (unfold M, two64; nia). lia. }
  replace (P, ptr)
    with (P, mkGC (ArrayType i1 64)
                  (bitsOfZ 2 1 ++ bitsOfZ 30 0 ++ bitsOfZ 3 enc
                   ++ bitsOfZ 29 (Z.of_N n))).
  - reflexivity.
  - f_equal. destruct ptr as [pt pb]. cbn [gcType gcBits] in *.
    rewrite Hpt, Hpb. f_equal.
    replace (M - P - 64) with 0 by (unfold M, P; lia).
    reflexivity.
Qed.

(** *** The size of the message, for these layouts *)

Lemma pointedToSize_int (cs : capnp.StructReader) (fts : list FieldInfo)
  (fvals : list GasketComponent) (f : capnp.Field) :
  intField cs fts fvals f -> pointedToSize fts f = Some 0.
Proof.
  intros (v & nm & w & sg & cb & Hft & _). unfold pointedToSize.
  rewrite Hft. reflexivity.
Qed.

Lemma pointedToSize_list (fts : list FieldInfo) (f : capnp.Field)
  (nm : string) (e : Ty) (n : N) (ec : capnp.Type_) (cb : Z) :
  nth_error fts (capnp.getCodeOrder f) = Some (nm, ArrayType e n) ->
  capnp.getType f = capnp.LIST ec -> bits ec = Some cb ->
  0 <= cb <= 64 -> (n < 2 ^ 29)%N ->
  pointedToSize fts f = Some ((Z.of_N n * cb + 63) / 64).
Proof.
  intros Hft Hct Hbits Hcb Hn. unfold pointedToSize. rewrite Hft. cbn [snd].
  unfold sizeList. rewrite Hct, Hbits.
  assert (Hn' : 0 <= Z.of_N n < 2 ^ 29).
  { change (2 ^ 29) with (Z.of_N (2 ^ 29)). lia. }
  rewrite (@toInt64_small (Z.of_N n * cb)) by nia.
  unfold divideCeil.
  rewrite (@wrap64_small (Z.of_N n * cb)) by (unfold two64; nia).
  rewrite wrap64_small by (unfold two64; nia).
  assert (0 <= (Z.of_N n * cb + 64 - 1) / 64 < 2 ^ 63).
  { split; [apply Z.div_pos; nia|]. apply Z.div_lt_upper_bound; nia. }
  rewrite toInt64_small by assumption.
  f_equal. f_equal. lia.
Qed.

Lemma sizeStruct_fold_int (cs : capnp.StructReader) (fts : list FieldInfo)
  (fvals : list GasketComponent) (l : list capnp.Field) (a : Z) :
  Forall (intField cs fts fvals) l -> 0 <= a < 2 ^ 63 ->
  fold_left
    (fun acc cField =>
       match acc with
       | None => None
       | Some size =>
           match pointedToSize fts cField with
           | Some p => Some (toInt64 (size + p))
           | None => None
           end
       end) l (Some a)
  = Some a.
Proof.
  intros Hl Ha. induction Hl as [|f l Hf _ IH]; [reflexivity|].
  cbn [fold_left]. rewrite (pointedToSize_int Hf).
  rewrite Z.add_0_r, toInt64_small by exact Ha. exact IH.
Qed.

(** The data and pointer sections, the root pointer's word, and the words
    of the one list. *)
Lemma sizeStruct_one_list (cs : capnp.StructReader) (fts : list FieldInfo)
  (fvals : list GasketComponent) (pre post : list capnp.Field)
  (f : capnp.Field) (nm : string) (e : Ty) (n : N) (ec : capnp.Type_)
  (cb : Z) :
  capnp.getFields cs = pre ++ f :: post ->
  Forall (intField cs fts fvals) pre -> Forall (intField cs fts fvals) post ->
  0 <= capnp.getDataWordCount cs < 2 ^ 16 ->
  0 <= capnp.getPointerCount cs < 2 ^ 16 ->
  nth_error fts (capnp.getCodeOrder f) = Some (nm, ArrayType e n) ->
  capnp.getType f = capnp.LIST ec -> bits ec = Some cb ->
  0 <= cb <= 64 -> (n < 2 ^ 29)%N ->
  sizeStruct cs fts
  = Some (1 + capnp.getDataWordCount cs + capnp.getPointerCount cs
          + (Z.of_N n * cb + 63) / 64).
Proof.
  intros Hsplit Hpre Hpost Hdwc Hpc Hft Hct Hbits Hcb Hn.
  assert (Hn' : 0 <= Z.of_N n < 2 ^ 29).
  { change (2 ^ 29) with (Z.of_N (2 ^ 29)). lia. }
  assert (Hq : 0 <= (Z.of_N n * cb + 63) / 64 < 2 ^ 30).
  { split; [apply Z.div_pos; nia|]. apply Z.div_lt_upper_bound; nia. }
  unfold sizeStruct. rewrite Hsplit, fold_left_app.
  rewrite (@sizeStruct_fold_int cs fts fvals pre) by (assumption || lia).
  cbn [fold_left].
  rewrite (@pointedToSize_list fts f nm e n ec cb) by assumption.
  rewrite toInt64_small by lia.
  apply (@sizeStruct_fold_int cs fts fvals post); [assumption|lia].
Qed.

Lemma sizeStruct_no_list (cs : capnp.StructReader) (fts : list FieldInfo)
  (fvals : list GasketComponent) :
  Forall (intField cs fts fvals) (capnp.getFields cs) ->
  0 <= capnp.getDataWordCount cs < 2 ^ 16 ->
  0 <= capnp.getPointerCount cs < 2 ^ 16 ->
  sizeStruct cs fts
  = Some (1 + capnp.getDataWordCount cs + capnp.getPointerCount cs).
Proof.
  intros Hall Hdwc Hpc. unfold sizeStruct.
  apply (@sizeStruct_fold_int cs fts fvals); [assumption|lia].
Qed.

(** *** The fragments are well formed, in bounds and disjoint *)

Lemma intFrags_props (cs : capnp.StructReader) (fts : list FieldInfo)
  (fvals : list GasketComponent) (l : list capnp.Field) :
  Forall (intField cs fts fvals) l ->
  Forall (fun g => gcWf (snd g) /\ 0 < GasketComponent_size (snd g)
                   /\ fragIn 64 (64 + capnp.getDataWordCount cs * 64) g)
         (map (intFrag fvals) l).
Proof.
  intros Hl. apply Forall_map. apply (Forall_impl _ (P := intField cs fts fvals));
    [|exact Hl].
  intros f Hf.
  destruct (intField_bounds Hf)
    as (v & w & sg & cb & Hfrag & Hv & Hty & Hlen & Hsz & Hbits & Hptr & Hw
        & Hcb & Hlo & Hhi).
  rewrite Hfrag. cbn [fst snd]. unfold fragIn, gcWf. cbn [fst snd].
  rewrite Hsz, Hty, Hlen. cbn [getBitWidth]. unfold two64. lia.
Qed.

Lemma rangesDisjoint_int (cs : capnp.StructReader) (fts : list FieldInfo)
  (fvals : list GasketComponent) (f g : capnp.Field) :
  intField cs fts fvals f -> intField cs fts fvals g ->
  rangesDisjoint f g = true ->
  fragDisjoint (intFrag fvals f) (intFrag fvals g).
Proof.
  intros Hf Hg Hd.
  destruct (intField_bounds Hf)
    as (v & w & sg & cb & Hfrag & _ & _ & _ & Hsz & Hbits & Hptr & Hw & _).
  destruct (intField_bounds Hg)
    as (v' & w' & sg' & cb' & Hfrag' & _ & _ & _ & Hsz' & Hbits' & Hptr' & Hw'
        & _).
  unfold rangesDisjoint, fieldRange in Hd.
  rewrite Hbits, Hbits', Hptr, Hptr' in Hd. cbn [Bool.eqb negb orb] in Hd.
  apply orb_true_iff in Hd.
  rewrite Hfrag, Hfrag'. unfold fragDisjoint. cbn [fst snd].
  rewrite Hsz, Hsz'.
  destruct Hd as [Hd|Hd]; apply Z.leb_le in Hd; lia.
Qed.

Lemma intFrags_disjoint (cs : capnp.StructReader) (fts : list FieldInfo)
  (fvals : list GasketComponent) (l : list capnp.Field) :
  Forall (intField cs fts fvals) l -> pairwiseDisjoint l = true ->
  fragsDisjoint (map (intFrag fvals) l).
Proof.
  induction l as [|f l IH]; intros Hl Hd; [exact I|].
  inversion Hl as [|? ? Hf Hl']; subst.
  destruct (pairwiseDisjoint_cons _ _ Hd) as [Hfd Hd'].
  cbn [map fragsDisjoint]. split; [|apply IH; assumption].
  apply Forall_map. rewrite Forall_forall in *.
  intros g Hg. apply (@rangesDisjoint_int cs fts); auto.
Qed.

Lemma pairwiseDisjoint_remove (pre post : list capnp.Field) (f : capnp.Field) :
  pairwiseDisjoint (pre ++ f :: post) = true ->
  pairwiseDisjoint (pre ++ post) = true.
Proof.
  induction pre as [|g pre IH]; cbn [app pairwiseDisjoint]; intros H.
  - apply andb_true_iff in H. tauto.
  - apply andb_true_iff in H. destruct H as [H1 H2].
    apply andb_true_iff. split; [|apply IH, H2].
    rewrite forallb_forall in *. intros x Hx. apply H1.
    apply in_app_iff in Hx. apply in_app_iff.
    destruct Hx as [Hx|Hx]; [left; exact Hx|right; right; exact Hx].
Qed.

Lemma fragsDisjoint_map_seq (g : nat -> Z * GasketComponent) (k : nat) :
  forall a,
    (forall i j, (a <= i)%nat -> (i < j)%nat -> (j < a + k)%nat ->
                 fragDisjoint (g i) (g j)) ->
    fragsDisjoint (map g (seq a k)).
Proof.
  induction k as [|k IH]; intros a H; [exact I|].
  cbn [seq map fragsDisjoint]. split.
  - apply Forall_map, Forall_forall. intros j Hj. apply in_seq in Hj.
    apply H; lia.
  - apply IH. intros i j Hi Hij Hj. apply H; lia.
Qed.

Lemma listFragsOf_props (M P cb enc : Z) (w : N) (sg : Signedness) (n : N)
  (V : list bool) :
  1 <= Z.of_N w <= cb -> cb <= 64 -> 1 <= Z.of_N n -> 0 <= M -> P + 64 <= M ->
  Forall (fun g => gcWf (snd g) /\ 0 < GasketComponent_size (snd g)
                   /\ fragIn P (M + Z.of_N n * cb) g)
         (listFragsOf M P cb enc w sg n V)
  /\ fragsDisjoint (listFragsOf M P cb enc w sg n V).
Proof.
  intros Hw Hcb Hn HM HP. unfold listFragsOf.
  assert (Hsize : forall bs, GasketComponent_size (mkGC (IntegerType w sg) bs)
                             = Z.of_N w).
  { intros bs. unfold GasketComponent_size. cbn [gcType getBitWidth].
    apply wrap64_small. unfold two64. lia. }
  assert (Hptr : forall bs, GasketComponent_size (mkGC (ArrayType i1 64) bs)
                            = 64).
  { intros bs. reflexivity. }
  split.
  - apply Forall_app. split.
    + apply Forall_map, Forall_forall. intros i Hi. apply in_seq in Hi.
      cbn [fst snd]. unfold fragIn, gcWf. cbn [fst snd]. rewrite Hsize.
      cbn [gcType gcBits getBitWidth].
      rewrite sliceBits_length by lia. unfold two64. nia.
    + constructor; [|constructor]. cbn [fst snd]. unfold fragIn, gcWf.
      cbn [fst snd]. rewrite Hptr. cbn [gcType gcBits].
      rewrite getBitWidth_bitArray. unfold Zlen.
      rewrite !length_app. unfold bitsOfZ. rewrite !length_map, !length_seq.
      unfold two64. cbn. nia.
  - apply fragsDisjoint_app. split; [|split].
    + apply fragsDisjoint_map_seq. intros i j Hi Hij Hj.
      unfold fragDisjoint. cbn [fst snd]. rewrite !Hsize. nia.
    + cbn. split; [constructor|exact I].
    + intros f g Hf [<-|[]]. apply in_map_iff in Hf.
      destruct Hf as (i & <- & Hi). apply in_seq in Hi.
      unfold fragDisjoint. cbn [fst snd]. rewrite Hsize, Hptr. nia.
Qed.

(** *** Running the encoder: the whole message *)

(** [build] on a struct whose fields are integers around a middle part
    [mid] that inserts the fragments [L]: the message shows the root
    pointer and every fragment at its offset. *)
Lemma build_run (cs : capnp.StructReader) (fts : list FieldInfo)
  (fvals : list GasketComponent) (sz : Z)
  (pre mid post : list capnp.Field) (L : list (Z * GasketComponent))
  (M' : Z) :
  capnp.getFields cs = pre ++ mid ++ post ->
  Forall (intField cs fts fvals) pre -> Forall (intField cs fts fvals) post ->
  pairwiseDisjoint (pre ++ post) = true ->
  0 <= capnp.getDataWordCount cs < 2 ^ 16 ->
  0 <= capnp.getPointerCount cs < 2 ^ 16 ->
  (forall st,
      forEach mid
        (encodeStructAtField 64 (64 + capnp.getDataWordCount cs * 64) fvals)
        (withMessageSize
           (64 + (capnp.getDataWordCount cs + capnp.getPointerCount cs) * 64)
           st)
      = match insertAll L st with
        | Some (u, st') => Some (u, withMessageSize M' st')
        | None => None
        end) ->
  Forall (fun g => gcWf (snd g) /\ 0 < GasketComponent_size (snd g)
                   /\ fragIn (64 + capnp.getDataWordCount cs * 64) sz g) L ->
  fragsDisjoint L ->
  64 * (1 + capnp.getDataWordCount cs + capnp.getPointerCount cs) <= sz ->
  sz < 2 ^ 63 ->
  exists out st rp,
    build cs fvals (CapnpSegmentBuilder_new sz) = Some (out, st)
    /\ gcType out = ArrayType i1 (Z.to_N sz)
    /\ Zlen (gcBits out) = sz
    /\ gcBits rp
       = bitsOfZ 2 0 ++ bitsOfZ 30 0
         ++ bitsOfZ 16 (capnp.getDataWordCount cs)
         ++ bitsOfZ 16 (capnp.getPointerCount cs)
    /\ GasketComponent_size rp = 64
    /\ forall g,
        In g (map (intFrag fvals) pre ++ L ++ map (intFrag fvals) post
              ++ [(0, rp)]) ->
        sliceBits (fst g) (GasketComponent_size (snd g)) (gcBits out)
        = gcBits (snd g).
Proof.
  intros Hsplit Hpre Hpost Hdis Hdwc Hpc Hmid HL HLd Hsz1 Hsz2.
  set (dwc := capnp.getDataWordCount cs) in *.
  set (pc := capnp.getPointerCount cs) in *.
  destruct (structPointer_spec cs 64 0) as (rp & Hrp & Hrpb & Hrpt & Hrpw & Hrps).
  change (toInt64 (wrap64 (64 - 0) / 64 - 1)) with 0 in Hrpb.
  set (frags := map (intFrag fvals) pre ++ L ++ map (intFrag fvals) post
                ++ [(0, rp)]).
  pose proof (intFrags_props Hpre) as HpreP.
  pose proof (intFrags_props Hpost) as HpostP.
  fold dwc in HpreP, HpostP.
  assert (Hall : Forall (fun g => gcWf (snd g)
                                  /\ 0 < GasketComponent_size (snd g)
                                  /\ fragIn 0 sz g) frags).
  { unfold frags. repeat (apply Forall_app; split).
    - eapply Forall_impl; [|exact HpreP]. unfold fragIn.
      intros g (Hg1 & Hg2 & Hg3 & Hg4).
      split; [exact Hg1|]. split; [exact Hg2|]. split; lia.
    - eapply Forall_impl; [|exact HL]. unfold fragIn.
      intros g (Hg1 & Hg2 & Hg3 & Hg4).
      split; [exact Hg1|]. split; [exact Hg2|]. split; lia.
    - eapply Forall_impl; [|exact HpostP]. unfold fragIn.
      intros g (Hg1 & Hg2 & Hg3 & Hg4).
      split; [exact Hg1|]. split; [exact Hg2|]. split; lia.
    - constructor; [|constructor]. unfold fragIn. cbn [fst snd].
      rewrite Hrps. split; [exact Hrpw|]. lia. }
  assert (Hfd : fragsDisjoint frags).
  { unfold frags.
    pose proof (@intFrags_disjoint cs fts fvals (pre ++ post)) as Hpp.
    rewrite map_app in Hpp.
    specialize (Hpp (proj2 (Forall_app _ _ _) (conj Hpre Hpost)) Hdis).
    apply fragsDisjoint_app in Hpp. destruct Hpp as (Hp1 & Hp2 & Hp3).
    assert (Hroot : Forall (fragIn 0 64) [(0, rp)]).
    { constructor; [|constructor]. unfold fragIn. cbn [fst snd]. lia. }
    assert (HLi : Forall (fragIn (64 + dwc * 64) sz) L).
    { eapply Forall_impl; [|exact HL]. intros g (Hg1 & Hg2 & Hg3). assumption. }
    assert (HpreI : Forall (fragIn 64 (64 + dwc * 64)) (map (intFrag fvals) pre)).
    { eapply Forall_impl; [|exact HpreP]. intros g (Hg1 & Hg2 & Hg3). assumption. }
    assert (HpostI : Forall (fragIn 64 (64 + dwc * 64))
                            (map (intFrag fvals) post)).
    { eapply Forall_impl; [|exact HpostP]. intros g (Hg1 & Hg2 & Hg3). assumption. }
    apply fragsDisjoint_app. split; [exact Hp1|]. split.
    - apply fragsDisjoint_app. split; [exact HLd|]. split.
      + apply fragsDisjoint_app. split; [exact Hp2|]. split.
        * cbn. split; [constructor|exact I].
        * apply (fragIn_disjoint HpostI Hroot). lia.
      + intros f g Hf Hg. apply in_app_iff in Hg. destruct Hg as [Hg|Hg].
        * apply fragDisjoint_sym.
          apply (fragIn_disjoint HpostI HLi); [lia|assumption|assumption].
        * apply (fragIn_disjoint HLi Hroot); [lia|assumption|assumption].
    - intros f g Hf Hg. apply in_app_iff in Hg. destruct Hg as [Hg|Hg].
      + apply (fragIn_disjoint HpreI HLi); [lia|assumption|assumption].
      + apply in_app_iff in Hg. destruct Hg as [Hg|Hg].
        * apply Hp3; assumption.
        * apply (fragIn_disjoint HpreI Hroot); [lia|assumption|assumption]. }
  destruct (@insertAll_compile_read sz frags)
    as (st' & out & Hrun & Hcomp & Hty & Hlen & Hread).
  { lia. }
  { eapply Forall_impl; [|exact Hall]. intros g (Hg1 & Hg2 & Hg3). assumption. }
  { eapply Forall_impl; [|exact Hall]. unfold fragIn, fragFits.
    intros g (Hg1 & Hg2 & Hg3 & Hg4). lia. }
  { exact Hfd. }
  exists out, (withMessageSize M' st'), rp.
  split; [|repeat (split; [assumption|]); exact Hread].
  unfold frags in Hrun. rewrite insertAll_app in Hrun.
  destruct (insertAll (map (intFrag fvals) pre) (CapnpSegmentBuilder_new sz))
    as [[[] sA]|] eqn:EA; [|discriminate].
  rewrite insertAll_app in Hrun.
  destruct (insertAll L sA) as [[[] sB]|] eqn:EB; [|discriminate].
  rewrite insertAll_app in Hrun.
  destruct (insertAll (map (intFrag fvals) post) sB) as [[[] sC]|] eqn:EC;
    [|discriminate].
  rewrite insertAll_cons in Hrun. cbn [fst snd] in Hrun.
  destruct (insert 0 rp sC) as [[[] sD]|] eqn:ED; [|discriminate].
  cbn [insertAll forEach] in Hrun. unfold ret in Hrun.
  inversion Hrun; subst sD. clear Hrun.
  unfold build. unfold bind at 1. unfold alloc at 1.
  cbn [CapnpSegmentBuilder_new messageSize segmentValues expectedSize].
  change (negb (0 =? 0)) with false. cbv iota.
  unfold bind at 1. unfold encodeStructAt.
  change (negb (0 mod 64 =? 0)) with false. cbv iota.
  unfold bind at 1. unfold alloc at 1.
  cbn [messageSize segmentValues expectedSize].
  change (wrap64 (0 + 64)) with 64.
  change (negb (64 mod 64 =? 0)) with false. cbv iota.
  unfold bind at 1. unfold lift at 1.
  change (concatConstants
            [(2, 0);
             (30, toInt64 (wrap64 (64 - 0) / 64 - 1));
             (16, capnp.getDataWordCount cs);
             (16, capnp.getPointerCount cs)])
    with (structPointer cs 64 0).
  rewrite Hrp.
  fold dwc pc.
  rewrite (@wrap64_small ((dwc + pc) * 64)) by (unfold two64; lia).
  rewrite (@wrap64_small (64 + (dwc + pc) * 64)) by (unfold two64; lia).
  rewrite (@wrap64_small (64 + dwc * 64)) by (unfold two64; lia).
  change (mkSegment [] (64 + (dwc + pc) * 64) sz)
    with (withMessageSize (64 + (dwc + pc) * 64) (CapnpSegmentBuilder_new sz)).
  unfold bind at 1.
  rewrite Hsplit, forEach_app.
  rewrite (@forEach_int_fields cs fts fvals (64 + dwc * 64) pre)
    by (assumption || lia).
  rewrite EA, forEach_app, Hmid, EB.
  rewrite (@forEach_int_fields cs fts fvals (64 + dwc * 64) post)
    by (assumption || lia).
  rewrite EC. unfold ret at 1. unfold bind at 1.
  rewrite insert_withMessageSize, ED.
  unfold lift. rewrite compile_withMessageSize, Hcomp. reflexivity.
Qed.

Lemma forEach_single {A : Type} (a : A) (body : A -> Seg unit)
  (st : CapnpSegmentBuilder) :
  forEach [a] body st
  = match body a st with
    | Some (_, st') => Some (tt, st')
    | None => None
    end.
Proof. reflexivity. Qed.

(** The encoder's message for a value whose fields are integers and at most
    one array of integers: its size, its root pointer, and what it shows of
    each field. *)
Lemma encoder_message (cs : capnp.StructReader) (fts : list FieldInfo)
  (fvals : list GasketComponent) (words : Z) :
  layoutOk fts cs = true ->
  capnp.getPointerCount cs <= 1 ->
  forallb (fun ft => rtField (snd ft)) fts = true ->
  Forall2 (fun ft v => gcType v = snd ft
                       /\ Zlen (gcBits v) = getBitWidth (snd ft)) fts fvals ->
  sizeStruct cs fts = Some words ->
  1 <= words < 2 ^ 31
  /\ exists out st,
      build cs fvals (CapnpSegmentBuilder_new (words * 64)) = Some (out, st)
      /\ gcType out = ArrayType i1 (Z.to_N (words * 64))
      /\ Zlen (gcBits out) = words * 64
      /\ sliceBits 0 64 (gcBits out)
         = bitsOfZ 2 0 ++ bitsOfZ 30 0
           ++ bitsOfZ 16 (capnp.getDataWordCount cs)
           ++ bitsOfZ 16 (capnp.getPointerCount cs)
      /\ Forall (fieldEncoded cs fvals (gcBits out)) (capnp.getFields cs).
Proof.
  intros Hok Hpc1 Hrt Hvals Hwords.
  pose proof (@fields_classified cs fts fvals Hok Hpc1 Hrt Hvals) as Hcl.
  destruct (layoutOk_fields _ _ Hok) as (Hdwc & Hpc & _ & _ & Hdis).
  set (dwc := capnp.getDataWordCount cs) in *.
  set (pc := capnp.getPointerCount cs) in *.
  assert (HintEnc : forall out f,
             intField cs fts fvals f ->
             sliceBits (fst (intFrag fvals f))
                       (GasketComponent_size (snd (intFrag fvals f)))
                       (gcBits out)
             = gcBits (snd (intFrag fvals f)) ->
             fieldEncoded cs fvals (gcBits out) f).
  { intros out f Hf Hread.
    destruct (intField_bounds Hf)
      as (v & w & sg & cb & Hfrag & Hv & Hty & _ & Hsz & Hbits & _).
    rewrite Hfrag in Hread. cbn [fst snd] in Hread. rewrite Hsz in Hread.
    exists v. split; [exact Hv|]. rewrite Hty. exists cb. tauto. }
  destruct (@fields_split cs fts fvals (capnp.getFields cs) Hcl Hdis)
    as [Hall|(pre & f & post & Hsplit & Hpre & Hf & Hpost)].
  - (* integers only *)
    rewrite (@sizeStruct_no_list cs fts fvals Hall Hdwc Hpc) in Hwords.
    assert (Hw' : words = 1 + dwc + pc) by (unfold dwc, pc; congruence).
    subst words. clear Hwords.
    split; [lia|].
    destruct (@build_run cs fts fvals ((1 + dwc + pc) * 64)
                (capnp.getFields cs) [] [] []
                (64 + (dwc + pc) * 64))
      as (out & st & rp & Hb & Hty & Hlen & Hrpb & Hrps & Hread);
      try assumption; try (fold dwc pc; lia).
    { rewrite !app_nil_r. reflexivity. }
    { constructor. }
    { rewrite app_nil_r. exact Hdis. }
    { intros st. reflexivity. }
    { constructor. }
    { exact I. }
    exists out, st. repeat (split; [assumption|]). split.
    + fold dwc pc in Hrpb. rewrite <- Hrpb. rewrite <- Hrps at 1.
      apply (Hread (0, rp)). rewrite !in_app_iff. right. right. right.
      left. reflexivity.
    + rewrite Forall_forall in Hall |- *. intros g Hg.
      apply HintEnc; [apply Hall, Hg|]. apply Hread.
      rewrite in_app_iff. left. apply in_map, Hg.
  - (* integers and one list *)
    destruct Hf as (v & nm & w & sg & n & ec & cb & enc & Hft & Hv & Hty & Hlen
                    & Hw & Hn & Hnc & Hct & Hbits & Henc & Hexp & Hwcb & Hcb
                    & Hoff & Hpc').
    fold pc in Hpc'.
    assert (Hn' : 1 <= Z.of_N n < 2 ^ 29).
    { change (2 ^ 29) with (Z.of_N (2 ^ 29)). lia. }
    assert (Hcb' : 1 <= cb <= 64) by lia.
    rewrite (@sizeStruct_one_list cs fts fvals pre post f nm
               (IntegerType w sg) n ec cb) in Hwords;
      try assumption; try lia.
    assert (Hw' : words = 1 + dwc + pc + (Z.of_N n * cb + 63) / 64)
      by (unfold dwc, pc; congruence).
    subst words. clear Hwords.
    assert (Hq : Z.of_N n * cb <= 64 * ((Z.of_N n * cb + 63) / 64)
                 /\ (Z.of_N n * cb + 63) / 64 < 2 ^ 30).
    { split.
      - pose proof (Z.mul_div_le (Z.of_N n * cb + 63) 64).
        pose proof (Z.mod_pos_bound (Z.of_N n * cb + 63) 64).
        pose proof (Z.div_mod (Z.of_N n * cb + 63) 64). lia.
      - apply Z.div_lt_upper_bound; nia. }
    split; [lia|].
    set (sz := (1 + dwc + pc + (Z.of_N n * cb + 63) / 64) * 64).
    set (M := 64 + (dwc + 1) * 64).
    set (P := 64 + dwc * 64).
    destruct (@listFragsOf_props M P cb enc w sg n (gcBits v))
      as [HLp HLd]; try (unfold M, P; lia).
    destruct (@build_run cs fts fvals sz pre [f] post
                (listFragsOf M P cb enc w sg n (gcBits v))
                (M + Z.of_N n * cb))
      as (out & st & rp & Hb & Htyo & Hleno & Hrpb & Hrps & Hread);
      try assumption; try (fold dwc pc; unfold sz; lia).
    { apply (pairwiseDisjoint_remove pre post f). rewrite <- Hsplit.
      exact Hdis. }
    { intros st0. rewrite forEach_single. fold pc. rewrite Hpc'.
      unfold M, P, dwc.
      rewrite (@encodeStructAtField_list cs fvals f v w n sg ec cb enc st0);
        try assumption; try lia.
      destruct (insertAll _ st0) as [[[] st1]|]; reflexivity. }
    { fold dwc P. eapply Forall_impl; [|exact HLp].
      intros g (Hg1 & Hg2 & Hg3 & Hg4).
      split; [exact Hg1|]. split; [exact Hg2|]. split; [exact Hg3|].
      unfold sz, M in *. lia. }
    exists out, st. repeat (split; [assumption|]). split.
    + fold dwc pc in Hrpb. rewrite <- Hrpb. rewrite <- Hrps at 1.
      apply (Hread (0, rp)). rewrite !in_app_iff. right. right. right.
      left. reflexivity.
    + rewrite Hsplit. apply Forall_app. split; [|constructor].
      * rewrite Forall_forall in Hpre |- *. intros g Hg.
        apply HintEnc; [apply Hpre, Hg|]. apply Hread.
        rewrite in_app_iff. left. apply in_map, Hg.
      * exists v. split; [exact Hv|]. rewrite Hty.
        exists ec, cb, enc. repeat (split; [assumption|]).
        split; [rewrite Hleno; fold dwc; unfold sz; lia|]. split.
        -- apply (Hread (P, mkGC (ArrayType i1 64)
                                 (bitsOfZ 2 1 ++ bitsOfZ 30 0 ++ bitsOfZ 3 enc
                                  ++ bitsOfZ 29 (Z.of_N n)))).
           rewrite !in_app_iff. right. left. unfold listFragsOf.
           rewrite in_app_iff. right. left. reflexivity.
        -- intros i Hi. fold dwc M.
           pose proof (Hread (M + (Z.of_N n - 1 - Z.of_nat i) * cb,
                              mkGC (IntegerType w sg)
                                   (sliceBits (Z.of_nat i * Z.of_N w)
                                              (Z.of_N w) (gcBits v)))) as Hr.
           cbn [fst snd gcBits] in Hr.
           replace (GasketComponent_size
                      (mkGC (IntegerType w sg)
                            (sliceBits (Z.of_nat i * Z.of_N w) (Z.of_N w)
                                       (gcBits v))))
             with (Z.of_N w) in Hr.
           2:{ unfold GasketComponent_size. cbn [gcType getBitWidth].
               symmetry. apply wrap64_small. unfold two64. lia. }
           apply Hr. rewrite !in_app_iff. right. left. unfold listFragsOf.
           rewrite in_app_iff. left.
           apply (in_map (fun i0 => (M + (Z.of_N n - 1 - Z.of_nat i0) * cb,
                                     mkGC (IntegerType w sg)
                                          (sliceBits (Z.of_nat i0 * Z.of_N w)
                                                     (Z.of_N w) (gcBits v))))).
           apply in_seq. lia.
      * rewrite Forall_forall in Hpost |- *. intros g Hg.
        apply HintEnc; [apply Hpost, Hg|]. apply Hread.
        rewrite !in_app_iff. right. right. left. apply in_map, Hg.
Qed.

(** *** Decoding: helper facts *)

Lemma getRootSlice_unfold (s : Slice) :
  getRootSlice s = match parent s with
                   | None => s
                   | Some p => getRootSlice p
                   end.
Proof. destruct s; reflexivity. Qed.

Lemma getOffsetFromRoot_unfold (s : Slice) :
  getOffsetFromRoot s
  = match parent s with
    | None => Some 0
    | Some p =>
        match offsetIntoParent s, getOffsetFromRoot p with
        | Some o, Some po => Some (toInt64 (o + po))
        | _, _ => None
        end
    end.
Proof. destruct s; reflexivity. Qed.

Lemma nth_bitsOfZ (w v : Z) (k : nat) :
  nth k (bitsOfZ w v) false
  = if Z.of_nat k <? w then Z.testbit v (Z.of_nat k) else false.
Proof.
  unfold bitsOfZ.
  destruct (Z.of_nat k <? w) eqn:E.
  - apply Z.ltb_lt in E.
    rewrite (nth_indep _ false (Z.testbit v (Z.of_nat 0)))
      by (rewrite length_map, length_seq; lia).
    rewrite (map_nth (fun i => Z.testbit v (Z.of_nat i))).
    rewrite seq_nth by lia. reflexivity.
  - apply Z.ltb_ge in E. apply nth_overflow.
    rewrite length_map, length_seq. lia.
Qed.

Lemma sliceBits_bitsOfZ_low (k w v : Z) :
  0 <= k <= w -> sliceBits 0 k (bitsOfZ w v) = bitsOfZ k v.
Proof.
  intros Hk. apply bits_ext.
  - pose proof (@sliceBits_length 0 k (bitsOfZ w v)) as H1.
    pose proof (@bitsOfZ_length k v) as H2. unfold Zlen in *. lia.
  - intros i Hi. rewrite nth_sliceBits by lia. rewrite !nth_bitsOfZ.
    cbn [Z.to_nat Nat.add].
    destruct (Z.of_nat i <? k) eqn:E; [|reflexivity].
    apply Z.ltb_lt in E.
    destruct (Z.of_nat i <? w) eqn:E'; [reflexivity|].
    apply Z.ltb_ge in E'. lia.
Qed.

Lemma mapM_map {A B : Type} (f : A -> option B) (g : A -> B) (l : list A) :
  (forall a, In a l -> f a = Some (g a)) -> mapM f l = Some (map g l).
Proof.
  induction l as [|a l IH]; intros H; [reflexivity|].
  cbn [mapM map]. rewrite H by (left; reflexivity). cbn [optBind].
  rewrite IH by (intros b Hb; apply H; right; exact Hb). reflexivity.
Qed.

Lemma rev_map_seq {A : Type} (h : nat -> A) (n : nat) :
  rev (map h (seq 0 n)) = map (fun j => h (n - 1 - j)%nat) (seq 0 n).
Proof.
  induction n as [|n IH]; [reflexivity|].
  rewrite seq_S at 1. rewrite map_app, rev_app_distr. cbn [map rev app Nat.add].
  rewrite IH. cbn [seq map]. f_equal; [f_equal; lia|].
  rewrite <- seq_shift, map_map. apply map_ext_in.
  intros j Hj. apply in_seq in Hj. f_equal. lia.
Qed.

(** A bit vector is the concatenation of its [k] chunks of [w] bits. *)
Lemma concat_chunks (w : Z) (V : list bool) (k : nat) :
  0 <= w ->
  concat (map (fun j => sliceBits (Z.of_nat j * w) w V) (seq 0 k))
  = sliceBits 0 (Z.of_nat k * w) V.
Proof.
  intros Hw. induction k as [|k IH].
  - change (Z.of_nat 0 * w) with 0. rewrite sliceBits_zero_width.
    reflexivity.
  - rewrite seq_S, map_app, concat_app, IH. cbn [map concat Nat.add].
    rewrite app_nil_r.
    replace (Z.of_nat (S k) * w) with (Z.of_nat k * w + w) by lia.
    rewrite (@sliceBits_split 0 (Z.of_nat k * w) w V) by nia.
    reflexivity.
Qed.

(** [downcast] of an integer keeps the low bits. *)
Lemma downcast_spec (x : GasketComponent) (c w : N) (sgx sg : Signedness) :
  gcType x = IntegerType c sgx -> (1 <= w)%N ->
  downcast (IntegerType w sg) x
  = Some (mkGC (IntegerType w sg) (sliceBits 0 (Z.of_N w) (gcBits x))).
Proof.
  intros Hty Hw. unfold downcast. rewrite Hty.
  cbn [isIntegerType negb].
  assert (Hs : forall t,
             gcBits (if isSignlessInteger (IntegerType c sgx) then x
                     else rtl.BitcastOp t x)
             = gcBits x)
    by (intros t; destruct (isSignlessInteger _); reflexivity).
  destruct sg; cbn [isSigned negb]; unfold cast, comb.ExtractOp;
    unfold rtl.BitcastOp at 1; cbn [gcBits gcType getBitWidth];
    rewrite ?Hs; try reflexivity.
  unfold comb.ConcatOp. cbn [gcBits gcType].
  rewrite !getBitWidth_getIntegerType by lia.
  f_equal. f_equal.
  replace (Z.of_N w) with ((Z.of_N w - 1) + 1) at 3 by lia.
  rewrite (@sliceBits_split 0 (Z.of_N w - 1) 1 (gcBits x)) by lia.
  reflexivity.
Qed.

Lemma ArrayCreateOp_map {A : Type} (g : A -> GasketComponent) (t : Ty)
  (l : list A) :
  l <> [] -> (forall a, gcType (g a) = t) ->
  rtl.ArrayCreateOp (map g l)
  = Some (mkGC (ArrayType t (N.of_nat (length l)))
               (concat (rev (map (fun a => gcBits (g a)) l)))).
Proof.
  intros Hne Hty. destruct l as [|a l]; [congruence|].
  unfold rtl.ArrayCreateOp. cbn [map].
  assert (Hall : forallb (fun v => Ty_eqb (gcType v) (gcType (g a)))
                         (g a :: map g l) = true).
  { apply forallb_forall. intros v Hv.
    change (g a :: map g l) with (map g (a :: l)) in Hv.
    apply in_map_iff in Hv. destruct Hv as (b & <- & _).
    rewrite !Hty. apply Ty_eqb_refl. }
  rewrite Hall. rewrite Hty.
  change (g a :: map g l) with (map g (a :: l)).
  rewrite length_map, map_map. reflexivity.
Qed.

(** *** Decoding a field of the encoder's message *)

Lemma decodeField_int_ok (B : list bool) (cs : capnp.StructReader)
  (f : capnp.Field) (ds ps : Slice) (asserts : AssertBuilder)
  (v : GasketComponent) (w : N) (sg : Signedness) (cb : Z) :
  bitSlice B 64 ds ->
  Z.of_N (sliceSize ds) = capnp.getDataWordCount cs * 64 ->
  capnp.getDataWordCount cs < 2 ^ 16 ->
  gcType v = IntegerType w sg ->
  bits (capnp.getType f) = Some cb ->
  Z.of_N w <= cb -> 0 <= capnp.getOffset f * cb ->
  capnp.getOffset f * cb + cb <= capnp.getDataWordCount cs * 64 ->
  sliceBits (64 + capnp.getOffset f * cb) (Z.of_N w) B = gcBits v ->
  decodeField (IntegerType w sg) f ds ps asserts = Some (v, asserts).
Proof.
  intros Hds Hsz Hdwc Hty Hbits Hw Hlo Hhi Hread.
  unfold decodeField. rewrite Hbits. cbn [optBind].
  rewrite wrap64_small by (unfold two64; lia).
  destruct (@slice_spec B 64 ds (capnp.getOffset f * cb) (Z.of_N w) Hds)
    as (sl & Esl & (_ & _ & Hb & _) & Hs & _);
    [lia|unfold two64; lia|lia|].
  rewrite Esl. cbn [optBind]. f_equal. f_equal.
  unfold cast, rtl.BitcastOp. rewrite Hb, Hs, N2Z.id, Hread.
  destruct v as [t bs]. cbn [gcType gcBits] in *. rewrite Hty. reflexivity.
Qed.

Lemma Ty_eqb_capnp_elem (cb : Z) (w n n' : N) (sg : Signedness) :
  isCapnpElemType w sg = false ->
  (cb = 1 \/ cb = 8 \/ cb = 16 \/ cb = 32 \/ cb = 64) ->
  Ty_eqb (ArrayType (IntegerType (Z.to_N cb) Unsigned) n')
         (ArrayType (IntegerType w sg) n)
  = false.
Proof.
  intros Hnc Hcb. cbn [Ty_eqb].
  destruct sg; cbn [Signedness_eqb]; try (rewrite andb_false_r; reflexivity).
  cbn [isCapnpElemType] in Hnc.
  repeat (apply orb_false_iff in Hnc; destruct Hnc as [Hnc ?]).
  repeat match goal with H : (_ =? _)%N = false |- _ =>
           apply N.eqb_neq in H end.
  destruct (N.eqb (Z.to_N cb) w) eqn:E; [|reflexivity].
  apply N.eqb_eq in E. exfalso.
  destruct Hcb as [Hc | [Hc | [Hc | [Hc | Hc]]]]; subst cb; cbn in E;
    congruence.
Qed.

(** The list of the one pointer field: the decoder follows the pointer to
    the words after the struct and rebuilds the array. *)
Lemma decodeList_ok (B : list bool) (cs : capnp.StructReader) (sz : Z)
  (f : capnp.Field) (operand ps : Slice) (asserts : AssertBuilder)
  (v : GasketComponent) (w n : N) (sg : Signedness) (ec : capnp.Type_)
  (cb enc : Z) :
  let P := 64 + capnp.getDataWordCount cs * 64 in
  let M := P + 64 in
  Zlen B = sz ->
  bitSlice B 0 operand -> parent operand = None ->
  Z.of_N (sliceSize operand) = sz ->
  bitSlice B P ps -> parent ps = Some operand ->
  offsetIntoParent ps = Some P -> Z.of_N (sliceSize ps) = 64 ->
  0 <= capnp.getDataWordCount cs ->
  sz <= 2 ^ 30 -> M + Z.of_N n * cb <= sz ->
  gcType v = ArrayType (IntegerType w sg) n ->
  Zlen (gcBits v) = Z.of_N n * Z.of_N w ->
  (1 <= w)%N -> Z.of_N w <= cb -> (2 <= n < 2 ^ 29)%N ->
  isCapnpElemType w sg = false ->
  capnp.getType f = capnp.LIST ec ->
  capnp.getOffset f = 0 ->
  bits ec = Some cb -> expectedElemSizeFieldOf cb = Some enc ->
  (cb = 1 \/ cb = 8 \/ cb = 16 \/ cb = 32 \/ cb = 64) ->
  sliceBits P 64 B
  = bitsOfZ 2 1 ++ bitsOfZ 30 0 ++ bitsOfZ 3 enc ++ bitsOfZ 29 (Z.of_N n) ->
  (forall i, (i < N.to_nat n)%nat ->
             sliceBits (M + (Z.of_N n - 1 - Z.of_nat i) * cb) (Z.of_N w) B
             = sliceBits (Z.of_nat i * Z.of_N w) (Z.of_N w) (gcBits v)) ->
  exists asserts',
    decodeList (IntegerType w sg) n f ps asserts = Some (v, asserts').
Proof.
  intros P M HB Hop Hopp Hops Hps Hpsp Hpso Hpss Hdwc Hsz Hfit Hty Hlen Hw Hwcb
         Hn Hnc Hct Hoff Hbits Hexp Hcb Hptr Helems.
  assert (Hn' : 2 <= Z.of_N n < 2 ^ 29).
  { change (2 ^ 29) with (Z.of_N (2 ^ 29)). lia. }
  assert (Hcb' : 1 <= cb <= 64) by lia.
  unfold decodeList. rewrite Hct, Hoff. change (wrap32 (0 * 64)) with 0.
  destruct (@slice_spec B P ps 0 64 Hps)
    as (ptr & Eptr & Hptrs & Hpsz & Hptrp & Hptro);
    [lia|unfold two64; lia|lia|].
  rewrite Z.add_0_r in Hptrs.
  rewrite Eptr. cbn [optBind].
  assert (Hsz64 : Z.of_N (sliceSize ptr) = 64) by (rewrite Hpsz; reflexivity).
  destruct (@slice_spec B P ptr 0 2 Hptrs)
    as (s1 & E1 & (_ & Ht1 & _) & Hs1 & _); [lia|unfold two64; lia|lia|].
  destruct (@slice_spec B P ptr 2 30 Hptrs)
    as (s2 & E2 & (_ & _ & Hb2 & _) & Hs2 & _); [lia|unfold two64; lia|lia|].
  destruct (@slice_spec B P ptr 32 3 Hptrs)
    as (s3 & E3 & (_ & Ht3 & _) & Hs3 & _); [lia|unfold two64; lia|lia|].
  destruct (@slice_spec B P ptr 35 29 Hptrs)
    as (s4 & E4 & (_ & Ht4 & _) & Hs4 & _); [lia|unfold two64; lia|lia|].
  rewrite E1. cbn [optBind]. rewrite E2. cbn [optBind].
  rewrite E3. cbn [optBind]. rewrite E4. cbn [optBind].
  unfold assertEqual.
  rewrite (@assertPred_bitArray _ _ _ _ _ Ht1) by (rewrite Hs1; lia).
  cbn [optBind].
  rewrite Hbits. cbn [optBind]. rewrite Hexp. cbn [optBind].
  rewrite (@assertPred_bitArray _ _ _ _ _ Ht3) by (rewrite Hs3; lia).
  cbn [optBind].
  rewrite (@assertPred_bitArray _ _ _ _ _ Ht4) by (rewrite Hs4; lia).
  cbn [optBind].
  (* the offset of the pointer from the root of the message *)
  rewrite (getOffsetFromRoot_unfold ptr), Hptrp, Hptro.
  rewrite (getOffsetFromRoot_unfold ps), Hpsp, Hpso.
  rewrite (getOffsetFromRoot_unfold operand), Hopp.
  rewrite (getRootSlice_unfold ptr), Hptrp.
  rewrite (getRootSlice_unfold ps), Hpsp.
  rewrite (getRootSlice_unfold operand), Hopp.
  rewrite Z.add_0_r, (@toInt64_small P) by (unfold P; lia).
  rewrite Z.add_0_l, (@toInt64_small P) by (unfold P; lia).
  cbn [optBind]. fold M.
  rewrite (@toInt64_small M) by (unfold M, P; lia).
  rewrite ConstantOp_some by lia. cbn [optBind].
  (* the offset field of the pointer is zero *)
  assert (Hoffbits : gcBits (sliceValue s2) = bitsOfZ 30 0).
  { rewrite Hb2, Hs2. change (Z.of_N (Z.to_N 30)) with 30.
    rewrite <- (@sliceBits_sliceBits P 64 2 30 B) by (unfold P; lia).
    rewrite Hptr. apply sliceBits_mid; reflexivity. }
  set (listOffset := comb.AddOp _ _).
  assert (HlistOffset : listOffset = mkGC (getIntegerType 30) (bitsOfZ 30 M)).
  { unfold listOffset, comb.AddOp, cast, rtl.BitcastOp, constantOf.
    cbn [gcType gcBits]. rewrite Hoffbits.
    change (getBitWidth (getIntegerType 30)) with 30.
    rewrite (@ZofBits_bitsOfZ_small 30 0) by lia.
    rewrite (@ZofBits_bitsOfZ_small 30 M) by (unfold M, P in *; lia).
    reflexivity. }
  rewrite HlistOffset. clear HlistOffset listOffset.
  (* the list's bits *)
  destruct Hop as (Hope & Hopt & Hopb & _).
  assert (HopB : gcBits (sliceValue operand) = B).
  { rewrite Hopb, Hops, <- HB. apply sliceBits_all. }
  assert (Hszpos : 0 < sz) by (unfold M, P in *; nia).
  destruct (@Log2_64_Ceil_spec sz Hszpos) as [Hk1 Hk2].
  assert (Hk3 : Log2_64_Ceil sz <= 30).
  { unfold Log2_64_Ceil. destruct (sz =? 0) eqn:E0; [boolprop; lia|].
    apply Z.log2_up_le_pow2; lia. }
  unfold sliceAt. cbn [gcType].
  change (negb (isIntegerType (getIntegerType 30))) with false. cbv iota.
  rewrite Hops.
  change (getBitWidth (getIntegerType 30)) with 30.
  destruct (30 <? Log2_64_Ceil sz) eqn:E30; [boolprop; lia|].
  set (lsb' := if Log2_64_Ceil sz <? 30 then _ else _).
  assert (Hlsb : ZofBits (gcBits lsb') = M).
  { unfold lsb'. destruct (Log2_64_Ceil sz <? 30) eqn:Ek.
    - unfold comb.ExtractOp. cbn [gcBits].
      rewrite getBitWidth_getIntegerType by lia.
      rewrite sliceBits_bitsOfZ_low by (boolprop; lia).
      apply ZofBits_bitsOfZ_small; [lia|]. unfold M, P in *. nia.
    - cbn [gcBits]. apply ZofBits_bitsOfZ_small; [lia|].
      unfold M, P in *. lia. }
  rewrite (@wrap64_small (Z.of_N n * cb)) by (unfold two64; nia).
  rewrite (@wrap64_small (Z.of_N n * cb)) by (unfold two64; nia).
  unfold Slice_child, rtl.ArraySliceOp. rewrite Hopt, Hope.
  cbn [gcType optBind]. rewrite Hlsb, HopB.
  change (getBitWidth i1) with 1. rewrite Z.mul_1_r.
  rewrite getBitWidth_bitArray, Z2N.id by nia.
  cbn [isIntegerType negb].
  unfold castToSlice. cbn [sliceValue]. unfold cast, rtl.BitcastOp.
  cbn [gcBits]. unfold Slice_root at 1. cbn [gcType optBind].
  rewrite (@wrap64_small (Z.of_N n)) by (unfold two64; lia).
  rewrite N2Z.id. cbn [sliceValue gcType].
  rewrite (@Ty_eqb_capnp_elem cb w n n sg Hnc Hcb).
  set (arr := mkGC (ArrayType (IntegerType (Z.to_N cb) Unsigned) n)
                   (sliceBits M (Z.of_N n * cb) B)).
  set (sl := mkSlice arr (IntegerType (Z.to_N cb) Unsigned) n None (Some 0)).
  assert (Hsl : Slice_root arr = Some sl) by reflexivity.
  rewrite (@mapM_map _ _ _
             (fun i => mkGC (IntegerType w sg)
                            (sliceBits (M + Z.of_nat i * cb) (Z.of_N w) B))).
  2:{ intros i Hi. apply in_seq in Hi.
      rewrite Slice_get_some by (cbn [sl sliceSize]; lia). cbn [optBind].
      rewrite (@Slice_get_root arr (IntegerType (Z.to_N cb) Unsigned) n sl
                 (Z.of_nat i));
        try reflexivity; try lia.
      cbn [getBitWidth]. rewrite Z2N.id by lia.
      rewrite (@downcast_spec _ (Z.to_N cb) w Unsigned sg);
        [|reflexivity|exact Hw].
      cbn [gcBits]. f_equal. f_equal. unfold arr. cbn [gcBits].
      rewrite (@sliceBits_sliceBits M (Z.of_N n * cb) (Z.of_nat i * cb) cb B)
        by (unfold M, P; nia).
      rewrite (@sliceBits_sliceBits (M + Z.of_nat i * cb) cb 0 (Z.of_N w) B)
        by (unfold M, P; nia).
      rewrite Z.add_0_r. reflexivity. }
  cbn [optBind].
  rewrite (@ArrayCreateOp_map _ _ (IntegerType w sg));
    [|destruct (N.to_nat n) eqn:En; [lia|discriminate]|reflexivity].
  cbn [optBind gcBits].
  destruct v as [t V]. cbn [gcType gcBits] in *. subst t.
  rewrite length_seq, Nnat.N2Nat.id.
  rewrite rev_map_seq.
  rewrite (map_ext_in _ (fun j => sliceBits (Z.of_nat j * Z.of_N w) (Z.of_N w) V)).
  2:{ intros j Hj. apply in_seq in Hj. rewrite <- (Helems j) by lia.
      f_equal. f_equal. lia. }
  rewrite concat_chunks by lia.
  rewrite N_nat_Z, <- Hlen, sliceBits_all.
  eexists. reflexivity.
Qed.

(** The loop over the fields returns the encoded field values, in field
    order. *)
Lemma decodeFields_ok (B : list bool) (cs : capnp.StructReader)
  (fts : list FieldInfo) (fvals : list GasketComponent)
  (operand ds ps : Slice) (fields : list capnp.Field) :
  Zlen B <= 2 ^ 30 ->
  bitSlice B 0 operand -> parent operand = None ->
  Z.of_N (sliceSize operand) = Zlen B ->
  bitSlice B 64 ds ->
  Z.of_N (sliceSize ds) = capnp.getDataWordCount cs * 64 ->
  bitSlice B (64 + capnp.getDataWordCount cs * 64) ps ->
  parent ps = Some operand ->
  offsetIntoParent ps = Some (64 + capnp.getDataWordCount cs * 64) ->
  Z.of_N (sliceSize ps) = capnp.getPointerCount cs * 64 ->
  0 <= capnp.getDataWordCount cs < 2 ^ 16 ->
  Forall (fun f => intField cs fts fvals f \/ listField cs fts fvals f)
         fields ->
  Forall (fieldEncoded cs fvals B) fields ->
  forall asserts,
  exists asserts',
    decodeFields fts fields ds ps asserts
    = Some (map (fun f => nth (capnp.getCodeOrder f) fvals
                              (mkGC (OtherType "none") []))
                fields,
            asserts').
Proof.
  intros HB Hop Hopp Hops Hds Hdss Hps Hpsp Hpso Hpss Hdwc Hcl Henc.
  induction Hcl as [|f fields Hf _ IH]; intros asserts.
  - exists asserts. reflexivity.
  - inversion Henc as [|? ? Hfe Henc']; subst.
    specialize (IH Henc').
    cbn [decodeFields map].
    assert (Hone : exists a1,
               optBind (nth_error fts (capnp.getCodeOrder f))
                 (fun ft => decodeField (snd ft) f ds ps asserts)
               = Some (nth (capnp.getCodeOrder f) fvals
                           (mkGC (OtherType "none") []), a1)).
    { destruct Hfe as (v & Hv & Hfe). rewrite (nth_error_nth _ _ _ Hv).
      destruct Hf as [Hf|Hf].
      - destruct (intField_bounds Hf)
          as (v' & w & sg & cb & _ & Hv' & Hty & _ & _ & Hbits & _ & Hw & _
              & Hlo & Hhi).
        destruct Hf as (v2 & nm & w2 & sg2 & cb2 & Hft & Hv2 & Hty2 & _).
        assert (v' = v) by congruence. subst v'.
        assert (v2 = v) by congruence. subst v2.
        assert (Hws : IntegerType w2 sg2 = IntegerType w sg) by congruence.
        inversion Hws; subst w2 sg2. clear Hws.
        rewrite Hty in Hfe. destruct Hfe as (cb' & Hbits' & Hread).
        assert (cb' = cb) by congruence. subst cb'.
        exists asserts. rewrite Hft. cbn [optBind snd].
        apply (@decodeField_int_ok B cs f ds ps asserts v w sg cb);
          try assumption; lia.
      - destruct Hf as (v2 & nm & w & sg & n & ec & cb & enc & Hft & Hv2 & Hty
                        & Hlen & Hw & Hn & Hnc & Hct & Hbits & Henc2 & Hexp
                        & Hwcb & Hcb & Hoff & Hpc).
        assert (v2 = v) by congruence. subst v2.
        rewrite Hty in Hfe.
        destruct Hfe as (ec' & cb' & enc' & Hct' & Hbits' & Henc3 & Hfit
                         & Hptr & Helems).
        assert (Hec : ec' = ec) by congruence. subst ec'.
        assert (cb' = cb) by congruence. subst cb'.
        assert (enc' = enc) by congruence. subst enc'.
        rewrite Hft. cbn [optBind snd decodeField].
        apply (@decodeList_ok B cs (Zlen B) f operand ps asserts v w n sg ec
                 cb enc); try assumption; try reflexivity; try lia.
        intros i Hi.
        replace (64 + capnp.getDataWordCount cs * 64 + 64)
          with (64 + (capnp.getDataWordCount cs + 1) * 64) by lia.
        apply Helems, Hi. }
    destruct Hone as (a1 & Hone).
    destruct (nth_error fts (capnp.getCodeOrder f)) as [ft|];
      [|discriminate Hone].
    cbn [optBind] in Hone |- *. rewrite Hone. cbn [optBind snd fst].
    destruct (IH a1) as (a2 & ->). cbn [optBind fst snd].
    exists a2. reflexivity.
Qed.

(** The decoder up to the loop over the fields: the root pointer is checked
    and the data and pointer sections are sliced off the message. *)
Lemma decoderBody_run (ts : TypeSchemaImpl) (cs : capnp.StructReader)
  (msg : GasketComponent) (n : N) :
  size ts cs = Some (Z.of_N n) ->
  gcType msg = ArrayType i1 n -> Zlen (gcBits msg) = Z.of_N n ->
  64 * (1 + capnp.getDataWordCount cs + capnp.getPointerCount cs)
  <= Z.of_N n ->
  0 <= capnp.getDataWordCount cs -> 0 <= capnp.getPointerCount cs ->
  Z.of_N n < two64 ->
  exists operand ds ps a0,
    bitSlice (gcBits msg) 0 operand /\ parent operand = None
    /\ sliceSize operand = n
    /\ bitSlice (gcBits msg) 64 ds
    /\ Z.of_N (sliceSize ds) = capnp.getDataWordCount cs * 64
    /\ bitSlice (gcBits msg) (64 + capnp.getDataWordCount cs * 64) ps
    /\ parent ps = Some operand
    /\ offsetIntoParent ps = Some (64 + capnp.getDataWordCount cs * 64)
    /\ Z.of_N (sliceSize ps) = capnp.getPointerCount cs * 64
    /\ decoderBody ts cs msg
       = (fv <-? decodeFields (fieldTypes ts) (capnp.getFields cs) ds ps a0 ;;
          match canonicalType ts with
          | IntegerType _ _ | ArrayType _ _ =>
              v <-? nth_error (fst fv) 0 ;;
              Some (v, snd fv)
          | StructType _ =>
              Some (rtl.StructCreateOp (type ts) (fst fv), snd fv)
          | _ => None
          end).
Proof.
  intros Hsize Hty Hlen Hsz Hdwc Hpc Hn.
  destruct (@Slice_root_spec msg n Hty Hlen)
    as (operand & Eop & Hop & Hops & Hopv & Hopp).
  destruct (@slice_spec (gcBits msg) 0 operand 0 64 Hop)
    as (ptr & Eptr & (_ & Hpt & Hpb & _) & Hpsz & _);
    [lia|unfold two64; lia|rewrite Hops; lia|].
  assert (Hplen : Zlen (gcBits (sliceValue ptr)) = Z.of_N (sliceSize ptr)).
  { rewrite Hpb. apply sliceBits_length. lia. }
  destruct (@Slice_root_spec (sliceValue ptr) (sliceSize ptr) Hpt Hplen)
    as (aptr & Eaptr & Hap & Haps & _).
  assert (Hap64 : Z.of_N (sliceSize aptr) = 64).
  { rewrite Haps, Hpsz. reflexivity. }
  destruct (@slice_spec (gcBits (sliceValue ptr)) 0 aptr 0 32 Hap)
    as (s1 & E1 & (_ & Ht1 & _) & Hs1 & _); [lia|unfold two64; lia|lia|].
  destruct (@slice_spec (gcBits (sliceValue ptr)) 0 aptr 32 16 Hap)
    as (s2 & E2 & _); [lia|unfold two64; lia|lia|].
  destruct (@slice_spec (gcBits (sliceValue ptr)) 0 aptr 48 16 Hap)
    as (s3 & E3 & _); [lia|unfold two64; lia|lia|].
  destruct (@slice_spec (gcBits msg) 0 operand 64
              (capnp.getDataWordCount cs * 64) Hop)
    as (ds & Eds & Hds & Hdss & _);
    [lia|unfold two64 in *; lia|rewrite Hops; lia|].
  destruct (@slice_spec (gcBits msg) 0 operand
              (64 + capnp.getDataWordCount cs * 64)
              (capnp.getPointerCount cs * 64) Hop)
    as (ps & Eps & Hps & Hpss & Hpsp & Hpso);
    [lia|unfold two64 in *; lia|rewrite Hops; lia|].
  exists operand, ds, ps.
  eexists.
  split; [exact Hop|]. split; [exact Hopp|]. split; [exact Hops|].
  split; [exact Hds|]. split; [rewrite Hdss; apply Z2N.id; lia|].
  split; [exact Hps|]. split; [exact Hpsp|]. split; [exact Hpso|].
  split; [rewrite Hpss; apply Z2N.id; lia|].
  unfold decoderBody. rewrite Hsize. cbn [optBind]. rewrite Hty.
  rewrite Z.eqb_refl. cbn [negb]. rewrite Eop. cbn [optBind].
  rewrite Eptr. cbn [optBind]. rewrite Eaptr. cbn [optBind].
  rewrite E1. cbn [optBind]. unfold assertEqual.
  rewrite (@assertPred_bitArray _ _ _ _ _ Ht1) by (rewrite Hs1; lia).
  cbn [optBind].
  rewrite E2. cbn [optBind]. rewrite assertPred_integer by lia. cbn [optBind].
  rewrite E3. cbn [optBind]. rewrite assertPred_integer by lia. cbn [optBind].
  rewrite Eds. cbn [optBind]. rewrite Eps. cbn [optBind].
  reflexivity.
Qed.

(** The values [decodeFields] returns are the field values, because the
    code order of a field is its index. *)
Lemma map_nth_codeOrder (fields : list capnp.Field)
  (fvals : list GasketComponent) (d : GasketComponent) :
  (forall i f, nth_error fields i = Some f -> capnp.getCodeOrder f = i) ->
  length fields = length fvals ->
  map (fun f => nth (capnp.getCodeOrder f) fvals d) fields = fvals.
Proof.
  intros Hco Hlen. apply nth_error_ext. intros i.
  rewrite nth_error_map.
  destruct (nth_error fields i) as [f|] eqn:E; cbn [option_map].
  - rewrite (Hco i f E). symmetry. apply nth_error_nth'.
    assert (Hi : (i < length fields)%nat)
      by (apply nth_error_Some; congruence).
    lia.
  - symmetry. apply nth_error_None. apply nth_error_None in E. lia.
Qed.

(** *** A struct value and its fields *)

Lemma fieldLsb_app (p r : list FieldInfo) (j : nat) :
  rtl.fieldLsb (p ++ r) (length p + j) = rtl.fieldLsb r j.
Proof.
  induction p as [|g p IH]; [reflexivity|].
  cbn [app length Nat.add rtl.fieldLsb]. exact IH.
Qed.

Lemma fieldLsb_head (g : FieldInfo) (r : list FieldInfo) :
  rtl.fieldLsb (g :: r) 0 = fieldsWidth r.
Proof. reflexivity. Qed.

Lemma StructExtractOp_all (v : GasketComponent) (fs : list FieldInfo) :
  gcType v = StructType fs ->
  forall p r, fs = p ++ r ->
    map (fun i => gcBits (rtl.StructExtractOp v i)) (seq (length p) (length r))
    = fieldBitsOf r (gcBits v).
Proof.
  intros Hty p r. revert p. induction r as [|g r IH]; intros p Hfs.
  - reflexivity.
  - cbn [length seq map fieldBitsOf]. f_equal.
    + unfold rtl.StructExtractOp. rewrite Hty. cbn [getCanonicalType].
      rewrite Hfs.
      rewrite nth_error_app2 by lia. rewrite Nat.sub_diag. cbn [nth_error gcBits].
      replace (length p) with (length p + 0)%nat at 1 by lia.
      rewrite fieldLsb_app. reflexivity.
    + specialize (IH (p ++ [g])). rewrite length_app in IH.
      cbn [length] in IH. rewrite Nat.add_1_r in IH. apply IH.
      rewrite <- app_assoc. exact Hfs.
Qed.

Lemma fieldBitsOf_concat (fs : list FieldInfo) (V : list bool) :
  Forall (fun f => 0 <= getBitWidth (snd f)) fs ->
  0 <= fieldsWidth fs
  /\ concat (rev (fieldBitsOf fs V)) = sliceBits 0 (fieldsWidth fs) V.
Proof.
  induction 1 as [|g r Hg _ [IH0 IH]].
  - change (fieldsWidth []) with 0. rewrite sliceBits_zero_width.
    split; [lia|reflexivity].
  - cbn [fieldBitsOf rev fieldsWidth fold_right].
    fold (fieldsWidth r). split; [lia|].
    rewrite concat_app, IH. cbn [concat]. rewrite app_nil_r.
    rewrite Z.add_comm.
    rewrite (@sliceBits_split 0 (fieldsWidth r) (getBitWidth (snd g)) V)
      by lia.
    reflexivity.
Qed.

Lemma getBitWidth_struct (fs : list FieldInfo) :
  Forall (fun f => 0 <= getBitWidth (snd f)) fs ->
  getBitWidth (StructType fs) = fieldsWidth fs.
Proof.
  intros H. cbn [getBitWidth]. induction H as [|g r Hg Hr IH].
  - reflexivity.
  - cbn [fieldsWidth fold_right]. fold (fieldsWidth r). rewrite IH.
    destruct (fieldBitsOf_concat [] Hr) as [Hr0 _].
    destruct (getBitWidth (snd g) <? 0) eqn:E1; [boolprop; lia|].
    destruct (fieldsWidth r <? 0) eqn:E2; [boolprop; lia|].
    reflexivity.
Qed.

(** Extracting every field of a struct value and creating a struct from
    them gives the value back. *)
Lemma StructCreateOp_extract (v : GasketComponent) (fs : list FieldInfo) :
  gcType v = StructType fs ->
  Zlen (gcBits v) = getBitWidth (StructType fs) ->
  Forall (fun f => 0 <= getBitWidth (snd f)) fs ->
  rtl.StructCreateOp (StructType fs)
    (map (fun i => rtl.StructExtractOp v i) (seq 0 (length fs)))
  = v.
Proof.
  intros Hty Hlen Hfs. unfold rtl.StructCreateOp. rewrite map_map.
  pose proof (@StructExtractOp_all v fs Hty [] fs eq_refl) as Hall.
  cbn [length] in Hall. rewrite Hall.
  destruct (fieldBitsOf_concat (gcBits v) Hfs) as [_ ->].
  rewrite <- (getBitWidth_struct Hfs), <- Hlen, sliceBits_all.
  destruct v as [t V]. cbn [gcType gcBits] in *. rewrite Hty. reflexivity.
Qed.

Lemma rtField_width (t : Ty) : rtField t = true -> 0 <= getBitWidth t.
Proof.
  unfold rtField. intros H. apply orb_true_iff in H. destruct H as [H|H].
  - destruct t; try discriminate. cbn [getBitWidth]. lia.
  - destruct t as [|e n| | | |]; try discriminate.
    destruct e; try discriminate. cbn [getBitWidth].
    destruct (Z.of_N width <? 0) eqn:E; [boolprop; lia|]. lia.
Qed.

Lemma StructExtractOp_typed (v : GasketComponent) (fs : list FieldInfo) :
  gcType v = StructType fs ->
  Forall (fun f => 0 <= getBitWidth (snd f)) fs ->
  forall p r, fs = p ++ r ->
    Forall2 (fun ft x => gcType x = snd ft
                         /\ Zlen (gcBits x) = getBitWidth (snd ft))
            r (map (fun i => rtl.StructExtractOp v i)
                   (seq (length p) (length r))).
Proof.
  intros Hty Hfs p r. revert p. induction r as [|g r IH]; intros p Hsplit.
  - constructor.
  - cbn [length seq map]. constructor.
    + unfold rtl.StructExtractOp. rewrite Hty. cbn [getCanonicalType].
      rewrite Hsplit. rewrite nth_error_app2 by lia.
      rewrite Nat.sub_diag. cbn [nth_error gcType gcBits].
      split; [reflexivity|]. apply sliceBits_length.
      rewrite Forall_forall in Hfs. apply Hfs. rewrite Hsplit.
      apply in_app_iff. right. left. reflexivity.
    + specialize (IH (p ++ [g])). rewrite length_app in IH.
      cbn [length] in IH. rewrite Nat.add_1_r in IH. apply IH.
      rewrite <- app_assoc. exact Hsplit.
Qed.

(** The field values [buildEncoder] encodes for a value of one of these
    types have the types of the schema's fields. *)
Lemma fieldValues_typed (t : Ty) (v : GasketComponent) :
  rtType t = true -> gcType v = t -> Zlen (gcBits v) = getBitWidth t ->
  getCanonicalType t = t
  /\ forallb (fun ft => rtField (snd ft)) (fieldTypes (TypeSchemaImpl_new t))
     = true
  /\ Forall2 (fun ft x => gcType x = snd ft
                          /\ Zlen (gcBits x) = getBitWidth (snd ft))
             (fieldTypes (TypeSchemaImpl_new t))
             (match canonicalType (TypeSchemaImpl_new t) with
              | StructType elements =>
                  map (fun i => rtl.StructExtractOp v i)
                      (seq 0 (length elements))
              | _ => [v]
              end).
Proof.
  intros Hrt Hty Hlen.
  destruct t as [w sg|e n|fs|nm i|i|m]; cbn [rtType] in Hrt;
    try (unfold rtField in Hrt; cbn in Hrt; discriminate).
  - split; [reflexivity|]. cbn. rewrite Hrt. split; [reflexivity|].
    constructor; [|constructor]. cbn [snd]. split; assumption.
  - split; [reflexivity|].
    unfold TypeSchemaImpl_new. cbn [getCanonicalType fieldTypes canonicalType].
    cbn [forallb snd]. rewrite Hrt. split; [reflexivity|].
    constructor; [|constructor]. cbn [snd]. split; assumption.
  - split; [reflexivity|].
    unfold TypeSchemaImpl_new. cbn [getCanonicalType fieldTypes canonicalType].
    split; [exact Hrt|].
    apply (@StructExtractOp_typed v fs Hty) with (p := []); [|reflexivity].
    rewrite forallb_forall in Hrt. apply Forall_forall.
    intros f Hf. apply rtField_width, Hrt, Hf.
Qed.

(** *** Encoding, then decoding *)

Lemma encode_decode (t : Ty) (cs : capnp.StructReader) (v : GasketComponent)
  (sz : Z) :
  let ts := TypeSchemaImpl_new t in
  rtType t = true ->
  layoutOk (fieldTypes ts) cs = true ->
  capnp.getPointerCount cs <= 1 ->
  size ts cs = Some sz -> sz <= 2 ^ 30 ->
  gcType v = t -> Zlen (gcBits v) = getBitWidth t ->
  exists msg asserts,
    encoderBody ts cs v = Some msg
    /\ gcType msg = ArrayType i1 (Z.to_N sz)
    /\ decoderBody ts cs msg = Some (v, asserts).
Proof.
  intros ts Hrt Hok Hpc1 Hsize Hsz Hty Hlen.
  destruct (@fieldValues_typed t v Hrt Hty Hlen) as (Hcan & Hrtf & Hvals).
  fold ts in Hrtf, Hvals.
  set (fvals := match canonicalType ts with
                | StructType elements =>
                    map (fun i => rtl.StructExtractOp v i)
                        (seq 0 (length elements))
                | _ => [v]
                end) in *.
  assert (Hwords : exists words, sizeStruct cs (fieldTypes ts) = Some words
                                 /\ sz = wrap64 (words * 64)).
  { unfold size in Hsize.
    destruct (sizeStruct cs (fieldTypes ts)) as [words|]; [|discriminate].
    exists words. split; [reflexivity|congruence]. }
  destruct Hwords as (words & Hwords & Hszw).
  destruct (@encoder_message cs (fieldTypes ts) fvals words Hok Hpc1 Hrtf
              Hvals Hwords)
    as (Hwr & msg & st & Hbuild & Hmty & Hmlen & Hroot & Henc).
  rewrite wrap64_small in Hszw by (unfold two64; lia).
  subst sz.
  destruct (layoutOk_fields _ _ Hok) as (Hdwc & Hpc & Hfields & Hco & Hdis).
  exists msg.
  assert (HE : encoderBody ts cs v = Some msg).
  { unfold encoderBody. rewrite Hsize. cbn [optBind].
    change (type ts) with t. rewrite Hty, Ty_eqb_refl. cbn [negb].
    fold fvals. rewrite Hbuild. reflexivity. }
  assert (Hszn : Z.of_N (Z.to_N (words * 64)) = words * 64)
    by (apply Z2N.id; lia).
  assert (Hlow : 64 * (1 + capnp.getDataWordCount cs
                       + capnp.getPointerCount cs) <= words * 64).
  { pose proof (@fields_classified cs (fieldTypes ts) fvals Hok Hpc1 Hrtf
                  Hvals) as Hcl.
    destruct (@fields_split cs (fieldTypes ts) fvals (capnp.getFields cs)
                Hcl Hdis)
      as [Hall|(pre & f & post & Hsplit & Hpre & Hf & Hpost)].
    - rewrite (@sizeStruct_no_list cs (fieldTypes ts) fvals Hall Hdwc Hpc)
        in Hwords.
      assert (words = 1 + capnp.getDataWordCount cs
                      + capnp.getPointerCount cs) by congruence.
      lia.
    - destruct Hf as (v' & nm & w & sg & n & ec & cb & enc & Hft & Hv' & Hty'
                      & Hlen' & Hw & Hn & Hnc & Hct & Hbits & Henc2 & Hexp
                      & Hwcb & Hcb & Hoff & Hpc').
      rewrite (@sizeStruct_one_list cs (fieldTypes ts) fvals pre post f nm
                 (IntegerType w sg) n ec cb) in Hwords;
        try assumption; try lia.
      assert (Hq : 0 <= (Z.of_N n * cb + 63) / 64)
        by (apply Z.div_pos; nia).
      assert (words = 1 + capnp.getDataWordCount cs
                      + capnp.getPointerCount cs
                      + (Z.of_N n * cb + 63) / 64) by congruence.
      lia. }
  destruct (@decoderBody_run ts cs msg (Z.to_N (words * 64)))
    as (operand & ds & ps & a0 & Hop & Hopp & Hops & Hds & Hdss & Hps & Hpsp
        & Hpso & Hpss & Hrun);
    try assumption; try (rewrite Hszn; assumption); try lia.
  { rewrite Hszn. unfold two64. lia. }
  destruct (@decodeFields_ok (gcBits msg) cs (fieldTypes ts) fvals operand ds
              ps (capnp.getFields cs))
    with (asserts := a0) as (asserts' & Hdec);
    try assumption; try lia.
  { apply (@fields_classified cs (fieldTypes ts) fvals); assumption. }
  rewrite (@map_nth_codeOrder (capnp.getFields cs) fvals) in Hdec;
    [|exact Hco|].
  2:{ rewrite <- (Forall2_length Hfields). apply (Forall2_length Hvals). }
  exists asserts'. split; [exact HE|]. split; [exact Hmty|].
  rewrite Hrun, Hdec. cbn [optBind fst snd].
  unfold fvals. change (canonicalType ts) with (getCanonicalType t).
  rewrite Hcan.
  destruct t as [w sg|e n|fs|nm i|i|m]; cbn [rtType] in Hrt;
    try (unfold rtField in Hrt; cbn in Hrt; discriminate);
    try reflexivity.
  change (type ts) with (StructType fs). f_equal. f_equal.
  apply StructCreateOp_extract; [exact Hty|exact Hlen|].
  rewrite forallb_forall in Hrt. apply Forall_forall.
  intros f Hf. apply rtField_width, Hrt, Hf.
Qed.







(** Besides, where the type [decodeList] casts the list's elements to is the
    array's element type (arrays of unsigned integers of 1, 8, 16, 32 or 64
    bits) the decoder returns the list as it is stored, last element first:
    the array of two unsigned 8-bit integers 0x0201 comes back as 0x0102. *)
Lemma round_trip_reverses_ui8_array :
  let t := ArrayType (IntegerType 8 Unsigned) 2 in
  let ts := TypeSchemaImpl_new t in
  let cs := capnp.mkStruct 0 1
              [capnp.mkField "l" 0 0 (capnp.LIST capnp.UINT8)] in
  let v := mkGC t (bitsOfZ 16 513) in
  let clk := mkGC i1 [false] in
  let valid := mkGC i1 [true] in
  TypeSchemaImpl_isSupported ts = true
  /\ layoutOk (fieldTypes ts) cs = true
  /\ exists encoder decoder encoded decoded,
      buildEncoder ts "a2ui8" cs clk valid v = Some encoder
      /\ body encoder v = Some encoded
      /\ buildDecoder ts "a2ui8" cs clk valid (output encoded) = Some decoder
      /\ body decoder (output encoded) = Some decoded
      /\ output decoded = mkGC t (bitsOfZ 16 258)
      /\ output decoded <> v.
Proof.
  intros t ts cs v clk valid.
  split; [reflexivity|]. split; [vm_compute; reflexivity|].
  destruct (encoderBody ts cs v) as [msg|] eqn:HE;
    [|vm_compute in HE; discriminate HE].
  destruct (decoderBody ts cs msg) as [[out asserts]|] eqn:HD.
  2:{ vm_compute in HE. inversion HE; subst msg. vm_compute in HD.
      discriminate HD. }
  assert (Hout : out = mkGC t (bitsOfZ 16 258)).
  { vm_compute in HE. inversion HE; subst msg. vm_compute in HD.
    inversion HD. reflexivity. }
  unfold buildEncoder. 
  assert (Hsize : size ts cs = Some 192) by (vm_compute; reflexivity).
  rewrite Hsize. cbn [optBind]. rewrite HE. cbn [optBind].
  eexists. eexists. exists (mkBody [] msg). eexists.
  split; [reflexivity|]. cbn [body]. rewrite HE. cbn [optBind].
  split; [reflexivity|]. cbn [output]. unfold buildDecoder.
  rewrite HD. cbn [optBind].
  split; [reflexivity|]. cbn [body]. rewrite HD. cbn [optBind].
  split; [reflexivity|]. cbn [output fst]. split; [exact Hout|].
  rewrite Hout. vm_compute. discriminate.
Qed.


(** *** The width of the encoder's output *)







Lemma wrap64_bounds (x : Z) : 0 <= wrap64 x < two64.
Proof. unfold wrap64, two64. apply Z.mod_pos_bound. lia. Qed.






Lemma size_ui8_witness :
  layoutOk (fieldTypes (TypeSchemaImpl_new ui8)) ui8Layout = true
  /\ size (TypeSchemaImpl_new ui8) ui8Layout = Some 128.
Proof.
  assert (H : layoutOk (fieldTypes (TypeSchemaImpl_new ui8)) ui8Layout = true)
    by (vm_compute; reflexivity).
  split; [exact H|].
  destruct (size_ui8 ui8Layout H) as (_ & _ & _ & _ & Hsz).
  apply Hsz; reflexivity.
Defined.

Lemma insert_disjoint_and_bounded_witness :
  0 <= 128 < two64
  /\ reachable 128 (CapnpSegmentBuilder_new 128)
  /\ insert 120 (mkGC (getIntegerType 16) (bitsOfZ 16 0))
            (CapnpSegmentBuilder_new 128)
     = None.
Proof.
  assert (H1 : 0 <= 128 < two64) by (unfold two64; lia).
  assert (H2 : reachable 128 (CapnpSegmentBuilder_new 128))
    by apply reach_new.
  split; [exact H1|]. split; [exact H2|].
  destruct (@insert_disjoint_and_bounded 128 (CapnpSegmentBuilder_new 128)
              H1 H2) as (_ & _ & H).
  assert (H3 : 0 <= 120 < two64) by (unfold two64; lia).
  destruct (H 120 (mkGC (getIntegerType 16) (bitsOfZ 16 0)) H3)
    as (_ & _ & Hover).
  apply Hover. vm_compute. reflexivity.
Defined.


Lemma root_pointer_offset_must_be_zero_witness :
  let ts := TypeSchemaImpl_new ui8 in
  let clk := mkGC i1 [false] in
  let valid := mkGC i1 [true] in
  (* a root pointer with offset 1 *)
  let msg := mkGC (ArrayType i1 128) (bitsOfZ 128 (4 + 2 ^ 32)) in
  exists m b,
    buildDecoder ts "Ui8" ui8Layout clk valid msg = Some m
    /\ body m msg = Some b
    /\ (exists rest,
           always b
           = [sv.mkAlways sv.AtPosEdge 0
                [sv.mkIf 1 (assertOn comb.eq 32 (sliceBits 0 32 (gcBits msg)) 0
                            :: rest)]])
    /\ sv.holds (assertOn comb.eq 32 (sliceBits 0 32 (gcBits msg)) 0) = false.
Proof.
  intros ts clk valid msg.
  assert (Hsome : isSome (decoderBody ts ui8Layout msg) = true)
    by (vm_compute; reflexivity).
  destruct (decoderBody ts ui8Layout msg) as [ra|] eqn:ED;
    [|discriminate Hsome].
  destruct (buildDecoder ts "Ui8" ui8Layout clk valid msg) as [m|] eqn:Em.
  2:{ unfold buildDecoder in Em. rewrite ED in Em. discriminate Em. }
  assert (Eb : exists b, body m msg = Some b).
  { pose proof Em as Em'. unfold buildDecoder in Em'. rewrite ED in Em'.
    cbn [optBind] in Em'. injection Em' as Hm. rewrite <- Hm.
    cbn [body]. rewrite ED. cbn [optBind]. eauto. }
  destruct Eb as [b Eb].
  exists m, b. split; [reflexivity|]. split; [exact Eb|].
  assert (H1 : gcType msg = ArrayType i1 128) by reflexivity.
  assert (H2 : Zlen (gcBits msg) = Z.of_N 128) by (vm_compute; reflexivity).
  assert (H3 : 128%N <> 0%N) by discriminate.
  destruct (@root_pointer_offset_must_be_zero ts "Ui8" ui8Layout clk valid msg
              msg m 128 b Em H1 H2 H3 Eb) as (Ha & _ & Hf).
  split; [exact Ha|]. apply Hf. vm_compute. discriminate.
Defined.

Lemma decoder_assertions_witness :
  let t := ArrayType (IntegerType 8 Unsigned) 2 in
  let ts := TypeSchemaImpl_new t in
  let cs := capnp.mkStruct 0 1
              [capnp.mkField "l" 0 0 (capnp.LIST capnp.UINT8)] in
  let clk := mkGC i1 [false] in
  let valid := mkGC i1 [true] in
  let msg := mkGC (ArrayType i1 192) (bitsOfZ 192 0) in
  exists m b,
    buildDecoder ts "A" cs clk valid msg = Some m
    /\ layoutOk (fieldTypes ts) cs = true
    /\ body m msg = Some b
    /\ always b
       = [sv.mkAlways sv.AtPosEdge 0
            [sv.mkIf 1
               (rootPointerAsserts cs (gcBits msg)
                ++ flat_map (listPointerAsserts cs (gcBits msg) (fieldTypes ts))
                            (capnp.getFields cs))]].
Proof.
  intros t ts cs clk valid msg.
  assert (Hsome : isSome (decoderBody ts cs msg) = true)
    by (vm_compute; reflexivity).
  destruct (decoderBody ts cs msg) as [ra|] eqn:ED; [|discriminate Hsome].
  destruct (buildDecoder ts "A" cs clk valid msg) as [m|] eqn:Em.
  2:{ unfold buildDecoder in Em. rewrite ED in Em. discriminate Em. }
  assert (Eb : exists b, body m msg = Some b).
  { pose proof Em as Em'. unfold buildDecoder in Em'. rewrite ED in Em'.
    cbn [optBind] in Em'. injection Em' as Hm. rewrite <- Hm.
    cbn [body]. rewrite ED. cbn [optBind]. eauto. }
  destruct Eb as [b Eb].
  assert (H0 : layoutOk (fieldTypes ts) cs = true) by (vm_compute; reflexivity).
  exists m, b. split; [reflexivity|]. split; [exact H0|].
  split; [exact Eb|].
  assert (H1 : gcType msg = ArrayType i1 192) by reflexivity.
  assert (H2 : Zlen (gcBits msg) = Z.of_N 192) by (vm_compute; reflexivity).
  assert (H3 : 64 * (1 + capnp.getDataWordCount cs + capnp.getPointerCount cs)
               <= Z.of_N 192) by (vm_compute; discriminate).
  destruct (@decoder_assertions ts "A" cs clk valid msg msg m 192 b Em H0 H1
              H2 H3 Eb) as (Ha & _).
  exact Ha.
Defined.

Lemma module_cache_shares_per_type_witness :
  let printType := fun _ : Ty => "ui8"%string in
  let hash := fun (_ : string) (_ seed : Z) => seed in
  let parse := fun _ : string => [(9223372036854775809, ui8Layout)] in
  let clk := mkGC i1 [false] in
  let valid := mkGC i1 [true] in
  let v := mkGC ui8 (bitsOfZ 8 165) in
  let msg := mkGC (ArrayType i1 128) (bitsOfZ 128 0) in
  let rs := [mkRequest Encoder ui8 clk valid v;
             mkRequest Decoder ui8 clk valid msg;
             mkRequest Encoder (ChannelPort ui8) clk valid v] in
  exists insts c,
    serveAll printType hash 1 parse rs Compilation_new = Some (insts, c)
    /\ map moduleRef insts = [0%nat; 1%nat; 0%nat]
    /\ length (topMod c) = 2%nat
    /\ length insts = length rs
    /\ (forall i inst, nth_error insts i = Some inst ->
                       (moduleRef inst < length (topMod c))%nat).
Proof.
  intros printType hash parse clk valid v msg rs.
  assert (Hrefs : option_map
                    (fun ic => (map moduleRef (fst ic),
                                length (topMod (snd ic))))
                    (serveAll printType hash 1 parse rs Compilation_new)
                  = Some ([0%nat; 1%nat; 0%nat], 2%nat))
    by (vm_compute; reflexivity).
  destruct (serveAll printType hash 1 parse rs Compilation_new)
    as [[insts c]|] eqn:E; [|discriminate Hrefs].
  cbn [option_map fst snd] in Hrefs. injection Hrefs as Hmods Htop.
  exists insts, c. split; [reflexivity|].
  destruct (@module_cache_shares_per_type printType hash 1 parse rs insts c E)
    as (Hlen & _ & _ & Hlt).
  split; [exact Hmods|]. split; [exact Htop|]. split; [exact Hlen|exact Hlt].
Defined.

(** ** Further properties of the schema deriver *)

Lemma emitCapnpType_supported (t : Ty) :
  isSupported t false = true -> exists s, emitCapnpType t = Some s.
Proof.
  induction t as [w sg|e n IH|fs _|nm i IH|i _|m] using Ty_ind';
    cbn [isSupported emitCapnpType negb]; intros H; try discriminate H.
  - apply Z.leb_le in H.
    destruct (Z.of_N w =? 0); [eauto|].
    destruct (Z.of_N w =? 1); [eauto|].
    destruct (Z.of_N w <=? 8); [eauto|].
    destruct (Z.of_N w <=? 16); [eauto|].
    destruct (Z.of_N w <=? 32); [eauto|].
    destruct (Z.of_N w <=? 64) eqn:E; [eauto|apply Z.leb_gt in E; lia].
  - destruct (IH H) as [s ->]. eauto.
  - exact (IH H).
Qed.

Lemma emitName_supported printType (t : Ty) :
  forall outer id,
    isSupported t outer = true -> exists s, emitName printType t id = Some s.
Proof.
  induction t as [w sg|e n IH|fs _|nm i _|i _|m] using Ty_ind';
    intros outer id H; cbn [emitName]; cbn [isSupported] in H;
    try discriminate H; eauto.
  - destruct (printType (IntegerType w sg)); eauto.
  - destruct (IH false 0 H) as [s ->]. eauto.
Qed.

Lemma writeFields_supported printType (fields : list FieldInfo) :
  Forall (fun f => isSupported (snd f) false = true) fields ->
  forall counter maxLen,
    exists s, writeFields printType fields counter maxLen = Some s.
Proof.
  induction 1 as [|f fields Hf _ IH]; intros counter maxLen.
  - cbn. eauto.
  - cbn [writeFields]. destruct (emitCapnpType_supported _ Hf) as [ct ->].
    cbn [optBind]. destruct (IH (counter + 1) maxLen) as [rest ->].
    cbn [optBind]. eauto.
Qed.

Lemma fieldTypes_supported (t : Ty) :
  isSupported t true = true ->
  Forall (fun f => isSupported (snd f) false = true)
         (fieldTypes (TypeSchemaImpl_new t)).
Proof.
  rewrite isSupported_canonical. unfold TypeSchemaImpl_new. cbn [fieldTypes].
  destruct (getCanonicalType t) as [w sg|e n|fs|nm i|i|m] eqn:E;
    cbn [isSupported negb]; intros H; try discriminate H.
  - constructor; [exact H|constructor].
  - constructor; [exact H|constructor].
  - apply Forall_forall. rewrite forallb_forall in H. exact H.
  - (* the canonical type is no alias *)
    exfalso. clear H. induction t; cbn [getCanonicalType] in E;
      try discriminate E. auto.
Qed.

(** The schema text of every supported type is emitted: neither [emitName]
    nor [emitCapnpType] trips an assertion, the text is the wrapper struct
    with the type's name and ID, and it declares one field per entry of the
    field list. *)
Theorem write_succeeds_on_supported_types printType hash version (t : Ty) :
  TypeSchemaImpl_isSupported (TypeSchemaImpl_new t) = true ->
  exists nm fs,
    name printType hash version (TypeSchemaImpl_new t) = Some nm
    /\ writeFields printType (fieldTypes (TypeSchemaImpl_new t)) 0
         (fold_left (fun m field => Z.max m (strlen (fst field)))
                    (fieldTypes (TypeSchemaImpl_new t)) 0)
       = Some fs
    /\ write printType hash version (TypeSchemaImpl_new t)
       = Some ("struct "
               ++ (nm ++ " "
                   ++ emitId (fst (capnpTypeID printType hash version
                                     (TypeSchemaImpl_new t))))
               ++ " {" ++ String "010" fs
               ++ "}" ++ String "010" (String "010" EmptyString))%string.
Proof.
  unfold TypeSchemaImpl_isSupported. cbn [type TypeSchemaImpl_new]. intros H.
  destruct (@emitName_supported printType t true
              (fst (capnpTypeID printType hash version (TypeSchemaImpl_new t)))
              H) as [nm Hnm].
  destruct (@writeFields_supported printType _ (fieldTypes_supported _ H) 0
              (fold_left (fun m field => Z.max m (strlen (fst field)))
                         (fieldTypes (TypeSchemaImpl_new t)) 0))
    as [fs Hfs].
  exists nm, fs. split; [exact Hnm|]. split; [exact Hfs|].
  unfold write, writeMetadata. unfold name in Hnm |- *.
  cbn [type TypeSchemaImpl_new] in Hnm |- *. rewrite Hnm. cbn [optBind].
  cbn [TypeSchemaImpl_new] in Hfs. rewrite Hfs. cbn [optBind].
  reflexivity.
Qed.

Lemma write_succeeds_on_supported_types_witness :
  let printType := fun _ : Ty => "!rtl.array<4xi12>"%string in
  let hash := fun (_ : string) (_ seed : Z) => seed in
  let t := ArrayType (IntegerType 12 Signless) 4 in
  TypeSchemaImpl_isSupported (TypeSchemaImpl_new t) = true
  /\ write printType hash 1 (TypeSchemaImpl_new t)
     = Some ("struct ArrayOf4x!rtl.array<4xi12> @0x8000000000000001 {"
             ++ String "010"
                  ("  l @0 :List(UInt16);  # Actual type is !rtl.array<4xi12>."
                   ++ String "010"
                        ("}" ++ String "010" (String "010" EmptyString))))%string.
Proof.
  intros printType hash t.
  assert (H : TypeSchemaImpl_isSupported (TypeSchemaImpl_new t) = true)
    by reflexivity.
  split; [exact H|].
  destruct (@write_succeeds_on_supported_types printType hash 1 t H)
    as (nm & fs & Hnm & Hfs & ->).
  vm_compute in Hnm. vm_compute in Hfs.
  injection Hnm as <-. injection Hfs as <-.
  vm_compute. reflexivity.
Defined.

Ltac storage_class_case sg :=
  (split; [destruct sg; reflexivity|]);
  (split; [destruct sg; reflexivity|]);
  (split; [destruct sg; reflexivity|]);
  (split; [lia|]);
  (split; [right; right; split; [lia|]; lia|]);
  (destruct sg; cbn [In];
   (split;
    [intros H; intuition (try discriminate; try lia)
    |intros [H1 H2]; try discriminate H1; tauto])).

(** [emitCapnpType] on an integer of at most 64 bits picks a capnp type
    that is no pointer and is wide enough: Void for width 0, Bool for width
    1, and otherwise the narrowest of the 8, 16, 32 and 64 bit integers that
    holds the width, signed exactly when the integer is signed (signless
    and unsigned integers both become UInt). *)
Theorem integer_storage_class (w : N) (sg : Signedness) :
  (w <= 64)%N ->
  exists ct cb,
    emitCapnpType (IntegerType w sg) = Some (capnp.typeText ct)
    /\ bits ct = Some cb
    /\ isPointerType ct = false
    /\ Z.of_N w <= cb
    /\ (cb = 0 /\ w = 0%N \/ cb = 1 /\ w = 1%N
        \/ (2 <= w)%N
           /\ (cb = 8 \/ (cb = 16 \/ cb = 32 \/ cb = 64) /\ cb < 2 * Z.of_N w))
    /\ (In ct [capnp.INT8; capnp.INT16; capnp.INT32; capnp.INT64]
        <-> sg = Signed /\ (2 <= w)%N).
Proof.
  intros Hw. cbn [emitCapnpType].
  destruct (Z.of_N w =? 0) eqn:E0.
  { boolprop. exists capnp.VOID, 0.
    split; [reflexivity|]. split; [reflexivity|]. split; [reflexivity|].
    split; [lia|]. split; [left; lia|].
    split; [cbn; intuition discriminate|intros [_ H]; lia]. }
  destruct (Z.of_N w =? 1) eqn:E1.
  { boolprop. exists capnp.BOOL, 1.
    split; [reflexivity|]. split; [reflexivity|]. split; [reflexivity|].
    split; [lia|]. split; [right; left; lia|].
    split; [cbn; intuition discriminate|intros [_ H]; lia]. }
  boolprop.
  destruct (Z.of_N w <=? 8) eqn:E8.
  { boolprop.
    exists (match sg with Signed => capnp.INT8 | _ => capnp.UINT8 end), 8.
    storage_class_case sg. }
  destruct (Z.of_N w <=? 16) eqn:E16.
  { boolprop.
    exists (match sg with Signed => capnp.INT16 | _ => capnp.UINT16 end), 16.
    storage_class_case sg. }
  destruct (Z.of_N w <=? 32) eqn:E32.
  { boolprop.
    exists (match sg with Signed => capnp.INT32 | _ => capnp.UINT32 end), 32.
    storage_class_case sg. }
  destruct (Z.of_N w <=? 64) eqn:E64; [|boolprop; lia].
  boolprop.
  exists (match sg with Signed => capnp.INT64 | _ => capnp.UINT64 end), 64.
  storage_class_case sg.
Qed.

Lemma integer_storage_class_witness :
  exists ct cb,
    emitCapnpType (IntegerType 12 Signed) = Some (capnp.typeText ct)
    /\ bits ct = Some cb /\ isPointerType ct = false /\ 12 <= cb
    /\ ct = capnp.INT16 /\ cb = 16.
Proof.
  assert (H : (12 <= 64)%N) by (vm_compute; discriminate).
  destruct (@integer_storage_class 12 Signed H)
    as (ct & cb & He & Hb & Hp & Hw & Hc & Hs).
  exists ct, cb. repeat (split; [assumption|]).
  assert (Hin : In ct [capnp.INT8; capnp.INT16; capnp.INT32; capnp.INT64]).
  { apply Hs. split; [reflexivity|]. vm_compute. discriminate. }
  cbn in Hin, He.
  destruct Hin as [<-|[<-|[<-|[<-|[]]]]]; cbn in He, Hb;
    try discriminate He.
  split; [reflexivity|]. congruence.
Defined.

(** The element size code the encoder writes into a list pointer
    ([bitsEncoding]) is the code the decoder's switch on the element width
    expects, for every element type that is no pointer.  For a pointer
    element type (a list of lists) the encoder writes code 6, while the
    decoder, from the width of 64 bits, expects code 5. *)
Theorem element_size_code_agreement (ct : capnp.Type_) (enc cb : Z) :
  bitsEncoding ct = Some enc -> bits ct = Some cb ->
  (isPointerType ct = false -> expectedElemSizeFieldOf cb = Some enc)
  /\ (isPointerType ct = true ->
      enc = 6 /\ cb = 64 /\ expectedElemSizeFieldOf cb = Some 5).
Proof.
  destruct ct; cbn; intros He Hb; try discriminate He;
    inversion He; inversion Hb; subst;
    split; intros Hp; try discriminate Hp; auto.
Qed.

Lemma element_size_code_agreement_witness :
  expectedElemSizeFieldOf 16 = Some 3
  /\ expectedElemSizeFieldOf 64 = Some 5.
Proof.
  split.
  - apply (@element_size_code_agreement capnp.UINT16 3 16);
      reflexivity.
  - apply (@element_size_code_agreement (capnp.LIST capnp.UINT8) 6 64);
      reflexivity.
Defined.

(** ** Further properties of [size] *)

Lemma bits_range (ct : capnp.Type_) (cb : Z) :
  bits ct = Some cb -> 0 <= cb <= 64.
Proof. destruct ct; cbn; intros H; try discriminate H; inversion H; lia. Qed.

Lemma pointedToSize_sizable (fts : list FieldInfo) (f : capnp.Field) :
  sizable fts f = true ->
  pointedToSize fts f = Some (listWords fts f)
  /\ 0 <= listWords fts f <= 2 ^ 32.
Proof.
  unfold sizable, pointedToSize, listWords.
  destruct (nth_error fts (capnp.getCodeOrder f)) as [[nm t]|];
    [|discriminate].
  destruct t as [w sg|e n| | | |]; try discriminate; cbn [snd].
  - intros _. split; [reflexivity|]. destruct (capnp.getType f); lia.
  - intros H. apply andb_true_iff in H. destruct H as [Hn Hl].
    apply N.ltb_lt in Hn. unfold sizeList.
    destruct (capnp.getType f) as [| | | | | | | | | | | | | |ec| | | |];
      try discriminate Hl.
    destruct (bits ec) as [cb|] eqn:Hb; [|discriminate Hl].
    pose proof (bits_range _ Hb) as Hcb.
    assert (Hn' : 0 <= Z.of_N n < 2 ^ 32).
    { change (2 ^ 32) with (Z.of_N (2 ^ 32)). lia. }
    rewrite (@toInt64_small (Z.of_N n * cb)) by nia.
    unfold divideCeil.
    rewrite (@wrap64_small (Z.of_N n * cb)) by (unfold two64; nia).
    rewrite wrap64_small by (unfold two64; nia).
    replace (Z.of_N n * cb + 64 - 1) with (Z.of_N n * cb + 63) by lia.
    assert (Hq : 0 <= (Z.of_N n * cb + 63) / 64 <= 2 ^ 32).
    { split; [apply Z.div_pos; nia|].
      apply Z.lt_succ_r. apply Z.div_lt_upper_bound; nia. }
    rewrite toInt64_small by lia. split; [reflexivity|exact Hq].
Qed.

Lemma sizeStruct_fold (fts : list FieldInfo) (l : list capnp.Field) :
  forallb (sizable fts) l = true ->
  forall acc,
    0 <= acc -> acc + 2 ^ 32 * Z.of_nat (length l) < 2 ^ 62 ->
    fold_left
      (fun acc cField =>
         match acc with
         | None => None
         | Some size =>
             match pointedToSize fts cField with
             | Some p => Some (toInt64 (size + p))
             | None => None
             end
         end) l (Some acc)
    = Some (acc + fold_right (fun f s => listWords fts f + s) 0 l)
    /\ 0 <= fold_right (fun f s => listWords fts f + s) 0 l
       <= 2 ^ 32 * Z.of_nat (length l).
Proof.
  induction l as [|f l IH]; intros Hall acc Hacc Hbound.
  - cbn. split; [f_equal; lia|lia].
  - cbn [forallb] in Hall. apply andb_true_iff in Hall.
    destruct Hall as [Hf Hl].
    destruct (pointedToSize_sizable _ _ Hf) as [Hp Hr].
    cbn [length] in Hbound. cbn [fold_left fold_right length]. rewrite Hp.
    rewrite Nat2Z.inj_succ in *.
    rewrite toInt64_small by lia.
    destruct (IH Hl (acc + listWords fts f)) as [-> Hsum]; [lia|lia|].
    split; [f_equal; lia|lia].
Qed.

(** [size()] is 64 times: the root pointer's word, the data and pointer
    words of the struct and, for every array field, the words of its list
    (the elements at the capnp element width, rounded up to whole words).
    Integer fields add nothing, and nothing is added for the lists of an
    inner array. *)
Theorem size_formula (ts : TypeSchemaImpl) (cs : capnp.StructReader) :
  forallb (sizable (fieldTypes ts)) (capnp.getFields cs) = true ->
  0 <= capnp.getDataWordCount cs < 2 ^ 16 ->
  0 <= capnp.getPointerCount cs < 2 ^ 16 ->
  Z.of_nat (length (capnp.getFields cs)) <= 2 ^ 16 ->
  size ts cs
  = Some (64 * (1 + capnp.getDataWordCount cs + capnp.getPointerCount cs
                + fold_right (fun f s => listWords (fieldTypes ts) f + s) 0
                             (capnp.getFields cs)))
  /\ 0 <= fold_right (fun f s => listWords (fieldTypes ts) f + s) 0
                     (capnp.getFields cs).
Proof.
  intros Hall Hdwc Hpc Hlen.
  destruct (@sizeStruct_fold (fieldTypes ts) (capnp.getFields cs) Hall
              (1 + capnp.getDataWordCount cs + capnp.getPointerCount cs))
    as [Hfold Hsum]; [lia|lia|].
  unfold size, sizeStruct. rewrite Hfold.
  split; [|lia]. f_equal.
  rewrite wrap64_small by (unfold two64; lia). lia.
Qed.

Lemma size_formula_witness :
  let t := StructType [("a"%string, ArrayType (IntegerType 8 Unsigned) 9);
                       ("b"%string, IntegerType 3 Signless);
                       ("c"%string, ArrayType (IntegerType 1 Signless) 65)] in
  let cs := capnp.mkStruct 1 2
              [capnp.mkField "a" 0 0 (capnp.LIST capnp.UINT8);
               capnp.mkField "b" 1 0 capnp.UINT8;
               capnp.mkField "c" 2 1 (capnp.LIST capnp.BOOL)] in
  size (TypeSchemaImpl_new t) cs = Some (64 * (1 + 1 + 2 + (2 + (0 + (2 + 0))))).
Proof.
  intros t cs.
  apply (@size_formula (TypeSchemaImpl_new t) cs).
  - vm_compute. reflexivity.
  - vm_compute. split; [discriminate|reflexivity].
  - vm_compute. split; [discriminate|reflexivity].
  - vm_compute. discriminate.
Defined.

(** [size()] switches on the type of each field as it is written in the
    struct, with an integer and an array case only: for a field of any other
    type (a type alias, even of an integer) it falls off the switch, and
    neither the encoder nor the decoder is generated. *)
Theorem size_asserts_on_other_field_types (ts : TypeSchemaImpl)
  (cs : capnp.StructReader) (f : capnp.Field) (fnm : string) (t : Ty) :
  In f (capnp.getFields cs) ->
  nth_error (fieldTypes ts) (capnp.getCodeOrder f) = Some (fnm, t) ->
  isIntegerType t = false ->
  (forall e n, t <> ArrayType e n) ->
  size ts cs = None
  /\ forall nm clk valid operand,
      buildEncoder ts nm cs clk valid operand = None
      /\ buildDecoder ts nm cs clk valid operand = None.
Proof.
  intros Hin Hft Hint Harr.
  assert (Hp : pointedToSize (fieldTypes ts) f = None).
  { unfold pointedToSize. rewrite Hft. cbn [snd].
    destruct t; try reflexivity; [discriminate Hint|].
    exfalso. eapply Harr. reflexivity. }
  assert (Hsize : size ts cs = None).
  { unfold size, sizeStruct. apply in_split in Hin.
    destruct Hin as (pre & post & ->). rewrite fold_left_app.
    cbn [fold_left]. rewrite Hp.
    match goal with |- context [fold_left ?step post ?a] =>
      assert (Hnone : a = None) by (destruct (fold_left _ pre _); reflexivity);
      rewrite Hnone;
      assert (Hpost : fold_left step post None = None)
        by (clear; induction post; [reflexivity|assumption]);
      rewrite Hpost
    end.
    reflexivity. }
  split; [exact Hsize|]. intros nm clk valid operand.
  unfold buildEncoder, buildDecoder, decoderBody. rewrite Hsize.
  split; reflexivity.
Qed.

Lemma size_asserts_on_other_field_types_witness :
  let t := StructType [("a"%string,
                        TypeAliasType "foo" (IntegerType 8 Unsigned))] in
  let cs := capnp.mkStruct 1 0 [capnp.mkField "a" 0 0 capnp.UINT8] in
  TypeSchemaImpl_isSupported (TypeSchemaImpl_new t) = true
  /\ layoutOk (fieldTypes (TypeSchemaImpl_new t)) cs = true
  /\ size (TypeSchemaImpl_new t) cs = None.
Proof.
  intros t cs. split; [reflexivity|]. split; [vm_compute; reflexivity|].
  apply (@size_asserts_on_other_field_types (TypeSchemaImpl_new t) cs
           (capnp.mkField "a" 0 0 capnp.UINT8) "a"
           (TypeAliasType "foo" (IntegerType 8 Unsigned))).
  - left. reflexivity.
  - reflexivity.
  - reflexivity.
  - intros e n. discriminate.
Defined.

(** ** Values the encoder cannot carry *)

Lemma insert_zero_width (st : CapnpSegmentBuilder) (offset : Z)
  (val : GasketComponent) :
  GasketComponent_size val = 0 -> 0 <= offset < two64 ->
  expectedSize st < two64 ->
  insert offset val st = None.
Proof.
  intros Hsz Hoff HE. unfold insert. rewrite Hsz.
  destruct (Z.eq_dec offset 0) as [->|Hne].
  - change (wrap64 (0 + 0 - 1)) with (two64 - 1).
    destruct (IntervalMap.overlaps 0 (two64 - 1) (segmentValues st))
      as [[|]|]; try reflexivity.
    destruct (two64 - 1 <? expectedSize st) eqn:E; [boolprop; lia|reflexivity].
  - rewrite wrap64_small by lia. unfold IntervalMap.overlaps.
    destruct (offset <=? offset + 0 - 1) eqn:E; [boolprop; lia|reflexivity].
Qed.

Lemma layoutOk_single (ft : FieldInfo) (cs : capnp.StructReader) :
  layoutOk [ft] cs = true ->
  exists f, capnp.getFields cs = [f] /\ capnp.getCodeOrder f = 0%nat
            /\ typeMatches (snd ft) (capnp.getType f) = true.
Proof.
  intros Hok. destruct (layoutOk_fields _ _ Hok) as (_ & _ & Hf & Hco & _).
  destruct (capnp.getFields cs) as [|f fs] eqn:Hfields;
    [inversion Hf|].
  apply Forall2_cons_iff in Hf. destruct Hf as [Hfok Hrest].
  inversion Hrest; subst. exists f. split; [reflexivity|].
  split; [apply (Hco 0%nat f); reflexivity|].
  unfold fieldOk in Hfok. boolprop. assumption.
Qed.

Lemma typeText_Void (ct : capnp.Type_) :
  capnp.typeText ct = "Void"%string -> ct = capnp.VOID.
Proof. destruct ct; cbn; intros H; try discriminate H; reflexivity. Qed.

(** A zero-width integer is a supported type and its schema field is a
    Void, but no encoder is generated for it: [insert] of a value of no bits
    asks the interval map about an empty interval (or, at offset 0, about
    one that ends above the message), which trips an assertion. *)
Theorem zero_width_integer_is_not_encodable (sg : Signedness)
  (cs : capnp.StructReader) (nm : string) (clk valid v : GasketComponent) :
  layoutOk (fieldTypes (TypeSchemaImpl_new (IntegerType 0 sg))) cs = true ->
  TypeSchemaImpl_isSupported (TypeSchemaImpl_new (IntegerType 0 sg)) = true
  /\ emitCapnpType (IntegerType 0 sg) = Some "Void"%string
  /\ encoderBody (TypeSchemaImpl_new (IntegerType 0 sg)) cs v = None
  /\ buildEncoder (TypeSchemaImpl_new (IntegerType 0 sg)) nm cs clk valid v
     = None.
Proof.
  intros Hok. split; [reflexivity|]. split; [reflexivity|].
  assert (HE : encoderBody (TypeSchemaImpl_new (IntegerType 0 sg)) cs v = None).
  { destruct (@layoutOk_single ("i"%string, IntegerType 0 sg) cs Hok)
      as (f & Hfields & Hco & Hm).
    unfold typeMatches in Hm. cbn in Hm. apply String.eqb_eq in Hm.
    apply typeText_Void in Hm.
    unfold encoderBody.
    destruct (size (TypeSchemaImpl_new (IntegerType 0 sg)) cs) as [sz|] eqn:Hsz;
      [|reflexivity].
    cbn [optBind]. destruct (size_multiple_of_64 _ _ Hsz) as [_ Hrange].
    destruct (Ty_eqb (gcType v) (type (TypeSchemaImpl_new (IntegerType 0 sg))))
      eqn:Hty; [|reflexivity].
    apply Ty_eqb_eq in Hty. cbn [type TypeSchemaImpl_new] in Hty.
    cbn [negb canonicalType TypeSchemaImpl_new getCanonicalType].
    destruct (structPointer_spec cs 64 0) as (rp & Hrp & _).
    unfold build. unfold bind at 1. unfold alloc at 1.
    cbn [CapnpSegmentBuilder_new messageSize segmentValues expectedSize].
    change (negb (0 =? 0)) with false. cbv iota.
    unfold bind at 1. unfold encodeStructAt.
    change (negb (0 mod 64 =? 0)) with false. cbv iota.
    unfold bind at 1. unfold alloc at 1.
    cbn [messageSize segmentValues expectedSize].
    change (wrap64 (0 + 64)) with 64.
    change (negb (64 mod 64 =? 0)) with false. cbv iota.
    unfold bind at 1. unfold lift at 1.
    change (concatConstants
              [(2, 0);
               (30, toInt64 (wrap64 (64 - 0) / 64 - 1));
               (16, capnp.getDataWordCount cs);
               (16, capnp.getPointerCount cs)])
      with (structPointer cs 64 0).
    rewrite Hrp. unfold bind at 1. rewrite Hfields, forEach_single.
    unfold encodeStructAtField. rewrite Hco. cbn [nth_error].
    unfold bind at 1. unfold lift at 1. rewrite Hm.
    change (bits capnp.VOID) with (Some 0).
    unfold encodeFieldAt. rewrite Hty. cbn [encodeFieldAtTy].
    rewrite insert_zero_width; [reflexivity| | |].
    - unfold GasketComponent_size. rewrite Hty. reflexivity.
    - apply wrap64_bounds.
    - cbn [expectedSize]. lia. }
  split; [exact HE|].
  unfold buildEncoder.
  destruct (size (TypeSchemaImpl_new (IntegerType 0 sg)) cs); [|reflexivity].
  cbn [optBind]. rewrite HE. reflexivity.
Qed.

Lemma zero_width_integer_is_not_encodable_witness :
  let cs := capnp.mkStruct 0 0 [capnp.mkField "i" 0 0 capnp.VOID] in
  let ts := TypeSchemaImpl_new (IntegerType 0 Signless) in
  layoutOk (fieldTypes ts) cs = true
  /\ size ts cs = Some 64
  /\ buildEncoder ts "I0" cs (mkGC i1 [false]) (mkGC i1 [true])
                  (mkGC (IntegerType 0 Signless) [])
     = None.
Proof.
  intros cs ts.
  assert (H : layoutOk (fieldTypes ts) cs = true) by (vm_compute; reflexivity).
  split; [exact H|]. split; [vm_compute; reflexivity|].
  apply (@zero_width_integer_is_not_encodable Signless cs "I0"
           (mkGC i1 [false]) (mkGC i1 [true])
           (mkGC (IntegerType 0 Signless) []) H).
Defined.

Lemma forEach_ext {A : Type} (l : list A) (body1 body2 : A -> Seg unit) :
  (forall a st, body1 a st = body2 a st) ->
  forall st, forEach l body1 st = forEach l body2 st.
Proof.
  intros H. induction l as [|a l IH]; intros st; [reflexivity|].
  cbn [forEach]. unfold bind. rewrite H.
  destruct (body2 a st) as [[u st1]|]; [apply IH|reflexivity].
Qed.

Lemma build_ext (cs : capnp.StructReader) (fv1 fv2 : list GasketComponent) :
  (forall D P f st,
      encodeStructAtField D P fv1 f st = encodeStructAtField D P fv2 f st) ->
  forall st, build cs fv1 st = build cs fv2 st.
Proof.
  intros H st. unfold build, bind.
  destruct (alloc 64 st) as [[rootPtrLoc st1]|]; [|reflexivity].
  destruct (negb (rootPtrLoc =? 0)); [reflexivity|].
  assert (HS : encodeStructAt rootPtrLoc cs fv1 st1
               = encodeStructAt rootPtrLoc cs fv2 st1).
  { unfold encodeStructAt.
    destruct (negb (rootPtrLoc mod 64 =? 0)); [reflexivity|].
    unfold bind.
    destruct (alloc _ st1) as [[D st2]|]; [|reflexivity].
    destruct (negb (D mod 64 =? 0)); [reflexivity|].
    destruct (lift _ st2) as [[sp st3]|]; [|reflexivity].
    rewrite (@forEach_ext _ _ _ _ (H D _)). reflexivity. }
  rewrite HS. reflexivity.
Qed.

(** [encodeFieldAt] switches on the type of the value, with an integer and
    an array case and nothing else: a value whose type is a type alias (of
    anything but a struct) is not encoded at all, so the encoder's message
    does not depend on it. *)
Theorem top_level_alias_value_is_dropped (anm : string) (inner : Ty)
  (cs : capnp.StructReader) (v1 v2 : GasketComponent) :
  (forall fs, getCanonicalType inner <> StructType fs) ->
  gcType v1 = TypeAliasType anm inner ->
  gcType v2 = TypeAliasType anm inner ->
  encoderBody (TypeSchemaImpl_new (TypeAliasType anm inner)) cs v1
  = encoderBody (TypeSchemaImpl_new (TypeAliasType anm inner)) cs v2.
Proof.
  intros Hns H1 H2. unfold encoderBody.
  destruct (size _ cs) as [sz|]; [|reflexivity]. cbn [optBind].
  rewrite H1, H2.
  destruct (negb (Ty_eqb _ _)); [reflexivity|].
  assert (HF : forall v,
             match canonicalType
                     (TypeSchemaImpl_new (TypeAliasType anm inner)) with
             | StructType elements =>
                 map (fun i => rtl.StructExtractOp v i)
                     (seq 0 (length elements))
             | _ => [v]
             end = [v]).
  { intros v. cbn [canonicalType TypeSchemaImpl_new getCanonicalType].
    destruct (getCanonicalType inner) eqn:E; try reflexivity.
    exfalso. apply (Hns _ eq_refl). }
  rewrite !HF.
  rewrite (@build_ext cs [v1] [v2]); [reflexivity|].
  intros D P f st. unfold encodeStructAtField.
  destruct (capnp.getCodeOrder f) as [|k]; cbn [nth_error].
  - unfold bind.
    destruct (lift (bits (capnp.getType f)) st) as [[fb st1]|];
      [|reflexivity].
    unfold encodeFieldAt. rewrite H1, H2. reflexivity.
  - destruct k; reflexivity.
Qed.

Lemma top_level_alias_value_is_dropped_witness :
  let t := TypeAliasType "foo" (IntegerType 8 Unsigned) in
  let ts := TypeSchemaImpl_new t in
  TypeSchemaImpl_isSupported ts = true
  /\ isSome (encoderBody ts ui8Layout (mkGC t (bitsOfZ 8 165))) = true
  /\ encoderBody ts ui8Layout (mkGC t (bitsOfZ 8 165))
     = encoderBody ts ui8Layout (mkGC t (bitsOfZ 8 90)).
Proof.
  intros t ts. split; [reflexivity|]. split; [vm_compute; reflexivity|].
  apply (@top_level_alias_value_is_dropped "foo" (IntegerType 8 Unsigned)
           ui8Layout).
  - intros fs. discriminate.
  - reflexivity.
  - reflexivity.
Defined.

(** ** The encoder's message and the decoder's assertions *)

Lemma sliceBits_of_word (B : list bool) (P W : Z) (a x b : list bool) :
  sliceBits P W B = a ++ x ++ b -> 0 <= P -> Zlen a + Zlen x <= W ->
  sliceBits (P + Zlen a) (Zlen x) B = x.
Proof.
  intros H HP HW.
  rewrite <- (@sliceBits_sliceBits P W (Zlen a) (Zlen x) B);
    [|exact HP|apply Zlen_nonneg|exact HW].
  rewrite H. apply sliceBits_app_mid.
Qed.

Lemma pointer_word_fields (B : list bool) (P a b c d : Z) :
  sliceBits P 64 B = bitsOfZ 2 a ++ bitsOfZ 30 b ++ bitsOfZ 3 c ++ bitsOfZ 29 d ->
  0 <= P ->
  sliceBits P 2 B = bitsOfZ 2 a
  /\ sliceBits (P + 32) 3 B = bitsOfZ 3 c
  /\ sliceBits (P + 35) 29 B = bitsOfZ 29 d.
Proof.
  intros H HP. split; [|split].
  - pose proof (@sliceBits_of_word B P 64 [] (bitsOfZ 2 a)
                  (bitsOfZ 30 b ++ bitsOfZ 3 c ++ bitsOfZ 29 d) H HP) as E.
    rewrite Zlen_nil, bitsOfZ_length, Z.add_0_r in E by lia. apply E. lia.
  - rewrite app_assoc in H.
    pose proof (@sliceBits_of_word B P 64 (bitsOfZ 2 a ++ bitsOfZ 30 b)
                  (bitsOfZ 3 c) (bitsOfZ 29 d) H HP) as E.
    rewrite Zlen_app, !bitsOfZ_length in E by lia. apply E. lia.
  - rewrite <- (app_nil_r (bitsOfZ 29 d)) in H. rewrite !app_assoc in H.
    rewrite <- app_assoc in H.
    pose proof (@sliceBits_of_word B P 64
                  ((bitsOfZ 2 a ++ bitsOfZ 30 b) ++ bitsOfZ 3 c)
                  (bitsOfZ 29 d) [] H HP) as E.
    rewrite !Zlen_app, !bitsOfZ_length in E by lia. apply E. lia.
Qed.

Lemma root_word_fields (B : list bool) (dwc pc : Z) :
  sliceBits 0 64 B
  = bitsOfZ 2 0 ++ bitsOfZ 30 0 ++ bitsOfZ 16 dwc ++ bitsOfZ 16 pc ->
  sliceBits 0 32 B = bitsOfZ 2 0 ++ bitsOfZ 30 0
  /\ sliceBits 32 16 B = bitsOfZ 16 dwc
  /\ sliceBits 48 16 B = bitsOfZ 16 pc.
Proof.
  intros H. rewrite app_assoc in H. split; [|split].
  - pose proof (@sliceBits_of_word B 0 64 [] (bitsOfZ 2 0 ++ bitsOfZ 30 0)
                  (bitsOfZ 16 dwc ++ bitsOfZ 16 pc) H) as E.
    rewrite Zlen_nil, Zlen_app, !bitsOfZ_length in E by lia. apply E; lia.
  - pose proof (@sliceBits_of_word B 0 64 (bitsOfZ 2 0 ++ bitsOfZ 30 0)
                  (bitsOfZ 16 dwc) (bitsOfZ 16 pc) H) as E.
    rewrite Zlen_app, !bitsOfZ_length in E by lia. apply E; lia.
  - rewrite <- (app_nil_r (bitsOfZ 16 pc)) in H. rewrite app_assoc in H.
    pose proof (@sliceBits_of_word B 0 64
                  ((bitsOfZ 2 0 ++ bitsOfZ 30 0) ++ bitsOfZ 16 dwc)
                  (bitsOfZ 16 pc) [] H) as E.
    rewrite !Zlen_app, !bitsOfZ_length in E by lia. apply E; lia.
Qed.

(** The assertions of the decoder, as a function of the message. *)
Lemma decoderBody_asserts (ts : TypeSchemaImpl) (cs : capnp.StructReader)
  (msg ret : GasketComponent) (n : N) (asserts : AssertBuilder) :
  layoutOk (fieldTypes ts) cs = true ->
  gcType msg = ArrayType i1 n -> Zlen (gcBits msg) = Z.of_N n ->
  64 * (1 + capnp.getDataWordCount cs + capnp.getPointerCount cs) <= Z.of_N n ->
  decoderBody ts cs msg = Some (ret, asserts) ->
  asserts
  = rootPointerAsserts cs (gcBits msg)
    ++ flat_map (listPointerAsserts cs (gcBits msg) (fieldTypes ts))
                (capnp.getFields cs).
Proof.
  intros Hok Ht Hlen Hfit Hdec.
  destruct (layoutOk_fields _ _ Hok) as (Hdwc & Hpc & Hfields & _ & _).
  assert (Hn : n <> 0%N) by lia.
  destruct (decoderBody_root _ _ _ Ht Hlen Hn Hdec)
    as (_ & _ & operand & ds & ps & fvs & Eop & _ & Eps & Hdf & _).
  destruct (Slice_root_spec msg Ht Hlen) as (operand' & Eop' & Hop & Hsz & _).
  rewrite Eop in Eop'. inversion Eop'; subst operand'. clear Eop'.
  destruct (@slice_spec (gcBits msg) 0 operand
              (64 + capnp.getDataWordCount cs * 64)
              (capnp.getPointerCount cs * 64) Hop)
    as (ps' & Eps' & Hps & Hpsz & _);
    [lia|unfold two64; lia|rewrite Hsz; lia|].
  rewrite Eps in Eps'. inversion Eps'; subst ps'. clear Eps'.
  assert (Hall : Forall (fun f => forall ec,
                           capnp.getType f = capnp.LIST ec ->
                           0 <= capnp.getOffset f
                           /\ capnp.getOffset f * 64 + 64
                              <= capnp.getPointerCount cs * 64)
                        (capnp.getFields cs)).
  { clear - Hfields. induction Hfields as [|ft f fts fs Hf _ IH];
      constructor; [|exact IH].
    intros ec Hec. eapply fieldOk_pointer_range; eassumption. }
  assert (Hpsz' : Z.of_N (sliceSize ps) = capnp.getPointerCount cs * 64)
    by (rewrite Hpsz; lia).
  exact (@decodeFields_asserts cs (gcBits msg) (fieldTypes ts) ds ps
           (capnp.getFields cs) Hps Hpsz' (proj2 Hpc) Hall _ _ _ Hdf).
Qed.

(** The three assertions on the pointer of a list field hold on a message
    that carries the field's value. *)
Lemma field_asserts_hold (cs : capnp.StructReader) (fts : list FieldInfo)
  (fvals : list GasketComponent) (B : list bool) (f : capnp.Field) :
  0 <= capnp.getDataWordCount cs ->
  intField cs fts fvals f \/ listField cs fts fvals f ->
  fieldEncoded cs fvals B f ->
  forallb sv.holds (listPointerAsserts cs B fts f) = true.
Proof.
  intros Hdwc [Hint|Hlist] Henc.
  - destruct Hint as (v & nm & w & sg & cb & Hft & _).
    unfold listPointerAsserts. rewrite Hft. reflexivity.
  - destruct Hlist as (v & nm & w & sg & n & ec & cb & enc & Hft & Hv & Hty
                       & Hlen & Hw & Hn & Hnc & Hct & Hbits & Henc2 & Hexp
                       & Hwcb & Hcb & Hoff & Hpc).
    destruct Henc as (v' & Hv' & Hm).
    assert (v' = v) by congruence. subst v'. rewrite Hty in Hm.
    destruct Hm as (ec' & cb' & enc' & Hct' & Hbits' & Henc' & _ & Hptr & _).
    assert (ec' = ec) by congruence. subst ec'.
    assert (enc' = enc) by congruence. subst enc'.
    destruct (@pointer_word_fields B _ _ _ _ _ Hptr) as (H1 & H3 & H4);
      [lia|].
    pose proof (expectedElemSizeFieldOf_range _ Hexp) as Hcode.
    assert (Hn' : 0 <= Z.of_N n < 2 ^ 29).
    { change (2 ^ 29) with (Z.of_N (2 ^ 29)). lia. }
    unfold listPointerAsserts. rewrite Hft, Hct, Hbits. cbn [optBind].
    rewrite Hexp. unfold pointerOffset. rewrite Hoff.
    replace (64 + capnp.getDataWordCount cs * 64 + 0 * 64)
      with (64 + capnp.getDataWordCount cs * 64) by lia.
    cbn [forallb].
    rewrite !holds_assertOn_eq, holds_assertOn_ule by lia.
    rewrite H1, H3, H4.
    rewrite !ZofBits_bitsOfZ_small by lia.
    rewrite !Z.eqb_refl, Z.leb_refl. reflexivity.
Qed.

(** What [size] counts covers the struct itself. *)
Lemma struct_fits_message (cs : capnp.StructReader) (fts : list FieldInfo)
  (fvals : list GasketComponent) (words : Z) :
  layoutOk fts cs = true ->
  capnp.getPointerCount cs <= 1 ->
  forallb (fun ft => rtField (snd ft)) fts = true ->
  Forall2 (fun ft v => gcType v = snd ft
                       /\ Zlen (gcBits v) = getBitWidth (snd ft)) fts fvals ->
  sizeStruct cs fts = Some words ->
  64 * (1 + capnp.getDataWordCount cs + capnp.getPointerCount cs)
  <= words * 64.
Proof.
  intros Hok Hpc1 Hrtf Hvals Hwords.
  destruct (layoutOk_fields _ _ Hok) as (Hdwc & Hpc & Hfields & Hco & Hdis).
  pose proof (@fields_classified cs fts fvals Hok Hpc1 Hrtf Hvals) as Hcl.
  destruct (@fields_split cs fts fvals (capnp.getFields cs) Hcl Hdis)
    as [Hall|(pre & f & post & Hsplit & Hpre & Hf & Hpost)].
  - rewrite (@sizeStruct_no_list cs fts fvals Hall Hdwc Hpc) in Hwords.
    assert (words = 1 + capnp.getDataWordCount cs
                    + capnp.getPointerCount cs) by congruence.
    lia.
  - destruct Hf as (v' & nm & w & sg & n & ec & cb & enc & Hft & Hv' & Hty'
                    & Hlen' & Hw & Hn & Hnc & Hct & Hbits & Henc2 & Hexp
                    & Hwcb & Hcb & Hoff & Hpc').
    rewrite (@sizeStruct_one_list cs fts fvals pre post f nm
               (IntegerType w sg) n ec cb) in Hwords;
      try assumption; try lia.
    assert (Hq : 0 <= (Z.of_N n * cb + 63) / 64)
      by (apply Z.div_pos; nia).
    assert (words = 1 + capnp.getDataWordCount cs
                    + capnp.getPointerCount cs
                    + (Z.of_N n * cb + 63) / 64) by congruence.
    lia.
Qed.

(** The decoder never rejects what the encoder produced.  Let the type be
    an integer of 1 to 64 bits, an array of at least 2 and fewer than 2^29
    such integers whose element type is not an unsigned integer of 1, 8, 16,
    32 or 64 bits, or a struct of such integers and arrays, with a valid
    layout of at most one pointer and a message of at most 2^30 bits.  Then
    both modules are built, and the message the encoder module puts out for
    any value makes every assertion of the decoder module hold: the root
    pointer's tag, offset and section sizes, and each list pointer's tag,
    element size code and length. *)
Theorem encoder_output_passes_decoder_assertions (t : Ty) (nm : string)
  (cs : capnp.StructReader) (clk valid v : GasketComponent) (sz : Z) :
  rtType t = true ->
  layoutOk (fieldTypes (TypeSchemaImpl_new t)) cs = true ->
  capnp.getPointerCount cs <= 1 ->
  size (TypeSchemaImpl_new t) cs = Some sz -> sz <= 2 ^ 30 ->
  gcType v = t -> Zlen (gcBits v) = getBitWidth t ->
  exists encoder decoder encoded decoded,
    buildEncoder (TypeSchemaImpl_new t) nm cs clk valid v = Some encoder
    /\ body encoder v = Some encoded
    /\ buildDecoder (TypeSchemaImpl_new t) nm cs clk valid (output encoded)
       = Some decoder
    /\ body decoder (output encoded) = Some decoded
    /\ Forall (fun al =>
                 Forall (fun i => forallb sv.holds (sv.ifBody i) = true)
                        (sv.alwaysBody al))
              (always decoded).
Proof.
  intros Hrt Hok Hpc1 Hsize Hsz Hty Hlen.
  set (ts := TypeSchemaImpl_new t) in *.
  destruct (@encode_decode t cs v sz Hrt Hok Hpc1 Hsize Hsz Hty Hlen)
    as (msg & asserts & HE & Hmty & HD).
  fold ts in HE, HD.
  (* the message is the one [build] compiles *)
  destruct (@fieldValues_typed t v Hrt Hty Hlen) as (Hcan & Hrtf & Hvals).
  fold ts in Hrtf, Hvals.
  set (fvals := match canonicalType ts with
                | StructType elements =>
                    map (fun i => rtl.StructExtractOp v i)
                        (seq 0 (length elements))
                | _ => [v]
                end) in *.
  assert (Hwords : exists words, sizeStruct cs (fieldTypes ts) = Some words
                                 /\ sz = wrap64 (words * 64)).
  { unfold size in Hsize.
    destruct (sizeStruct cs (fieldTypes ts)) as [words|]; [|discriminate].
    exists words. split; [reflexivity|congruence]. }
  destruct Hwords as (words & Hwords & Hszw).
  destruct (@encoder_message cs (fieldTypes ts) fvals words Hok Hpc1 Hrtf
              Hvals Hwords)
    as (Hwr & out & st & Hbuild & Hoty & Holen & Hroot & Henc).
  pose proof (@struct_fits_message cs (fieldTypes ts) fvals words Hok Hpc1
                Hrtf Hvals Hwords) as Hlow.
  rewrite wrap64_small in Hszw by (unfold two64; lia).
  assert (Hout : msg = out).
  { unfold encoderBody in HE. rewrite Hsize in HE. cbn [optBind] in HE.
    change (type ts) with t in HE. rewrite Hty, Ty_eqb_refl in HE.
    cbn [negb] in HE. fold fvals in HE. rewrite Hszw, Hbuild in HE.
    cbn [optBind fst] in HE. congruence. }
  subst out.
  assert (Hszn : Z.of_N (Z.to_N (words * 64)) = words * 64)
    by (apply Z2N.id; lia).
  destruct (layoutOk_fields _ _ Hok) as (Hdwc & Hpc & _ & _ & _).
  assert (Hall : forallb sv.holds asserts = true).
  { rewrite (@decoderBody_asserts ts cs msg v (Z.to_N (words * 64)) asserts
               Hok Hoty);
      [|rewrite Hszn; exact Holen|rewrite Hszn; exact Hlow|exact HD].
    rewrite forallb_app. apply andb_true_iff. split.
    - destruct (@root_word_fields (gcBits msg) _ _ Hroot) as (H1 & H2 & H3).
      unfold rootPointerAsserts. cbn [forallb].
      rewrite !holds_assertOn_eq by lia.
      rewrite H1, H2, H3, !ZofBits_bitsOfZ_small by lia.
      rewrite !Z.eqb_refl. reflexivity.
    - pose proof (@fields_classified cs (fieldTypes ts) fvals Hok Hpc1 Hrtf
                    Hvals) as Hcl.
      apply forallb_forall. intros a Ha. apply in_flat_map in Ha.
      destruct Ha as (f & Hf & Ha).
      rewrite Forall_forall in Hcl, Henc.
      pose proof (@field_asserts_hold cs (fieldTypes ts) fvals (gcBits msg) f
                    (proj1 Hdwc) (Hcl f Hf) (Henc f Hf)) as Hh.
      rewrite forallb_forall in Hh. apply Hh, Ha. }
  unfold buildEncoder. rewrite Hsize. cbn [optBind].
  rewrite HE. cbn [optBind].
  eexists. eexists. exists (mkBody [] msg). eexists.
  split; [reflexivity|]. cbn [body]. rewrite HE. cbn [optBind].
  split; [reflexivity|]. cbn [output]. unfold buildDecoder.
  rewrite HD. cbn [optBind].
  split; [reflexivity|]. cbn [body]. rewrite HD. cbn [optBind].
  split; [reflexivity|]. cbn [always snd].
  constructor; [|constructor]. cbn [sv.alwaysBody].
  constructor; [|constructor]. cbn [sv.ifBody]. exact Hall.
Qed.

Lemma encoder_output_passes_decoder_assertions_witness :
  let t := ArrayType (IntegerType 12 Signed) 3 in
  let cs := capnp.mkStruct 0 1
              [capnp.mkField "l" 0 0 (capnp.LIST capnp.INT16)] in
  let v := mkGC t (bitsOfZ 36 52719127245) in
  let clk := mkGC i1 [false] in
  let valid := mkGC i1 [true] in
  exists encoder decoder encoded decoded,
    buildEncoder (TypeSchemaImpl_new t) "a" cs clk valid v = Some encoder
    /\ body encoder v = Some encoded
    /\ buildDecoder (TypeSchemaImpl_new t) "a" cs clk valid (output encoded)
       = Some decoder
    /\ body decoder (output encoded) = Some decoded
    /\ Forall (fun al =>
                 Forall (fun i => forallb sv.holds (sv.ifBody i) = true)
                        (sv.alwaysBody al))
              (always decoded).
Proof.
  intros t cs v clk valid.
  apply (@encoder_output_passes_decoder_assertions t "a" cs clk valid v 192).
  - vm_compute. reflexivity.
  - vm_compute. reflexivity.
  - vm_compute. discriminate.
  - vm_compute. reflexivity.
  - vm_compute. discriminate.
  - reflexivity.
  - vm_compute. reflexivity.
Defined.

(** ** The type of the decoded value *)

Ltac optSteps H :=
  repeat match type of H with
         | optBind ?o _ = Some _ =>
             let E := fresh "E" in
             destruct o eqn:E; [cbn [optBind] in H | discriminate H]
         end.

Lemma mapM_Forall2 {A B : Type} (f : A -> option B) (l : list A) :
  forall l', mapM f l = Some l' -> Forall2 (fun a b => f a = Some b) l l'.
Proof.
  induction l as [|a l IH]; intros l' H; cbn [mapM] in H.
  - inversion H. constructor.
  - optSteps H. inversion H; subst. constructor; [assumption|].
    apply IH. reflexivity.
Qed.

Lemma downcast_type (t : Ty) (x r : GasketComponent) :
  downcast t x = Some r -> gcType r = t.
Proof.
  unfold downcast. destruct (negb (isIntegerType (gcType x))); [discriminate|].
  destruct (negb (isSigned t)); intros H; inversion H; reflexivity.
Qed.

Lemma decodeList_type (e : Ty) (n : N) (f : capnp.Field) (ps : Slice)
  (asserts : AssertBuilder) (r : GasketComponent * AssertBuilder) :
  decodeList e n f ps asserts = Some r -> gcType (fst r) = ArrayType e n.
Proof.
  unfold decodeList. destruct (capnp.getType f); try discriminate.
  intros H. optSteps H.
  destruct (negb (isIntegerType e)); [discriminate H|].
  optSteps H.
  match type of H with
  | (if Ty_eqb ?a ?b then _ else _) = _ => destruct (Ty_eqb a b) eqn:Eq
  end.
  - apply Ty_eqb_eq in Eq. inversion H; subst. exact Eq.
  - optSteps H. inversion H; subst. cbn [fst].
    match goal with
    | Hm : mapM _ _ = Some _ |- _ => rename Hm into HM
    end.
    match goal with
    | Ha : rtl.ArrayCreateOp _ = Some _ |- _ => rename Ha into HA
    end.
    apply mapM_Forall2 in HM.
    pose proof (Forall2_length HM) as Hlen. rewrite length_seq in Hlen.
    unfold rtl.ArrayCreateOp in HA.
    destruct HM as [|i0 v0 rest vals Hd _]; [discriminate HA|].
    destruct (forallb _ (v0 :: vals)); [|discriminate HA].
    injection HA as HA. rewrite <- HA. cbn [gcType].
    optSteps Hd.
    rewrite (downcast_type _ _ Hd). f_equal.
    change (N.of_nat (length (v0 :: vals)) = n).
    rewrite <- Hlen. apply Nnat.N2Nat.id.
Qed.

Lemma decodeField_type (ty : Ty) (f : capnp.Field) (ds ps : Slice)
  (asserts : AssertBuilder) (r : GasketComponent * AssertBuilder) :
  decodeField ty f ds ps asserts = Some r -> gcType (fst r) = ty.
Proof.
  unfold decodeField. destruct ty as [w sg|e n| | | |]; try discriminate.
  - intros H. optSteps H. inversion H; subst. reflexivity.
  - apply decodeList_type.
Qed.

Lemma decodeFields_types (fts : list FieldInfo) (ds ps : Slice)
  (fields : list capnp.Field) :
  forall asserts r,
    decodeFields fts fields ds ps asserts = Some r ->
    Forall2 (fun f v => exists ft,
                 nth_error fts (capnp.getCodeOrder f) = Some ft
                 /\ gcType v = snd ft)
            fields (fst r).
Proof.
  induction fields as [|f fields IH]; intros asserts r H;
    cbn [decodeFields] in H.
  - inversion H; subst. constructor.
  - optSteps H. inversion H; subst. cbn [fst]. constructor.
    + match goal with
      | Hn : nth_error fts _ = Some ?ft |- _ =>
          exists ft; split; [exact Hn|]
      end.
      eapply decodeField_type. eassumption.
    + eapply IH. eassumption.
Qed.

(** The value a generated decoder puts on its output is typed as follows: a
    struct (also behind an alias) has the declared type, the one of the
    'decoded' port; an integer or an array has the canonical type, so for an
    alias of an integer or of an array the output value and the output port
    disagree. Every decoded field of a struct has the type of its struct
    field. *)
Theorem decoder_output_type (t : Ty) (nm : string) (cs : capnp.StructReader)
  (clk valid op0 msg : GasketComponent) (m : RTLModuleOp) (b : ModuleBody) :
  buildDecoder (TypeSchemaImpl_new t) nm cs clk valid op0 = Some m ->
  body m msg = Some b ->
  nth_error (ports m) 3 = Some (mkPort "decoded" OUTPUT t 0)
  /\ gcType (output b)
     = match getCanonicalType t with
       | StructType _ => t
       | c => c
       end
  /\ (getCanonicalType t = t -> gcType (output b) = t).
Proof.
  intros Hbuild Hb.
  destruct (buildDecoder_body _ _ _ _ _ _ Hbuild) as (_ & Hports & Hbody).
  destruct (Hbody msg b Hb) as (ret & asserts & Hdec & ->).
  rewrite Hports. split; [reflexivity|]. cbn [output].
  assert (Hty : gcType ret = match getCanonicalType t with
                             | StructType _ => t
                             | c => c
                             end).
  { unfold decoderBody in Hdec. optSteps Hdec.
    destruct (gcType msg) as [|e n| | | |]; try discriminate Hdec.
    destruct (negb (Z.of_N n =? z)); [discriminate Hdec|].
    optSteps Hdec.
    match goal with
    | Hf : decodeFields _ _ _ _ _ = Some _ |- _ =>
        pose proof (decodeFields_types _ _ _ _ _ Hf) as Htys
    end.
    cbn [canonicalType fieldTypes TypeSchemaImpl_new type] in Hdec, Htys.
    destruct (getCanonicalType t) as [w sg|e' n'|fs| | |] eqn:Ec;
      try discriminate Hdec.
    - optSteps Hdec. inversion Hdec; subst.
      destruct Htys as [|f v fields vs (ft & Hft & Hv) _];
        [discriminate|].
      match goal with Hn : nth_error (v :: vs) 0 = Some _ |- _ =>
        cbn in Hn; inversion Hn; subst end.
      rewrite Hv. destruct (capnp.getCodeOrder f) as [|k]; cbn in Hft.
      + inversion Hft; reflexivity.
      + destruct k; discriminate Hft.
    - optSteps Hdec. inversion Hdec; subst.
      destruct Htys as [|f v fields vs (ft & Hft & Hv) _];
        [discriminate|].
      match goal with Hn : nth_error (v :: vs) 0 = Some _ |- _ =>
        cbn in Hn; inversion Hn; subst end.
      rewrite Hv. destruct (capnp.getCodeOrder f) as [|k]; cbn in Hft.
      + inversion Hft; reflexivity.
      + destruct k; discriminate Hft.
    - inversion Hdec; subst. reflexivity. }
  split; [exact Hty|].
  intros Hcan. rewrite Hty, Hcan. destruct t; reflexivity.
Qed.

Lemma decoder_output_type_witness :
  let t := TypeAliasType "foo" ui8 in
  let ts := TypeSchemaImpl_new t in
  let clk := mkGC i1 [false] in
  let valid := mkGC i1 [true] in
  let msg := mkGC (ArrayType i1 128) (bitsOfZ 128 0) in
  exists m b,
    buildDecoder ts "foo" ui8Layout clk valid msg = Some m
    /\ body m msg = Some b
    /\ nth_error (ports m) 3 = Some (mkPort "decoded" OUTPUT t 0)
    /\ gcType (output b) = ui8.
Proof.
  intros t ts clk valid msg.
  assert (Hsome : isSome (decoderBody ts ui8Layout msg) = true)
    by (vm_compute; reflexivity).
  destruct (decoderBody ts ui8Layout msg) as [ra|] eqn:ED;
    [|discriminate Hsome].
  destruct (buildDecoder ts "foo" ui8Layout clk valid msg) as [m|] eqn:Em.
  2:{ unfold buildDecoder in Em. rewrite ED in Em. discriminate Em. }
  assert (Eb : exists b, body m msg = Some b).
  { pose proof Em as Em'. unfold buildDecoder in Em'. rewrite ED in Em'.
    cbn [optBind] in Em'. injection Em' as Hm. rewrite <- Hm.
    cbn [body]. rewrite ED. cbn [optBind]. eauto. }
  destruct Eb as [b Eb].
  exists m, b. split; [reflexivity|]. split; [exact Eb|].
  destruct (@decoder_output_type t "foo" ui8Layout clk valid msg msg m b Em Eb)
    as (Hp & Ho & _).
  split; [exact Hp|exact Ho].
Defined.

(** ** Further properties of the helper classes *)

Lemma ZofBits_firstn (n : nat) :
  forall l, ZofBits (firstn n l) = ZofBits l mod 2 ^ Z.of_nat n.
Proof.
  induction n as [|n IH]; intros l.
  - cbn [firstn ZofBits]. change (2 ^ Z.of_nat 0) with 1.
    rewrite Z.mod_1_r. reflexivity.
  - destruct l as [|b r]; cbn [firstn ZofBits].
    + rewrite Zmod_0_l. reflexivity.
    + rewrite IH, Nat2Z.inj_succ, Z.pow_succ_r by lia.
      assert (HP : 0 < 2 ^ Z.of_nat n) by (apply Z.pow_pos_nonneg; lia).
      pose proof (Z.mod_pos_bound (ZofBits r) _ HP) as Hm.
      pose proof (Z.div_mod (ZofBits r) (2 ^ Z.of_nat n) ltac:(lia)) as Hd.
      apply Z.mod_unique with (q := ZofBits r / 2 ^ Z.of_nat n).
      * left. destruct b; cbn [Z.b2z]; lia.
      * lia.
Qed.

Lemma ZofBits_sliceBits_low (w : Z) (l : list bool) :
  0 <= w -> ZofBits (sliceBits 0 w l) = ZofBits l mod 2 ^ w.
Proof.
  intros Hw. unfold sliceBits. cbn [Z.to_nat skipn].
  rewrite ZofBits_firstn, ZofBits_app, ZofBits_repeat_false, Z2Nat.id by lia.
  f_equal. lia.
Qed.

(** [downcast] is a plain truncation.  Whatever the signedness of the
    integer it is given and of the type it is to yield, the result has that
    type and holds the low bits of the input: the input's value modulo 2^w.
    The signed path, which takes bit w - 1 as the sign and the bits below
    as the magnitude, puts them together to the same bits.  A value that is
    not an integer trips the assertion. *)
Theorem downcast_truncates (x : GasketComponent) (c w : N)
  (sg0 sg : Signedness) :
  gcType x = IntegerType c sg0 -> (1 <= w)%N ->
  (exists r,
      downcast (IntegerType w sg) x = Some r
      /\ gcType r = IntegerType w sg
      /\ gcBits r = sliceBits 0 (Z.of_N w) (gcBits x)
      /\ ZofBits (gcBits r) = ZofBits (gcBits x) mod 2 ^ Z.of_N w)
  /\ (forall y, isIntegerType (gcType y) = false ->
                downcast (IntegerType w sg) y = None).
Proof.
  intros Hty Hw. split.
  - assert (E : downcast (IntegerType w sg) x
                = Some (mkGC (IntegerType w sg)
                             (sliceBits 0 (Z.of_N w) (gcBits x)))).
    { unfold downcast. rewrite Hty. cbn [isIntegerType negb].
      set (signlessVal := if isSignlessInteger (IntegerType c sg0) then x
                          else _).
      assert (Hs : gcBits signlessVal = gcBits x)
        by (unfold signlessVal; destruct sg0; reflexivity).
      destruct sg; cbn [isSigned negb];
        unfold cast, rtl.BitcastOp, comb.ExtractOp;
        cbn [gcBits gcType getBitWidth]; rewrite ?Hs; try reflexivity.
      unfold comb.ConcatOp. cbn [gcBits gcType].
      rewrite !getBitWidth_getIntegerType by lia.
      f_equal. f_equal.
      replace (Z.of_N w) with ((Z.of_N w - 1) + 1) at 3 by lia.
      rewrite (@sliceBits_split 0 (Z.of_N w - 1) 1 (gcBits x)) by lia.
      reflexivity. }
    eexists. split; [exact E|]. cbn [gcType gcBits].
    split; [reflexivity|]. split; [reflexivity|].
    apply ZofBits_sliceBits_low. lia.
  - intros y Hy. unfold downcast. rewrite Hy. reflexivity.
Qed.

Lemma downcast_truncates_witness :
  exists r,
    downcast (IntegerType 8 Signed)
             (mkGC (IntegerType 16 Signed) (bitsOfZ 16 384)) = Some r
    /\ gcType r = IntegerType 8 Signed
    /\ gcBits r = bitsOfZ 8 128.
Proof.
  destruct (@downcast_truncates (mkGC (IntegerType 16 Signed) (bitsOfZ 16 384))
              16 8 Signed Signed eq_refl ltac:(lia))
    as [(r & Hr & Ht & Hb & _) _].
  exists r. split; [exact Hr|]. split; [exact Ht|].
  rewrite Hb. vm_compute. reflexivity.
Defined.

Lemma totalBits_castBitArray (vs : list GasketComponent) :
  totalBits (map (fun v => sliceValue (castBitArray v)) vs) = totalBits vs.
Proof.
  induction vs as [|v vs IH]; cbn [map totalBits fold_right]; [reflexivity|].
  fold (totalBits (map (fun v => sliceValue (castBitArray v)) vs)).
  fold (totalBits vs). rewrite IH, castBitArray_size. reflexivity.
Qed.

Lemma totalBits_nonneg (vs : list GasketComponent) : 0 <= totalBits vs.
Proof.
  induction vs as [|v vs IH]; cbn [totalBits fold_right]; [lia|].
  fold (totalBits vs). pose proof (wrap64_range (getBitWidth (gcType v))).
  unfold GasketComponent_size. lia.
Qed.

Lemma gcWf_size (v : GasketComponent) :
  gcWf v -> GasketComponent_size v = Zlen (gcBits v).
Proof.
  intros [Hl Hb]. unfold GasketComponent_size. rewrite <- Hl.
  apply wrap64_small. pose proof (Zlen_nonneg (gcBits v)). lia.
Qed.

Lemma Zlen_concat_wf (vs : list GasketComponent) :
  Forall gcWf vs -> Zlen (concat (map gcBits vs)) = totalBits vs.
Proof.
  induction 1 as [|v vs Hv _ IH]; [reflexivity|].
  cbn [map concat totalBits fold_right]. fold (totalBits vs).
  rewrite Zlen_app, IH, (gcWf_size Hv). reflexivity.
Qed.

(** [concat] lays the values out in the order given, the first one in the
    least significant bits: each value is found in the result at the bit
    offset that is the total width of the values before it.  The result is
    a bit array as wide as all values together; an empty list trips the
    assertion. *)
Theorem concat_places_values_in_order (pre post : list GasketComponent)
  (v : GasketComponent) :
  Forall gcWf (pre ++ v :: post) ->
  (exists r,
      GasketComponent_concat (pre ++ v :: post) = Some r
      /\ gcBits r = concat (map gcBits (pre ++ v :: post))
      /\ sliceBits (totalBits pre) (GasketComponent_size v) (gcBits r)
         = gcBits v
      /\ Zlen (gcBits r) = totalBits (pre ++ v :: post)
      /\ (totalBits (pre ++ v :: post) < two64 ->
          gcType r = ArrayType i1 (Z.to_N (totalBits (pre ++ v :: post)))))
  /\ GasketComponent_concat [] = None.
Proof.
  intros Hwf. split; [|reflexivity].
  destruct (@GasketComponent_concat_spec (pre ++ v :: post))
    as (r & Hr & Hb & Ht).
  { destruct pre; discriminate. }
  exists r. split; [exact Hr|]. split; [exact Hb|].
  pose proof (Forall_app gcWf pre (v :: post)) as [Happ _].
  destruct (Happ Hwf) as [Hpre Hvp].
  inversion Hvp as [|? ? Hv Hpost]; subst.
  split; [|split].
  - rewrite Hb, map_app, concat_app. cbn [map concat].
    apply sliceBits_mid.
    + symmetry. apply Zlen_concat_wf, Hpre.
    + apply gcWf_size, Hv.
  - rewrite Hb. apply Zlen_concat_wf, Hwf.
  - intros Hlt. rewrite Ht, totalBits_castBitArray.
    rewrite wrap64_small; [reflexivity|].
    pose proof (totalBits_nonneg (pre ++ v :: post)). lia.
Qed.

Lemma concat_places_values_in_order_witness :
  let b := mkGC (IntegerType 5 Unsigned) (bitsOfZ 5 19) in
  exists a c r,
    constant 2 1 = Some a /\ constant 3 6 = Some c
    /\ GasketComponent_concat [a; b; c] = Some r
    /\ sliceBits 2 5 (gcBits r) = bitsOfZ 5 19
    /\ gcType r = ArrayType i1 10.
Proof.
  intros b.
  set (a := constantOf 2 1). set (c := constantOf 3 6).
  assert (Hwf : Forall gcWf ([a] ++ b :: [c])).
  { repeat constructor; vm_compute; congruence. }
  destruct (@concat_places_values_in_order [a] [c] b Hwf)
    as [(r & Hr & _ & Hs & _ & Ht) _].
  exists a, c, r. split; [reflexivity|]. split; [reflexivity|].
  split; [exact Hr|]. split; [exact Hs|].
  apply Ht. vm_compute. reflexivity.
Defined.

(** [assertPred] compares with the expected constant truncated to the
    operand's width: on an integer or a bit array of [w] bits, [w] at least
    1, the [eq] assertion holds exactly when the operand's value is the
    constant modulo 2^w, and the [ule] assertion when it is at most that.
    An operand of any other type trips 'Can only compare ints and bit
    arrays', and for an operand of no bits the expected constant cannot be
    built. *)
Theorem assertPred_compares_truncated (veg : GasketComponent) (w : N)
  (c : Z) (asserts : AssertBuilder) :
  gcType veg = ArrayType i1 w \/ (exists sg, gcType veg = IntegerType w sg) ->
  (1 <= w)%N ->
  (exists a,
      assertPred veg comb.eq c asserts = Some (asserts ++ [a])
      /\ (sv.holds a = true <-> ZofBits (gcBits veg) = c mod 2 ^ Z.of_N w))
  /\ (exists a,
         assertPred veg comb.ule c asserts = Some (asserts ++ [a])
         /\ (sv.holds a = true <-> ZofBits (gcBits veg) <= c mod 2 ^ Z.of_N w))
  /\ (forall y pred,
         isIntegerType (gcType y) = false ->
         (forall n, gcType y <> ArrayType i1 n) ->
         assertPred y pred c asserts = None)
  /\ (forall y pred,
         gcType y = ArrayType i1 0 \/ (exists sg, gcType y = IntegerType 0 sg) ->
         assertPred y pred c asserts = None).
Proof.
  intros Hty Hw.
  assert (Hw0 : (w =? 0)%N = false) by (apply N.eqb_neq; lia).
  assert (H : forall pred,
             exists a,
               assertPred veg pred c asserts = Some (asserts ++ [a])
               /\ sv.holds a
                  = comb.ICmpOp pred (mkGC i1 (gcBits veg))
                      (mkGC i1 (bitsOfZ (Z.of_N w) c))).
  { intros pred. unfold assertPred, assertPredValue.
    destruct Hty as [Hty|[sg Hty]]; rewrite Hty;
      cbn [isIntegerType Ty_eqb i1 getIntegerType Signedness_eqb N.eqb
           Z.to_N Pos.eqb andb];
      unfold rtl.ConstantOp, cast, rtl.BitcastOp, getIntegerType;
      cbn [gcType]; rewrite ?Hty, ?N2Z.id, ?Hw0; cbn [optBind];
      eexists; (split; [reflexivity|]);
      unfold sv.holds, comb.ICmpOp;
      cbn [sv.predicate sv.lhs sv.rhs gcBits gcType getBitWidth];
      reflexivity. }
  split; [|split; [|split]].
  - destruct (H comb.eq) as (a & Ha & Hh). exists a. split; [exact Ha|].
    rewrite Hh. unfold comb.ICmpOp. cbn [gcBits].
    rewrite ZofBits_bitsOfZ by lia. apply Z.eqb_eq.
  - destruct (H comb.ule) as (a & Ha & Hh). exists a. split; [exact Ha|].
    rewrite Hh. unfold comb.ICmpOp. cbn [gcBits].
    rewrite ZofBits_bitsOfZ by lia. apply Z.leb_le.
  - intros y pred Hi Hn. unfold assertPred. rewrite Hi.
    destruct (gcType y) as [|e n| | | |]; try reflexivity.
    destruct (Ty_eqb e (getIntegerType 1)) eqn:E; [|reflexivity].
    apply Ty_eqb_eq in E. subst e. exfalso. apply (Hn n). reflexivity.
  - intros y pred [Hy|[sg Hy]]; unfold assertPred, assertPredValue;
      rewrite Hy; reflexivity.
Qed.

Lemma assertPred_compares_truncated_witness :
  exists a,
    assertPred (mkGC (ArrayType i1 3) (bitsOfZ 3 2)) comb.eq 10 []
    = Some ([] ++ [a])
    /\ (sv.holds a = true <-> ZofBits (bitsOfZ 3 2) = 10 mod 2 ^ Z.of_N 3).
Proof.
  destruct (@assertPred_compares_truncated
              (mkGC (ArrayType i1 3) (bitsOfZ 3 2)) 3 10 []
              (or_introl eq_refl) ltac:(lia))
    as [(a & Ha & Hh) _].
  exists a. split; [exact Ha|exact Hh].
Defined.

(** Slices know where they are in the message.  A slice cut out of the root
    slice by any number of constant-offset [slice] calls has that root as
    [getRootSlice], the sum of the offsets as [getOffsetFromRoot], and
    shows the bits of the root's value from that offset on.  A slice cut at
    an offset that is a circuit value has no known offset, and neither has
    any slice cut out of it. *)
Theorem slice_offsets_add_up (msg : GasketComponent) (n : N) (r s : Slice)
  (o : Z) :
  gcType msg = ArrayType i1 n -> Zlen (gcBits msg) = Z.of_N n ->
  Z.of_N n < 2 ^ 63 ->
  Slice_root msg = Some r ->
  sliced r s o ->
  getRootSlice s = r
  /\ getOffsetFromRoot s = Some o
  /\ 0 <= o /\ o + Z.of_N (sliceSize s) <= Z.of_N n
  /\ gcBits (sliceValue s) = sliceBits o (Z.of_N (sliceSize s)) (gcBits msg)
  /\ (forall idx sz d,
         sliceAt s idx sz = Some d ->
         getRootSlice d = r /\ getOffsetFromRoot d = None
         /\ forall lsb' sz' c,
              slice d lsb' sz' = Some c ->
              getRootSlice c = r /\ getOffsetFromRoot c = None).
Proof.
  intros Hty Hlen Hn Hroot Hs.
  destruct (Slice_root_spec msg Hty Hlen) as (r' & Er & Hr & Hrs & _ & Hrp).
  assert (r' = r) by congruence. subst r'.
  assert (Hmain : getRootSlice s = r /\ getOffsetFromRoot s = Some o
                  /\ o + Z.of_N (sliceSize s) <= Z.of_N n
                  /\ bitSlice (gcBits msg) o s).
  { induction Hs as [|s s' o lsb sz Hs IH Hlsb Hsz Hfit Hsl].
    - rewrite getRootSlice_unfold, getOffsetFromRoot_unfold, Hrp, Hrs.
      split; [reflexivity|]. split; [reflexivity|]. split; [lia|exact Hr].
    - destruct IH as (IHr & IHo & IHfit & IHb).
      pose proof IHb as (_ & _ & _ & Ho).
      destruct (@slice_spec (gcBits msg) o s lsb sz IHb Hlsb)
        as (s2 & E2 & Hb2 & Hs2 & Hp2 & Ho2);
        [unfold two64; lia|split; [exact Hfit|exact (@slice_not_one _ _ _ _ Hsl)]|].
      assert (s2 = s') by congruence. subst s2.
      rewrite getRootSlice_unfold, getOffsetFromRoot_unfold, Hp2, Ho2, IHo.
      rewrite toInt64_small by lia.
      split; [exact IHr|]. split; [f_equal; lia|].
      split; [rewrite Hs2, Z2N.id by lia; lia|exact Hb2]. }
  destruct Hmain as (Hg & Ho & Hfit & (_ & _ & Hb & Hpos)).
  split; [exact Hg|]. split; [exact Ho|]. split; [exact Hpos|].
  split; [exact Hfit|]. split; [exact Hb|].
  intros idx sz d Hd.
  assert (Hdp : parent d = Some s /\ offsetIntoParent d = None).
  { unfold sliceAt in Hd.
    destruct (negb (isIntegerType (gcType idx))); [discriminate|].
    destruct (_ <? _); [discriminate|].
    unfold Slice_child in Hd.
    destruct (gcType (rtl.ArraySliceOp _ _ _)); try discriminate.
    inversion Hd; subst. split; reflexivity. }
  destruct Hdp as [Hdp Hdo].
  assert (Hdr : getRootSlice d = r)
    by (rewrite getRootSlice_unfold, Hdp; exact Hg).
  assert (Hdn : getOffsetFromRoot d = None)
    by (rewrite getOffsetFromRoot_unfold, Hdp, Hdo; reflexivity).
  split; [exact Hdr|]. split; [exact Hdn|].
  intros lsb' sz' c Hc. unfold slice in Hc. optSteps Hc.
  unfold Slice_child in Hc.
  destruct (gcType (rtl.ArraySliceOp _ _ _)); try discriminate.
  inversion Hc; subst.
  rewrite getRootSlice_unfold, getOffsetFromRoot_unfold.
  cbn [parent offsetIntoParent]. rewrite Hdn. split; [exact Hdr|reflexivity].
Qed.

Lemma slice_offsets_add_up_witness :
  let msg := mkGC (ArrayType i1 128) (bitsOfZ 128 81985529216486895) in
  let r := mkSlice msg i1 128 None (Some 0) in
  let s1 := mkSlice (mkGC (ArrayType i1 64) (sliceBits 64 64 (gcBits msg)))
                    i1 64 (Some r) (Some 64) in
  let s2 := mkSlice (mkGC (ArrayType i1 16) (sliceBits 96 16 (gcBits msg)))
                    i1 16 (Some s1) (Some 32) in
  Slice_root msg = Some r
  /\ slice r 64 64 = Some s1
  /\ slice s1 32 16 = Some s2
  /\ getRootSlice s2 = r
  /\ getOffsetFromRoot s2 = Some 96.
Proof.
  intros msg r s1 s2.
  assert (Er : Slice_root msg = Some r) by reflexivity.
  assert (E1 : slice r 64 64 = Some s1) by (vm_compute; reflexivity).
  assert (E2 : slice s1 32 16 = Some s2) by (vm_compute; reflexivity).
  split; [exact Er|]. split; [exact E1|]. split; [exact E2|].
  assert (Hs1 : sliced r s1 (0 + 64)).
  { apply (@sliced_slice r r s1 0 64 64 (sliced_root r));
      [lia|lia|vm_compute; discriminate|exact E1]. }
  assert (Hs2 : sliced r s2 (0 + 64 + 32)).
  { apply (@sliced_slice r s1 s2 (0 + 64) 32 16 Hs1);
      [lia|lia|vm_compute; discriminate|exact E2]. }
  destruct (@slice_offsets_add_up msg 128 r s2 (0 + 64 + 32))
    as (Hg & Ho & _); try assumption.
  - reflexivity.
  - vm_compute. reflexivity.
  - vm_compute. reflexivity.
  - split; [exact Hg|exact Ho].
Defined.

(** ** The decoder on arbitrary messages *)

Lemma Forall2_indexed {A B : Type} (R : A -> B -> Prop) (l1 : list A)
  (l2 : list B) :
  Forall2 R l1 l2 ->
  Forall2 (fun a b => R a b /\ exists i, nth_error l1 i = Some a
                                         /\ nth_error l2 i = Some b) l1 l2.
Proof.
  induction 1 as [|a b l1 l2 Hab _ IH]; constructor.
  - split; [exact Hab|]. exists 0%nat. split; reflexivity.
  - eapply Forall2_impl; [|exact IH].
    intros a' b' (Hr & i & H1 & H2). split; [exact Hr|].
    exists (S i). split; assumption.
Qed.

Lemma Forall2_map_right {A B C : Type} (R : A -> C -> Prop) (g : B -> C)
  (l1 : list A) (l2 : list B) :
  Forall2 (fun a b => R a (g b)) l1 l2 -> Forall2 R l1 (map g l2).
Proof. induction 1; constructor; assumption. Qed.

(** In a valid layout of integer fields, every field is an integer field
    of the values the decoder reads from the slots of a message. *)
Lemma slotRead_fields (cs : capnp.StructReader) (fts : list FieldInfo)
  (B : list bool) :
  layoutOk fts cs = true ->
  forallb (fun ft => rtInt (snd ft)) fts = true ->
  let fvals := map (slotRead fts B) (capnp.getFields cs) in
  length (capnp.getFields cs) = length fvals
  /\ Forall (intField cs fts fvals) (capnp.getFields cs)
  /\ Forall (fieldEncoded cs fvals B) (capnp.getFields cs).
Proof.
  intros Hok Hrt fvals.
  destruct (layoutOk_fields _ _ Hok) as (Hdwc & Hpc & Hfields & Hco & _).
  split; [unfold fvals; rewrite length_map; reflexivity|].
  assert (H : Forall (fun f => intField cs fts fvals f
                               /\ fieldEncoded cs fvals B f)
                     (capnp.getFields cs)).
  { apply Forall_forall. intros f Hin.
    apply In_nth_error in Hin. destruct Hin as [i Hi].
    pose proof (Hco _ _ Hi) as Hcoi.
    apply Forall2_indexed in Hfields.
    assert (Hft : exists ft, nth_error fts i = Some ft
                  /\ fieldOk (capnp.getDataWordCount cs)
                             (capnp.getPointerCount cs)
                             (capnp.getCodeOrder f) ft f = true).
    { clear - Hfields Hi. revert i Hi.
      induction Hfields as [|ft g fts' fs' (Hg & _) _ IH]; intros i Hi.
      - destruct i; discriminate.
      - destruct i as [|i]; cbn [nth_error] in *.
        + inversion Hi; subst. exists ft. split; [reflexivity|exact Hg].
        + apply (IH i Hi). }
    destruct Hft as ([nm t] & Hfti & Hfok).
    assert (Hrtf : rtInt t = true).
    { rewrite forallb_forall in Hrt.
      apply (Hrt (nm, t)). eapply nth_error_In. exact Hfti. }
    rewrite <- Hcoi in Hfti.
    unfold fieldOk in Hfok. cbn [snd] in Hfok.
    apply andb_true_iff in Hfok. destruct Hfok as [Hfok Hrange].
    apply andb_true_iff in Hfok. destruct Hfok as [Hfok Hmatch].
    boolprop.
    destruct t as [w sg| | | | |]; try discriminate.
    cbn [rtInt] in Hrtf. apply andb_true_iff in Hrtf.
    destruct Hrtf as [Hw1 Hw2]. apply N.leb_le in Hw1, Hw2.
    destruct (@capnp_int_type w sg (capnp.getType f) (conj Hw1 Hw2) Hmatch)
      as (cb & enc & Hbits & _ & _ & Hptr & Hwcb & Hcb).
    unfold fieldRange in Hrange. rewrite Hbits, Hptr in Hrange.
    apply Z.leb_le in Hrange.
    assert (Hv : nth_error fvals (capnp.getCodeOrder f)
                 = Some (mkGC (IntegerType w sg)
                              (sliceBits (64 + capnp.getOffset f * cb)
                                         (Z.of_N w) B))).
    { unfold fvals. rewrite nth_error_map, Hcoi, Hi. cbn [option_map].
      unfold slotRead. rewrite Hcoi at 1. rewrite <- Hcoi at 1.
      rewrite Hfti, Hbits. reflexivity. }
    split.
    - eexists _, nm, w, sg, cb.
      split; [exact Hfti|]. split; [exact Hv|]. cbn [gcType gcBits].
      split; [reflexivity|]. split; [apply sliceBits_length; lia|].
      repeat (split; [first [assumption | lia]|]). lia.
    - eexists. split; [exact Hv|]. cbn [gcType gcBits].
      exists cb. split; [exact Hbits|reflexivity]. }
  split; apply Forall_forall; intros f Hf; rewrite Forall_forall in H;
    apply (H f Hf).
Qed.

Lemma getCanonicalType_not_alias (t : Ty) (nm : string) (i : Ty) :
  getCanonicalType t <> TypeAliasType nm i.
Proof.
  induction t using Ty_ind'; cbn [getCanonicalType]; try discriminate.
  assumption.
Qed.

(** The decoder of a type with integer fields only (an integer, or a struct
    of integers of 1 to 64 bits) decodes every message of the declared
    width, whatever it holds: the assertions only flag a malformed message
    in simulation, they do not gate the output.  Each field of the result
    is read from the field's slot in the data section that follows the
    first word; the root pointer is not followed. *)
Theorem decoder_reads_integer_slots (t : Ty) (cs : capnp.StructReader)
  (nm : string) (clk valid msg : GasketComponent) (n : N) :
  TypeSchemaImpl_isSupported (TypeSchemaImpl_new t) = true ->
  forallb (fun ft => rtInt (snd ft)) (fieldTypes (TypeSchemaImpl_new t))
  = true ->
  layoutOk (fieldTypes (TypeSchemaImpl_new t)) cs = true ->
  size (TypeSchemaImpl_new t) cs = Some (Z.of_N n) ->
  gcType msg = ArrayType i1 n -> Zlen (gcBits msg) = Z.of_N n ->
  exists decoder decoded,
    buildDecoder (TypeSchemaImpl_new t) nm cs clk valid msg = Some decoder
    /\ body decoder msg = Some decoded
    /\ match getCanonicalType t with
       | StructType _ =>
           output decoded
           = rtl.StructCreateOp t
               (map (slotRead (fieldTypes (TypeSchemaImpl_new t)) (gcBits msg))
                    (capnp.getFields cs))
       | _ =>
           map (slotRead (fieldTypes (TypeSchemaImpl_new t)) (gcBits msg))
               (capnp.getFields cs)
           = [output decoded]
       end.
Proof.
  intros Hsup Hrt Hok Hsize Hty Hlen.
  set (ts := TypeSchemaImpl_new t) in *.
  destruct (layoutOk_fields _ _ Hok) as (Hdwc & Hpc & Hfields & Hco & _).
  destruct (@slotRead_fields cs (fieldTypes ts) (gcBits msg) Hok Hrt)
    as (Hflen & Hint & Henc).
  set (fvals := map (slotRead (fieldTypes ts) (gcBits msg))
                    (capnp.getFields cs)) in *.
  assert (Hn : Z.of_N n = 64 * (1 + capnp.getDataWordCount cs
                                + capnp.getPointerCount cs)).
  { unfold size in Hsize.
    rewrite (@sizeStruct_no_list cs (fieldTypes ts) fvals Hint Hdwc Hpc)
      in Hsize.
    rewrite wrap64_small in Hsize by (unfold two64; lia).
    assert ((1 + capnp.getDataWordCount cs + capnp.getPointerCount cs) * 64
            = Z.of_N n) by congruence.
    lia. }
  destruct (@decoderBody_run ts cs msg n Hsize Hty Hlen)
    as (operand & ds & ps & a0 & Hop & Hopp & Hops & Hds & Hdss & Hps & Hpsp
        & Hpso & Hpss & Hrun);
    try lia.
  { unfold two64. lia. }
  destruct (@decodeFields_ok (gcBits msg) cs (fieldTypes ts) fvals operand ds
              ps (capnp.getFields cs))
    with (asserts := a0) as (asserts' & Hdec);
    try assumption; try lia.
  { eapply Forall_impl; [|exact Hint]. intros f Hf. left. exact Hf. }
  rewrite (@map_nth_codeOrder (capnp.getFields cs) fvals) in Hdec;
    [|exact Hco|exact Hflen].
  assert (HD : exists ret,
             decoderBody ts cs msg = Some (ret, asserts')
             /\ match getCanonicalType t with
                | StructType _ => ret = rtl.StructCreateOp t fvals
                | _ => fvals = [ret]
                end).
  { rewrite Hrun, Hdec. cbn [optBind fst snd].
    change (canonicalType ts) with (getCanonicalType t).
    change (type ts) with t.
    unfold TypeSchemaImpl_isSupported in Hsup. change (type ts) with t in Hsup.
    rewrite isSupported_canonical in Hsup.
    assert (Hft : fieldTypes ts
                  = match getCanonicalType t with
                    | IntegerType _ _ => [("i"%string, getCanonicalType t)]
                    | ArrayType _ _ => [("l"%string, getCanonicalType t)]
                    | StructType elements => elements
                    | _ => []
                    end) by reflexivity.
    destruct (getCanonicalType t) as [w sg|e k|fs| | |] eqn:Ec;
      try discriminate Hsup.
    - rewrite Hft in Hok.
      destruct (@layoutOk_single _ cs Hok) as (f & Hf & _).
      unfold fvals. rewrite Hf. cbn [map nth_error optBind].
      eexists. split; reflexivity.
    - rewrite Hft in Hrt. cbn in Hrt. discriminate Hrt.
    - eexists. split; reflexivity.
    - exfalso. apply (getCanonicalType_not_alias _ Ec). }
  destruct HD as (ret & HD & Hret).
  unfold buildDecoder. rewrite HD. cbn [optBind].
  eexists. eexists. split; [reflexivity|]. cbn [body]. rewrite HD.
  cbn [optBind]. split; [reflexivity|]. cbn [output fst].
  exact Hret.
Qed.

Lemma decoder_reads_integer_slots_witness :
  let t := StructType [("a"%string, IntegerType 3 Signed);
                       ("b"%string, IntegerType 16 Unsigned)] in
  let cs := capnp.mkStruct 1 0
              [capnp.mkField "a" 0 0 capnp.INT8;
               capnp.mkField "b" 1 1 capnp.UINT16] in
  let msg := mkGC (ArrayType i1 128) (bitsOfZ 128 (-1)) in
  exists decoder decoded,
    buildDecoder (TypeSchemaImpl_new t) "s" cs (mkGC i1 [false])
                 (mkGC i1 [true]) msg = Some decoder
    /\ body decoder msg = Some decoded
    /\ output decoded
       = rtl.StructCreateOp t
           [mkGC (IntegerType 3 Signed) (bitsOfZ 3 7);
            mkGC (IntegerType 16 Unsigned) (bitsOfZ 16 65535)].
Proof.
  intros t cs msg.
  destruct (@decoder_reads_integer_slots t cs "s" (mkGC i1 [false])
              (mkGC i1 [true]) msg 128)
    as (decoder & decoded & Hd & Hb & Ho).
  - reflexivity.
  - reflexivity.
  - vm_compute. reflexivity.
  - vm_compute. reflexivity.
  - reflexivity.
  - vm_compute. reflexivity.
  - exists decoder, decoded. split; [exact Hd|]. split; [exact Hb|].
    cbn [getCanonicalType t] in Ho. rewrite Ho. vm_compute. reflexivity.
Defined.

(** ** The format of the encoder's message *)

(** The format of the encoder's message.  Let the type be an integer of 1
    to 64 bits, an array of at least 2 and fewer than 2^29 such integers
    whose element type is not an unsigned integer of 1, 8, 16, 32 or 64
    bits, or a struct of such integers and arrays, with a valid layout of at
    most one pointer and a message of at most 2^30 bits.  Then the message
    the encoder puts out has as many bits as [size] says; its first word is
    a struct pointer with offset 0 and the schema's data word and pointer
    counts; every integer field is in its slot of the data section; for the
    array field, if there is one, the pointer section holds a list pointer
    with offset 0, the element size code of the schema's element type and
    the array's length, and the elements follow it, the last element of the
    array first. *)
Theorem encoder_message_format (t : Ty) (nm : string)
  (cs : capnp.StructReader) (clk valid v : GasketComponent) (sz : Z) :
  rtType t = true ->
  layoutOk (fieldTypes (TypeSchemaImpl_new t)) cs = true ->
  capnp.getPointerCount cs <= 1 ->
  size (TypeSchemaImpl_new t) cs = Some sz -> sz <= 2 ^ 30 ->
  gcType v = t -> Zlen (gcBits v) = getBitWidth t ->
  exists encoder encoded,
    buildEncoder (TypeSchemaImpl_new t) nm cs clk valid v = Some encoder
    /\ body encoder v = Some encoded
    /\ gcType (output encoded) = ArrayType i1 (Z.to_N sz)
    /\ Zlen (gcBits (output encoded)) = sz
    /\ sliceBits 0 64 (gcBits (output encoded))
       = bitsOfZ 2 0 ++ bitsOfZ 30 0
         ++ bitsOfZ 16 (capnp.getDataWordCount cs)
         ++ bitsOfZ 16 (capnp.getPointerCount cs)
    /\ Forall (fieldEncoded cs
                 (match getCanonicalType t with
                  | StructType elements =>
                      map (fun i => rtl.StructExtractOp v i)
                          (seq 0 (length elements))
                  | _ => [v]
                  end)
                 (gcBits (output encoded)))
              (capnp.getFields cs).
Proof.
  intros Hrt Hok Hpc1 Hsize Hsz Hty Hlen.
  set (ts := TypeSchemaImpl_new t) in *.
  destruct (@fieldValues_typed t v Hrt Hty Hlen) as (Hcan & Hrtf & Hvals).
  fold ts in Hrtf, Hvals.
  change (getCanonicalType t) with (canonicalType ts).
  set (fvals := match canonicalType ts with
                | StructType elements =>
                    map (fun i => rtl.StructExtractOp v i)
                        (seq 0 (length elements))
                | _ => [v]
                end) in *.
  assert (Hwords : exists words, sizeStruct cs (fieldTypes ts) = Some words
                                 /\ sz = wrap64 (words * 64)).
  { unfold size in Hsize.
    destruct (sizeStruct cs (fieldTypes ts)) as [words|]; [|discriminate].
    exists words. split; [reflexivity|congruence]. }
  destruct Hwords as (words & Hwords & Hszw).
  destruct (@encoder_message cs (fieldTypes ts) fvals words Hok Hpc1 Hrtf
              Hvals Hwords)
    as (Hwr & out & st & Hbuild & Hoty & Holen & Hroot & Henc).
  rewrite wrap64_small in Hszw by (unfold two64; lia).
  assert (HE : encoderBody ts cs v = Some out).
  { unfold encoderBody. rewrite Hsize. cbn [optBind].
    change (type ts) with t. rewrite Hty, Ty_eqb_refl. cbn [negb].
    fold fvals. rewrite Hszw, Hbuild. reflexivity. }
  unfold buildEncoder. rewrite Hsize. cbn [optBind].
  rewrite HE. cbn [optBind].
  eexists. exists (mkBody [] out).
  split; [reflexivity|]. cbn [body]. rewrite HE. cbn [optBind].
  split; [reflexivity|]. cbn [output]. subst sz.
  split; [exact Hoty|]. split; [exact Holen|]. split; [exact Hroot|].
  exact Henc.
Qed.

Lemma encoder_message_format_witness :
  let t := ArrayType (IntegerType 12 Signed) 3 in
  let cs := capnp.mkStruct 0 1
              [capnp.mkField "l" 0 0 (capnp.LIST capnp.INT16)] in
  let v := mkGC t (bitsOfZ 36 52719127245) in
  exists encoder encoded,
    buildEncoder (TypeSchemaImpl_new t) "a" cs (mkGC i1 [false])
                 (mkGC i1 [true]) v = Some encoder
    /\ body encoder v = Some encoded
    /\ Zlen (gcBits (output encoded)) = 192
    /\ sliceBits 64 64 (gcBits (output encoded))
       = bitsOfZ 2 1 ++ bitsOfZ 30 0 ++ bitsOfZ 3 3 ++ bitsOfZ 29 3
    /\ sliceBits 128 12 (gcBits (output encoded))
       = sliceBits 24 12 (gcBits v).
Proof.
  intros t cs v.
  destruct (@encoder_message_format t "a" cs (mkGC i1 [false])
              (mkGC i1 [true]) v 192)
    as (encoder & encoded & Hb & He & _ & Hl & _ & Hf).
  - vm_compute. reflexivity.
  - vm_compute. reflexivity.
  - vm_compute. discriminate.
  - vm_compute. reflexivity.
  - vm_compute. discriminate.
  - reflexivity.
  - vm_compute. reflexivity.
  - exists encoder, encoded. split; [exact Hb|]. split; [exact He|].
    split; [exact Hl|].
    cbn [getCanonicalType t capnp.getFields cs] in Hf.
    inversion Hf as [|f fs (v' & Hv' & Hm) _]; subst.
    cbn [capnp.getCodeOrder nth_error] in Hv'.
    injection Hv' as <-. cbn [gcType v] in Hm.
    destruct Hm as (ec & cb & enc & Hct & Hbits & Henc & _ & Hptr & Hel).
    cbn [capnp.getType] in Hct. injection Hct as <-.
    cbn in Hbits, Henc. injection Hbits as <-. injection Henc as <-.
    split; [exact Hptr|].
    exact (Hel 2%nat ltac:(vm_compute; lia)).
Defined.

(** The encoder loses nothing.  Let the type be an integer of 1 to 64 bits,
    an array of at least 2 and fewer than 2^29 such integers whose element
    type is not an unsigned integer of 1, 8, 16, 32 or 64 bits, or a struct
    of such integers and arrays, with a valid layout of at most one pointer
    and a message of at most 2^30 bits.  Then every value of the type is
    encoded, and two values of the type that are encoded to the same message
    are the same value. *)
Theorem encoder_is_injective (t : Ty) (cs : capnp.StructReader)
  (v1 v2 : GasketComponent) (sz : Z) :
  rtType t = true ->
  layoutOk (fieldTypes (TypeSchemaImpl_new t)) cs = true ->
  capnp.getPointerCount cs <= 1 ->
  size (TypeSchemaImpl_new t) cs = Some sz -> sz <= 2 ^ 30 ->
  gcType v1 = t -> Zlen (gcBits v1) = getBitWidth t ->
  gcType v2 = t -> Zlen (gcBits v2) = getBitWidth t ->
  (exists msg, encoderBody (TypeSchemaImpl_new t) cs v1 = Some msg)
  /\ (encoderBody (TypeSchemaImpl_new t) cs v1
      = encoderBody (TypeSchemaImpl_new t) cs v2 -> v1 = v2).
Proof.
  intros Hrt Hok Hpc Hsize Hsz Ht1 Hl1 Ht2 Hl2.
  destruct (@encode_decode t cs v1 sz Hrt Hok Hpc Hsize Hsz Ht1 Hl1)
    as (m1 & a1 & HE1 & _ & HD1).
  destruct (@encode_decode t cs v2 sz Hrt Hok Hpc Hsize Hsz Ht2 Hl2)
    as (m2 & a2 & HE2 & _ & HD2).
  split; [exists m1; exact HE1|].
  intros Heq. rewrite HE1, HE2 in Heq. injection Heq as <-.
  rewrite HD1 in HD2. congruence.
Qed.

Lemma encoder_is_injective_witness :
  let t := StructType [("a"%string, IntegerType 8 Unsigned);
                       ("b"%string, ArrayType (IntegerType 8 Signless) 2);
                       ("c"%string, IntegerType 32 Signless)] in
  let cs := capnp.mkStruct 1 1
              [capnp.mkField "a" 0 0 capnp.UINT8;
               capnp.mkField "b" 1 0 (capnp.LIST capnp.UINT8);
               capnp.mkField "c" 2 1 capnp.UINT32] in
  let v1 := mkGC t (bitsOfZ 56 1129209896094941) in
  let v2 := mkGC t (bitsOfZ 56 1129209896094940) in
  (exists msg, encoderBody (TypeSchemaImpl_new t) cs v1 = Some msg)
  /\ (encoderBody (TypeSchemaImpl_new t) cs v1
      = encoderBody (TypeSchemaImpl_new t) cs v2 -> v1 = v2).
Proof.
  intros t cs v1 v2.
  apply (@encoder_is_injective t cs v1 v2 256).
  - vm_compute. reflexivity.
  - vm_compute. reflexivity.
  - vm_compute. discriminate.
  - vm_compute. reflexivity.
  - vm_compute. discriminate.
  - reflexivity.
  - vm_compute. reflexivity.
  - reflexivity.
  - vm_compute. reflexivity.
Defined.

(** ** Identifiers in the schema text *)

Lemma string_snoc_inj (s1 s2 : string) (c1 c2 : ascii) :
  (s1 ++ String c1 EmptyString)%string = (s2 ++ String c2 EmptyString)%string ->
  s1 = s2 /\ c1 = c2.
Proof.
  revert s2. induction s1 as [|a s1 IH]; intros [|b s2]; cbn [String.append];
    intros H.
  - inversion H. split; reflexivity.
  - inversion H as [[Ha Hs]]. destruct s2; discriminate Hs.
  - inversion H as [[Ha Hs]]. destruct s1; discriminate Hs.
  - inversion H as [[Ha Hs]]. destruct (IH _ Hs) as [-> ->].
    split; reflexivity.
Qed.

Lemma append_prefix_inj (p x y : string) :
  (p ++ x)%string = (p ++ y)%string -> x = y.
Proof.
  induction p as [|c p IH]; cbn [String.append]; intros H; [exact H|].
  injection H as H. apply IH, H.
Qed.

Lemma hexDigit_inj (d e : Z) :
  0 <= d < 16 -> 0 <= e < 16 -> hexDigit d = hexDigit e -> d = e.
Proof.
  intros Hd He H. unfold hexDigit in H.
  apply (f_equal nat_of_ascii) in H.
  rewrite !nat_ascii_embedding in H.
  - destruct (d <? 10) eqn:Ed, (e <? 10) eqn:Ee; boolprop; lia.
  - destruct (e <? 10); lia.
  - destruct (d <? 10); lia.
Qed.

Lemma hexDigits_inj (n : nat) :
  forall a b, 0 <= a < 16 ^ Z.of_nat n -> 0 <= b < 16 ^ Z.of_nat n ->
              hexDigits n a = hexDigits n b -> a = b.
Proof.
  induction n as [|n IH]; intros a b Ha Hb H.
  - change (16 ^ Z.of_nat 0) with 1 in Ha, Hb. lia.
  - rewrite Nat2Z.inj_succ, Z.pow_succ_r in Ha, Hb by lia.
    cbn [hexDigits] in H. apply string_snoc_inj in H. destruct H as [Hs Hc].
    pose proof (Z.div_mod a 16 ltac:(lia)) as Hda.
    pose proof (Z.div_mod b 16 ltac:(lia)) as Hdb.
    pose proof (Z.mod_pos_bound a 16 ltac:(lia)) as Hma.
    pose proof (Z.mod_pos_bound b 16 ltac:(lia)) as Hmb.
    apply hexDigit_inj in Hc; [|assumption|assumption].
    apply IH in Hs.
    + lia.
    + split; [apply Z.div_pos; lia|apply Z.div_lt_upper_bound; lia].
    + split; [apply Z.div_pos; lia|apply Z.div_lt_upper_bound; lia].
Qed.

Lemma length_snoc (s : string) (c : ascii) :
  String.length (s ++ String c EmptyString) = S (String.length s).
Proof.
  induction s as [|a s IH]; cbn [String.append String.length];
    [reflexivity|].
  rewrite IH. reflexivity.
Qed.

Lemma hexDigits_length (n : nat) (v : Z) :
  String.length (hexDigits n v) = n.
Proof.
  revert v. induction n as [|n IH]; intros v; [reflexivity|].
  cbn [hexDigits]. rewrite length_snoc, IH. reflexivity.
Qed.

(** [emitId] writes an ID as the 64-bit pattern it is stored in: always
    "@0x" and sixteen hex digits, and two IDs are written alike exactly
    when they are the same 64-bit value.  So the IDs of two schemas differ
    in the text whenever they differ at all. *)
Theorem emitId_is_injective (a b : Z) :
  strlen (emitId a) = 19
  /\ (emitId a = emitId b <-> wrap64 a = wrap64 b).
Proof.
  split.
  - unfold emitId, strlen. cbn [String.append String.length].
    rewrite hexDigits_length. reflexivity.
  - split.
    + unfold emitId. intros H. apply append_prefix_inj in H.
      apply (@hexDigits_inj 16); [apply wrap64_range..|exact H].
    + unfold emitId. intros ->. reflexivity.
Qed.

(** ** The decoder on lists *)

(** [decodeList] on any message: the list is read from the bit address that
    is the address after the pointer plus the value of the pointer's offset
    field.  If the array's element type is the type of the list's elements
    the array is the list as it is stored; otherwise the array is created
    from the list's elements, each cut down to the element type. *)
Lemma decodeList_reads (B : list bool) (cs : capnp.StructReader) (sz : Z)
  (f : capnp.Field) (operand ps : Slice) (asserts : AssertBuilder)
  (w n : N) (sg : Signedness) (ec : capnp.Type_) (cb k : Z) :
  let P := 64 + capnp.getDataWordCount cs * 64 in
  let M := P + 64 in
  Zlen B = sz ->
  bitSlice B 0 operand -> parent operand = None ->
  Z.of_N (sliceSize operand) = sz ->
  bitSlice B P ps -> parent ps = Some operand ->
  offsetIntoParent ps = Some P -> Z.of_N (sliceSize ps) = 64 ->
  0 <= capnp.getDataWordCount cs ->
  sz <= 2 ^ 30 -> 0 <= k -> M + k + Z.of_N n * cb <= sz ->
  (1 <= w)%N -> Z.of_N w <= cb -> (2 <= n < 2 ^ 29)%N ->
  capnp.getType f = capnp.LIST ec ->
  capnp.getOffset f = 0 ->
  bits ec = Some cb ->
  (cb = 1 \/ cb = 8 \/ cb = 16 \/ cb = 32 \/ cb = 64) ->
  ZofBits (sliceBits (P + 2) 30 B) = k ->
  exists asserts',
    decodeList (IntegerType w sg) n f ps asserts
    = Some (mkGC (ArrayType (IntegerType w sg) n)
                 (if Ty_eqb (ArrayType (IntegerType (Z.to_N cb) Unsigned) n)
                            (ArrayType (IntegerType w sg) n)
                  then sliceBits (M + k) (Z.of_N n * cb) B
                  else concat
                         (rev (map (fun i =>
                                      sliceBits (M + k + Z.of_nat i * cb)
                                                (Z.of_N w) B)
                                   (seq 0 (N.to_nat n))))),
            asserts').
Proof.
  intros P M HB Hop Hopp Hops Hps Hpsp Hpso Hpss Hdwc Hsz Hk Hfit Hw Hwcb
         Hn Hct Hoff Hbits Hcb Hptr.
  assert (Hn' : 2 <= Z.of_N n < 2 ^ 29).
  { change (2 ^ 29) with (Z.of_N (2 ^ 29)). lia. }
  assert (Hcb' : 1 <= cb <= 64) by lia.
  assert (Hexp : exists enc, expectedElemSizeFieldOf cb = Some enc).
  { destruct Hcb as [Hc | [Hc | [Hc | [Hc | Hc]]]]; subst cb;
      eexists; reflexivity. }
  destruct Hexp as [enc Hexp].
  unfold decodeList. rewrite Hct, Hoff. change (wrap32 (0 * 64)) with 0.
  destruct (@slice_spec B P ps 0 64 Hps)
    as (ptr & Eptr & Hptrs & Hpsz & Hptrp & Hptro);
    [lia|unfold two64; lia|lia|].
  rewrite Z.add_0_r in Hptrs.
  rewrite Eptr. cbn [optBind].
  assert (Hsz64 : Z.of_N (sliceSize ptr) = 64) by (rewrite Hpsz; reflexivity).
  destruct (@slice_spec B P ptr 0 2 Hptrs)
    as (s1 & E1 & (_ & Ht1 & _) & Hs1 & _); [lia|unfold two64; lia|lia|].
  destruct (@slice_spec B P ptr 2 30 Hptrs)
    as (s2 & E2 & (_ & _ & Hb2 & _) & Hs2 & _); [lia|unfold two64; lia|lia|].
  destruct (@slice_spec B P ptr 32 3 Hptrs)
    as (s3 & E3 & (_ & Ht3 & _) & Hs3 & _); [lia|unfold two64; lia|lia|].
  destruct (@slice_spec B P ptr 35 29 Hptrs)
    as (s4 & E4 & (_ & Ht4 & _) & Hs4 & _); [lia|unfold two64; lia|lia|].
  rewrite E1. cbn [optBind]. rewrite E2. cbn [optBind].
  rewrite E3. cbn [optBind]. rewrite E4. cbn [optBind].
  unfold assertEqual.
  rewrite (@assertPred_bitArray _ _ _ _ _ Ht1) by (rewrite Hs1; lia).
  cbn [optBind].
  rewrite Hbits. cbn [optBind]. rewrite Hexp. cbn [optBind].
  rewrite (@assertPred_bitArray _ _ _ _ _ Ht3) by (rewrite Hs3; lia).
  cbn [optBind].
  rewrite (@assertPred_bitArray _ _ _ _ _ Ht4) by (rewrite Hs4; lia).
  cbn [optBind].
  (* the offset of the pointer from the root of the message *)
  rewrite (getOffsetFromRoot_unfold ptr), Hptrp, Hptro.
  rewrite (getOffsetFromRoot_unfold ps), Hpsp, Hpso.
  rewrite (getOffsetFromRoot_unfold operand), Hopp.
  rewrite (getRootSlice_unfold ptr), Hptrp.
  rewrite (getRootSlice_unfold ps), Hpsp.
  rewrite (getRootSlice_unfold operand), Hopp.
  rewrite Z.add_0_r, (@toInt64_small P) by (unfold P; lia).
  rewrite Z.add_0_l, (@toInt64_small P) by (unfold P; lia).
  cbn [optBind]. fold M.
  rewrite (@toInt64_small M) by (unfold M, P; lia).
  rewrite ConstantOp_some by lia. cbn [optBind].
  (* the offset field of the pointer *)
  assert (Hoffbits : ZofBits (gcBits (sliceValue s2)) = k).
  { rewrite Hb2, Hs2. change (Z.of_N (Z.to_N 30)) with 30. exact Hptr. }
  set (listOffset := comb.AddOp _ _).
  assert (HlistOffset : listOffset
                        = mkGC (getIntegerType 30) (bitsOfZ 30 (k + M))).
  { unfold listOffset, comb.AddOp, cast, rtl.BitcastOp, constantOf.
    cbn [gcType gcBits]. rewrite Hoffbits.
    change (getBitWidth (getIntegerType 30)) with 30.
    rewrite (@ZofBits_bitsOfZ_small 30 M) by (unfold M, P in *; lia).
    reflexivity. }
  rewrite HlistOffset. clear HlistOffset listOffset.
  (* the list's bits *)
  destruct Hop as (Hope & Hopt & Hopb & _).
  assert (HopB : gcBits (sliceValue operand) = B).
  { rewrite Hopb, Hops, <- HB. apply sliceBits_all. }
  assert (Hszpos : 0 < sz) by (unfold M, P in *; nia).
  destruct (@Log2_64_Ceil_spec sz Hszpos) as [Hk1 Hk2].
  assert (Hk3 : Log2_64_Ceil sz <= 30).
  { unfold Log2_64_Ceil. destruct (sz =? 0) eqn:E0; [boolprop; lia|].
    apply Z.log2_up_le_pow2; lia. }
  assert (HkM : 0 <= k + M < sz) by (unfold M, P in *; nia).
  unfold sliceAt. cbn [gcType].
  change (negb (isIntegerType (getIntegerType 30))) with false. cbv iota.
  rewrite Hops.
  change (getBitWidth (getIntegerType 30)) with 30.
  destruct (30 <? Log2_64_Ceil sz) eqn:E30; [boolprop; lia|].
  set (lsb' := if Log2_64_Ceil sz <? 30 then _ else _).
  assert (Hlsb : ZofBits (gcBits lsb') = M + k).
  { unfold lsb'. destruct (Log2_64_Ceil sz <? 30) eqn:Ek.
    - unfold comb.ExtractOp. cbn [gcBits].
      rewrite getBitWidth_getIntegerType by lia.
      rewrite sliceBits_bitsOfZ_low by (boolprop; lia).
      rewrite ZofBits_bitsOfZ_small; lia.
    - cbn [gcBits]. rewrite ZofBits_bitsOfZ_small; lia. }
  rewrite (@wrap64_small (Z.of_N n * cb)) by (unfold two64; nia).
  rewrite (@wrap64_small (Z.of_N n * cb)) by (unfold two64; nia).
  unfold Slice_child, rtl.ArraySliceOp. rewrite Hopt, Hope.
  cbn [gcType optBind]. rewrite Hlsb, HopB.
  change (getBitWidth i1) with 1. rewrite Z.mul_1_r.
  rewrite getBitWidth_bitArray, Z2N.id by nia.
  cbn [isIntegerType negb].
  unfold castToSlice. cbn [sliceValue]. unfold cast, rtl.BitcastOp.
  cbn [gcBits]. unfold Slice_root at 1. cbn [gcType optBind].
  rewrite (@wrap64_small (Z.of_N n)) by (unfold two64; lia).
  rewrite N2Z.id. cbn [sliceValue gcType].
  destruct (Ty_eqb (ArrayType (IntegerType (Z.to_N cb) Unsigned) n)
                   (ArrayType (IntegerType w sg) n)) eqn:Eq.
  { apply Ty_eqb_eq in Eq. rewrite Eq. eexists. reflexivity. }
  set (arr := mkGC (ArrayType (IntegerType (Z.to_N cb) Unsigned) n)
                   (sliceBits (M + k) (Z.of_N n * cb) B)).
  set (sl := mkSlice arr (IntegerType (Z.to_N cb) Unsigned) n None (Some 0)).
  assert (Hsl : Slice_root arr = Some sl) by reflexivity.
  rewrite (@mapM_map _ _ _
             (fun i => mkGC (IntegerType w sg)
                            (sliceBits (M + k + Z.of_nat i * cb) (Z.of_N w)
                                       B))).
  2:{ intros i Hi. apply in_seq in Hi.
      rewrite Slice_get_some by (cbn [sl sliceSize]; lia). cbn [optBind].
      rewrite (@Slice_get_root arr (IntegerType (Z.to_N cb) Unsigned) n sl
                 (Z.of_nat i));
        try reflexivity; try lia.
      cbn [getBitWidth]. rewrite Z2N.id by lia.
      rewrite (@downcast_spec _ (Z.to_N cb) w Unsigned sg);
        [|reflexivity|exact Hw].
      cbn [gcBits]. f_equal. f_equal. unfold arr. cbn [gcBits].
      rewrite (@sliceBits_sliceBits (M + k) (Z.of_N n * cb)
                 (Z.of_nat i * cb) cb B)
        by (unfold M, P; nia).
      rewrite (@sliceBits_sliceBits (M + k + Z.of_nat i * cb) cb 0
                 (Z.of_N w) B)
        by (unfold M, P; nia).
      rewrite Z.add_0_r. reflexivity. }
  cbn [optBind].
  rewrite (@ArrayCreateOp_map _ _ (IntegerType w sg));
    [|destruct (N.to_nat n) eqn:En; [lia|discriminate]|reflexivity].
  cbn [optBind gcBits].
  rewrite length_seq, Nnat.N2Nat.id.
  eexists. reflexivity.
Qed.

Lemma Zlen_concat_chunks (w : Z) (g : nat -> list bool) (l : list nat) :
  (forall i, Zlen (g i) = w) ->
  Zlen (concat (map g l)) = Z.of_nat (length l) * w.
Proof.
  intros Hg. induction l as [|a l IH]; [reflexivity|].
  cbn [map concat length]. rewrite Zlen_app, IH, Hg. lia.
Qed.

Lemma sliceBits_concat_chunk (w : Z) (g : nat -> list bool) (n j : nat) :
  (forall i, Zlen (g i) = w) -> (j < n)%nat ->
  sliceBits (Z.of_nat j * w) w (concat (map g (seq 0 n))) = g j.
Proof.
  intros Hg Hj.
  replace n with (j + S (n - j - 1))%nat by lia.
  rewrite seq_app. cbn [seq Nat.add]. rewrite map_app, concat_app.
  cbn [map concat]. apply sliceBits_mid.
  - rewrite (Zlen_concat_chunks _ _ Hg), length_seq. reflexivity.
  - symmetry. apply Hg.
Qed.

(** The layout of the schema of an array of integers: one pointer field,
    a list of the storage type of the element type. *)
Lemma array_layout (w n : N) (sg : Signedness) (cs : capnp.StructReader) :
  (1 <= w <= 64)%N ->
  layoutOk (fieldTypes (TypeSchemaImpl_new (ArrayType (IntegerType w sg) n)))
           cs = true ->
  exists f ec cb enc,
    capnp.getFields cs = [f] /\ capnp.getCodeOrder f = 0%nat
    /\ capnp.getType f = capnp.LIST ec
    /\ bits ec = Some cb /\ bitsEncoding ec = Some enc
    /\ expectedElemSizeFieldOf cb = Some enc
    /\ Z.of_N w <= cb
    /\ (cb = 1 \/ cb = 8 \/ cb = 16 \/ cb = 32 \/ cb = 64)
    /\ 0 <= capnp.getOffset f
    /\ capnp.getOffset f * 64 + 64 <= capnp.getPointerCount cs * 64
    /\ typeMatches (IntegerType w sg) ec = true.
Proof.
  intros Hw Hok.
  destruct (layoutOk_fields _ _ Hok) as (_ & _ & Hfields & _ & _).
  destruct (@layoutOk_single ("l"%string, ArrayType (IntegerType w sg) n) cs
              Hok) as (f & Hf & Hcof & Hm).
  cbn [snd] in Hm.
  destruct (@capnp_list_type w n sg (capnp.getType f) Hw Hm)
    as (ec & Hct & Hm').
  destruct (@capnp_int_type w sg ec Hw Hm')
    as (cb & enc & Hbits & Henc & Hexp & _ & Hwcb & Hcb).
  rewrite Hf in Hfields. apply Forall2_cons_iff in Hfields.
  destruct Hfields as [Hfok _].
  destruct (fieldOk_pointer_range _ _ _ _ _ Hfok Hct) as [H1 H2].
  exists f, ec, cb, enc. tauto.
Qed.

(** The body of the decoder of an array of integers, on any message. *)
Lemma decoderBody_list (w n : N) (sg : Signedness) (cs : capnp.StructReader)
  (msg : GasketComponent) (nbits : N) (f : capnp.Field) (ec : capnp.Type_)
  (cb : Z) :
  (1 <= w)%N -> (2 <= n < 2 ^ 29)%N ->
  capnp.getFields cs = [f] -> capnp.getCodeOrder f = 0%nat ->
  capnp.getType f = capnp.LIST ec -> bits ec = Some cb ->
  Z.of_N w <= cb -> (cb = 1 \/ cb = 8 \/ cb = 16 \/ cb = 32 \/ cb = 64) ->
  capnp.getOffset f = 0 ->
  0 <= capnp.getDataWordCount cs -> capnp.getPointerCount cs = 1 ->
  size (TypeSchemaImpl_new (ArrayType (IntegerType w sg) n)) cs
  = Some (Z.of_N nbits) ->
  Z.of_N nbits <= 2 ^ 30 ->
  gcType msg = ArrayType i1 nbits -> Zlen (gcBits msg) = Z.of_N nbits ->
  let P := 64 + capnp.getDataWordCount cs * 64 in
  let k := ZofBits (sliceBits (P + 2) 30 (gcBits msg)) in
  P + 64 + k + Z.of_N n * cb <= Z.of_N nbits ->
  exists out asserts',
    decoderBody (TypeSchemaImpl_new (ArrayType (IntegerType w sg) n)) cs msg
    = Some (out, asserts')
    /\ gcType out = ArrayType (IntegerType w sg) n
    /\ forall i : nat,
         (i < N.to_nat n)%nat ->
         sliceBits (Z.of_nat i * Z.of_N w) (Z.of_N w) (gcBits out)
         = sliceBits
             (P + 64 + k
              + (if Ty_eqb (IntegerType w sg)
                           (IntegerType (Z.to_N cb) Unsigned)
                 then Z.of_nat i
                 else Z.of_N n - 1 - Z.of_nat i) * cb)
             (Z.of_N w) (gcBits msg).
Proof.
  intros Hw Hn Hf Hcof Hct Hbits Hwcb Hcb Hoff Hdwc Hpc1 Hsize Hnb Hty Hlen
         P k Hfit.
  set (t := ArrayType (IntegerType w sg) n) in *.
  set (ts := TypeSchemaImpl_new t) in *.
  assert (Hk : 0 <= k) by apply ZofBits_nonneg.
  assert (Hn' : 2 <= Z.of_N n < 2 ^ 29).
  { change (2 ^ 29) with (Z.of_N (2 ^ 29)). lia. }
  destruct (@decoderBody_run ts cs msg nbits Hsize Hty Hlen)
    as (operand & ds & ps & a0 & Hop & Hopp & Hops & Hds & Hdss & Hps & Hpsp
        & Hpso & Hpss & Hrun);
    try lia.
  { unfold two64. lia. }
  destruct (@decodeList_reads (gcBits msg) cs (Z.of_N nbits) f operand ps a0
              w n sg ec cb k)
    as (asserts' & Hdl);
    try assumption; try reflexivity; try lia.
  set (bitsOut := if Ty_eqb (ArrayType (IntegerType (Z.to_N cb) Unsigned) n)
                            (ArrayType (IntegerType w sg) n)
                  then _ else _) in Hdl.
  exists (mkGC (ArrayType (IntegerType w sg) n) bitsOut), asserts'.
  split.
  { rewrite Hrun, Hf. cbn [decodeFields]. rewrite Hcof.
    cbn [fieldTypes ts TypeSchemaImpl_new getCanonicalType t nth_error
         optBind snd decodeField].
    rewrite Hdl. reflexivity. }
  cbn [gcType gcBits]. split; [reflexivity|].
  intros i Hi. unfold bitsOut. fold P.
  destruct (Ty_eqb (IntegerType w sg) (IntegerType (Z.to_N cb) Unsigned))
    eqn:Eq.
  - apply Ty_eqb_eq in Eq. rewrite <- Eq, Ty_eqb_refl.
    assert (Hcw : cb = Z.of_N w).
    { injection Eq as Hwe _. lia. }
    rewrite sliceBits_sliceBits by nia.
    f_equal. lia.
  - destruct (Ty_eqb (ArrayType (IntegerType (Z.to_N cb) Unsigned) n)
                     (ArrayType (IntegerType w sg) n)) eqn:Eq'.
    { apply Ty_eqb_eq in Eq'.
      assert (E2 : IntegerType (Z.to_N cb) Unsigned = IntegerType w sg)
        by congruence.
      rewrite <- E2, Ty_eqb_refl in Eq. discriminate Eq. }
    rewrite rev_map_seq.
    rewrite (@sliceBits_concat_chunk (Z.of_N w)
               (fun j => sliceBits
                           (P + 64 + k + Z.of_nat (N.to_nat n - 1 - j) * cb)
                           (Z.of_N w) (gcBits msg)));
      [|intros j; apply sliceBits_length; lia|exact Hi].
    f_equal. lia.
Qed.

(** The decoder of an array of integers, on any message of the declared
    width.  The list is read from the bit address after the list pointer
    plus the value [k] of the pointer's 30-bit offset field: the field,
    which counts words in a Cap'n Proto message, is added as a number of
    bits.  When the list lies within the message the decoder puts out an
    array of the declared type whose element [i] is the list's slot
    [n - 1 - i]; except when the array's element type is the unsigned
    integer type as wide as the list's elements, the type [decodeList] casts
    the list to, where the list is passed on as stored and element [i] is
    slot [i].  The array has at least two elements: the elements of a
    shorter one cannot be indexed. *)
Theorem decoder_list_element_order (w n : N) (sg : Signedness)
  (cs : capnp.StructReader) (nm : string) (clk valid msg : GasketComponent)
  (nbits : N) :
  (1 <= w <= 64)%N -> (2 <= n < 2 ^ 29)%N ->
  layoutOk (fieldTypes (TypeSchemaImpl_new (ArrayType (IntegerType w sg) n)))
           cs = true ->
  capnp.getPointerCount cs = 1 ->
  size (TypeSchemaImpl_new (ArrayType (IntegerType w sg) n)) cs
  = Some (Z.of_N nbits) ->
  Z.of_N nbits <= 2 ^ 30 ->
  gcType msg = ArrayType i1 nbits -> Zlen (gcBits msg) = Z.of_N nbits ->
  exists f ec cb,
    capnp.getFields cs = [f] /\ capnp.getType f = capnp.LIST ec
    /\ bits ec = Some cb /\ Z.of_N w <= cb
    /\ let P := 64 + capnp.getDataWordCount cs * 64 in
       let k := ZofBits (sliceBits (P + 2) 30 (gcBits msg)) in
       P + 64 + k + Z.of_N n * cb <= Z.of_N nbits ->
       exists decoder decoded,
         buildDecoder (TypeSchemaImpl_new (ArrayType (IntegerType w sg) n))
                      nm cs clk valid msg = Some decoder
         /\ body decoder msg = Some decoded
         /\ gcType (output decoded) = ArrayType (IntegerType w sg) n
         /\ forall i : nat,
              (i < N.to_nat n)%nat ->
              sliceBits (Z.of_nat i * Z.of_N w) (Z.of_N w)
                        (gcBits (output decoded))
              = sliceBits
                  (P + 64 + k
                   + (if Ty_eqb (IntegerType w sg)
                                (IntegerType (Z.to_N cb) Unsigned)
                      then Z.of_nat i
                      else Z.of_N n - 1 - Z.of_nat i) * cb)
                  (Z.of_N w) (gcBits msg).
Proof.
  intros Hw Hn Hok Hpc1 Hsize Hnb Hty Hlen.
  destruct (layoutOk_fields _ _ Hok) as (Hdwc & _).
  destruct (@array_layout w n sg cs Hw Hok)
    as (f & ec & cb & enc & Hf & Hcof & Hct & Hbits & _ & _ & Hwcb & Hcb
        & Hoff1 & Hoff2 & _).
  assert (Hoff : capnp.getOffset f = 0) by lia.
  exists f, ec, cb. split; [exact Hf|]. split; [exact Hct|].
  split; [exact Hbits|]. split; [exact Hwcb|].
  intros P k Hfit.
  destruct (@decoderBody_list w n sg cs msg nbits f ec cb)
    as (out & asserts' & HD & Hoty & Hel);
    try assumption; try lia.
  unfold buildDecoder. rewrite HD. cbn [optBind].
  eexists. eexists. split; [reflexivity|]. cbn [body]. rewrite HD.
  cbn [optBind]. split; [reflexivity|]. cbn [output fst].
  split; [exact Hoty|exact Hel].
Qed.

Lemma decoder_list_element_order_witness :
  let t := ArrayType (IntegerType 8 Unsigned) 2 in
  let cs := capnp.mkStruct 0 1
              [capnp.mkField "l" 0 0 (capnp.LIST capnp.UINT8)] in
  let msg := mkGC (ArrayType i1 192)
                  (bitsOfZ 192 16347845471617151768632718095057765915426816)
  in
  exists decoder decoded,
    buildDecoder (TypeSchemaImpl_new t) "a" cs (mkGC i1 [false])
                 (mkGC i1 [true]) msg = Some decoder
    /\ body decoder msg = Some decoded
    /\ sliceBits 0 8 (gcBits (output decoded)) = sliceBits 128 8 (gcBits msg)
    /\ sliceBits 128 8 (gcBits msg) = bitsOfZ 8 170.
Proof.
  intros t cs msg.
  destruct (@decoder_list_element_order 8 2 Unsigned cs "a" (mkGC i1 [false])
              (mkGC i1 [true]) msg 192)
    as (f & ec & cb & Hf & Hct & Hbits & _ & H).
  - lia.
  - split; [lia|reflexivity].
  - vm_compute. reflexivity.
  - reflexivity.
  - vm_compute. reflexivity.
  - vm_compute. discriminate.
  - reflexivity.
  - vm_compute. reflexivity.
  - cbn [capnp.getFields cs] in Hf. injection Hf as <-.
    cbn [capnp.getType] in Hct. injection Hct as <-.
    cbn in Hbits. injection Hbits as <-.
    destruct H as (decoder & decoded & Hd & Hb & _ & He).
    + vm_compute. discriminate.
    + exists decoder, decoded. split; [exact Hd|]. split; [exact Hb|].
      split; [|vm_compute; reflexivity].
      exact (He 0%nat ltac:(vm_compute; lia)).
Defined.

(** ** The padding of the encoder's message *)

(** [compile] on the fragments of a fresh segment: what lies in no fragment
    is zero padding. *)
Lemma insertAll_compile_gaps (sz : Z) (frags : list (Z * GasketComponent)) :
  0 < sz < 2 ^ 63 ->
  Forall (fun f => gcWf (snd f)) frags ->
  Forall (fragFits sz) frags ->
  fragsDisjoint frags ->
  exists st' out,
    insertAll frags (CapnpSegmentBuilder_new sz) = Some (tt, st')
    /\ compile st' = Some out
    /\ gcType out = ArrayType i1 (Z.to_N sz)
    /\ Zlen (gcBits out) = sz
    /\ forall i, 0 <= i ->
         (forall f, In f frags ->
                    i < fst f \/ fst f + GasketComponent_size (snd f) <= i) ->
         nth (Z.to_nat i) (gcBits out) false = false.
Proof.
  intros Hsz Hwf Hfit Hdis.
  assert (H64 : sz < two64) by (unfold two64; lia).
  destruct (@insertAll_succeeds frags (CapnpSegmentBuilder_new sz))
    as [st' Hrun]; try assumption.
  { apply new_segInv. }
  { intros f e _ [].  }
  assert (Hok : Forall fragOk frags).
  { rewrite Forall_forall in *. intros f Hf.
    apply (@fragFits_fragOk sz); auto. }
  destruct (@insertAll_spec frags Hok (CapnpSegmentBuilder_new sz) st')
    as (Hinv & Hswf & HE & Hperm); try assumption.
  { apply new_segInv. }
  { apply new_segWf. }
  cbn [CapnpSegmentBuilder_new expectedSize segmentValues] in HE, Hperm.
  rewrite app_nil_r in Hperm.
  destruct (@compile_spec st') as (out & Hc & Hbits & Hty & Hlen);
    try assumption.
  { rewrite HE. exact Hsz. }
  exists st', out. rewrite HE in *.
  repeat (split; [assumption|]).
  intros i Hi Hgap. rewrite Hbits.
  destruct (@concatWithPadding_read st' Hinv Hswf) as [_ Hzero].
  rewrite HE in Hzero. apply (Hzero i Hi).
  intros e He.
  apply (Permutation_in _ Hperm) in He. rewrite <- in_rev in He.
  apply in_map_iff in He. destruct He as (f & <- & Hf).
  unfold toInterval. cbn [start stop].
  destruct (Hgap f Hf); lia.
Qed.

(** In a valid layout whose fields are all integers, every field is an
    integer field of values of the field types. *)
Lemma fields_int_classified (cs : capnp.StructReader) (fts : list FieldInfo)
  (fvals : list GasketComponent) :
  layoutOk fts cs = true ->
  forallb (fun ft => rtInt (snd ft)) fts = true ->
  Forall2 (fun ft v => gcType v = snd ft
                       /\ Zlen (gcBits v) = getBitWidth (snd ft)) fts fvals ->
  Forall (intField cs fts fvals) (capnp.getFields cs).
Proof.
  intros Hok Hrt Hvals.
  destruct (layoutOk_fields _ _ Hok) as (Hdwc & Hpcr & Hfields & Hco & _).
  apply Forall_forall. intros f Hin.
  apply In_nth_error in Hin. destruct Hin as [i Hi].
  pose proof (Hco _ _ Hi) as Hcoi.
  assert (Hft : exists ft v,
             nth_error fts i = Some ft /\ nth_error fvals i = Some v
             /\ fieldOk (capnp.getDataWordCount cs) (capnp.getPointerCount cs)
                        (capnp.getCodeOrder f) ft f = true
             /\ gcType v = snd ft /\ Zlen (gcBits v) = getBitWidth (snd ft)
             /\ rtInt (snd ft) = true).
  { clear Hcoi Hco Hok. revert i Hi fvals Hvals Hrt.
    generalize dependent (capnp.getFields cs). intros fs Hfields.
    induction Hfields as [|ft g fts' fs' Hg _ IH]; intros i Hi fvals Hvals Hrt.
    - destruct i; discriminate.
    - inversion Hvals as [|? v ? fvals' Hv Hvals']; subst.
      cbn [forallb] in Hrt. apply andb_true_iff in Hrt.
      destruct Hrt as [Hrt1 Hrt2].
      destruct i as [|i]; cbn [nth_error] in *.
      + inversion Hi; subst. exists ft, v. tauto.
      + apply (IH i Hi fvals' Hvals' Hrt2). }
  destruct Hft as ([nm t] & v & Hfti & Hvi & Hfok & Htv & Hlen & Hint).
  cbn [snd] in *. rewrite <- Hcoi in Hfti, Hvi.
  unfold fieldOk in Hfok. cbn [snd] in Hfok.
  apply andb_true_iff in Hfok. destruct Hfok as [Hfok Hrange].
  apply andb_true_iff in Hfok. destruct Hfok as [Hfok Hmatch].
  boolprop.
  destruct t as [w sg| | | | |]; try discriminate.
  cbn [rtInt] in Hint. apply andb_true_iff in Hint.
  destruct Hint as [Hw1 Hw2]. apply N.leb_le in Hw1, Hw2.
  destruct (@capnp_int_type w sg (capnp.getType f) (conj Hw1 Hw2) Hmatch)
    as (cb & enc & Hbits & _ & _ & Hptr & Hwcb & Hcb).
  unfold fieldRange in Hrange. rewrite Hbits, Hptr in Hrange.
  apply Z.leb_le in Hrange.
  exists v, nm, w, sg, cb. cbn [getBitWidth] in Hlen.
  repeat (split; [first [assumption | lia]|]). lia.
Qed.

(** The build of a struct of integer fields: the root pointer and the
    fields' values are the only fragments of the message. *)
Lemma build_ints_gaps (cs : capnp.StructReader) (fts : list FieldInfo)
  (fvals : list GasketComponent) (sz : Z) :
  Forall (intField cs fts fvals) (capnp.getFields cs) ->
  pairwiseDisjoint (capnp.getFields cs) = true ->
  0 <= capnp.getDataWordCount cs < 2 ^ 16 ->
  0 <= capnp.getPointerCount cs < 2 ^ 16 ->
  64 * (1 + capnp.getDataWordCount cs + capnp.getPointerCount cs) <= sz ->
  sz < 2 ^ 63 ->
  exists out st,
    build cs fvals (CapnpSegmentBuilder_new sz) = Some (out, st)
    /\ forall i, 64 <= i ->
         (forall g, In g (map (intFrag fvals) (capnp.getFields cs)) ->
                    i < fst g \/ fst g + GasketComponent_size (snd g) <= i) ->
         nth (Z.to_nat i) (gcBits out) false = false.
Proof.
  intros Hint Hdis Hdwc Hpc Hsz1 Hsz2.
  set (dwc := capnp.getDataWordCount cs) in *.
  set (pc := capnp.getPointerCount cs) in *.
  destruct (structPointer_spec cs 64 0)
    as (rp & Hrp & Hrpb & Hrpt & Hrpw & Hrps).
  set (frags := map (intFrag fvals) (capnp.getFields cs) ++ [(0, rp)]).
  pose proof (intFrags_props Hint) as HintP. fold dwc in HintP.
  assert (Hall : Forall (fun g => gcWf (snd g)
                                  /\ 0 < GasketComponent_size (snd g)
                                  /\ fragIn 0 sz g) frags).
  { unfold frags. apply Forall_app. split.
    - eapply Forall_impl; [|exact HintP]. unfold fragIn.
      intros g (Hg1 & Hg2 & Hg3 & Hg4).
      split; [exact Hg1|]. split; [exact Hg2|]. split; lia.
    - constructor; [|constructor]. unfold fragIn. cbn [fst snd].
      rewrite Hrps. split; [exact Hrpw|]. lia. }
  assert (Hfd : fragsDisjoint frags).
  { unfold frags. apply fragsDisjoint_app.
    split; [apply (@intFrags_disjoint cs fts); assumption|]. split.
    - cbn. split; [constructor|exact I].
    - assert (Hroot : Forall (fragIn 0 64) [(0, rp)]).
      { constructor; [|constructor]. unfold fragIn. cbn [fst snd]. lia. }
      assert (HintI : Forall (fragIn 64 (64 + dwc * 64))
                             (map (intFrag fvals) (capnp.getFields cs))).
      { eapply Forall_impl; [|exact HintP].
        intros g (Hg1 & Hg2 & Hg3). assumption. }
      apply (fragIn_disjoint HintI Hroot). lia. }
  destruct (@insertAll_compile_gaps sz frags)
    as (st' & out & Hrun & Hcomp & Hty & Hlen & Hzero).
  { lia. }
  { eapply Forall_impl; [|exact Hall]. intros g (Hg1 & Hg2 & Hg3). assumption. }
  { eapply Forall_impl; [|exact Hall]. unfold fragIn, fragFits.
    intros g (Hg1 & Hg2 & Hg3 & Hg4). lia. }
  { exact Hfd. }
  exists out, (withMessageSize (64 + (dwc + pc) * 64) st').
  split.
  - unfold frags in Hrun. rewrite insertAll_app in Hrun.
    destruct (insertAll (map (intFrag fvals) (capnp.getFields cs))
                        (CapnpSegmentBuilder_new sz))
      as [[[] sA]|] eqn:EA; [|discriminate].
    rewrite insertAll_cons in Hrun. cbn [fst snd] in Hrun.
    destruct (insert 0 rp sA) as [[[] sD]|] eqn:ED; [|discriminate].
    cbn [insertAll forEach] in Hrun. unfold ret in Hrun.
    inversion Hrun; subst sD. clear Hrun.
    unfold build. unfold bind at 1. unfold alloc at 1.
    cbn [CapnpSegmentBuilder_new messageSize segmentValues expectedSize].
    change (negb (0 =? 0)) with false. cbv iota.
    unfold bind at 1. unfold encodeStructAt.
    change (negb (0 mod 64 =? 0)) with false. cbv iota.
    unfold bind at 1. unfold alloc at 1.
    cbn [messageSize segmentValues expectedSize].
    change (wrap64 (0 + 64)) with 64.
    change (negb (64 mod 64 =? 0)) with false. cbv iota.
    unfold bind at 1. unfold lift at 1.
    change (concatConstants
              [(2, 0);
               (30, toInt64 (wrap64 (64 - 0) / 64 - 1));
               (16, capnp.getDataWordCount cs);
               (16, capnp.getPointerCount cs)])
      with (structPointer cs 64 0).
    rewrite Hrp.
    fold dwc pc.
    rewrite (@wrap64_small ((dwc + pc) * 64)) by (unfold two64; lia).
    rewrite (@wrap64_small (64 + (dwc + pc) * 64)) by (unfold two64; lia).
    rewrite (@wrap64_small (64 + dwc * 64)) by (unfold two64; lia).
    change (mkSegment [] (64 + (dwc + pc) * 64) sz)
      with (withMessageSize (64 + (dwc + pc) * 64)
                            (CapnpSegmentBuilder_new sz)).
    unfold bind at 1.
    rewrite (@forEach_int_fields cs fts fvals (64 + dwc * 64)
               (capnp.getFields cs))
      by (assumption || lia).
    rewrite EA. unfold ret at 1. unfold bind at 1.
    rewrite insert_withMessageSize, ED.
    unfold lift. rewrite compile_withMessageSize, Hcomp. reflexivity.
  - intros i Hi Hgap. apply Hzero; [lia|].
    intros g Hg. unfold frags in Hg. apply in_app_iff in Hg.
    destruct Hg as [Hg|[<-|[]]]; [apply Hgap, Hg|].
    cbn [fst snd]. rewrite Hrps. right. lia.
Qed.

(** The encoder fills all that is not a field with zeros.  For a type with
    integer fields only, every bit of the message after the root pointer's
    word that is not one of the w bits of a w-bit field, at the start of the
    field's slot, is zero.  So an integer narrower than its Cap'n Proto
    storage type is zero extended in its slot, a signed one as well. *)
Theorem encoder_pads_with_zeros (t : Ty) (nm : string)
  (cs : capnp.StructReader) (clk valid v : GasketComponent) (sz : Z) :
  rtType t = true ->
  forallb (fun ft => rtInt (snd ft)) (fieldTypes (TypeSchemaImpl_new t))
  = true ->
  layoutOk (fieldTypes (TypeSchemaImpl_new t)) cs = true ->
  size (TypeSchemaImpl_new t) cs = Some sz ->
  gcType v = t -> Zlen (gcBits v) = getBitWidth t ->
  exists encoder encoded,
    buildEncoder (TypeSchemaImpl_new t) nm cs clk valid v = Some encoder
    /\ body encoder v = Some encoded
    /\ forall i, 64 <= i ->
         (forall f fnm w sg cb,
             In f (capnp.getFields cs) ->
             nth_error (fieldTypes (TypeSchemaImpl_new t))
                       (capnp.getCodeOrder f)
             = Some (fnm, IntegerType w sg) ->
             bits (capnp.getType f) = Some cb ->
             i < 64 + capnp.getOffset f * cb
             \/ 64 + capnp.getOffset f * cb + Z.of_N w <= i) ->
         nth (Z.to_nat i) (gcBits (output encoded)) false = false.
Proof.
  intros Hrt Hints Hok Hsize Hty Hlen.
  set (ts := TypeSchemaImpl_new t) in *.
  destruct (@fieldValues_typed t v Hrt Hty Hlen) as (Hcan & _ & Hvals).
  fold ts in Hvals.
  set (fvals := match canonicalType ts with
                | StructType elements =>
                    map (fun i => rtl.StructExtractOp v i)
                        (seq 0 (length elements))
                | _ => [v]
                end) in *.
  destruct (layoutOk_fields _ _ Hok) as (Hdwc & Hpc & _ & _ & Hdis).
  pose proof (@fields_int_classified cs (fieldTypes ts) fvals Hok Hints Hvals)
    as Hint.
  assert (Hsz : sz = 64 * (1 + capnp.getDataWordCount cs
                           + capnp.getPointerCount cs)).
  { unfold size in Hsize.
    rewrite (@sizeStruct_no_list cs (fieldTypes ts) fvals Hint Hdwc Hpc)
      in Hsize.
    rewrite wrap64_small in Hsize by (unfold two64; lia).
    assert ((1 + capnp.getDataWordCount cs + capnp.getPointerCount cs) * 64
            = sz) by congruence.
    lia. }
  destruct (@build_ints_gaps cs (fieldTypes ts) fvals sz Hint Hdis Hdwc Hpc)
    as (out & st & Hbuild & Hzero); [lia|lia|].
  assert (HE : encoderBody ts cs v = Some out).
  { unfold encoderBody. rewrite Hsize. cbn [optBind].
    change (type ts) with t. rewrite Hty, Ty_eqb_refl. cbn [negb].
    fold fvals. rewrite Hbuild. reflexivity. }
  unfold buildEncoder. rewrite Hsize. cbn [optBind].
  rewrite HE. cbn [optBind].
  eexists. exists (mkBody [] out).
  split; [reflexivity|]. cbn [body]. rewrite HE. cbn [optBind].
  split; [reflexivity|]. cbn [output].
  intros i Hi Hgap. apply (Hzero i Hi).
  intros g Hg. apply in_map_iff in Hg. destruct Hg as (f & <- & Hf).
  rewrite Forall_forall in Hint. pose proof (Hint f Hf) as Hif.
  destruct (intField_bounds Hif)
    as (v' & w & sg & cb & Hfrag & Hv' & Hty' & _ & Hsz' & Hbits & _).
  destruct Hif as (v2 & fnm & w2 & sg2 & cb2 & Hft & Hv2 & Hty2 & _).
  assert (v2 = v') by congruence. subst v2.
  assert (Hw : IntegerType w2 sg2 = IntegerType w sg) by congruence.
  rewrite Hw in Hft.
  rewrite Hfrag. cbn [fst snd]. rewrite Hsz'.
  apply (Hgap f fnm w sg cb Hf Hft Hbits).
Qed.

Lemma encoder_pads_with_zeros_witness :
  let t := IntegerType 12 Signed in
  let cs := capnp.mkStruct 1 0 [capnp.mkField "i" 0 0 capnp.INT16] in
  let v := mkGC t (bitsOfZ 12 (-1)) in
  exists encoder encoded,
    buildEncoder (TypeSchemaImpl_new t) "si12" cs (mkGC i1 [false])
                 (mkGC i1 [true]) v = Some encoder
    /\ body encoder v = Some encoded
    /\ nth 76 (gcBits (output encoded)) false = false
    /\ nth 79 (gcBits (output encoded)) false = false.
Proof.
  intros t cs v.
  destruct (@encoder_pads_with_zeros t "si12" cs (mkGC i1 [false])
              (mkGC i1 [true]) v 128)
    as (encoder & encoded & Hb & He & Hz).
  - reflexivity.
  - reflexivity.
  - vm_compute. reflexivity.
  - vm_compute. reflexivity.
  - reflexivity.
  - vm_compute. reflexivity.
  - exists encoder, encoded. split; [exact Hb|]. split; [exact He|].
    assert (Hgap : forall i, 76 <= i ->
              forall (f : capnp.Field) (fnm : string) (w : N)
                     (sg : Signedness) (cb : Z),
                In f (capnp.getFields cs) ->
                nth_error (fieldTypes (TypeSchemaImpl_new t))
                          (capnp.getCodeOrder f)
                = Some (fnm, IntegerType w sg) ->
                bits (capnp.getType f) = Some cb ->
                i < 64 + capnp.getOffset f * cb
                \/ 64 + capnp.getOffset f * cb + Z.of_N w <= i).
    { intros i Hi f fnm w sg cb [<-|[]] Hft Hbits.
      cbn in Hft, Hbits. injection Hft as _ <- _. injection Hbits as <-.
      right. cbn. lia. }
    split.
    + apply (Hz 76 ltac:(lia) (Hgap 76 ltac:(lia))).
    + apply (Hz 79 ltac:(lia) (Hgap 79 ltac:(lia))).
Defined.

(** ** Arrays of fewer than two elements *)

Lemma decodeList_empty (e : Ty) (f : capnp.Field) (ps : Slice)
  (asserts : AssertBuilder) :
  (forall w, e <> IntegerType w Unsigned) ->
  decodeList e 0 f ps asserts = None.
Proof.
  intros He. destruct (decodeList e 0 f ps asserts) as [r|] eqn:H;
    [exfalso|reflexivity].
  unfold decodeList in H. destruct (capnp.getType f); try discriminate H.
  optSteps H.
  destruct (negb (isIntegerType e)); [discriminate H|].
  optSteps H.
  match goal with
  | Hc : castToSlice _ _ _ = Some ?s |- _ =>
      unfold castToSlice, Slice_root, cast, rtl.BitcastOp in Hc;
      cbn [gcType] in Hc; injection Hc as Hc; rewrite <- Hc in H;
      cbn [sliceValue gcType] in H
  end.
  match type of H with
  | (if ?c then _ else _) = _ => destruct c eqn:Eq
  end.
  - apply Ty_eqb_eq in Eq. injection Eq as Eq. symmetry in Eq.
    exact (He _ Eq).
  - cbn [N.to_nat seq mapM optBind rtl.ArrayCreateOp] in H. discriminate H.
Qed.

(** The element of an array of one element has an index of
    [Log2_32_Ceil 1 = 0] bits. *)
Lemma decodeList_one (e : Ty) (f : capnp.Field) (ps : Slice)
  (asserts : AssertBuilder) :
  (forall w, e <> IntegerType w Unsigned) ->
  decodeList e 1 f ps asserts = None.
Proof.
  intros He. destruct (decodeList e 1 f ps asserts) as [r|] eqn:H;
    [exfalso|reflexivity].
  unfold decodeList in H. destruct (capnp.getType f); try discriminate H.
  optSteps H.
  destruct (negb (isIntegerType e)); [discriminate H|].
  optSteps H.
  match goal with
  | Hc : castToSlice _ _ _ = Some ?s |- _ =>
      unfold castToSlice, Slice_root, cast, rtl.BitcastOp in Hc;
      cbn [gcType] in Hc; injection Hc as Hc; rewrite <- Hc in H;
      cbn [sliceValue gcType] in H
  end.
  match type of H with
  | (if ?c then _ else _) = _ => destruct c eqn:Eq
  end.
  - apply Ty_eqb_eq in Eq. injection Eq as Eq. symmetry in Eq.
    exact (He _ Eq).
  - change (N.to_nat 1) with 1%nat in H. cbn [seq mapM] in H.
    rewrite Slice_get_one in H by reflexivity. discriminate H.
Qed.

(** The decoder of an array is the decoder of its list. *)
Lemma buildDecoder_array_none (e : Ty) (n : N) (nm : string)
  (cs : capnp.StructReader) (clk valid op0 : GasketComponent) :
  (forall f ps asserts, decodeList e n f ps asserts = None) ->
  buildDecoder (TypeSchemaImpl_new (ArrayType e n)) nm cs clk valid op0
  = None.
Proof.
  intros Hnone. unfold buildDecoder.
  destruct (decoderBody (TypeSchemaImpl_new (ArrayType e n)) cs op0)
    as [r|] eqn:H; [exfalso|reflexivity].
  unfold decoderBody in H. optSteps H.
  destruct (gcType op0) as [|e' n'| | | |]; try discriminate H.
  destruct (negb (Z.of_N n' =? z)); [discriminate H|].
  optSteps H.
  cbn [canonicalType fieldTypes TypeSchemaImpl_new getCanonicalType] in *.
  optSteps H.
  match goal with
  | Hf : decodeFields _ ?fields _ _ _ = Some ?p, Hn : nth_error (fst ?p) 0 = _
    |- _ =>
      destruct fields as [|f rest]; cbn [decodeFields] in Hf;
        [inversion Hf; subst; discriminate Hn|];
      optSteps Hf
  end.
  match goal with
  | Hn : nth_error [_] (capnp.getCodeOrder ?f) = Some _ |- _ =>
      rename Hn into HN
  end.
  match goal with
  | Hd : decodeField _ _ _ _ _ = Some _ |- _ => rename Hd into HD
  end.
  destruct (capnp.getCodeOrder f) as [|k]; cbn [nth_error] in HN.
  - injection HN as HN. rewrite <- HN in HD. cbn [snd decodeField] in HD.
    rewrite Hnone in HD. discriminate HD.
  - destruct k; discriminate HN.
Qed.

(** An array of one element is a supported type, but neither module is
    generated for it (here for one signless 8-bit integer): the encoder
    and the decoder index the element with a constant of no bits, which
    [ConstantOp] cannot build. *)
Lemma no_modules_for_one_element_arrays :
  let t := ArrayType (IntegerType 8 Signless) 1 in
  let ts := TypeSchemaImpl_new t in
  let cs := capnp.mkStruct 0 1
              [capnp.mkField "l" 0 0 (capnp.LIST capnp.UINT8)] in
  let v := mkGC t (bitsOfZ 8 1) in
  let clk := mkGC i1 [false] in
  let valid := mkGC i1 [true] in
  TypeSchemaImpl_isSupported ts = true
  /\ layoutOk (fieldTypes ts) cs = true
  /\ gcType v = t /\ Zlen (gcBits v) = getBitWidth t
  /\ buildEncoder ts "a1i8" cs clk valid v = None
  /\ forall operand, buildDecoder ts "a1i8" cs clk valid operand = None.
Proof.
  intros t ts cs v clk valid.
  split; [reflexivity|]. split; [vm_compute; reflexivity|].
  split; [reflexivity|]. split; [vm_compute; reflexivity|].
  split; [vm_compute; reflexivity|].
  intros operand. apply buildDecoder_array_none.
  intros f ps asserts. apply decodeList_one.
  intros w H. discriminate H.
Qed.

(** An array of no elements is a supported type whenever its element type
    is, but unless the element type is an unsigned integer no decoder is
    generated for it: [decodeList] hands the empty list of element values
    to [ArrayCreateOp], which needs at least one.  (For an unsigned element
    type as wide as the list's elements the list is returned as it is
    stored, and [ArrayCreateOp] is not reached.) *)
Theorem empty_array_has_no_decoder (e : Ty) (nm : string)
  (cs : capnp.StructReader) (clk valid op0 : GasketComponent) :
  (forall w, e <> IntegerType w Unsigned) ->
  TypeSchemaImpl_isSupported (TypeSchemaImpl_new (ArrayType e 0))
  = isSupported e false
  /\ buildDecoder (TypeSchemaImpl_new (ArrayType e 0)) nm cs clk valid op0
     = None.
Proof.
  intros He. split; [reflexivity|].
  apply buildDecoder_array_none.
  intros f ps asserts. apply decodeList_empty, He.
Qed.

Lemma empty_array_has_no_decoder_witness :
  let t := ArrayType (IntegerType 8 Signless) 0 in
  let cs := capnp.mkStruct 0 1
              [capnp.mkField "l" 0 0 (capnp.LIST capnp.UINT8)] in
  let msg := mkGC (ArrayType i1 128) (bitsOfZ 128 158456325046975700735774162944) in
  TypeSchemaImpl_isSupported (TypeSchemaImpl_new t) = true
  /\ size (TypeSchemaImpl_new t) cs = Some 128
  /\ encoderBody (TypeSchemaImpl_new t) cs (mkGC t []) = Some msg
  /\ buildDecoder (TypeSchemaImpl_new t) "e" cs (mkGC i1 [false])
                  (mkGC i1 [true]) msg
     = None
  /\ isSome (decoderBody (TypeSchemaImpl_new (ArrayType ui8 0)) cs msg)
     = true.
Proof.
  intros t cs msg. split; [reflexivity|]. split; [vm_compute; reflexivity|].
  split; [vm_compute; reflexivity|].
  split; [|vm_compute; reflexivity].
  apply (@empty_array_has_no_decoder (IntegerType 8 Signless) "e" cs
           (mkGC i1 [false]) (mkGC i1 [true]) msg).
  intros w H. discriminate H.
Defined.

(** ** The round trip of arrays *)

Lemma capnp_elem_bits (w : N) (sg : Signedness) (ec : capnp.Type_) :
  isCapnpElemType w sg = true ->
  typeMatches (IntegerType w sg) ec = true ->
  bits ec = Some (Z.of_N w).
Proof.
  intros Hc. destruct sg; cbn [isCapnpElemType] in Hc; try discriminate Hc.
  repeat (apply orb_true_iff in Hc; destruct Hc as [Hc|Hc]);
    apply N.eqb_eq in Hc; subst w;
    unfold typeMatches; cbn;
    destruct ec as [| | | | | | | | | | | | | |ec'| | | |]; cbn;
    try discriminate; reflexivity.
Qed.

(** The encoder's message for an array of integers of any signedness: the
    list pointer in the struct's pointer word, and element [i] of the array
    in slot [n - 1 - i] of the list that follows it. *)
Lemma encoderBody_array (w n : N) (sg : Signedness) (cs : capnp.StructReader)
  (v : GasketComponent) (sz : Z) (f : capnp.Field) (ec : capnp.Type_)
  (cb enc : Z) :
  (1 <= w)%N -> (2 <= n < 2 ^ 29)%N ->
  layoutOk (fieldTypes (TypeSchemaImpl_new (ArrayType (IntegerType w sg) n)))
           cs = true ->
  capnp.getFields cs = [f] -> capnp.getCodeOrder f = 0%nat ->
  capnp.getType f = capnp.LIST ec -> bits ec = Some cb ->
  bitsEncoding ec = Some enc ->
  Z.of_N w <= cb -> (cb = 1 \/ cb = 8 \/ cb = 16 \/ cb = 32 \/ cb = 64) ->
  capnp.getOffset f = 0 -> capnp.getPointerCount cs = 1 ->
  size (TypeSchemaImpl_new (ArrayType (IntegerType w sg) n)) cs = Some sz ->
  gcType v = ArrayType (IntegerType w sg) n ->
  let P := 64 + capnp.getDataWordCount cs * 64 in
  exists out,
    encoderBody (TypeSchemaImpl_new (ArrayType (IntegerType w sg) n)) cs v
    = Some out
    /\ gcType out = ArrayType i1 (Z.to_N sz)
    /\ Zlen (gcBits out) = sz
    /\ P + 64 + Z.of_N n * cb <= sz /\ sz < 2 ^ 40
    /\ sliceBits P 64 (gcBits out)
       = bitsOfZ 2 1 ++ bitsOfZ 30 0 ++ bitsOfZ 3 enc
         ++ bitsOfZ 29 (Z.of_N n)
    /\ forall i : nat,
         (i < N.to_nat n)%nat ->
         sliceBits (P + 64 + (Z.of_N n - 1 - Z.of_nat i) * cb) (Z.of_N w)
                   (gcBits out)
         = sliceBits (Z.of_nat i * Z.of_N w) (Z.of_N w) (gcBits v).
Proof.
  intros Hw Hn Hok Hf Hcof Hct Hbits Henc Hwcb Hcb Hoff Hpc1 Hsize Hty P.
  set (t := ArrayType (IntegerType w sg) n) in *.
  set (ts := TypeSchemaImpl_new t) in *.
  destruct (layoutOk_fields _ _ Hok) as (Hdwc & Hpc & _ & _ & Hdis).
  set (dwc := capnp.getDataWordCount cs) in *.
  set (pc := capnp.getPointerCount cs) in *.
  assert (Hn' : 2 <= Z.of_N n < 2 ^ 29).
  { change (2 ^ 29) with (Z.of_N (2 ^ 29)). lia. }
  assert (Hcb' : 1 <= cb <= 64) by lia.
  assert (Hwords : sizeStruct cs (fieldTypes ts)
                   = Some (1 + dwc + pc + (Z.of_N n * cb + 63) / 64)).
  { apply (@sizeStruct_one_list cs (fieldTypes ts) [v] [] [] f "l"%string
             (IntegerType w sg) n ec cb);
      try assumption; try lia; try constructor.
    rewrite Hcof. reflexivity. }
  assert (Hq : Z.of_N n * cb <= 64 * ((Z.of_N n * cb + 63) / 64)
               /\ (Z.of_N n * cb + 63) / 64 < 2 ^ 30).
  { split.
    - pose proof (Z.mul_div_le (Z.of_N n * cb + 63) 64).
      pose proof (Z.mod_pos_bound (Z.of_N n * cb + 63) 64).
      pose proof (Z.div_mod (Z.of_N n * cb + 63) 64). lia.
    - apply Z.div_lt_upper_bound; nia. }
  assert (Hsz : sz = (1 + dwc + pc + (Z.of_N n * cb + 63) / 64) * 64).
  { unfold size in Hsize. rewrite Hwords in Hsize.
    rewrite wrap64_small in Hsize by (unfold two64; lia). congruence. }
  set (M := 64 + (dwc + 1) * 64).
  destruct (@listFragsOf_props M P cb enc w sg n (gcBits v))
    as [HLp HLd]; try (unfold M, P; lia).
  destruct (@build_run cs (fieldTypes ts) [v] sz [] [f] []
              (listFragsOf M P cb enc w sg n (gcBits v))
              (M + Z.of_N n * cb))
    as (out & st & rp & Hb & Htyo & Hleno & Hrpb & Hrps & Hread);
    try assumption; try (fold dwc pc; lia); try constructor.
  { intros st0. rewrite forEach_single. fold pc. rewrite Hpc1.
    unfold M, P, dwc.
    rewrite (@encodeStructAtField_list cs [v] f v w n sg ec cb enc st0);
      try assumption; try lia.
    - destruct (insertAll _ st0) as [[[] st1]|]; reflexivity.
    - rewrite Hcof. reflexivity. }
  { fold dwc. eapply Forall_impl; [|exact HLp].
    intros g (Hg1 & Hg2 & Hg3 & Hg4).
    split; [exact Hg1|]. split; [exact Hg2|]. split; [exact Hg3|].
    unfold M in *. lia. }
  exists out. split.
  { unfold encoderBody. rewrite Hsize. cbn [optBind].
    change (type ts) with t. rewrite Hty, Ty_eqb_refl. cbn [negb].
    cbn [canonicalType ts TypeSchemaImpl_new getCanonicalType t].
    rewrite Hb. reflexivity. }
  split; [exact Htyo|]. split; [exact Hleno|].
  split; [unfold P; lia|]. split; [lia|]. split.
  - apply (Hread (P, mkGC (ArrayType i1 64)
                          (bitsOfZ 2 1 ++ bitsOfZ 30 0 ++ bitsOfZ 3 enc
                           ++ bitsOfZ 29 (Z.of_N n)))).
    cbn [map app]. unfold listFragsOf.
    rewrite !in_app_iff. left. right. left. reflexivity.
  - intros i Hi.
    pose proof (Hread (M + (Z.of_N n - 1 - Z.of_nat i) * cb,
                       mkGC (IntegerType w sg)
                            (sliceBits (Z.of_nat i * Z.of_N w)
                                       (Z.of_N w) (gcBits v)))) as Hr.
    cbn [fst snd gcBits] in Hr.
    replace (GasketComponent_size
               (mkGC (IntegerType w sg)
                     (sliceBits (Z.of_nat i * Z.of_N w) (Z.of_N w)
                                (gcBits v))))
      with (Z.of_N w) in Hr.
    2:{ unfold GasketComponent_size. cbn [gcType getBitWidth].
        symmetry. apply wrap64_small. unfold two64. lia. }
    replace (P + 64 + (Z.of_N n - 1 - Z.of_nat i) * cb)
      with (M + (Z.of_N n - 1 - Z.of_nat i) * cb) by (unfold M, P; lia).
    apply Hr. cbn [map app]. unfold listFragsOf.
    rewrite !in_app_iff. left. left.
    apply (in_map (fun i0 => (M + (Z.of_N n - 1 - Z.of_nat i0) * cb,
                              mkGC (IntegerType w sg)
                                   (sliceBits (Z.of_nat i0 * Z.of_N w)
                                              (Z.of_N w) (gcBits v))))).
    apply in_seq. lia.
Qed.

(** What the round trip does to an array of at least two integers of 1 to
    64 bits.  The encoder and the decoder modules are generated for it, and
    the decoder's output on the encoder's message for [v] is an array of the
    type of [v]; it is [v] itself, unless the element type is an unsigned
    integer of 1, 8, 16, 32 or 64 bits, the type [decodeList] casts the
    Cap'n Proto list's elements to: then it is [v] with its elements in
    reverse order, since the encoder stores the last element first and the
    decoder passes such a list on as it is stored. *)
Theorem array_round_trip_element_order (w n : N) (sg : Signedness)
  (nm : string) (cs : capnp.StructReader) (clk valid v : GasketComponent)
  (sz : Z) :
  (1 <= w <= 64)%N -> (2 <= n < 2 ^ 29)%N ->
  layoutOk (fieldTypes (TypeSchemaImpl_new (ArrayType (IntegerType w sg) n)))
           cs = true ->
  capnp.getPointerCount cs = 1 ->
  size (TypeSchemaImpl_new (ArrayType (IntegerType w sg) n)) cs = Some sz ->
  sz <= 2 ^ 30 ->
  gcType v = ArrayType (IntegerType w sg) n ->
  exists encoder decoder encoded decoded,
    buildEncoder (TypeSchemaImpl_new (ArrayType (IntegerType w sg) n))
                 nm cs clk valid v = Some encoder
    /\ body encoder v = Some encoded
    /\ buildDecoder (TypeSchemaImpl_new (ArrayType (IntegerType w sg) n))
                    nm cs clk valid (output encoded) = Some decoder
    /\ body decoder (output encoded) = Some decoded
    /\ gcType (output decoded) = ArrayType (IntegerType w sg) n
    /\ forall i : nat,
         (i < N.to_nat n)%nat ->
         sliceBits (Z.of_nat i * Z.of_N w) (Z.of_N w)
                   (gcBits (output decoded))
         = sliceBits ((if isCapnpElemType w sg
                       then Z.of_N n - 1 - Z.of_nat i
                       else Z.of_nat i) * Z.of_N w)
                     (Z.of_N w) (gcBits v).
Proof.
  intros Hw Hn Hok Hpc1 Hsize Hsz Hty.
  set (t := ArrayType (IntegerType w sg) n) in *.
  set (ts := TypeSchemaImpl_new t) in *.
  destruct (layoutOk_fields _ _ Hok) as (Hdwc & _).
  destruct (@array_layout w n sg cs Hw Hok)
    as (f & ec & cb & enc & Hf & Hcof & Hct & Hbits & Henc & _ & Hwcb & Hcb
        & Hoff1 & Hoff2 & Hm).
  assert (Hoff : capnp.getOffset f = 0) by lia.
  destruct (@encoderBody_array w n sg cs v sz f ec cb enc)
    as (msg & HE & Hmty & Hmlen & Hfit & _ & Hptr & Hel);
    try assumption; try lia.
  set (P := 64 + capnp.getDataWordCount cs * 64) in *.
  assert (Hszn : Z.of_N (Z.to_N sz) = sz).
  { destruct (size_multiple_of_64 _ _ Hsize) as [_ Hr]. apply Z2N.id. lia. }
  assert (Hk : ZofBits (sliceBits (P + 2) 30 (gcBits msg)) = 0).
  { pose proof (@sliceBits_of_word (gcBits msg) P 64 (bitsOfZ 2 1)
                  (bitsOfZ 30 0)
                  (bitsOfZ 3 enc ++ bitsOfZ 29 (Z.of_N n)) Hptr) as E.
    rewrite !bitsOfZ_length in E by lia.
    rewrite E by (unfold P; lia). reflexivity. }
  destruct (@decoderBody_list w n sg cs msg (Z.to_N sz) f ec cb)
    as (out & asserts' & HD & Hoty & Hdel);
    try assumption; try lia.
  { fold ts t. rewrite Hszn. exact Hsize. }
  { fold P. rewrite Hk, Hszn. lia. }
  fold P in Hdel. rewrite Hk in Hdel.
  fold t in HE, HD. fold ts in HE, HD.
  unfold buildEncoder. rewrite Hsize. cbn [optBind].
  rewrite HE. cbn [optBind].
  eexists. eexists. exists (mkBody [] msg). eexists.
  split; [reflexivity|]. cbn [body]. rewrite HE. cbn [optBind].
  split; [reflexivity|]. cbn [output]. unfold buildDecoder.
  rewrite HD. cbn [optBind].
  split; [reflexivity|]. cbn [body]. rewrite HD. cbn [optBind].
  split; [reflexivity|]. cbn [output fst]. split; [exact Hoty|].
  intros i Hi. rewrite (Hdel i Hi).
  destruct (isCapnpElemType w sg) eqn:Ec.
  - pose proof (capnp_elem_bits _ _ _ Ec Hm) as Hbw.
    assert (cb = Z.of_N w) by congruence. subst cb.
    assert (Hsg : sg = Unsigned)
      by (destruct sg; cbn in Ec; congruence).
    subst sg.
    replace (Ty_eqb (IntegerType w Unsigned)
                    (IntegerType (Z.to_N (Z.of_N w)) Unsigned))
      with true
      by (symmetry; apply Ty_eqb_eq; rewrite N2Z.id; reflexivity).
    replace (P + 64 + 0 + Z.of_nat i * Z.of_N w)
      with (P + 64 + (Z.of_N n - 1 - Z.of_nat (N.to_nat n - 1 - i))
                     * Z.of_N w) by lia.
    rewrite (Hel (N.to_nat n - 1 - i)%nat) by lia.
    f_equal. lia.
  - replace (Ty_eqb (IntegerType w sg) (IntegerType (Z.to_N cb) Unsigned))
      with false.
    + replace (P + 64 + 0 + (Z.of_N n - 1 - Z.of_nat i) * cb)
        with (P + 64 + (Z.of_N n - 1 - Z.of_nat i) * cb) by lia.
      apply (Hel i Hi).
    + symmetry. apply Ty_eqb_neq. intros E.
      injection E as E1 E2. subst sg.
      cbn [isCapnpElemType] in Ec.
      repeat (apply orb_false_iff in Ec; destruct Ec as [Ec ?]).
      repeat match goal with H : (_ =? _)%N = false |- _ =>
               apply N.eqb_neq in H end.
      destruct Hcb as [Hc | [Hc | [Hc | [Hc | Hc]]]]; subst cb;
        cbn in E1; congruence.
Qed.

Lemma array_round_trip_element_order_witness :
  let t := ArrayType (IntegerType 8 Unsigned) 3 in
  let cs := capnp.mkStruct 0 1
              [capnp.mkField "l" 0 0 (capnp.LIST capnp.UINT8)] in
  let v := mkGC t (bitsOfZ 24 197121) in
  exists encoder decoder encoded decoded,
    buildEncoder (TypeSchemaImpl_new t) "a" cs (mkGC i1 [false])
                 (mkGC i1 [true]) v = Some encoder
    /\ body encoder v = Some encoded
    /\ buildDecoder (TypeSchemaImpl_new t) "a" cs (mkGC i1 [false])
                    (mkGC i1 [true]) (output encoded) = Some decoder
    /\ body decoder (output encoded) = Some decoded
    /\ sliceBits 0 8 (gcBits (output decoded)) = bitsOfZ 8 3
    /\ sliceBits 0 8 (gcBits v) = bitsOfZ 8 1.
Proof.
  intros t cs v.
  destruct (@array_round_trip_element_order 8 3 Unsigned "a" cs
              (mkGC i1 [false]) (mkGC i1 [true]) v 192)
    as (encoder & decoder & encoded & decoded & H1 & H2 & H3 & H4 & _ & He).
  - lia.
  - split; [lia|reflexivity].
  - vm_compute. reflexivity.
  - reflexivity.
  - vm_compute. reflexivity.
  - vm_compute. discriminate.
  - reflexivity.
  - exists encoder, decoder, encoded, decoded.
    split; [exact H1|]. split; [exact H2|]. split; [exact H3|].
    split; [exact H4|]. split; [|vm_compute; reflexivity].
    pose proof (He 0%nat ltac:(vm_compute; lia)) as H0.
    etransitivity; [exact H0|]. vm_compute. reflexivity.
Defined.
